(** * Vector-vs-List: the doubly linked list and the dynamic array of namespace aisdi

    A shallow embedding of [src/LinkedList.h] and [src/Vector.h].

    Both containers are modelled over an explicit store.  Memory that the
    C++ code reaches through raw pointers is a finite map from locations to
    objects; [new] extends the map at a fresh location, [delete] removes a
    binding, and every access through a pointer that is null, dangling or out
    of bounds is the outcome [Fault] (undefined behaviour in C++).  An
    exception is the outcome [Throw], which carries the state at the point of
    the [throw], so that what a failed call did before failing stays visible.

    [size_type] is [std::size_t]: values are integers in [0, 2^64) and every
    arithmetic operation of the source on them is followed by [wrap]. *)

From stdpp Require Import gmap list.
From Stdlib Require Import ZArith Lia.

Local Open Scope Z_scope.

(** ** Outcomes, exceptions and the state monad of the embedding *)

(** The two exception classes the containers throw.  [std::out_of_range] is
    derived from [std::logic_error]; message strings are not modelled. *)
Inductive exception : Type :=
| logic_error
| out_of_range.

Global Instance exception_eq_dec : EqDecision exception.
Proof. solve_decision. Defined.

Inductive outcome (S A : Type) : Type :=
| Ret (a : A) (s : S)
| Throw (e : exception) (s : S)
| Fault.
Global Arguments Ret {S A} a s.
Global Arguments Throw {S A} e s.
Global Arguments Fault {S A}.

Definition M (S A : Type) : Type := S → outcome S A.

Definition ret {S A : Type} (a : A) : M S A := λ s, Ret a s.

Definition bind {S A B : Type} (m : M S A) (k : A → M S B) : M S B :=
  λ s, match m s with
       | Ret a s' => k a s'
       | Throw e s' => Throw e s'
       | Fault => Fault
       end.

Definition throw {S A : Type} (e : exception) : M S A := λ s, Throw e s.
Definition fault {S A : Type} : M S A := λ _, Fault.
Definition get {S : Type} : M S S := λ s, Ret s s.
Definition put {S : Type} (s : S) : M S unit := λ _, Ret tt s.

Declare Scope cpp_scope.
Delimit Scope cpp_scope with cpp.
Notation "x <- m ;; k" := (bind m (λ x, k))
  (at level 100, m at next level, right associativity) : cpp_scope.
Notation "m ;;; k" := (bind m (λ _, k))
  (at level 100, right associativity) : cpp_scope.
Local Open Scope cpp_scope.

(** Runs a computation on the first component of a pair of states. *)
Definition on_fst {S1 S2 A : Type} (m : M S1 A) : M (S1 * S2) A :=
  λ s, match m (fst s) with
       | Ret a s1 => Ret a (s1, snd s)
       | Throw e s1 => Throw e (s1, snd s)
       | Fault => Fault
       end.

(** Runs a computation on the second component of a pair of states. *)
Definition on_snd {S1 S2 A : Type} (m : M S2 A) : M (S1 * S2) A :=
  λ s, match m (snd s) with
       | Ret a s2 => Ret a (fst s, s2)
       | Throw e s2 => Throw e (fst s, s2)
       | Fault => Fault
       end.

(** A member function called on another object of the class: [m] runs on
    the shared heap with [other] as its [this]; the caller's own object is
    left as it was and the callee's object after the call is returned. *)
Definition call {H O A : Type} (other : O) (m : M (H * O) A) : M (H * O) (A * O) :=
  λ s, match m (fst s, other) with
       | Ret a s' => Ret (a, snd s') (fst s', snd s)
       | Throw e s' => Throw e (fst s', snd s)
       | Fault => Fault
       end.

(** A constructor body: [m] runs with the freshly initialised object
    [this_] and the object is the result. *)
Definition construct {H O A : Type} (this_ : O) (m : M (H * O) A) : M H (O * A) :=
  λ h, match m (h, this_) with
       | Ret a s' => Ret (snd s', a) (fst s')
       | Throw e s' => Throw e (fst s')
       | Fault => Fault
       end.

(** [m] never throws: it returns or it faults. *)
Definition no_throw {S A : Type} (m : M S A) : Prop :=
  ∀ s e s', m s ≠ Throw e s'.

(** [wp m Q E s]: run from [s], [m] returns only with a result and a state
    in [Q] and throws only with an exception and a state in [E]. *)
Definition wp {S A : Type} (m : M S A) (Q : A → S → Prop) (E : exception → S → Prop)
  : S → Prop :=
  λ s, match m s with
       | Ret a s' => Q a s'
       | Throw e s' => E e s'
       | Fault => True
       end.

(** A call whose result the caller drops. *)
Definition discard {S A : Type} (m : M S A) : M S unit := _ <- m ;; ret tt.

(** [std::size_t] on the 64-bit targets the project builds for. *)
Definition size_max : Z := 2 ^ 64.
Definition wrap (z : Z) : Z := z mod size_max.

(** ** LinkedList.h *)

Module LinkedList.
Section LinkedList.
Context {T : Type}.

(** A [Node*]: [None] is [nullptr]. *)
Definition loc : Type := positive.
Definition pointer : Type := option loc.

(** [struct Node] and [struct ValueNode : Node] in one record: [value] is
    [None] for a plain [Node] (a guard) and [Some v] for a [ValueNode], which
    is what [dynamic_cast<ValueNode*>] tests. *)
Record Node : Type := mkNode {
  prev : pointer;
  next : pointer;
  value : option T
}.

(** [class ConstIterator] (and [Iterator], which adds no field).  The
    back-pointer [collection] is not a field of the record: the operations
    that go through it take the collection as an argument. *)
Record ConstIterator : Type := mkIt {
  currentNode : pointer
}.

Record LinkedList : Type := mkList {
  firstGuard : loc;
  lastGuard : loc;
  size : Z;
  endIterator : ConstIterator
}.

Abbreviation Heap := (gmap loc Node).
Abbreviation State := (Heap * LinkedList)%type.

(** *** Memory *)

Definition load (p : pointer) : M Heap Node :=
  λ h, match p with
       | Some l => match h !! l with
                   | Some n => Ret n h
                   | None => Fault
                   end
       | None => Fault
       end.

Definition store (p : pointer) (n : Node) : M Heap unit :=
  λ h, match p with
       | Some l => match h !! l with
                   | Some _ => Ret tt (<[l := n]> h)
                   | None => Fault
                   end
       | None => Fault
       end.

(** [new Node()] / [new ValueNode(item)]. *)
Definition new (n : Node) : M Heap loc :=
  λ h, let l := fresh (dom h) in Ret l (<[l := n]> h).

(** [delete p]: a no-op on [nullptr], a fault on memory that is not live. *)
Definition dealloc (p : pointer) : M Heap unit :=
  λ h, match p with
       | Some l => match h !! l with
                   | Some _ => Ret tt (delete l h)
                   | None => Fault
                   end
       | None => Ret tt h
       end.

Definition get_next (p : pointer) : M Heap pointer := n <- load p ;; ret (next n).
Definition get_prev (p : pointer) : M Heap pointer := n <- load p ;; ret (prev n).
Definition set_next (p q : pointer) : M Heap unit :=
  n <- load p ;; store p (mkNode (prev n) q (value n)).
Definition set_prev (p q : pointer) : M Heap unit :=
  n <- load p ;; store p (mkNode q (next n) (value n)).

(** [dynamic_cast<ValueNode*>(p)->value]: the cast of a plain [Node] gives
    [nullptr], whose dereference is a fault. *)
Definition get_value (p : pointer) : M Heap T :=
  n <- load p ;;
  match value n with
  | Some v => ret v
  | None => fault
  end.

(** *** Private helpers of [LinkedList] *)

Definition collapseNodes (left right : pointer) : M Heap unit :=
  set_next left right ;;;
  set_prev right left.

Definition insertBetween (left right nodeToInsert : pointer) : M Heap unit :=
  set_next left nodeToInsert ;;;
  set_prev nodeToInsert left ;;;
  set_next nodeToInsert right ;;;
  set_prev right nodeToInsert.

Definition this : M State LinkedList := λ s, Ret (snd s) s.

Definition set_size (z : Z) : M State unit :=
  λ s, Ret tt (fst s, mkList (firstGuard (snd s)) (lastGuard (snd s)) z
                             (endIterator (snd s))).

Definition isEmpty : M State bool :=
  l <- this ;; ret (bool_decide (size l = 0)).

Definition getSize : M State Z :=
  l <- this ;; ret (size l).

Definition getFirst : M State pointer :=
  l <- this ;; on_fst (get_next (Some (firstGuard l))).

Definition getLast : M State pointer :=
  l <- this ;; on_fst (get_prev (Some (lastGuard l))).

Definition throwIfCollectionEmpty (e : exception) : M State unit :=
  b <- isEmpty ;; if b then throw e else ret tt.

Definition collapseList : M State unit :=
  l <- this ;;
  on_fst (collapseNodes (Some (firstGuard l)) (Some (lastGuard l))) ;;;
  set_size 0.

Definition deleteNode (nodeToDestroy : pointer) : M State unit :=
  on_fst (dealloc nodeToDestroy) ;;;
  l <- this ;;
  set_size (wrap (size l - 1)).

(** [dynamic_cast<ValueNode*>(p)]. *)
Definition dynamic_cast_ValueNode (p : pointer) : M Heap pointer :=
  match p with
  | None => ret None
  | Some _ => n <- load p ;; ret (if value n is Some _ then p else None)
  end.

Definition getFirstValueNode : M State pointer :=
  p <- getFirst ;; on_fst (dynamic_cast_ValueNode p).

Definition getLastValueNode : M State pointer :=
  p <- getLast ;; on_fst (dynamic_cast_ValueNode p).

(** *** Cursors: [ConstIterator] and [Iterator] *)

(** [operator==] compares the nodes only. *)
Definition it_eq (a b : ConstIterator) : bool :=
  bool_decide (currentNode a = currentNode b).

Definition cbegin : M State ConstIterator :=
  b <- isEmpty ;;
  if b then l <- this ;; ret (endIterator l)
  else p <- getFirst ;; ret (mkIt p).

Definition cend : M State ConstIterator :=
  l <- this ;; ret (endIterator l).

Definition throwIfBegin (it : ConstIterator) (e : exception) : M State unit :=
  b <- cbegin ;; if it_eq it b then throw e else ret tt.

Definition throwIfEnd (it : ConstIterator) (e : exception) : M State unit :=
  b <- cend ;; if it_eq it b then throw e else ret tt.

(** [operator*]. *)
Definition ConstIterator_deref (it : ConstIterator) : M State T :=
  throwIfEnd it out_of_range ;;;
  on_fst (get_value (currentNode it)).

(** [operator++()]: the result is the cursor after the step. *)
Definition ConstIterator_preinc (it : ConstIterator) : M State ConstIterator :=
  throwIfEnd it out_of_range ;;;
  p <- on_fst (get_next (currentNode it)) ;;
  ret (mkIt p).

(** [operator--()]. *)
Definition ConstIterator_predec (it : ConstIterator) : M State ConstIterator :=
  throwIfBegin it out_of_range ;;;
  p <- on_fst (get_prev (currentNode it)) ;;
  ret (mkIt p).

(** [operator++(int)]: the returned copy, then the cursor after the step. *)
Definition ConstIterator_postinc (it : ConstIterator) : M State (ConstIterator * ConstIterator) :=
  let old := it in
  it' <- ConstIterator_preinc it ;;
  ret (old, it').

(** [ConstIterator::operator--(int)], lines 410-415: the body calls
    [operator++()]. *)
Definition ConstIterator_postdec (it : ConstIterator) : M State (ConstIterator * ConstIterator) :=
  let old := it in
  it' <- ConstIterator_preinc it ;;
  ret (old, it').

(** [Iterator::operator++(int)] and [Iterator::operator--(int)], lines
    491-509, call [ConstIterator::operator++()] and
    [ConstIterator::operator--()]. *)
Definition Iterator_postinc (it : ConstIterator) : M State (ConstIterator * ConstIterator) :=
  let result := it in
  it' <- ConstIterator_preinc it ;;
  ret (result, it').

Definition Iterator_postdec (it : ConstIterator) : M State (ConstIterator * ConstIterator) :=
  let result := it in
  it' <- ConstIterator_predec it ;;
  ret (result, it').

(** The loops of [operator+] and [operator-]: [n] steps along [next] or
    [prev], with no test for the guards. *)
Fixpoint step_next (n : nat) (node : pointer) : M Heap pointer :=
  match n with
  | O => ret node
  | S n' => q <- get_next node ;; step_next n' q
  end.

Fixpoint step_prev (n : nat) (node : pointer) : M Heap pointer :=
  match n with
  | O => ret node
  | S n' => q <- get_prev node ;; step_prev n' q
  end.

Definition ConstIterator_plus (it : ConstIterator) (d : Z) : M State ConstIterator :=
  p <- on_fst (step_next (Z.to_nat d) (currentNode it)) ;; ret (mkIt p).

Definition ConstIterator_minus (it : ConstIterator) (d : Z) : M State ConstIterator :=
  p <- on_fst (step_prev (Z.to_nat d) (currentNode it)) ;; ret (mkIt p).

(** *** Construction, destruction, move *)

(** [LinkedList()]. *)
Definition LinkedList_ctor : M Heap LinkedList :=
  fg <- new (mkNode None None None) ;;
  lg <- new (mkNode None None None) ;;
  collapseNodes (Some fg) (Some lg) ;;;
  ret (mkList fg lg 0 (mkIt (Some lg))).

(** The loop of [deleteList].  Every turn frees one live node, so the number
    of live nodes bounds the number of turns; [fuel] is that bound. *)
Fixpoint deleteList_loop (fuel : nat) (node : pointer) : M State unit :=
  l <- this ;;
  if bool_decide (node = Some (lastGuard l)) then ret tt
  else match fuel with
       | O => fault
       | S fuel' =>
           let old := node in
           node' <- on_fst (get_next node) ;;
           on_fst (dealloc old) ;;;
           deleteList_loop fuel' node'
       end.

Definition deleteList : M State unit :=
  l <- this ;;
  fn <- on_fst (get_next (Some (firstGuard l))) ;;
  lp <- on_fst (get_prev (Some (lastGuard l))) ;;
  if bool_decide (fn = Some (lastGuard l)) && bool_decide (lp = Some (firstGuard l))
  then ret tt
  else
    first <- getFirst ;;
    s <- get ;;
    deleteList_loop (base.size (fst s)) first ;;;
    collapseList.

(** [~LinkedList()]. *)
Definition LinkedList_dtor : M State unit :=
  deleteList ;;;
  l <- this ;;
  on_fst (dealloc (Some (firstGuard l))) ;;;
  on_fst (dealloc (Some (lastGuard l))).

(** [moveFrom(other)]; the result is [other] after the call. *)
Definition moveFrom (other : LinkedList) : M State LinkedList :=
  l <- this ;;
  r <- call other getFirst ;;
  on_fst (collapseNodes (Some (firstGuard l)) (fst r)) ;;;
  r <- call other getLast ;;
  on_fst (collapseNodes (fst r) (Some (lastGuard l))) ;;;
  set_size (size other) ;;;
  r <- call other collapseList ;;
  ret (snd r).

(** [LinkedList(LinkedList &&other)]: the new list and [other] afterwards. *)
Definition LinkedList_move_ctor (other : LinkedList) : M Heap (LinkedList * LinkedList) :=
  l <- LinkedList_ctor ;;
  construct l (moveFrom other).

(** [operator=(LinkedList &&other)]; the result is [other] after the call. *)
Definition move_assign (other : LinkedList) : M State LinkedList :=
  b <- isEmpty ;;
  (if negb b then deleteList else ret tt) ;;;
  moveFrom other.

(** *** Public modifiers *)

Definition append (item : T) : M State unit :=
  nodeToAppend <- on_fst (new (mkNode None None (Some item))) ;;
  last <- getLast ;;
  l <- this ;;
  on_fst (insertBetween last (Some (lastGuard l)) (Some nodeToAppend)) ;;;
  set_size (wrap (size l + 1)).

Definition prepend (item : T) : M State unit :=
  nodeToPrepend <- on_fst (new (mkNode None None (Some item))) ;;
  first <- getFirst ;;
  l <- this ;;
  on_fst (insertBetween (Some (firstGuard l)) first (Some nodeToPrepend)) ;;;
  set_size (wrap (size l + 1)).

Definition insert (insertPosition : ConstIterator) (item : T) : M State unit :=
  nodeToInsert <- on_fst (new (mkNode None None (Some item))) ;;
  let right := currentNode insertPosition in
  left <- on_fst (get_prev right) ;;
  on_fst (insertBetween left right (Some nodeToInsert)) ;;;
  l <- this ;;
  set_size (wrap (size l + 1)).

(** [copyFrom(l)] for a [std::initializer_list]. *)
Fixpoint copyFrom (l : list T) : M State unit :=
  match l with
  | [] => ret tt
  | el :: l' => append el ;;; copyFrom l'
  end.

(** main.cpp, the loops of [testAppend] and [testPrepend]: one call after
    another on the same list, for any sequence of items. *)
Fixpoint appends (items : list T) : M State unit :=
  match items with
  | [] => ret tt
  | i :: items' => append i ;;; appends items'
  end.

Fixpoint prepends (items : list T) : M State unit :=
  match items with
  | [] => ret tt
  | i :: items' => prepend i ;;; prepends items'
  end.

(** [LinkedList(std::initializer_list<Type> l)]. *)
Definition LinkedList_ilist_ctor (l : list T) : M Heap LinkedList :=
  this_ <- LinkedList_ctor ;;
  r <- construct this_ (copyFrom l) ;;
  ret (fst r).

(** [copyFrom(other)] for another [LinkedList]: the range-based [for]
    walks [other] with its read-only cursors, from [other.begin()] until the
    cursor equals [other.end()].  Every turn moves the cursor one node
    forward in [other], so [fuel] is one more than the size of [other]. *)
Fixpoint copy_loop (fuel : nat) (other : LinkedList) (it e : ConstIterator)
  : M State LinkedList :=
  if negb (it_eq it e) then
    match fuel with
    | O => fault
    | S fuel' =>
        r <- call other (ConstIterator_deref it) ;;
        append (fst r) ;;;
        r <- call (snd r) (ConstIterator_preinc it) ;;
        copy_loop fuel' (snd r) (fst r) e
    end
  else ret other.

Definition copyFrom_list (other : LinkedList) : M State LinkedList :=
  b <- call other cbegin ;;
  e <- call (snd b) cend ;;
  copy_loop (S (Z.to_nat (size other))) (snd e) (fst b) (fst e).

(** [LinkedList(const LinkedList &other)]: the new list and [other]
    afterwards. *)
Definition LinkedList_copy_ctor (other : LinkedList) : M Heap (LinkedList * LinkedList) :=
  this_ <- LinkedList_ctor ;;
  construct this_ (copyFrom_list other).

(** [operator=(const LinkedList &other)] for [this != &other]. *)
Definition copy_assign (other : LinkedList) : M State LinkedList :=
  b <- isEmpty ;;
  (if negb b then deleteList else ret tt) ;;;
  copyFrom_list other.

Definition popFirst : M State T :=
  throwIfCollectionEmpty logic_error ;;;
  first <- getFirstValueNode ;;
  result <- on_fst (get_value first) ;;
  l <- this ;;
  fn <- on_fst (get_next first) ;;
  on_fst (collapseNodes (Some (firstGuard l)) fn) ;;;
  deleteNode first ;;;
  ret result.

Definition popLast : M State T :=
  throwIfCollectionEmpty logic_error ;;;
  last <- getLastValueNode ;;
  result <- on_fst (get_value last) ;;
  l <- this ;;
  lp <- on_fst (get_prev last) ;;
  on_fst (collapseNodes lp (Some (lastGuard l))) ;;;
  deleteNode last ;;;
  ret result.

Definition throwIfIteratorEqaulsEnd (iterator : ConstIterator) (e : exception) : M State unit :=
  l <- this ;;
  if it_eq iterator (endIterator l) then throw e else ret tt.

(** [erase(possition)]. *)
Definition erase (possition : ConstIterator) : M State unit :=
  throwIfCollectionEmpty out_of_range ;;;
  throwIfIteratorEqaulsEnd possition out_of_range ;;;
  let nodeToErase := currentNode possition in
  p <- on_fst (get_prev nodeToErase) ;;
  n <- on_fst (get_next nodeToErase) ;;
  on_fst (collapseNodes p n) ;;;
  deleteNode nodeToErase.

(** The loop of [deleteRange]; the result is [deletedCount].  As in
    [deleteList_loop], every turn frees one live node. *)
Fixpoint deleteRange_loop (fuel : nat) (it lastExcluded : ConstIterator) (deletedCount : Z)
  : M State Z :=
  if negb (it_eq it lastExcluded) then
    match fuel with
    | O => fault
    | S fuel' =>
        let nodeToErase := currentNode it in
        r <- Iterator_postinc it ;;
        let deletedCount := wrap (deletedCount + 1) in
        on_fst (dealloc nodeToErase) ;;;
        deleteRange_loop fuel' (snd r) lastExcluded deletedCount
    end
  else ret deletedCount.

Definition deleteRange (firstIncluded lastExcluded : ConstIterator) : M State unit :=
  s <- get ;;
  deletedCount <- deleteRange_loop (base.size (fst s)) firstIncluded lastExcluded 0 ;;
  l <- this ;;
  set_size (wrap (size l - deletedCount)).

(** [erase(firstIncluded, lastExcluded)]. *)
Definition erase_range (firstIncluded lastExcluded : ConstIterator) : M State unit :=
  left <- on_fst (get_prev (currentNode firstIncluded)) ;;
  let right := currentNode lastExcluded in
  on_fst (collapseNodes left right) ;;;
  deleteRange firstIncluded lastExcluded.

(** *** A client's forward traversal
    from [begin()] until the cursor equals [end()], dereferencing and then
    pre-incrementing the cursor at every turn; [None] when [fuel] turns were
    not enough. *)
Fixpoint traverse (fuel : nat) (it : ConstIterator) : M State (option (list T)) :=
  match fuel with
  | O => ret None
  | S fuel' =>
      e <- cend ;;
      if it_eq it e then ret (Some [])
      else
        x <- ConstIterator_deref it ;;
        it' <- ConstIterator_preinc it ;;
        r <- traverse fuel' it' ;;
        ret (cons x <$> r)
  end.

Definition to_list (fuel : nat) : M State (option (list T)) :=
  b <- cbegin ;; traverse fuel b.

(** *** Well-formed lists *)

(** The fields of the node at [a], when [a] is live. *)
Definition next_of (h : Heap) (a : loc) : option pointer := next <$> h !! a.
Definition prev_of (h : Heap) (a : loc) : option pointer := prev <$> h !! a.
Definition value_of (h : Heap) (a : loc) : option (option T) := value <$> h !! a.

(** Every node of [path] has the node after it as its [next] and is the
    [prev] of that node. *)
Fixpoint linked (h : Heap) (path : list loc) : Prop :=
  match path with
  | a :: rest =>
      match rest with
      | b :: _ => next_of h a = Some (Some b) ∧ prev_of h b = Some (Some a) ∧ linked h rest
      | [] => True
      end
  | [] => True
  end.

(** [is_list h l nodes]: in the heap [h] the chain of [l] runs from
    [firstGuard] through the value nodes [nodes.*1], which hold the elements
    [nodes.*2], to [lastGuard], forward by [next] and backward by [prev]; the
    guards hold no value; [size] counts the value nodes; the cached end
    cursor stands on [lastGuard]. *)
Definition path (l : LinkedList) (nodes : list (loc * T)) : list loc :=
  firstGuard l :: nodes.*1 ++ [lastGuard l].

Definition is_list (h : Heap) (l : LinkedList) (nodes : list (loc * T)) : Prop :=
  NoDup (path l nodes) ∧
  linked h (path l nodes) ∧
  value_of h (firstGuard l) = Some None ∧
  value_of h (lastGuard l) = Some None ∧
  Forall (λ n, value_of h n.1 = Some (Some n.2)) nodes ∧
  size l = Z.of_nat (length nodes) ∧
  size l < size_max ∧
  endIterator l = mkIt (Some (lastGuard l)).

(** The cursor [it] stands on position [i] of the list: on the [i]-th value
    node, or on [lastGuard] when [i] is the number of value nodes. *)
Definition at_index (l : LinkedList) (nodes : list (loc * T)) (it : ConstIterator) (i : nat) : Prop :=
  ∃ p, (nodes.*1 ++ [lastGuard l]) !! i = Some p ∧ currentNode it = Some p.

(** From [cur], following [next] visits the nodes of [rest] in order. *)
Fixpoint follows (h : Heap) (cur : loc) (rest : list loc) : Prop :=
  match rest with
  | [] => True
  | b :: rest' => next_of h cur = Some (Some b) ∧ follows h b rest'
  end.

(** [first] and [last] delimit a range of the list: [first] is on an
    element or the end, and [last] is reached from it going forward. *)
Definition valid_range (l : LinkedList) (nodes : list (loc * T))
    (first last : ConstIterator) : Prop :=
  ∃ n1 mid n2,
    nodes = n1 ++ mid ++ n2 ∧
    currentNode first = head (mid.*1 ++ n2.*1 ++ [lastGuard l]) ∧
    currentNode last = head (n2.*1 ++ [lastGuard l]).

(** *** The public operations
    of a list and of its cursors, as calls that a client makes on a list
    that exists. *)
Inductive operation : Type :=
| IsEmpty
| GetSize
| Append (item : T)
| Prepend (item : T)
| Insert (pos : ConstIterator) (item : T)
| PopFirst
| PopLast
| Erase (pos : ConstIterator)
| EraseRange (first last : ConstIterator)
| Begin
| End_
| Deref (it : ConstIterator)
| PreInc (it : ConstIterator)
| PreDec (it : ConstIterator)
| PostInc (it : ConstIterator)
| PostDec (it : ConstIterator).

Definition run (op : operation) : M State unit :=
  match op with
  | IsEmpty => discard isEmpty
  | GetSize => discard getSize
  | Append item => append item
  | Prepend item => prepend item
  | Insert pos item => insert pos item
  | PopFirst => discard popFirst
  | PopLast => discard popLast
  | Erase pos => erase pos
  | EraseRange first last => erase_range first last
  | Begin => discard cbegin
  | End_ => discard cend
  | Deref it => discard (ConstIterator_deref it)
  | PreInc it => discard (ConstIterator_preinc it)
  | PreDec it => discard (ConstIterator_predec it)
  | PostInc it => discard (ConstIterator_postinc it)
  | PostDec it => discard (ConstIterator_postdec it)
  end.

(** The arguments meet the requirement of the call: a range is a range of
    the list. *)
Definition admissible (l : LinkedList) (nodes : list (loc * T)) (op : operation) : Prop :=
  match op with
  | EraseRange first last => valid_range l nodes first last
  | _ => True
  end.

(** [h] is the memory [h0] and, apart from it, the nodes of the list. *)
Definition owns (h0 h : Heap) (l : LinkedList) (nodes : list (loc * T)) : Prop :=
  is_list h l nodes ∧
  (∀ x, x ∈ path l nodes → h0 !! x = None) ∧
  (∀ x, x ∉ path l nodes → h !! x = h0 !! x).

(** The heap after the nodes [ks] were freed one after the other. *)
Definition delete_all (ks : list loc) (h : Heap) : Heap :=
  foldl (λ h' k, delete k h') h ks.

(** The heap after [left->next = q] and after [right->prev = q]. *)
Definition upd_next (a : loc) (q : pointer) (h : Heap) : Heap :=
  alter (λ n, mkNode (prev n) q (value n)) a h.
Definition upd_prev (a : loc) (q : pointer) (h : Heap) : Heap :=
  alter (λ n, mkNode q (next n) (value n)) a h.

End LinkedList.
End LinkedList.

(** ** Vector.h *)

Module Vector.
Section Vector.
(** [Type] with its default constructor, which [new Type[n]] runs on every
    slot. *)
Context {T : Type} `{Inhabited T}.

Definition block : Type := positive.

(** A [Type*]: null, or an offset (in elements) into an array made by
    [new Type[n]]. *)
Inductive pointer : Type :=
| nullptr
| Ptr (b : block) (ofs : Z).

Global Instance pointer_eq_dec : EqDecision pointer.
Proof. solve_decision. Defined.

(** Pointer arithmetic never faults in the model; only accesses do. *)
Definition ptr_add (p : pointer) (d : Z) : pointer :=
  match p with
  | nullptr => nullptr
  | Ptr b ofs => Ptr b (ofs + d)
  end.

(** [p - q], defined for two pointers into the same array. *)
Definition ptr_diff (p q : pointer) : option Z :=
  match p, q with
  | nullptr, nullptr => Some 0
  | Ptr b ofs, Ptr b' ofs' => if decide (b = b') then Some (ofs - ofs') else None
  | _, _ => None
  end.

Inductive IteratorType : Type :=
| REGULAR
| BEGIN
| END.

Global Instance IteratorType_eq_dec : EqDecision IteratorType.
Proof. solve_decision. Defined.

(** [class ConstIterator] (and [Iterator], which adds no field).  As for the
    list, the back-pointer [collection] is the container the operation is
    run on. *)
Record ConstIterator : Type := mkIt {
  currentElement : pointer;
  iteratorType : IteratorType
}.

Record Vector : Type := mkVector {
  elements : pointer;
  size : Z;
  capacity : Z;
  pastTheEnd : ConstIterator
}.

Definition DEFAULT_INITIAL_CAPACITY : Z := 30.

Abbreviation Heap := (gmap block (list T)).
Abbreviation State := (Heap * Vector)%type.

(** *** Memory *)

Definition load (p : pointer) : M Heap T :=
  λ h, match p with
       | Ptr b ofs =>
           match h !! b with
           | Some buf =>
               if decide (0 ≤ ofs) then
                 match buf !! Z.to_nat ofs with
                 | Some x => Ret x h
                 | None => Fault
                 end
               else Fault
           | None => Fault
           end
       | nullptr => Fault
       end.

Definition store (p : pointer) (x : T) : M Heap unit :=
  λ h, match p with
       | Ptr b ofs =>
           match h !! b with
           | Some buf =>
               if decide (0 ≤ ofs < Z.of_nat (length buf))
               then Ret tt (<[b := <[Z.to_nat ofs := x]> buf]> h)
               else Fault
           | None => Fault
           end
       | nullptr => Fault
       end.

(** [new Type[n]]. *)
Definition new_array (n : Z) : M Heap pointer :=
  λ h, let b := fresh (dom h) in
       Ret (Ptr b 0) (<[b := replicate (Z.to_nat n) inhabitant]> h).

(** [delete [] p]: a no-op on [nullptr], a fault unless [p] is the start of
    a live array. *)
Definition delete_array (p : pointer) : M Heap unit :=
  λ h, match p with
       | nullptr => Ret tt h
       | Ptr b ofs =>
           match h !! b with
           | Some _ => if decide (ofs = 0) then Ret tt (delete b h) else Fault
           | None => Fault
           end
       end.

(** *** Fields of [*this] *)

Definition this : M State Vector := λ s, Ret (snd s) s.

Definition set_elements (p : pointer) : M State unit :=
  λ s, Ret tt (fst s, mkVector p (size (snd s)) (capacity (snd s)) (pastTheEnd (snd s))).

Definition set_size (z : Z) : M State unit :=
  λ s, Ret tt (fst s, mkVector (elements (snd s)) z (capacity (snd s)) (pastTheEnd (snd s))).

Definition set_capacity (z : Z) : M State unit :=
  λ s, Ret tt (fst s, mkVector (elements (snd s)) (size (snd s)) z (pastTheEnd (snd s))).

Definition set_pastTheEnd (it : ConstIterator) : M State unit :=
  λ s, Ret tt (fst s, mkVector (elements (snd s)) (size (snd s)) (capacity (snd s)) it).

(** [elements[i]] as an rvalue and as the target of an assignment. *)
Definition read_at (i : Z) : M State T :=
  v <- this ;; on_fst (load (ptr_add (elements v) i)).

Definition write_at (i : Z) (x : T) : M State unit :=
  v <- this ;; on_fst (store (ptr_add (elements v) i) x).

Definition isEmpty : M State bool :=
  v <- this ;; ret (bool_decide (size v = 0)).

Definition getSize : M State Z :=
  v <- this ;; ret (size v).

Definition getCapacity : M State Z :=
  v <- this ;; ret (capacity v).

Definition throwIfCollectionEmpty (e : exception) : M State unit :=
  b <- isEmpty ;; if b then throw e else ret tt.

(** *** Reallocation and shifting *)

(** [for (size_type i = 0; i < size; i++) elements[i] = oldElements[i];]
    with [n] turns left and the loop variable at [i]. *)
Fixpoint copy_elements (n : nat) (i : Z) (oldElements : pointer) : M State unit :=
  match n with
  | O => ret tt
  | S n' =>
      x <- on_fst (load (ptr_add oldElements i)) ;;
      write_at i x ;;;
      copy_elements n' (wrap (i + 1)) oldElements
  end.

(** [reallocateMemory(newCapacity)]. *)
Definition reallocateMemory_to (newCapacity : Z) : M State unit :=
  v <- this ;;
  let oldElements := elements v in
  set_capacity newCapacity ;;;
  p <- on_fst (new_array newCapacity) ;;
  set_elements p ;;;
  copy_elements (Z.to_nat (size v)) 0 oldElements ;;;
  on_fst (delete_array oldElements).

(** [reallocateMemory()]. *)
Definition reallocateMemory : M State unit :=
  v <- this ;; reallocateMemory_to (wrap (capacity v * 2)).

Definition reallocateMemoryIfNeeded : M State unit :=
  v <- this ;;
  if decide (wrap (size v + 1) > capacity v) then reallocateMemory else ret tt.

(** [for (size_type i = size; i > beginIndex; i--) elements[i] = elements[i-1];]
    with [n] turns left and the loop variable at [i]. *)
Fixpoint shift_right (n : nat) (i : Z) : M State unit :=
  match n with
  | O => ret tt
  | S n' =>
      x <- read_at (wrap (i - 1)) ;;
      write_at i x ;;;
      shift_right n' (wrap (i - 1))
  end.

Definition shiftElementsToRightFrom (beginIndex : Z) : M State unit :=
  v <- this ;; shift_right (Z.to_nat (size v - beginIndex)) (size v).

(** [for (size_type i = consumedElementIndex; i < size-1; i++) elements[i] = elements[i+1];] *)
Fixpoint shift_left (n : nat) (i : Z) : M State unit :=
  match n with
  | O => ret tt
  | S n' =>
      x <- read_at (wrap (i + 1)) ;;
      write_at i x ;;;
      shift_left n' (wrap (i + 1))
  end.

Definition shiftElementsToLeftUpTo (consumedElementIndex : Z) : M State unit :=
  v <- this ;;
  shift_left (Z.to_nat (wrap (size v - 1) - consumedElementIndex)) consumedElementIndex.

(** *** Cursors: [ConstIterator] and [Iterator] *)

Definition isEnd (it : ConstIterator) : bool := bool_decide (iteratorType it = END).
Definition isBegin (it : ConstIterator) : bool := bool_decide (iteratorType it = BEGIN).
Definition isRegular (it : ConstIterator) : bool := bool_decide (iteratorType it = REGULAR).

Definition markEnd (it : ConstIterator) : ConstIterator := mkIt (currentElement it) END.
Definition markBegin (it : ConstIterator) : ConstIterator := mkIt (currentElement it) BEGIN.
Definition markRegular (it : ConstIterator) : ConstIterator := mkIt (currentElement it) REGULAR.

(** [operator==], lines 429-435. *)
Definition it_eq (a b : ConstIterator) : bool :=
  if isEnd a && isEnd b then true
  else bool_decide (currentElement a = currentElement b).

Definition throwIfBegin (it : ConstIterator) (e : exception) : M State unit :=
  if isBegin it then throw e else ret tt.

Definition throwIfEnd (it : ConstIterator) (e : exception) : M State unit :=
  if isEnd it then throw e else ret tt.

(** [calculateIndex()]: the pointer difference converted to [size_type]. *)
Definition calculateIndex (it : ConstIterator) : M State Z :=
  v <- this ;;
  match ptr_diff (currentElement it) (elements v) with
  | Some d => ret (wrap d)
  | None => fault
  end.

(** [operator*]. *)
Definition ConstIterator_deref (it : ConstIterator) : M State T :=
  throwIfEnd it out_of_range ;;;
  on_fst (load (currentElement it)).

(** [operator++()]: the result is the cursor after the step.  The cast
    expression of line 383 is the one [calculateIndex] returns. *)
Definition ConstIterator_preinc (it : ConstIterator) : M State ConstIterator :=
  throwIfEnd it out_of_range ;;;
  let it := mkIt (ptr_add (currentElement it) 1) (iteratorType it) in
  let it := if isBegin it then markRegular it else it in
  i <- calculateIndex it ;;
  n <- getSize ;;
  ret (if decide (i >= n) then markEnd it else it).

(** [operator--()]. *)
Definition ConstIterator_predec (it : ConstIterator) : M State ConstIterator :=
  throwIfBegin it out_of_range ;;;
  let it := mkIt (ptr_add (currentElement it) (-1)) (iteratorType it) in
  let it := if isEnd it then markRegular it else it in
  v <- this ;;
  ret (if decide (currentElement it = elements v) then markBegin it else it).

(** [operator++(int)] and [operator--(int)]: the returned copy, then the
    cursor after the step. *)
Definition ConstIterator_postinc (it : ConstIterator) : M State (ConstIterator * ConstIterator) :=
  let old := it in
  it' <- ConstIterator_preinc it ;;
  ret (old, it').

Definition ConstIterator_postdec (it : ConstIterator) : M State (ConstIterator * ConstIterator) :=
  let old := it in
  it' <- ConstIterator_predec it ;;
  ret (old, it').

(** [operator+] and [operator-], lines 419-427: the third constructor
    argument is left to its default, [IteratorType::REGULAR]. *)
Definition ConstIterator_plus (it : ConstIterator) (d : Z) : ConstIterator :=
  mkIt (ptr_add (currentElement it) d) REGULAR.

Definition ConstIterator_minus (it : ConstIterator) (d : Z) : ConstIterator :=
  mkIt (ptr_add (currentElement it) (- d)) REGULAR.

(** *** [begin()] and [end()] *)

Definition createBegin : M State ConstIterator :=
  v <- this ;; ret (mkIt (ptr_add (elements v) 0) BEGIN).

Definition begin : M State ConstIterator := createBegin.

Definition createBeginAsEnd : M State ConstIterator :=
  it <- begin ;; ret (markEnd it).

Definition preparePastTheEnd : M State ConstIterator :=
  v <- this ;;
  set_pastTheEnd (mkIt (ptr_add (elements v) (size v)) (iteratorType (pastTheEnd v))) ;;;
  v <- this ;;
  ret (pastTheEnd v).

Definition end_ : M State ConstIterator :=
  b <- isEmpty ;;
  if b then createBeginAsEnd else preparePastTheEnd.

(** *** Construction, destruction, move *)

(** [Vector(size_type initialCapacity)]. *)
Definition Vector_ctor (initialCapacity : Z) : M Heap Vector :=
  p <- new_array initialCapacity ;;
  ret (mkVector p 0 initialCapacity (mkIt p END)).

Definition freeMemoryIfAllocated : M State unit :=
  v <- this ;;
  if decide (elements v ≠ nullptr) then on_fst (delete_array (elements v)) else ret tt.

(** [~Vector()]. *)
Definition Vector_dtor : M State unit := freeMemoryIfAllocated.

(** [moveFrom(other)]; the result is [other] after the call. *)
Definition moveFrom (other : Vector) : M State Vector :=
  set_elements (elements other) ;;;
  r <- call other getSize ;;
  set_size (fst r) ;;;
  r <- call other getCapacity ;;
  set_capacity (fst r) ;;;
  r <- call other (set_elements nullptr ;;; set_size 0) ;;
  ret (snd r).

(** [Vector(Vector &&other)]: [elements] starts as [nullptr] by its default
    member initialiser; [size] and [capacity] are written by [moveFrom]
    before anything reads them.  The new array and [other] afterwards. *)
Definition Vector_move_ctor (other : Vector) : M Heap (Vector * Vector) :=
  construct (mkVector nullptr 0 0 (mkIt nullptr END)) (moveFrom other).

(** [operator=(Vector &&other)]; the result is [other] after the call. *)
Definition move_assign (other : Vector) : M State Vector :=
  v <- this ;;
  (if decide (elements v ≠ nullptr) then on_fst (delete_array (elements v)) else ret tt) ;;;
  moveFrom other.

(** *** Public modifiers *)

Definition append (item : T) : M State unit :=
  reallocateMemoryIfNeeded ;;;
  v <- this ;;
  write_at (size v) item ;;;
  set_size (wrap (size v + 1)).

Definition prepend (item : T) : M State unit :=
  reallocateMemoryIfNeeded ;;;
  shiftElementsToRightFrom 0 ;;;
  write_at 0 item ;;;
  v <- this ;;
  set_size (wrap (size v + 1)).

Definition insert (insertPosition : ConstIterator) (item : T) : M State unit :=
  insertIndex <- calculateIndex insertPosition ;;
  reallocateMemoryIfNeeded ;;;
  shiftElementsToRightFrom insertIndex ;;;
  write_at insertIndex item ;;;
  v <- this ;;
  set_size (wrap (size v + 1)).

Definition popFirst : M State T :=
  throwIfCollectionEmpty logic_error ;;;
  value <- read_at 0 ;;
  shiftElementsToLeftUpTo 0 ;;;
  v <- this ;;
  set_size (wrap (size v - 1)) ;;;
  ret value.

Definition popLast : M State T :=
  throwIfCollectionEmpty logic_error ;;;
  v <- this ;;
  value <- read_at (wrap (size v - 1)) ;;
  set_size (wrap (size v - 1)) ;;;
  ret value.

Definition throwIfIteratorEqaulsEnd (iterator : ConstIterator) (e : exception) : M State unit :=
  if isEnd iterator then throw e else ret tt.

(** [erase(position)]. *)
Definition erase (position : ConstIterator) : M State unit :=
  throwIfCollectionEmpty out_of_range ;;;
  throwIfIteratorEqaulsEnd position out_of_range ;;;
  i <- calculateIndex position ;;
  shiftElementsToLeftUpTo i ;;;
  v <- this ;;
  set_size (wrap (size v - 1)).

(** [for (size_type i = firstIncludeIndex, j = lastExcludedIndex; i < size; i++, j++)
      elements[i] = elements[j];] *)
Fixpoint close_gap (n : nat) (i j : Z) : M State unit :=
  match n with
  | O => ret tt
  | S n' =>
      x <- read_at j ;;
      write_at i x ;;;
      close_gap n' (wrap (i + 1)) (wrap (j + 1))
  end.

(** [erase(firstIncluded, lastExcluded)]. *)
Definition erase_range (firstIncluded lastExcluded : ConstIterator) : M State unit :=
  if it_eq firstIncluded lastExcluded then ret tt
  else
    firstIncludeIndex <- calculateIndex firstIncluded ;;
    lastExcludedIndex <- calculateIndex lastExcluded ;;
    v <- this ;;
    set_size (wrap (size v - wrap (lastExcludedIndex - firstIncludeIndex))) ;;;
    v <- this ;;
    close_gap (Z.to_nat (size v - firstIncludeIndex)) firstIncludeIndex lastExcludedIndex.

(** *** Copying *)

(** [copyFromAndAppend(l)] for a [std::initializer_list]. *)
Fixpoint copyFromAndAppend (l : list T) : M State unit :=
  match l with
  | [] => ret tt
  | el :: l' => append el ;;; copyFromAndAppend l'
  end.

(** main.cpp, the loops of [testAppend] and [testPrepend]: one call after
    another on the same array, for any sequence of items. *)
Fixpoint appends (items : list T) : M State unit :=
  match items with
  | [] => ret tt
  | i :: items' => append i ;;; appends items'
  end.

Fixpoint prepends (items : list T) : M State unit :=
  match items with
  | [] => ret tt
  | i :: items' => prepend i ;;; prepends items'
  end.

(** [Vector(std::initializer_list<Type> l)]. *)
Definition Vector_ilist_ctor (l : list T) : M Heap Vector :=
  this_ <- Vector_ctor (wrap (Z.of_nat (length l))) ;;
  r <- construct this_ (copyFromAndAppend l) ;;
  ret (fst r).

(** [copyFromAndAppend(other)] for another [Vector]: the range-based [for]
    walks [other] with its read-only cursors, from [other.begin()] until the
    cursor equals [other.end()].  Every turn moves the cursor one slot
    forward and the cursor becomes an end cursor once its index reaches
    [other.size], so [fuel] is one more than that size. *)
Fixpoint copy_loop (fuel : nat) (other : Vector) (it e : ConstIterator) : M State Vector :=
  if negb (it_eq it e) then
    match fuel with
    | O => fault
    | S fuel' =>
        r <- call other (ConstIterator_deref it) ;;
        append (fst r) ;;;
        r <- call (snd r) (ConstIterator_preinc it) ;;
        copy_loop fuel' (snd r) (fst r) e
    end
  else ret other.

Definition copyFromAndAppend_vector (other : Vector) : M State Vector :=
  b <- call other begin ;;
  e <- call (snd b) end_ ;;
  copy_loop (S (Z.to_nat (size other))) (snd e) (fst b) (fst e).

(** [Vector(const Vector &other)]: the new array and [other] afterwards. *)
Definition Vector_copy_ctor (other : Vector) : M Heap (Vector * Vector) :=
  this_ <- Vector_ctor (capacity other) ;;
  construct this_ (copyFromAndAppend_vector other).

(** [operator=(const Vector &other)] for [this != &other]. *)
Definition copy_assign (other : Vector) : M State Vector :=
  v <- this ;;
  (if decide (capacity v < size other) then reallocateMemory_to (size other) else ret tt) ;;;
  set_size 0 ;;;
  copyFromAndAppend_vector other.

(** *** A client's forward traversal
    from [begin()] until the cursor equals [end()], dereferencing and then
    pre-incrementing the cursor at every turn; [None] when [fuel] turns were
    not enough. *)
Fixpoint traverse (fuel : nat) (it : ConstIterator) : M State (option (list T)) :=
  match fuel with
  | O => ret None
  | S fuel' =>
      e <- end_ ;;
      if it_eq it e then ret (Some [])
      else
        x <- ConstIterator_deref it ;;
        it' <- ConstIterator_preinc it ;;
        r <- traverse fuel' it' ;;
        ret (cons x <$> r)
  end.

Definition to_list (fuel : nat) : M State (option (list T)) :=
  b <- begin ;; traverse fuel b.

(** *** Well-formed arrays *)

(** [is_vector h v xs]: in the heap [h] the array [v] owns a buffer of
    [capacity v] slots whose first [size v] slots hold [xs]. *)
Definition is_vector (h : Heap) (v : Vector) (xs : list T) : Prop :=
  ∃ b buf,
    elements v = Ptr b 0 ∧
    h !! b = Some buf ∧
    Z.of_nat (length buf) = capacity v ∧
    size v = Z.of_nat (length xs) ∧
    (∀ i x, xs !! i = Some x → buf !! i = Some x) ∧
    capacity v < size_max ∧
    iteratorType (pastTheEnd v) = END.

(** The cursor [it] is positioned on slot [i] of the buffer of [v]. *)
Definition at_index (v : Vector) (it : ConstIterator) (i : nat) : Prop :=
  currentElement it = ptr_add (elements v) (Z.of_nat i).

(** [v] after a non-empty [end()] refreshed its cached cursor. *)
Definition with_end (v : Vector) : Vector :=
  mkVector (elements v) (size v) (capacity v)
           (mkIt (ptr_add (elements v) (size v)) (iteratorType (pastTheEnd v))).

(** The state [moveFrom] leaves its source in. *)
Definition moved_from (other : Vector) : Vector :=
  mkVector nullptr 0 (capacity other) (pastTheEnd other).

(** [h] is the memory [h0] and, apart from it, the buffer of the array. *)
Definition apart (h0 h : Heap) (v : Vector) : Prop :=
  ∃ b, elements v = Ptr b 0 ∧ h0 !! b = None ∧ delete b h = h0.

Definition owns (h0 h : Heap) (v : Vector) (xs : list T) : Prop :=
  is_vector h v xs ∧ apart h0 h v.

(** The length of the array at [b], when there is one. *)
Definition blen (h : Heap) (b : block) (n : Z) : Prop :=
  ∀ buf, h !! b = Some buf → Z.of_nat (length buf) = n.

(** No array changed its length from [h] to [h']. *)
Definition same_lengths (h h' : Heap) : Prop :=
  ∀ b n, blen h b n → blen h' b n.

(** *** The public operations
    of an array and of its cursors, as calls that a client makes on an array
    that exists. *)

(** [size <= capacity], both in the range of [size_type]. *)
Definition bounded (v : Vector) : Prop :=
  0 ≤ size v ≤ capacity v ∧ capacity v < size_max.

(** [first] and [last] delimit a range of the array: slots [f] and [l] with
    [f <= l <= size]. *)
Definition valid_range (v : Vector) (first last : ConstIterator) : Prop :=
  ∃ f l : nat,
    at_index v first f ∧ at_index v last l ∧ (f ≤ l)%nat ∧ Z.of_nat l ≤ size v.

Inductive operation : Type :=
| IsEmpty
| GetSize
| GetCapacity
| Append (item : T)
| Prepend (item : T)
| Insert (pos : ConstIterator) (item : T)
| PopFirst
| PopLast
| Erase (pos : ConstIterator)
| EraseRange (first last : ConstIterator)
| Begin
| End_
| Deref (it : ConstIterator)
| PreInc (it : ConstIterator)
| PreDec (it : ConstIterator)
| PostInc (it : ConstIterator)
| PostDec (it : ConstIterator).

Definition run (op : operation) : M State unit :=
  match op with
  | IsEmpty => discard isEmpty
  | GetSize => discard getSize
  | GetCapacity => discard getCapacity
  | Append item => append item
  | Prepend item => prepend item
  | Insert pos item => insert pos item
  | PopFirst => discard popFirst
  | PopLast => discard popLast
  | Erase pos => erase pos
  | EraseRange first last => erase_range first last
  | Begin => discard begin
  | End_ => discard end_
  | Deref it => discard (ConstIterator_deref it)
  | PreInc it => discard (ConstIterator_preinc it)
  | PreDec it => discard (ConstIterator_predec it)
  | PostInc it => discard (ConstIterator_postinc it)
  | PostDec it => discard (ConstIterator_postdec it)
  end.

(** The arguments meet the requirement of the call: a range is a range of
    the array. *)
Definition admissible (v : Vector) (op : operation) : Prop :=
  match op with
  | EraseRange first last => valid_range v first last
  | _ => True
  end.

(** *** Reachable arrays *)

(** The call [m] on the array [v] ends, by returning or by throwing, with
    the array as [v']; the memory around it is any memory. *)
Definition ends_in {A : Type} (m : M State A) (v v' : Vector) : Prop :=
  ∃ h h', (∃ a, m (h, v) = Ret a (h', v')) ∨ (∃ e, m (h, v) = Throw e (h', v')).

(** What the four constructors make.  The array [other] that a copy or a
    move starts from is any array within its capacity. *)
Inductive constructed : Vector → Prop :=
| constructed_capacity c h v h' :
    0 ≤ c < size_max → Vector_ctor c h = Ret v h' → constructed v
| constructed_ilist l h v h' :
    Vector_ilist_ctor l h = Ret v h' → constructed v
| constructed_copy other h v other' h' :
    bounded other → Vector_copy_ctor other h = Ret (v, other') h' → constructed v
| constructed_move other h v other' h' :
    bounded other → Vector_move_ctor other h = Ret (v, other') h' → constructed v.

(** One step in the life of an array, move assignment to it apart: a call
    on it, a copy assignment to it, or its use as the source of a copy or of
    a move. *)
Inductive step : Vector → Vector → Prop :=
| step_run op v v' :
    admissible v op → ends_in (run op) v v' → step v v'
| step_copy_assign other v v' :
    bounded other → ends_in (copy_assign other) v v' → step v v'
| step_copy_assigned_from v h this_ v' s' :
    copy_assign v (h, this_) = Ret v' s' → step v v'
| step_copy_constructed_from v h this_ v' h' :
    Vector_copy_ctor v h = Ret (this_, v') h' → step v v'
| step_move_assigned_from v h this_ v' s' :
    move_assign v (h, this_) = Ret v' s' → step v v'
| step_move_constructed_from v h this_ v' h' :
    Vector_move_ctor v h = Ret (this_, v') h' → step v v'.

Inductive reachable : Vector → Prop :=
| reachable_constructed v :
    constructed v → reachable v
| reachable_step v v' :
    reachable v → step v v' → reachable v'
| reachable_move_assign other v v' :
    reachable v → reachable other → ends_in (move_assign other) v v' → reachable v'.

End Vector.
End Vector.

(** ** main.cpp

    The two loops of the benchmark, for each container, over [long long]
    items: a container is default-constructed, takes the items [0 .. n-1]
    one call after the other, and is destroyed at the end of the function.
    The clock and the output stream are not modelled. *)

Module Main.

Definition testAppend_vector (n : Z) : M (gmap positive (list Z)) unit :=
  collection <- Vector.Vector_ctor Vector.DEFAULT_INITIAL_CAPACITY ;;
  _ <- construct collection (Vector.appends (seqZ 0 n) ;;; Vector.Vector_dtor) ;;
  ret tt.

Definition testPrepend_vector (n : Z) : M (gmap positive (list Z)) unit :=
  collection <- Vector.Vector_ctor Vector.DEFAULT_INITIAL_CAPACITY ;;
  _ <- construct collection (Vector.prepends (seqZ 0 n) ;;; Vector.Vector_dtor) ;;
  ret tt.

Definition testAppend_list (n : Z) : M (gmap positive (@LinkedList.Node Z)) unit :=
  collection <- LinkedList.LinkedList_ctor ;;
  _ <- construct collection (LinkedList.appends (seqZ 0 n) ;;; LinkedList.LinkedList_dtor) ;;
  ret tt.

Definition testPrepend_list (n : Z) : M (gmap positive (@LinkedList.Node Z)) unit :=
  collection <- LinkedList.LinkedList_ctor ;;
  _ <- construct collection (LinkedList.prepends (seqZ 0 n) ;;; LinkedList.LinkedList_dtor) ;;
  ret tt.

End Main.

(** ** Concrete containers

    Containers of [long long] items, as main.cpp instantiates them, laid out
    in memory by hand. *)

Module Examples.

Definition guard (p n : option positive) : @LinkedList.Node Z :=
  LinkedList.mkNode p n None.

Definition item (p n : option positive) (x : Z) : @LinkedList.Node Z :=
  LinkedList.mkNode p n (Some x).

(** The list [10, 20, 30] with guards at 1 and 2, the list [40] with guards
    at 6 and 7, and an empty list with guards at 9 and 10. *)
Definition list_heap : gmap positive (@LinkedList.Node Z) :=
  list_to_map
    [ (1, guard None (Some 3)); (2, guard (Some 5) None);
      (3, item (Some 1) (Some 4) 10%Z); (4, item (Some 3) (Some 5) 20%Z);
      (5, item (Some 4) (Some 2) 30%Z);
      (6, guard None (Some 8)); (7, guard (Some 8) None);
      (8, item (Some 6) (Some 7) 40%Z);
      (9, guard None (Some 10)); (10, guard (Some 9) None) ]%positive.

Definition list_a : LinkedList.LinkedList :=
  LinkedList.mkList 1%positive 2%positive 3 (LinkedList.mkIt (Some 2%positive)).
Definition nodes_a : list (positive * Z) := [(3%positive, 10); (4%positive, 20); (5%positive, 30)].

Definition list_b : LinkedList.LinkedList :=
  LinkedList.mkList 6%positive 7%positive 1 (LinkedList.mkIt (Some 7%positive)).
Definition nodes_b : list (positive * Z) := [(8%positive, 40)].

Definition list_c : LinkedList.LinkedList :=
  LinkedList.mkList 9%positive 10%positive 0 (LinkedList.mkIt (Some 10%positive)).

(** The array [10, 20, 30] in a buffer of five slots, the array [40, 50] in
    a full buffer of two slots, and an empty array with four slots. *)
Definition vector_heap : gmap positive (list Z) :=
  list_to_map [ (1%positive, [10; 20; 30; 0; 0]); (2%positive, [40; 50]);
                (3%positive, [0; 0; 0; 0]) ].

Definition vector_a : Vector.Vector :=
  Vector.mkVector (Vector.Ptr 1%positive 0) 3 5 (Vector.mkIt (Vector.Ptr 1%positive 0) Vector.END).

Definition vector_b : Vector.Vector :=
  Vector.mkVector (Vector.Ptr 2%positive 0) 2 2 (Vector.mkIt (Vector.Ptr 2%positive 0) Vector.END).

Definition vector_c : Vector.Vector :=
  Vector.mkVector (Vector.Ptr 3%positive 0) 0 4 (Vector.mkIt (Vector.Ptr 3%positive 0) Vector.END).

End Examples.

(** * Proofs *)

(** ** Arithmetic of [size_type] *)

Lemma size_max_pos : 0 < size_max.
Proof. reflexivity. Qed.

Lemma size_max_eq : size_max = 18446744073709551616.
Proof. by vm_compute. Qed.

Lemma wrap_small z : 0 ≤ z < size_max → wrap z = z.
Proof. intros Hz. unfold wrap. by apply Z.mod_small. Qed.

Lemma wrap_range z : 0 ≤ wrap z < size_max.
Proof. unfold wrap. apply Z.mod_pos_bound, size_max_pos. Qed.

Global Opaque size_max.

(** ** Computations that never throw *)

Lemma no_throw_ret {S A : Type} (a : A) : no_throw (ret (S := S) a).
Proof. by intros s e s'. Qed.

Lemma no_throw_fault {S A : Type} : no_throw (fault (S := S) (A := A)).
Proof. by intros s e s'. Qed.

Lemma no_throw_bind {S A B : Type} (m : M S A) (k : A → M S B) :
  no_throw m → (∀ a, no_throw (k a)) → no_throw (bind m k).
Proof.
  intros Hm Hk s e s'. unfold bind. destruct (m s) as [a s1|e1 s1|] eqn:Hms.
  - apply Hk.
  - by apply Hm in Hms.
  - done.
Qed.

Lemma no_throw_on_fst {S1 S2 A : Type} (m : M S1 A) :
  no_throw m → no_throw (on_fst (S2 := S2) m).
Proof.
  intros Hm s e s'. unfold on_fst. destruct (m s.1) as [a s1|e1 s1|] eqn:Hms; try done.
  by apply Hm in Hms.
Qed.

Lemma no_throw_get {S : Type} : no_throw (get (S := S)).
Proof. by intros s e s'. Qed.

(** ** Weakest preconditions *)

Lemma wp_ret {S A : Type} (a : A) (Q : A → S → Prop) E s : Q a s → wp (ret a) Q E s.
Proof. done. Qed.

Lemma wp_throw {S A : Type} e (Q : A → S → Prop) (E : exception → S → Prop) s :
  E e s → wp (throw e) Q E s.
Proof. done. Qed.

Lemma wp_fault {S A : Type} (Q : A → S → Prop) E s : wp fault Q E s.
Proof. done. Qed.

Lemma wp_bind {S A B : Type} (m : M S A) (k : A → M S B) Q E s :
  wp m (λ a s', wp (k a) Q E s') E s → wp (bind m k) Q E s.
Proof. unfold wp, bind. by destruct (m _). Qed.

Lemma wp_mono {S A : Type} (m : M S A) (Q Q' : A → S → Prop) (E E' : exception → S → Prop) s :
  wp m Q E s → (∀ a s', Q a s' → Q' a s') → (∀ e s', E e s' → E' e s') → wp m Q' E' s.
Proof. unfold wp. destruct (m _); auto. Qed.

Lemma wp_discard {S A : Type} (m : M S A) (Q : unit → S → Prop) E s :
  wp m (λ _ s', Q tt s') E s → wp (discard m) Q E s.
Proof. intros Hm. by apply wp_bind. Qed.

Lemma wp_call {H O A : Type} (other : O) (m : M (H * O) A) Q E h (o : O) :
  wp m (λ a s', Q (a, snd s') (fst s', o)) (λ e s', E e (fst s', o)) (h, other) →
  wp (call other m) Q E (h, o).
Proof. unfold wp, call. cbn [fst snd]. by destruct (m _). Qed.

Lemma wp_construct {H O A : Type} (this_ : O) (m : M (H * O) A) Q E h :
  wp m (λ a s', Q (snd s', a) (fst s')) (λ e s', E e (fst s')) (h, this_) →
  wp (construct this_ m) Q E h.
Proof. unfold wp, construct. by destruct (m _). Qed.

Lemma wp_Ret {S A : Type} (m : M S A) Q E s a s' : wp m Q E s → m s = Ret a s' → Q a s'.
Proof. unfold wp. intros Hwp Heq. by rewrite Heq in Hwp. Qed.

Lemma wp_Throw {S A : Type} (m : M S A) Q E s e s' : wp m Q E s → m s = Throw e s' → E e s'.
Proof. unfold wp. intros Hwp Heq. by rewrite Heq in Hwp. Qed.

Lemma wp_any {S A : Type} (m : M S A) (Q : A → S → Prop) (E : exception → S → Prop) s :
  (∀ a s', Q a s') → (∀ e s', E e s') → wp m Q E s.
Proof. intros HQ HE. unfold wp. by destruct (m s). Qed.

Lemma wp_no_throw {S A : Type} (m : M S A) (Q : A → S → Prop) E s :
  no_throw m → (∀ r s', Q r s') → wp m Q E s.
Proof.
  intros Hm HQ. unfold wp. destruct (m s) as [r s'|e s'|] eqn:Hms; [done| |done].
  by apply Hm in Hms.
Qed.

(** ** Facts about the list *)

Module ListFacts.
Import LinkedList.
Section ListFacts.
Context {T : Type}.
Implicit Types (h : gmap loc (@Node T)) (l : LinkedList) (nodes : list (loc * T))
  (a b : loc) (p q : pointer).

Ltac lsimpl :=
  repeat progress
    (unfold isEmpty, getSize, getFirst, getLast;
     unfold this, set_size;
     unfold bind, ret, throw, fault, get, put, on_fst, on_snd, call, construct;
     cbn [fst snd size firstGuard lastGuard endIterator currentNode prev next value]).

(** *** Fields under heap updates *)

Lemma next_of_upd_next h a q x :
  next_of (upd_next a q h) x = if decide (x = a) then (λ _, q) <$> next_of h x else next_of h x.
Proof.
  unfold next_of, upd_next. case_decide as Hx.
  - subst. rewrite lookup_alter_eq. by destruct (h !! a).
  - by rewrite lookup_alter_ne.
Qed.

Lemma prev_of_upd_next h a q x : prev_of (upd_next a q h) x = prev_of h x.
Proof.
  unfold prev_of, upd_next. destruct (decide (x = a)) as [->|Hx].
  - rewrite lookup_alter_eq. by destruct (h !! a).
  - by rewrite lookup_alter_ne.
Qed.

Lemma value_of_upd_next h a q x : value_of (upd_next a q h) x = value_of h x.
Proof.
  unfold value_of, upd_next. destruct (decide (x = a)) as [->|Hx].
  - rewrite lookup_alter_eq. by destruct (h !! a).
  - by rewrite lookup_alter_ne.
Qed.

Lemma next_of_upd_prev h a q x : next_of (upd_prev a q h) x = next_of h x.
Proof.
  unfold next_of, upd_prev. destruct (decide (x = a)) as [->|Hx].
  - rewrite lookup_alter_eq. by destruct (h !! a).
  - by rewrite lookup_alter_ne.
Qed.

Lemma prev_of_upd_prev h a q x :
  prev_of (upd_prev a q h) x = if decide (x = a) then (λ _, q) <$> prev_of h x else prev_of h x.
Proof.
  unfold prev_of, upd_prev. case_decide as Hx.
  - subst. rewrite lookup_alter_eq. by destruct (h !! a).
  - by rewrite lookup_alter_ne.
Qed.

Lemma value_of_upd_prev h a q x : value_of (upd_prev a q h) x = value_of h x.
Proof.
  unfold value_of, upd_prev. destruct (decide (x = a)) as [->|Hx].
  - rewrite lookup_alter_eq. by destruct (h !! a).
  - by rewrite lookup_alter_ne.
Qed.

Lemma next_of_insert h a (n : @Node T) x :
  next_of (<[a := n]> h) x = if decide (x = a) then Some (next n) else next_of h x.
Proof.
  unfold next_of. case_decide as Hx.
  - subst. by rewrite lookup_insert_eq.
  - by rewrite lookup_insert_ne.
Qed.

Lemma prev_of_insert h a (n : @Node T) x :
  prev_of (<[a := n]> h) x = if decide (x = a) then Some (prev n) else prev_of h x.
Proof.
  unfold prev_of. case_decide as Hx.
  - subst. by rewrite lookup_insert_eq.
  - by rewrite lookup_insert_ne.
Qed.

Lemma value_of_insert h a (n : @Node T) x :
  value_of (<[a := n]> h) x = if decide (x = a) then Some (value n) else value_of h x.
Proof.
  unfold value_of. case_decide as Hx.
  - subst. by rewrite lookup_insert_eq.
  - by rewrite lookup_insert_ne.
Qed.

Lemma next_of_delete h a x :
  next_of (delete a h) x = if decide (x = a) then None else next_of h x.
Proof.
  unfold next_of. case_decide as Hx.
  - subst. by rewrite lookup_delete_eq.
  - by rewrite lookup_delete_ne.
Qed.

Lemma prev_of_delete h a x :
  prev_of (delete a h) x = if decide (x = a) then None else prev_of h x.
Proof.
  unfold prev_of. case_decide as Hx.
  - subst. by rewrite lookup_delete_eq.
  - by rewrite lookup_delete_ne.
Qed.

Lemma value_of_delete h a x :
  value_of (delete a h) x = if decide (x = a) then None else value_of h x.
Proof.
  unfold value_of. case_decide as Hx.
  - subst. by rewrite lookup_delete_eq.
  - by rewrite lookup_delete_ne.
Qed.

Lemma live_next_of h a : is_Some (next_of h a) ↔ is_Some (h !! a).
Proof. unfold next_of. by rewrite fmap_is_Some. Qed.

Lemma live_prev_of h a : is_Some (prev_of h a) ↔ is_Some (h !! a).
Proof. unfold prev_of. by rewrite fmap_is_Some. Qed.

Lemma live_value_of h a : is_Some (value_of h a) ↔ is_Some (h !! a).
Proof. unfold value_of. by rewrite fmap_is_Some. Qed.

Lemma live_upd_next h a q x : is_Some (upd_next a q h !! x) ↔ is_Some (h !! x).
Proof. by rewrite <- !live_value_of, value_of_upd_next. Qed.

Lemma live_upd_prev h a q x : is_Some (upd_prev a q h !! x) ↔ is_Some (h !! x).
Proof. by rewrite <- !live_value_of, value_of_upd_prev. Qed.

(** *** Memory accesses that succeed *)

Lemma get_next_run h a q : next_of h a = Some q → get_next (Some a) h = Ret q h.
Proof.
  unfold next_of, get_next, load, bind, ret. destruct (h !! a); [|done]. by intros [= <-].
Qed.

Lemma get_prev_run h a q : prev_of h a = Some q → get_prev (Some a) h = Ret q h.
Proof.
  unfold prev_of, get_prev, load, bind, ret. destruct (h !! a); [|done]. by intros [= <-].
Qed.

Lemma get_value_run h a x : value_of h a = Some (Some x) → get_value (Some a) h = Ret x h.
Proof.
  unfold value_of, get_value, load, bind, ret. destruct (h !! a) as [n|]; [|done].
  cbn. by intros [= ->].
Qed.

Lemma set_next_run h a q : is_Some (h !! a) → set_next (Some a) q h = Ret tt (upd_next a q h).
Proof.
  intros [n Hn]. unfold set_next, load, store, bind, upd_next. rewrite Hn. cbn. rewrite Hn.
  f_equal. apply map_eq. intros x. destruct (decide (x = a)) as [->|Hx].
  - by rewrite lookup_insert_eq, lookup_alter_eq, Hn.
  - by rewrite lookup_insert_ne, lookup_alter_ne.
Qed.

Lemma set_prev_run h a q : is_Some (h !! a) → set_prev (Some a) q h = Ret tt (upd_prev a q h).
Proof.
  intros [n Hn]. unfold set_prev, load, store, bind, upd_prev. rewrite Hn. cbn. rewrite Hn.
  f_equal. apply map_eq. intros x. destruct (decide (x = a)) as [->|Hx].
  - by rewrite lookup_insert_eq, lookup_alter_eq, Hn.
  - by rewrite lookup_insert_ne, lookup_alter_ne.
Qed.

Lemma dealloc_run h a : is_Some (h !! a) → dealloc (Some a) h = Ret tt (delete a h).
Proof. intros [n Hn]. unfold dealloc. by rewrite Hn. Qed.

Lemma collapseNodes_run h a b :
  is_Some (h !! a) → is_Some (h !! b) →
  collapseNodes (Some a) (Some b) h = Ret tt (upd_prev b (Some a) (upd_next a (Some b) h)).
Proof.
  intros Ha Hb. unfold collapseNodes, bind. rewrite set_next_run by done.
  by rewrite set_prev_run by (by apply live_upd_next).
Qed.

Lemma insertBetween_run h a b n :
  is_Some (h !! a) → is_Some (h !! b) → is_Some (h !! n) →
  insertBetween (Some a) (Some b) (Some n) h =
  Ret tt (upd_prev b (Some n) (upd_next n (Some b) (upd_prev n (Some a)
            (upd_next a (Some n) h)))).
Proof.
  intros Ha Hb Hn. unfold insertBetween, bind. rewrite set_next_run by done.
  rewrite set_prev_run by (by apply live_upd_next).
  rewrite set_next_run by (by apply live_upd_prev, live_upd_next).
  by rewrite set_prev_run by (by apply live_upd_next, live_upd_prev, live_upd_next).
Qed.

(** *** Chains *)

Lemma linked_split h (pre : list loc) a (post : list loc) :
  linked h (pre ++ a :: post) → linked h (pre ++ [a]) ∧ linked h (a :: post).
Proof.
  induction pre as [|x pre IH]; [done|].
  destruct pre as [|y pre]; cbn [app linked] in *.
  - intros (? & ? & ?). done.
  - intros (? & ? & Hrest). destruct (IH Hrest). done.
Qed.

Lemma linked_glue h (pre : list loc) a (post : list loc) :
  linked h (pre ++ [a]) → linked h (a :: post) → linked h (pre ++ a :: post).
Proof.
  induction pre as [|x pre IH]; [done|].
  destruct pre as [|y pre]; cbn [app linked] in *.
  - intros (? & ? & ?) ?. done.
  - intros (? & ? & Hrest) ?. split; [done|]. split; [done|]. by apply IH.
Qed.

Lemma linked_app_r h (pre post : list loc) : linked h (pre ++ post) → linked h post.
Proof.
  destruct post as [|a post]; [done|]. intros Hl. by apply linked_split in Hl as [_ ?].
Qed.

Lemma linked_app_l h (pre post : list loc) : linked h (pre ++ post) → linked h pre.
Proof.
  destruct pre as [|a pre _] using rev_ind; [done|].
  rewrite <- app_assoc. cbn. intros Hl. by apply linked_split in Hl as [? _].
Qed.

Lemma linked_pair h (pre : list loc) a b (post : list loc) :
  linked h (pre ++ a :: b :: post) →
  next_of h a = Some (Some b) ∧ prev_of h b = Some (Some a).
Proof. intros Hl. apply linked_app_r in Hl. cbn in Hl. tauto. Qed.

Lemma linked_frame_snoc h h' (pre : list loc) a :
  linked h (pre ++ [a]) →
  (∀ x, x ∈ pre → next_of h' x = next_of h x) →
  (∀ x, x ∈ pre ++ [a] → prev_of h' x = prev_of h x) →
  linked h' (pre ++ [a]).
Proof.
  induction pre as [|x pre IH]; [done|]. intros Hl Hn Hp.
  assert (linked h' (pre ++ [a])) as IH'.
  { apply IH.
    - change ((x :: pre) ++ [a]) with ([x] ++ pre ++ [a]) in Hl. by apply linked_app_r in Hl.
    - intros y Hy. apply Hn. set_solver.
    - intros y Hy. apply Hp. set_solver. }
  destruct pre as [|y pre]; cbn [app linked] in *.
  - destruct Hl as (? & ? & _). rewrite Hn, Hp by set_solver. done.
  - destruct Hl as (? & ? & _). rewrite Hn, Hp by set_solver. done.
Qed.

Lemma linked_frame_cons h h' a (post : list loc) :
  linked h (a :: post) →
  (∀ x, x ∈ a :: post → next_of h' x = next_of h x) →
  (∀ x, x ∈ post → prev_of h' x = prev_of h x) →
  linked h' (a :: post).
Proof.
  revert a. induction post as [|y post IH]; [done|]. intros a Hl Hn Hp.
  cbn [linked] in *. destruct Hl as (? & ? & Hl).
  rewrite Hn, Hp by set_solver. split; [done|]. split; [done|].
  apply IH; [done|..]; intros z Hz; [apply Hn|apply Hp]; set_solver.
Qed.

Lemma linked_live h (pth : list loc) x :
  linked h pth → (2 ≤ length pth)%nat → x ∈ pth → is_Some (h !! x).
Proof.
  induction pth as [|a pth IH]; [by intros _ _ ?%elem_of_nil|].
  destruct pth as [|b pth]; [cbn; lia|].
  intros Hl _ Hx. cbn [linked] in Hl. destruct Hl as (Ha & Hb & Hl).
  apply elem_of_cons in Hx as [->|Hx].
  - apply live_next_of. by rewrite Ha.
  - destruct pth as [|c pth].
    + apply list_elem_of_singleton in Hx as ->. apply live_prev_of. by rewrite Hb.
    + apply IH; [done|cbn; lia|done].
Qed.

(** Replacing what lies between [left] and [right] in a chain by [mid']. *)
Lemma linked_relink h h' (pre : list loc) left (mid : list loc) right (post mid' : list loc) :
  linked h (pre ++ left :: mid ++ right :: post) →
  linked h' (left :: mid' ++ [right]) →
  (∀ x, x ∈ pre ++ right :: post → next_of h' x = next_of h x) →
  (∀ x, x ∈ pre ++ left :: post → prev_of h' x = prev_of h x) →
  linked h' (pre ++ left :: mid' ++ right :: post).
Proof.
  intros Hl Hmid Hn Hp.
  apply linked_split in Hl as [Hpre Hrest].
  change (left :: mid ++ right :: post) with ((left :: mid) ++ right :: post) in Hrest.
  apply linked_app_r in Hrest.
  apply linked_glue.
  - apply (linked_frame_snoc h); [done|..]; intros x Hx; [apply Hn|apply Hp]; set_solver.
  - change (left :: mid' ++ right :: post) with ((left :: mid') ++ right :: post).
    apply linked_glue; [done|].
    apply (linked_frame_cons h); [done|..]; intros x Hx; [apply Hn|apply Hp]; set_solver.
Qed.

(** *** Well-formed lists under heap updates *)

(** The chain of a list, cut around a run [mid] of value nodes: [left] is
    the node before the run and [right] the node after it. *)
Lemma path_cut l n1 (mid : list (loc * T)) n2 left right :
  last (firstGuard l :: n1.*1) = Some left →
  head (n2.*1 ++ [lastGuard l]) = Some right →
  ∃ pre post,
    firstGuard l :: n1.*1 = pre ++ [left] ∧
    n2.*1 ++ [lastGuard l] = right :: post ∧
    path l (n1 ++ mid ++ n2) = pre ++ left :: mid.*1 ++ right :: post.
Proof.
  intros [pre Hpre]%last_Some [post Hpost]%head_Some. exists pre, post.
  split; [done|]. split; [done|].
  unfold path. rewrite !fmap_app, <- !app_assoc, Hpost.
  rewrite app_comm_cons, Hpre, <- app_assoc. done.
Qed.

Lemma is_list_agree h h' l nodes :
  is_list h l nodes →
  (∀ x, x ∈ path l nodes → h' !! x = h !! x) →
  is_list h' l nodes.
Proof.
  intros (Hnd & Hl & Hfg & Hlg & Hv & Hsz & Hmax & Hend) Hag.
  assert (∀ x, x ∈ path l nodes → next_of h' x = next_of h x) as Hn
    by (intros x Hx; unfold next_of; by rewrite Hag).
  assert (∀ x, x ∈ path l nodes → prev_of h' x = prev_of h x) as Hp
    by (intros x Hx; unfold prev_of; by rewrite Hag).
  assert (∀ x, x ∈ path l nodes → value_of h' x = value_of h x) as Hval
    by (intros x Hx; unfold value_of; by rewrite Hag).
  split; [done|]. split.
  { unfold path in *. apply (linked_frame_cons h); [done|..]; intros x Hx; [apply Hn|apply Hp];
      set_solver. }
  split; [rewrite Hval; [done|unfold path; set_solver]|].
  split; [rewrite Hval; [done|unfold path; set_solver]|].
  split; [|done].
  apply Forall_forall. intros n Hin. rewrite Forall_forall in Hv. rewrite Hval; [by apply Hv|].
  unfold path. apply elem_of_cons. right. apply elem_of_app. left.
  by apply list_elem_of_fmap_2.
Qed.

(** Taking the run [mid] out of the chain. *)
Lemma is_list_remove h h' l n1 mid n2 left right :
  is_list h l (n1 ++ mid ++ n2) →
  last (firstGuard l :: n1.*1) = Some left →
  head (n2.*1 ++ [lastGuard l]) = Some right →
  next_of h' left = Some (Some right) →
  prev_of h' right = Some (Some left) →
  (∀ x, x ∈ path l (n1 ++ n2) → x ≠ left → next_of h' x = next_of h x) →
  (∀ x, x ∈ path l (n1 ++ n2) → x ≠ right → prev_of h' x = prev_of h x) →
  (∀ x, x ∈ path l (n1 ++ n2) → value_of h' x = value_of h x) →
  is_list h' (mkList (firstGuard l) (lastGuard l)
                     (size l - Z.of_nat (length mid)) (endIterator l)) (n1 ++ n2).
Proof.
  intros (Hnd & Hl & Hfg & Hlg & Hv & Hsz & Hmax & Hend) Hleft Hright Hln Hrp Hn Hp Hval.
  destruct (path_cut l n1 mid n2 left right Hleft Hright) as (pre & post & Hpre & Hpost & Hpath).
  destruct (path_cut l n1 [] n2 left right Hleft Hright) as (pre' & post' & Hpre' & Hpost' & Hpath').
  rewrite Hpre in Hpre'. apply app_inj_tail in Hpre' as [<- _].
  rewrite Hpost in Hpost'. injection Hpost' as <-.
  cbn [app fmap list_fmap] in Hpath'.
  rewrite Hpath in Hnd, Hl. unfold is_list. cbn [firstGuard lastGuard size endIterator].
  change (path (mkList (firstGuard l) (lastGuard l) (size l - Z.of_nat (length mid))
                       (endIterator l)) (n1 ++ n2)) with (path l (n1 ++ n2)).
  assert (NoDup (path l (n1 ++ n2))) as Hnd'.
  { rewrite Hpath'. revert Hnd. rewrite !NoDup_app, !NoDup_cons, !NoDup_app, !NoDup_cons.
    set_solver. }
  split; [done|]. split.
  { rewrite Hpath'.
    apply (linked_relink h h' pre left (mid.*1) right post []); [done|cbn; tauto|..].
    - intros x Hx. apply Hn; [rewrite Hpath'; set_solver|].
      intros ->. revert Hnd. rewrite !NoDup_app, !NoDup_cons. set_solver.
    - intros x Hx. apply Hp; [rewrite Hpath'; set_solver|].
      intros ->. revert Hnd. rewrite !NoDup_app, !NoDup_cons, !NoDup_app, !NoDup_cons.
      set_solver. }
  split; [rewrite Hval; [done|unfold path; set_solver]|].
  split; [rewrite Hval; [done|unfold path; set_solver]|].
  split.
  { rewrite !Forall_app in Hv. destruct Hv as (Hv1 & _ & Hv2).
    apply Forall_forall. intros n Hin.
    rewrite Hval.
    - apply elem_of_app in Hin as [Hin|Hin]; [by eapply Forall_forall in Hv1|
                                               by eapply Forall_forall in Hv2].
    - unfold path. apply elem_of_cons. right. apply elem_of_app. left.
      by apply list_elem_of_fmap_2. }
  rewrite !length_app in *. split; [lia|]. split; [lia|done].
Qed.

(** Putting the fresh value node [n], holding [x], into the chain. *)
Lemma is_list_insert h h' l n1 n2 left right n x :
  is_list h l (n1 ++ n2) →
  last (firstGuard l :: n1.*1) = Some left →
  head (n2.*1 ++ [lastGuard l]) = Some right →
  n ∉ path l (n1 ++ n2) →
  Z.of_nat (length (n1 ++ n2)) + 1 < size_max →
  next_of h' left = Some (Some n) →
  prev_of h' n = Some (Some left) →
  next_of h' n = Some (Some right) →
  prev_of h' right = Some (Some n) →
  value_of h' n = Some (Some x) →
  (∀ y, y ∈ path l (n1 ++ n2) → y ≠ left → next_of h' y = next_of h y) →
  (∀ y, y ∈ path l (n1 ++ n2) → y ≠ right → prev_of h' y = prev_of h y) →
  (∀ y, y ∈ path l (n1 ++ n2) → value_of h' y = value_of h y) →
  is_list h' (mkList (firstGuard l) (lastGuard l) (size l + 1) (endIterator l))
          (n1 ++ (n, x) :: n2).
Proof.
  intros (Hnd & Hl & Hfg & Hlg & Hv & Hsz & Hmax & Hend) Hleft Hright Hfresh Hroom
         Hln Hnp Hnn Hrp Hnv Hn Hp Hval.
  destruct (path_cut l n1 [] n2 left right Hleft Hright) as (pre & post & Hpre & Hpost & Hpath).
  destruct (path_cut l n1 [(n, x)] n2 left right Hleft Hright)
    as (pre' & post' & Hpre' & Hpost' & Hpath').
  rewrite Hpre in Hpre'. apply app_inj_tail in Hpre' as [<- _].
  rewrite Hpost in Hpost'. injection Hpost' as <-.
  cbn [app fmap list_fmap fst] in Hpath, Hpath'.
  rewrite Hpath in Hnd, Hl, Hfresh. unfold is_list. cbn [firstGuard lastGuard size endIterator].
  change (path (mkList (firstGuard l) (lastGuard l) (size l + 1) (endIterator l))
               (n1 ++ (n, x) :: n2)) with (path l (n1 ++ (n, x) :: n2)).
  rewrite Hpath'.
  split.
  { revert Hnd Hfresh. rewrite !NoDup_app, !NoDup_cons. set_solver. }
  split.
  { apply (linked_relink h h' pre left [] right post [n]); [done|cbn; tauto|..].
    - intros y Hy. apply Hn; [rewrite Hpath; set_solver|].
      intros ->. revert Hnd. rewrite !NoDup_app, !NoDup_cons. set_solver.
    - intros y Hy. apply Hp; [rewrite Hpath; set_solver|].
      intros ->. revert Hnd. rewrite !NoDup_app, !NoDup_cons. set_solver. }
  split; [rewrite Hval; [done|unfold path; set_solver]|].
  split; [rewrite Hval; [done|unfold path; set_solver]|].
  split.
  { rewrite Forall_app in Hv. destruct Hv as (Hv1 & Hv2).
    apply Forall_app. split; [|apply Forall_cons; split; [done|]].
    all: apply Forall_forall; intros m Hin; rewrite Hval;
      [first [by eapply Forall_forall in Hv1|by eapply Forall_forall in Hv2]|].
    all: unfold path; apply elem_of_cons; right; apply elem_of_app; left.
    all: apply list_elem_of_fmap_2; set_solver. }
  rewrite !length_app in *. cbn [length]. split; [lia|]. split; [lia|done].
Qed.

(** *** The operations on well-formed lists *)

Ltac fields :=
  repeat (rewrite ?next_of_upd_next, ?prev_of_upd_next, ?value_of_upd_next,
            ?next_of_upd_prev, ?prev_of_upd_prev, ?value_of_upd_prev,
            ?next_of_insert, ?prev_of_insert, ?value_of_insert,
            ?next_of_delete, ?prev_of_delete, ?value_of_delete).

Lemma elem_of_path l nodes x :
  x ∈ path l nodes ↔ x = firstGuard l ∨ x ∈ nodes.*1 ∨ x = lastGuard l.
Proof. unfold path. by rewrite elem_of_cons, elem_of_app, list_elem_of_singleton. Qed.

Lemma NoDup_path l nodes :
  NoDup (path l nodes) ↔
  firstGuard l ∉ nodes.*1 ∧ firstGuard l ≠ lastGuard l ∧ lastGuard l ∉ nodes.*1 ∧
  NoDup nodes.*1.
Proof.
  unfold path. rewrite NoDup_cons, NoDup_app, not_elem_of_app, list_elem_of_singleton.
  split.
  - intros ((? & ?) & ? & Hd & _). repeat split; try done.
    intros Hin. apply (Hd _ Hin). by apply list_elem_of_singleton.
  - intros (? & ? & ? & ?). repeat split; try done; [|apply NoDup_singleton].
    intros y Hy Hy2%list_elem_of_singleton. by subst.
Qed.

Lemma is_list_live h l nodes x : is_list h l nodes → x ∈ path l nodes → is_Some (h !! x).
Proof.
  intros (Hnd & Hl & _) Hx. eapply linked_live; [done| |done].
  unfold path. cbn. rewrite length_app. cbn. lia.
Qed.

Lemma is_list_fresh h l nodes : is_list h l nodes → fresh (dom h) ∉ path l nodes.
Proof.
  intros Hlist Hin. apply (is_list_live _ _ _ _ Hlist) in Hin.
  apply elem_of_dom in Hin. by apply is_fresh in Hin.
Qed.

Lemma is_list_last h l nodes :
  is_list h l nodes →
  ∃ left, last (firstGuard l :: nodes.*1) = Some left ∧
          prev_of h (lastGuard l) = Some (Some left) ∧
          next_of h left = Some (Some (lastGuard l)) ∧
          left ∈ path l nodes ∧ left ≠ lastGuard l.
Proof.
  intros (Hnd & Hl & _).
  destruct (last (firstGuard l :: nodes.*1)) as [left|] eqn:Hlast.
  2:{ apply last_None in Hlast. done. }
  exists left. split; [done|]. apply last_Some in Hlast as [pre Hpre].
  unfold path in *. rewrite app_comm_cons, Hpre, <- app_assoc in Hl, Hnd |- *. cbn in *.
  destruct (linked_pair _ _ _ _ [] Hl). split; [done|]. split; [done|].
  split; [set_solver|]. intros ->. revert Hnd. rewrite NoDup_app, !NoDup_cons. set_solver.
Qed.

Lemma is_list_first h l nodes :
  is_list h l nodes →
  ∃ right, head (nodes.*1 ++ [lastGuard l]) = Some right ∧
           next_of h (firstGuard l) = Some (Some right) ∧
           prev_of h right = Some (Some (firstGuard l)) ∧
           right ∈ path l nodes ∧ right ≠ firstGuard l.
Proof.
  intros (Hnd & Hl & _).
  destruct (nodes.*1 ++ [lastGuard l]) as [|right post] eqn:Hpost.
  { by destruct (nodes.*1). }
  exists right. split; [done|]. unfold path in *. rewrite Hpost in *.
  cbn in Hl. split; [tauto|]. split; [tauto|]. split; [set_solver|].
  intros ->. revert Hnd. rewrite !NoDup_cons. set_solver.
Qed.

Lemma getLast_run h l nodes left :
  is_list h l nodes → last (firstGuard l :: nodes.*1) = Some left →
  getLast (h, l) = Ret (Some left) (h, l).
Proof.
  intros Hlist Hlast. destruct (is_list_last _ _ _ Hlist) as (left' & Hl' & Hp & _).
  rewrite Hlast in Hl'. injection Hl' as <-.
  lsimpl. by rewrite (get_prev_run _ _ _ Hp).
Qed.

Lemma getFirst_run h l nodes right :
  is_list h l nodes → head (nodes.*1 ++ [lastGuard l]) = Some right →
  getFirst (h, l) = Ret (Some right) (h, l).
Proof.
  intros Hlist Hhead. destruct (is_list_first _ _ _ Hlist) as (right' & Hr' & Hn & _).
  rewrite Hhead in Hr'. injection Hr' as <-.
  lsimpl. by rewrite (get_next_run _ _ _ Hn).
Qed.

(** [append] and [prepend]: a fresh node is spliced in at the back or at
    the front. *)

Lemma list_append_spec h l nodes x :
  is_list h l nodes → Z.of_nat (length nodes) + 1 < size_max →
  ∃ h' n,
    append x (h, l) =
      Ret tt (h', mkList (firstGuard l) (lastGuard l) (size l + 1) (endIterator l)) ∧
    is_list h' (mkList (firstGuard l) (lastGuard l) (size l + 1) (endIterator l))
            (nodes ++ [(n, x)]).
Proof.
  intros Hlist Hroom.
  destruct (is_list_last _ _ _ Hlist) as (left & Hlast & Hlp & Hln & Hin & Hne).
  pose proof (is_list_fresh _ _ _ Hlist) as Hfresh.
  pose proof Hlist as (Hnd & Hl & Hfg & Hlg & Hv & Hsz & Hmax & Hend).
  set (n := fresh (dom h)) in *.
  set (h1 := <[n := mkNode None None (Some x)]> h).
  assert (lastGuard l ∈ path l nodes) as Hlgin by (unfold path; set_solver).
  assert (n ≠ left) as Hnl by (by intros ->).
  assert (n ≠ lastGuard l) as Hng by (by intros ->).
  assert (is_Some (h1 !! left)) as Hl1.
  { unfold h1. rewrite lookup_insert_ne by done. by eapply is_list_live. }
  assert (is_Some (h1 !! lastGuard l)) as Hl2.
  { unfold h1. rewrite lookup_insert_ne by done. by eapply is_list_live. }
  assert (is_Some (h1 !! n)) as Hl3 by (unfold h1; by rewrite lookup_insert_eq).
  unfold append. unfold bind at 1, on_fst, new. cbn [fst snd]. fold n h1.
  assert (getLast (h1, l) = Ret (Some left) (h1, l)) as Hgl.
  { lsimpl. rewrite (get_prev_run _ _ (Some left)); [done|]. unfold h1. fields.
    by rewrite decide_False. }
  unfold bind at 1. rewrite Hgl. lsimpl.
  rewrite insertBetween_run by done. lsimpl. rewrite Hsz, wrap_small by lia. rewrite <- Hsz.
  eexists _, n. split; [done|].
  rewrite <- (app_nil_r nodes) in Hlist, Hin, Hlgin, Hfresh.
  apply (is_list_insert h _ l nodes [] left (lastGuard l) n x); try done.
  - rewrite length_app. cbn. lia.
  - unfold h1. fields. repeat case_decide; try done. by rewrite Hln.
  - unfold h1. fields. by repeat case_decide.
  - unfold h1. fields. by repeat case_decide.
  - unfold h1. fields. repeat case_decide; try done. by rewrite Hlp.
  - unfold h1. fields. by repeat case_decide.
  - intros y Hy Hyl. unfold h1. fields. repeat case_decide; try done. by subst.
  - intros y Hy Hyl. unfold h1. fields. repeat case_decide; try done. by subst.
  - intros y Hy. unfold h1. fields. repeat case_decide; try done. by subst.
Qed.

Lemma list_prepend_spec h l nodes x :
  is_list h l nodes → Z.of_nat (length nodes) + 1 < size_max →
  ∃ h' n,
    prepend x (h, l) =
      Ret tt (h', mkList (firstGuard l) (lastGuard l) (size l + 1) (endIterator l)) ∧
    is_list h' (mkList (firstGuard l) (lastGuard l) (size l + 1) (endIterator l))
            ((n, x) :: nodes).
Proof.
  intros Hlist Hroom.
  destruct (is_list_first _ _ _ Hlist) as (right & Hhead & Hfn & Hrp & Hin & Hne).
  pose proof (is_list_fresh _ _ _ Hlist) as Hfresh.
  pose proof Hlist as (Hnd & Hl & Hfg & Hlg & Hv & Hsz & Hmax & Hend).
  set (n := fresh (dom h)) in *.
  set (h1 := <[n := mkNode None None (Some x)]> h).
  assert (firstGuard l ∈ path l nodes) as Hfgin by (unfold path; set_solver).
  assert (n ≠ right) as Hnr by (by intros ->).
  assert (n ≠ firstGuard l) as Hng by (by intros ->).
  assert (is_Some (h1 !! right)) as Hl1.
  { unfold h1. rewrite lookup_insert_ne by done. by eapply is_list_live. }
  assert (is_Some (h1 !! firstGuard l)) as Hl2.
  { unfold h1. rewrite lookup_insert_ne by done. by eapply is_list_live. }
  assert (is_Some (h1 !! n)) as Hl3 by (unfold h1; by rewrite lookup_insert_eq).
  unfold prepend. unfold bind at 1, on_fst, new. cbn [fst snd]. fold n h1.
  assert (getFirst (h1, l) = Ret (Some right) (h1, l)) as Hgf.
  { lsimpl. rewrite (get_next_run _ _ (Some right)); [done|]. unfold h1. fields.
    by rewrite decide_False. }
  unfold bind at 1. rewrite Hgf. lsimpl.
  rewrite insertBetween_run by done. lsimpl. rewrite Hsz, wrap_small by lia. rewrite <- Hsz.
  eexists _, n. split; [done|].
  apply (is_list_insert h _ l [] nodes (firstGuard l) right n x); try done.
  - unfold h1. fields. repeat case_decide; try done. by rewrite Hfn.
  - unfold h1. fields. by repeat case_decide.
  - unfold h1. fields. by repeat case_decide.
  - unfold h1. fields. repeat case_decide; try done. by rewrite Hrp.
  - unfold h1. fields. by repeat case_decide.
  - intros y Hy Hyl. unfold h1. fields. repeat case_decide; try done. by subst.
  - intros y Hy Hyl. unfold h1. fields. repeat case_decide; try done. by subst.
  - intros y Hy. unfold h1. fields. repeat case_decide; try done. by subst.
Qed.

(** Unlinking and freeing one value node, as [popFirst], [popLast] and
    [erase] do once they have found the node and its neighbours. *)
Lemma unlink_spec h l n1 a x n2 :
  is_list h l (n1 ++ (a, x) :: n2) →
  ∃ left right,
    last (firstGuard l :: n1.*1) = Some left ∧
    head (n2.*1 ++ [lastGuard l]) = Some right ∧
    prev_of h a = Some (Some left) ∧
    next_of h a = Some (Some right) ∧
    value_of h a = Some (Some x) ∧
    a ≠ firstGuard l ∧ a ≠ lastGuard l ∧
    ∃ h1,
      collapseNodes (Some left) (Some right) h = Ret tt h1 ∧
      is_Some (h1 !! a) ∧
      is_list (delete a h1)
              (mkList (firstGuard l) (lastGuard l) (size l - 1) (endIterator l)) (n1 ++ n2).
Proof.
  intros Hlist.
  pose proof Hlist as (Hnd & Hl & Hfg & Hlg & Hv & Hsz & Hmax & Hend).
  destruct (last (firstGuard l :: n1.*1)) as [left|] eqn:Hlast.
  2:{ apply last_None in Hlast. done. }
  destruct (head (n2.*1 ++ [lastGuard l])) as [right|] eqn:Hhead.
  2:{ apply head_None in Hhead. by destruct (n2.*1). }
  exists left, right. split; [done|]. split; [done|].
  destruct (path_cut l n1 [(a, x)] n2 left right Hlast Hhead)
    as (pre & post & Hpre & Hpost & Hpath).
  cbn [fmap list_fmap fst app] in Hpath.
  rewrite Hpath in Hnd, Hl.
  destruct (linked_pair _ _ _ _ _ Hl) as [Hln Hap].
  change (pre ++ left :: a :: right :: post) with (pre ++ [left] ++ a :: right :: post) in Hl.
  rewrite app_assoc in Hl.
  destruct (linked_pair _ _ _ _ _ Hl) as [Han Hrp].
  split; [done|]. split; [done|].
  split. { rewrite !Forall_app, Forall_cons in Hv. tauto. }
  assert (a ≠ left ∧ a ≠ right ∧ left ≠ right ∧ a ∉ pre ∧ a ∉ post) as (Hal & Har & Hlr & Hapre & Hapost).
  { revert Hnd. rewrite !NoDup_app, !NoDup_cons. set_solver. }
  assert (firstGuard l ∈ pre ++ [left]) as Hfgin by (rewrite <- Hpre; set_solver).
  assert (lastGuard l ∈ right :: post) as Hlgin by (rewrite <- Hpost; set_solver).
  split. { intros ->. set_solver. }
  split. { intros ->. set_solver. }
  assert (is_Some (h !! left)) by (apply live_next_of; by rewrite Hln).
  assert (is_Some (h !! right)) by (apply live_prev_of; by rewrite Hrp).
  assert (is_Some (h !! a)) by (apply live_next_of; by rewrite Han).
  eexists. split; [by apply collapseNodes_run|].
  split; [by apply live_upd_prev, live_upd_next|].
  replace (size l - 1) with (size l - Z.of_nat (length [(a, x)])) by (cbn; lia).
  assert (∀ y, y ∈ path l (n1 ++ n2) → y ≠ a) as Hya.
  { intros y Hy ->. unfold path in Hy. rewrite fmap_app, <- app_assoc, Hpost in Hy.
    rewrite app_comm_cons, Hpre in Hy. set_solver. }
  apply (is_list_remove h _ l n1 [(a, x)] n2 left right); try done.
  - fields. repeat case_decide; try done. by rewrite Hln.
  - fields. repeat case_decide; try done. by rewrite Hrp.
  - intros y Hy Hyl. fields. repeat case_decide; try done. by apply Hya in Hy.
  - intros y Hy Hyl. fields. repeat case_decide; try done. by apply Hya in Hy.
  - intros y Hy. fields. repeat case_decide; try done. by apply Hya in Hy.
Qed.

Lemma dynamic_cast_ValueNode_run h a x :
  value_of h a = Some (Some x) → dynamic_cast_ValueNode (Some a) h = Ret (Some a) h.
Proof.
  unfold value_of, dynamic_cast_ValueNode, load, bind, ret.
  destruct (h !! a) as [n|]; [|done]. cbn. by intros [= ->].
Qed.

Lemma throwIfCollectionEmpty_nonempty h l e :
  size l ≠ 0 → throwIfCollectionEmpty e (h, l) = Ret tt (h, l).
Proof. intros Hz. unfold throwIfCollectionEmpty. lsimpl. by rewrite bool_decide_eq_false_2. Qed.

Lemma deleteNode_run h l a :
  is_Some (h !! a) → 0 < size l < size_max →
  deleteNode (Some a) (h, l) =
  Ret tt (delete a h, mkList (firstGuard l) (lastGuard l) (size l - 1) (endIterator l)).
Proof.
  intros Ha Hsz. unfold deleteNode. lsimpl. rewrite dealloc_run by done. lsimpl.
  by rewrite wrap_small by lia.
Qed.

Lemma list_popFirst_empty h l : size l = 0 → popFirst (h, l) = Throw logic_error (h, l).
Proof.
  intros Hz. unfold popFirst, throwIfCollectionEmpty. lsimpl.
  by rewrite bool_decide_eq_true_2.
Qed.

Lemma list_popLast_empty h l : size l = 0 → popLast (h, l) = Throw logic_error (h, l).
Proof.
  intros Hz. unfold popLast, throwIfCollectionEmpty. lsimpl.
  by rewrite bool_decide_eq_true_2.
Qed.

Lemma list_popFirst_spec h l a x nodes :
  is_list h l ((a, x) :: nodes) →
  ∃ h',
    popFirst (h, l) =
      Ret x (h', mkList (firstGuard l) (lastGuard l) (size l - 1) (endIterator l)) ∧
    is_list h' (mkList (firstGuard l) (lastGuard l) (size l - 1) (endIterator l)) nodes.
Proof.
  intros Hlist. pose proof Hlist as (_ & _ & _ & _ & _ & Hsz & Hmax & _).
  cbn [length] in Hsz.
  destruct (unlink_spec h l [] a x nodes Hlist)
    as (left & right & Hlast & Hhead & Hap & Han & Hav & _ & _ & h1 & Hcol & Hlive & Hlist').
  cbn in Hlast. injection Hlast as <-.
  unfold popFirst. unfold bind at 1.
  rewrite throwIfCollectionEmpty_nonempty by lia.
  unfold getFirstValueNode. unfold bind at 1, bind at 1.
  rewrite (getFirst_run h l ((a, x) :: nodes) a) by done.
  unfold on_fst at 1. cbn [fst snd]. rewrite (dynamic_cast_ValueNode_run _ _ x) by done.
  unfold bind at 1, on_fst at 1. cbn [fst snd]. rewrite (get_value_run _ _ x) by done.
  unfold bind at 1, this at 1. cbn [snd].
  unfold bind at 1, on_fst at 1. cbn [fst snd]. rewrite (get_next_run _ _ (Some right)) by done.
  unfold bind at 1, on_fst at 1. cbn [fst snd]. rewrite Hcol.
  unfold bind at 1. rewrite deleteNode_run by (done || lia).
  eexists. split; [done|]. done.
Qed.

Lemma list_popLast_spec h l a x nodes :
  is_list h l (nodes ++ [(a, x)]) →
  ∃ h',
    popLast (h, l) =
      Ret x (h', mkList (firstGuard l) (lastGuard l) (size l - 1) (endIterator l)) ∧
    is_list h' (mkList (firstGuard l) (lastGuard l) (size l - 1) (endIterator l)) nodes.
Proof.
  intros Hlist. pose proof Hlist as (_ & _ & _ & _ & _ & Hsz & Hmax & _).
  rewrite length_app in Hsz. cbn [length] in Hsz.
  destruct (unlink_spec h l nodes a x [] Hlist)
    as (left & right & Hlast & Hhead & Hap & Han & Hav & _ & _ & h1 & Hcol & Hlive & Hlist').
  cbn in Hhead. injection Hhead as <-. rewrite app_nil_r in Hlist'.
  unfold popLast. unfold bind at 1.
  rewrite throwIfCollectionEmpty_nonempty by lia.
  unfold getLastValueNode. unfold bind at 1, bind at 1.
  rewrite (getLast_run h l (nodes ++ [(a, x)]) a);
    [|done|rewrite fmap_app; apply (last_snoc a (firstGuard l :: nodes.*1))].
  unfold on_fst at 1. cbn [fst snd]. rewrite (dynamic_cast_ValueNode_run _ _ x) by done.
  unfold bind at 1, on_fst at 1. cbn [fst snd]. rewrite (get_value_run _ _ x) by done.
  unfold bind at 1, this at 1. cbn [snd].
  unfold bind at 1, on_fst at 1. cbn [fst snd]. rewrite (get_prev_run _ _ (Some left)) by done.
  unfold bind at 1, on_fst at 1. cbn [fst snd]. rewrite Hcol.
  unfold bind at 1. rewrite deleteNode_run by (done || lia).
  eexists. split; [done|]. done.
Qed.

(** [erase(possition)]. *)

Lemma no_throw_load p : no_throw (load (T := T) p).
Proof. intros h e s'. unfold load. by repeat case_match. Qed.

Lemma no_throw_store p n : no_throw (store (T := T) p n).
Proof. intros h e s'. unfold store. by repeat case_match. Qed.

Lemma no_throw_dealloc p : no_throw (dealloc (T := T) p).
Proof. intros h e s'. unfold dealloc. by repeat case_match. Qed.

Lemma no_throw_get_next p : no_throw (get_next (T := T) p).
Proof. apply no_throw_bind; [apply no_throw_load|intros; apply no_throw_ret]. Qed.

Lemma no_throw_get_prev p : no_throw (get_prev (T := T) p).
Proof. apply no_throw_bind; [apply no_throw_load|intros; apply no_throw_ret]. Qed.

Lemma no_throw_set_next p q : no_throw (set_next (T := T) p q).
Proof. apply no_throw_bind; [apply no_throw_load|intros; apply no_throw_store]. Qed.

Lemma no_throw_set_prev p q : no_throw (set_prev (T := T) p q).
Proof. apply no_throw_bind; [apply no_throw_load|intros; apply no_throw_store]. Qed.

Lemma no_throw_collapseNodes p q : no_throw (collapseNodes (T := T) p q).
Proof. apply no_throw_bind; [apply no_throw_set_next|intros; apply no_throw_set_prev]. Qed.

Lemma no_throw_this : no_throw (this (T := T)).
Proof. by intros s e s'. Qed.

Lemma no_throw_set_size z : no_throw (set_size (T := T) z).
Proof. by intros s e s'. Qed.

Lemma no_throw_deleteNode p : no_throw (deleteNode (T := T) p).
Proof.
  apply no_throw_bind; [apply no_throw_on_fst, no_throw_dealloc|intros _].
  apply no_throw_bind; [apply no_throw_this|intros; apply no_throw_set_size].
Qed.

Lemma list_erase_throw h l it e s' :
  erase it (h, l) = Throw e s' →
  e = out_of_range ∧ s' = (h, l) ∧ (size l = 0 ∨ it_eq it (endIterator l) = true).
Proof.
  unfold erase, throwIfCollectionEmpty, throwIfIteratorEqaulsEnd.
  unfold bind at 1, bind at 1, isEmpty, bind at 1, this at 1, ret at 1. cbn [snd].
  destruct (bool_decide (size l = 0)) eqn:Hsz.
  { apply bool_decide_eq_true in Hsz. cbn. intros [= <- <-]. auto. }
  unfold ret at 1. unfold bind at 1, bind at 1, this at 1. cbn [snd].
  destruct (it_eq it (endIterator l)) eqn:Hend.
  { cbn. intros [= <- <-]. auto. }
  unfold ret at 1. intros Hthrow. exfalso. revert Hthrow.
  apply no_throw_bind; [apply no_throw_on_fst, no_throw_get_prev|intros p].
  apply no_throw_bind; [apply no_throw_on_fst, no_throw_get_next|intros n].
  apply no_throw_bind; [apply no_throw_on_fst, no_throw_collapseNodes|intros _].
  apply no_throw_deleteNode.
Qed.

Lemma list_erase_empty h l it : size l = 0 → erase it (h, l) = Throw out_of_range (h, l).
Proof.
  intros Hz. unfold erase, throwIfCollectionEmpty. lsimpl.
  by rewrite bool_decide_eq_true_2.
Qed.

Lemma list_erase_end h l it :
  it_eq it (endIterator l) = true → erase it (h, l) = Throw out_of_range (h, l).
Proof.
  intros Hend. unfold erase, throwIfCollectionEmpty, throwIfIteratorEqaulsEnd.
  unfold bind at 1, bind at 1, isEmpty, bind at 1, this at 1, ret at 1. cbn [snd].
  destruct (bool_decide (size l = 0)); [done|].
  unfold ret at 1. unfold bind at 1, bind at 1, this at 1. cbn [snd].
  by rewrite Hend.
Qed.

Lemma list_erase_spec h l n1 a x n2 it :
  is_list h l (n1 ++ (a, x) :: n2) → currentNode it = Some a →
  ∃ h',
    erase it (h, l) =
      Ret tt (h', mkList (firstGuard l) (lastGuard l) (size l - 1) (endIterator l)) ∧
    is_list h' (mkList (firstGuard l) (lastGuard l) (size l - 1) (endIterator l)) (n1 ++ n2).
Proof.
  intros Hlist Hit. pose proof Hlist as (_ & _ & _ & _ & _ & Hsz & Hmax & Hend).
  rewrite length_app in Hsz. cbn [length] in Hsz.
  destruct (unlink_spec h l n1 a x n2 Hlist)
    as (left & right & Hlast & Hhead & Hap & Han & Hav & _ & Halg & h1 & Hcol & Hlive & Hlist').
  unfold erase. unfold bind at 1.
  rewrite throwIfCollectionEmpty_nonempty by lia.
  unfold throwIfIteratorEqaulsEnd. unfold bind at 1, bind at 1, this at 1. cbn [snd].
  unfold it_eq. rewrite Hend, Hit. cbn [currentNode].
  rewrite bool_decide_eq_false_2 by congruence. unfold ret at 1.
  unfold bind at 1, on_fst at 1. cbn [fst snd]. rewrite (get_prev_run _ _ (Some left)) by done.
  unfold bind at 1, on_fst at 1. cbn [fst snd]. rewrite (get_next_run _ _ (Some right)) by done.
  unfold bind at 1, on_fst at 1. cbn [fst snd]. rewrite Hcol.
  rewrite deleteNode_run by (done || lia). rewrite <- Hend.
  eexists. split; [done|]. done.
Qed.

(** [LinkedList()]: two fresh guards, linked to each other. *)
Lemma LinkedList_ctor_spec h :
  ∃ h' l,
    LinkedList_ctor h = Ret l h' ∧ is_list h' l [] ∧
    firstGuard l ∉ dom h ∧ lastGuard l ∉ dom h ∧
    (∀ x, is_Some (h !! x) → h' !! x = h !! x).
Proof.
  unfold LinkedList_ctor, new. unfold bind at 1. unfold bind at 1.
  set (fg := fresh (dom h)).
  set (h1 := <[fg := mkNode None None None]> h).
  set (lg := fresh (dom h1)).
  set (h2 := <[lg := mkNode None None None]> h1).
  assert (fg ∉ dom h) as Hfg by apply is_fresh.
  assert (lg ∉ dom h1) as Hlg by apply is_fresh.
  assert (lg ≠ fg) as Hne.
  { intros Heq. apply Hlg. rewrite Heq. unfold h1. rewrite dom_insert_L. set_solver. }
  assert (lg ∉ dom h) as Hlg'.
  { intros Hin. apply Hlg. unfold h1. rewrite dom_insert_L. set_solver. }
  unfold bind. rewrite collapseNodes_run.
  2:{ unfold h2, h1. rewrite lookup_insert_ne, lookup_insert_eq by done. done. }
  2:{ unfold h2. by rewrite lookup_insert_eq. }
  eexists _, _. split; [done|]. cbn [firstGuard lastGuard].
  split; [|split; [done|split; [done|]]].
  - unfold is_list, path. cbn.
    split. { apply NoDup_cons. split; [set_solver|]. apply NoDup_singleton. }
    split. { unfold h2, h1. fields. repeat case_decide; done. }
    split. { unfold h2, h1. fields. repeat case_decide; done. }
    split. { unfold h2, h1. fields. repeat case_decide; done. }
    split; [done|]. split; [done|]. split; [|done]. apply size_max_pos.
  - intros x Hx. unfold upd_prev, upd_next, h2, h1.
    assert (x ≠ fg) by (intros ->; by apply Hfg, elem_of_dom).
    assert (x ≠ lg) by (intros ->; by apply Hlg', elem_of_dom).
    by rewrite !lookup_alter_ne, !lookup_insert_ne by done.
Qed.

(** *** Cursors on a well-formed list *)

Lemma cend_run h l : cend (h, l) = Ret (endIterator l) (h, l).
Proof. done. Qed.

Lemma cbegin_run h l nodes :
  is_list h l nodes → cbegin (h, l) = Ret (mkIt (head (nodes.*1 ++ [lastGuard l]))) (h, l).
Proof.
  intros Hlist. pose proof Hlist as (_ & _ & _ & _ & _ & Hsz & _ & Hend).
  unfold cbegin. unfold bind at 1, isEmpty, bind at 1, this at 1, ret at 1. cbn [snd].
  destruct nodes as [|[a x] nodes].
  - rewrite bool_decide_eq_true_2 by done. lsimpl. by rewrite Hend.
  - rewrite bool_decide_eq_false_2 by (cbn in Hsz; lia).
    unfold bind. by rewrite (getFirst_run h l ((a, x) :: nodes) a).
Qed.

Lemma list_deref_at h l n1 a x n2 it :
  is_list h l (n1 ++ (a, x) :: n2) → currentNode it = Some a →
  ConstIterator_deref it (h, l) = Ret x (h, l).
Proof.
  intros Hlist Hit. pose proof Hlist as (_ & _ & _ & _ & _ & _ & _ & Hend).
  destruct (unlink_spec h l n1 a x n2 Hlist)
    as (left & right & _ & _ & _ & _ & Hav & _ & Halg & _).
  unfold ConstIterator_deref, throwIfEnd. unfold bind at 1, bind at 1.
  rewrite cend_run. unfold it_eq. rewrite Hend, Hit. cbn [currentNode].
  rewrite bool_decide_eq_false_2 by congruence. unfold ret at 1, on_fst. cbn [fst snd].
  by rewrite (get_value_run _ _ x).
Qed.

Lemma list_preinc_at h l n1 a x n2 it :
  is_list h l (n1 ++ (a, x) :: n2) → currentNode it = Some a →
  ConstIterator_preinc it (h, l) = Ret (mkIt (head (n2.*1 ++ [lastGuard l]))) (h, l).
Proof.
  intros Hlist Hit. pose proof Hlist as (_ & _ & _ & _ & _ & _ & _ & Hend).
  destruct (unlink_spec h l n1 a x n2 Hlist)
    as (left & right & _ & Hhead & _ & Han & _ & _ & Halg & _).
  unfold ConstIterator_preinc, throwIfEnd. unfold bind at 1, bind at 1.
  rewrite cend_run. unfold it_eq. rewrite Hend, Hit. cbn [currentNode].
  rewrite bool_decide_eq_false_2 by congruence. unfold ret at 1.
  unfold bind, on_fst. cbn [fst snd].
  by rewrite (get_next_run _ _ (Some right)), Hhead.
Qed.

Lemma predec_at h l n1 a x n2 it :
  is_list h l (n1 ++ (a, x) :: n2) → n1 ≠ [] → currentNode it = Some a →
  ConstIterator_predec it (h, l) = Ret (mkIt (last (firstGuard l :: n1.*1))) (h, l).
Proof.
  intros Hlist Hn1 Hit. pose proof Hlist as (Hnd & _ & _ & _ & _ & _ & _ & Hend).
  destruct (unlink_spec h l n1 a x n2 Hlist)
    as (left & right & Hlast & _ & Hap & _ & _ & _ & Halg & _).
  unfold ConstIterator_predec, throwIfBegin. unfold bind at 1, bind at 1.
  rewrite (cbegin_run _ _ _ Hlist). unfold it_eq. rewrite Hit. cbn [currentNode].
  destruct n1 as [|[b y] n1]; [done|]. cbn [fmap list_fmap app head fst].
  rewrite bool_decide_eq_false_2.
  2:{ intros [= ->]. unfold path in Hnd. rewrite fmap_app in Hnd. cbn in Hnd.
      revert Hnd. rewrite !NoDup_cons, !NoDup_app, !NoDup_cons. set_solver. }
  unfold ret at 1. unfold bind, on_fst. cbn [fst snd].
  by rewrite (get_prev_run _ _ (Some left)), <- Hlast.
Qed.

(** The forward traversal yields the elements in order. *)
Lemma list_traverse_spec n2 : ∀ h l n1 it fuel,
  is_list h l (n1 ++ n2) → currentNode it = head (n2.*1 ++ [lastGuard l]) →
  (length n2 < fuel)%nat →
  traverse fuel it (h, l) = Ret (Some n2.*2) (h, l).
Proof.
  induction n2 as [|[a x] n2 IH]; intros h l n1 it fuel Hlist Hit Hfuel.
  all: destruct fuel as [|fuel]; [cbn in Hfuel; lia|].
  all: pose proof Hlist as (_ & _ & _ & _ & _ & _ & _ & Hend).
  all: cbn [traverse]; unfold bind at 1; rewrite cend_run.
  - unfold it_eq. rewrite Hend, Hit. cbn. by rewrite bool_decide_eq_true_2.
  - cbn [fmap list_fmap app head fst] in Hit.
    destruct (unlink_spec h l n1 a x n2 Hlist)
      as (left & right & _ & _ & _ & _ & _ & _ & Halg & _).
    unfold it_eq. rewrite Hend, Hit. cbn [currentNode].
    rewrite bool_decide_eq_false_2 by congruence.
    unfold bind at 1. rewrite (list_deref_at h l n1 a x n2) by done.
    unfold bind at 1. rewrite (list_preinc_at h l n1 a x n2) by done.
    unfold bind at 1. rewrite (IH h l (n1 ++ [(a, x)])); [done|by rewrite <- app_assoc|done|].
    cbn in Hfuel. lia.
Qed.

Lemma list_to_list_spec h l nodes fuel :
  is_list h l nodes → (length nodes < fuel)%nat →
  to_list fuel (h, l) = Ret (Some nodes.*2) (h, l).
Proof.
  intros Hlist Hfuel. unfold to_list. unfold bind. rewrite (cbegin_run _ _ _ Hlist).
  by apply (list_traverse_spec nodes h l []).
Qed.

(** *** Freeing a run of nodes *)

Lemma lookup_delete_all (ks : list loc) : ∀ h x,
  delete_all ks h !! x = if decide (x ∈ ks) then None else h !! x.
Proof.
  induction ks as [|k ks IH]; intros h x; cbn [delete_all foldl].
  - rewrite decide_False; [done|]. apply not_elem_of_nil.
  - fold (delete_all ks (delete k h)). rewrite IH.
    destruct (decide (x = k)) as [->|Hne].
    + rewrite lookup_delete_eq. rewrite (decide_True (P := k ∈ k :: ks)) by set_solver.
      by case_decide.
    + rewrite lookup_delete_ne by done.
      repeat case_decide; try done; set_solver.
Qed.

Lemma next_of_delete_all ks h x :
  next_of (delete_all ks h) x = if decide (x ∈ ks) then None else next_of h x.
Proof. unfold next_of. rewrite lookup_delete_all. by case_decide. Qed.

Lemma prev_of_delete_all ks h x :
  prev_of (delete_all ks h) x = if decide (x ∈ ks) then None else prev_of h x.
Proof. unfold prev_of. rewrite lookup_delete_all. by case_decide. Qed.

Lemma value_of_delete_all ks h x :
  value_of (delete_all ks h) x = if decide (x ∈ ks) then None else value_of h x.
Proof. unfold value_of. rewrite lookup_delete_all. by case_decide. Qed.

Lemma live_nodes_bound (ks : list loc) h :
  NoDup ks → (∀ k, k ∈ ks → is_Some (h !! k)) → (length ks ≤ base.size h)%nat.
Proof.
  intros Hnd Hlive.
  rewrite <- (size_list_to_set (C := gset loc) ks Hnd), <- size_dom.
  apply subseteq_size. intros k Hk. apply elem_of_dom, Hlive. set_solver.
Qed.

Lemma linked_follows h a (rest0 : list loc) : linked h (a :: rest0) → follows h a rest0.
Proof.
  revert a. induction rest0 as [|b rest0 IH]; intros a; [done|].
  cbn [linked follows]. intros (? & _ & ?). split; [done|]. by apply IH.
Qed.

Lemma follows_frame h h' a (rest0 : list loc) :
  follows h a rest0 → (∀ x, x ∈ a :: rest0 → next_of h' x = next_of h x) →
  follows h' a rest0.
Proof.
  revert a. induction rest0 as [|b rest0 IH]; intros a; [done|].
  cbn [follows]. intros (? & ?) Hn. rewrite Hn by set_solver. split; [done|].
  apply IH; [done|]. intros x Hx. apply Hn. set_solver.
Qed.

Lemma follows_app_l h a (ks ks' : list loc) : follows h a (ks ++ ks') → follows h a ks.
Proof.
  revert a. induction ks as [|k ks IH]; intros a; [done|].
  cbn [app follows]. intros [? ?]. split; [done|]. by apply IH.
Qed.

Lemma follows_app_r h a (pre : list loc) b (post : list loc) :
  follows h a (pre ++ b :: post) → follows h b post.
Proof.
  revert a. induction pre as [|c pre IH]; intros a; cbn [app follows]; [tauto|].
  intros (_ & ?). by eapply IH.
Qed.

(** The loop of [deleteRange] walks the run [mid] by [next], frees its
    nodes and counts them. *)
Lemma deleteRange_loop_spec l right (mid : list loc) : ∀ h cur cnt fuel,
  endIterator l = mkIt (Some (lastGuard l)) →
  NoDup (mid ++ [right]) → lastGuard l ∉ mid →
  head (mid ++ [right]) = Some cur →
  follows h cur (tail (mid ++ [right])) →
  (∀ x, x ∈ mid → is_Some (h !! x)) →
  (length mid ≤ fuel)%nat → 0 ≤ cnt → cnt + Z.of_nat (length mid) < size_max →
  deleteRange_loop fuel (mkIt (Some cur)) (mkIt (Some right)) cnt (h, l) =
  Ret (cnt + Z.of_nat (length mid)) (delete_all mid h, l).
Proof.
  induction mid as [|m mid IH]; intros h cur cnt fuel Hend Hnd Hlg Hhead Hfol Hlive Hfuel Hc Hmax.
  - cbn in Hhead. injection Hhead as <-.
    destruct fuel; cbn [deleteRange_loop]; unfold it_eq; cbn [currentNode];
      rewrite bool_decide_eq_true_2 by done; cbn; by rewrite Z.add_0_r.
  - cbn in Hhead. injection Hhead as <-.
    destruct fuel as [|fuel]; [cbn in Hfuel; lia|].
    cbn [app tail] in Hfol.
    assert (m ≠ right ∧ m ∉ mid ∧ NoDup (mid ++ [right])) as (Hmr & Hmm & Hnd').
    { revert Hnd. cbn. rewrite NoDup_cons. set_solver. }
    assert (m ≠ lastGuard l) as Hml by set_solver.
    destruct (mid ++ [right]) as [|b rest0] eqn:Hrest; [by destruct mid|].
    cbn [follows] in Hfol. destruct Hfol as [Hmn Hfol].
    cbn [deleteRange_loop]. unfold it_eq at 1. cbn [currentNode].
    rewrite bool_decide_eq_false_2 by congruence. cbn [negb].
    unfold Iterator_postinc, ConstIterator_preinc, throwIfEnd.
    unfold bind at 1, bind at 1, bind at 1, bind at 1. rewrite cend_run.
    unfold it_eq. rewrite Hend. cbn [currentNode].
    rewrite bool_decide_eq_false_2 by congruence. unfold ret at 1.
    unfold bind at 1, on_fst at 1. cbn [fst snd].
    rewrite (get_next_run _ _ (Some b)) by done. unfold ret at 1, ret at 1.
    unfold bind at 1, on_fst at 1. cbn [fst snd].
    rewrite dealloc_run by (apply Hlive; set_solver).
    rewrite wrap_small by (cbn [length] in Hmax; lia).
    rewrite (IH (delete m h) b (cnt + 1) fuel); try done.
    + cbn [delete_all foldl length]. f_equal. lia.
    + set_solver.
    + apply (follows_frame h); [done|]. intros x Hx. fields.
      rewrite decide_False; [done|]. intros ->. cbn [tail] in Hx. rewrite <- Hrest in Hx.
      apply elem_of_app in Hx as [Hx|Hx%list_elem_of_singleton]; done.
    + intros x Hx. rewrite lookup_delete_ne; [apply Hlive; set_solver|]. by intros ->.
    + cbn in Hfuel. lia.
    + lia.
    + cbn [length] in Hmax. lia.
Qed.

(** [erase(firstIncluded, lastExcluded)]: the run between the two cursors is
    cut out of the chain and freed. *)
Lemma list_erase_range_spec h l n1 mid n2 first last_ :
  is_list h l (n1 ++ mid ++ n2) →
  currentNode first = head (mid.*1 ++ n2.*1 ++ [lastGuard l]) →
  currentNode last_ = head (n2.*1 ++ [lastGuard l]) →
  ∃ h',
    erase_range first last_ (h, l) =
      Ret tt (h', mkList (firstGuard l) (lastGuard l)
                         (size l - Z.of_nat (length mid)) (endIterator l)) ∧
    is_list h' (mkList (firstGuard l) (lastGuard l)
                       (size l - Z.of_nat (length mid)) (endIterator l)) (n1 ++ n2).
Proof.
  intros Hlist Hfirst Hlast.
  pose proof Hlist as (Hnd & Hl & Hfg & Hlg & Hv & Hsz & Hmax & Hend).
  destruct (last (firstGuard l :: n1.*1)) as [left|] eqn:Hleft.
  2:{ apply last_None in Hleft. done. }
  destruct (head (n2.*1 ++ [lastGuard l])) as [right|] eqn:Hright.
  2:{ apply head_None in Hright. by destruct (n2.*1). }
  destruct (path_cut l n1 mid n2 left right Hleft Hright) as (pre & post & Hpre & Hpost & Hpath).
  rewrite Hpath in Hnd, Hl. rewrite Hpost in Hfirst.
  assert (∀ x, x ∈ pre ++ left :: mid.*1 ++ right :: post → is_Some (h !! x)) as Hlive.
  { intros x Hx. rewrite <- Hpath in Hx. by eapply is_list_live. }
  assert (left ≠ right ∧ left ∉ mid.*1 ∧ right ∉ mid.*1 ∧ NoDup (mid.*1 ++ [right]) ∧
          lastGuard l ∉ mid.*1 ∧ left ∉ post ∧ right ∉ pre)
    as (Hlr & Hlm & Hrm & Hndm & Hlgm & Hlpost & Hrpre).
  { assert (lastGuard l ∈ right :: post) by (rewrite <- Hpost; set_solver).
    revert Hnd.
    rewrite !NoDup_app, !NoDup_cons, !NoDup_app, !NoDup_cons, NoDup_nil. set_solver. }
  assert (∀ y, y ∈ path l (n1 ++ n2) → y ∉ mid.*1) as Hym.
  { intros y Hy. destruct (path_cut l n1 [] n2 left right Hleft Hright)
      as (pre' & post' & Hpre' & Hpost' & Hpath').
    rewrite Hpre in Hpre'. apply app_inj_tail in Hpre' as [<- _].
    rewrite Hpost in Hpost'. injection Hpost' as <-.
    cbn in Hpath'. rewrite Hpath' in Hy.
    revert Hnd.
    rewrite !NoDup_app, !NoDup_cons, !NoDup_app, !NoDup_cons. set_solver. }
  assert (∃ f rest0, mid.*1 ++ right :: post = f :: rest0) as (f & rest0 & Hrest)
    by (destruct (mid.*1); cbn; eauto).
  rewrite Hrest in Hfirst, Hl.
  cbn [head] in Hfirst.
  destruct (linked_pair _ _ _ _ _ Hl) as [Hln Hfp].
  assert (linked h (f :: rest0)) as Hmidl.
  { change (pre ++ left :: f :: rest0) with (pre ++ [left] ++ f :: rest0) in Hl.
    rewrite app_assoc in Hl. by apply linked_app_r in Hl. }
  unfold erase_range. unfold bind at 1, on_fst at 1. cbn [fst snd]. rewrite Hfirst.
  rewrite (get_prev_run _ _ (Some left)) by done.
  unfold bind at 1, on_fst at 1. cbn [fst snd]. rewrite Hlast.
  rewrite collapseNodes_run by (apply Hlive; set_solver).
  set (h1 := upd_prev right (Some left) (upd_next left (Some right) h)).
  unfold deleteRange. unfold bind at 1, get at 1. unfold bind at 1. cbn [fst].
  replace (mkIt (currentNode first)) with first
    by (destruct first; cbn in *; congruence).
  assert (first = mkIt (Some f)) as -> by (destruct first; cbn in *; congruence).
  assert (last_ = mkIt (Some right)) as -> by (destruct last_; cbn in *; congruence).
  assert (length mid.*1 = length mid) as Hlenm by apply length_fmap.
  rewrite (deleteRange_loop_spec l right (mid.*1) h1 f 0); try done.
  - unfold bind, this, set_size. cbn [fst snd].
    rewrite !length_app in Hsz. rewrite Hlenm, Z.add_0_l.
    rewrite wrap_small by lia.
    eexists. split; [done|].
    apply (is_list_remove h _ l n1 mid n2 left right); try done.
    + rewrite next_of_delete_all. rewrite decide_False by done. unfold h1. fields.
      repeat case_decide; try done. by rewrite Hln.
    + rewrite prev_of_delete_all. rewrite decide_False by done. unfold h1. fields.
      repeat case_decide; try done.
      destruct (prev_of h right) eqn:Hpr; [done|].
      assert (is_Some (prev_of h right)) as [? ?]; [|congruence].
      apply live_prev_of, Hlive. set_solver.
    + intros y Hy Hyl. rewrite next_of_delete_all, decide_False by (by apply Hym).
      unfold h1. fields. by repeat case_decide.
    + intros y Hy Hyl. rewrite prev_of_delete_all, decide_False by (by apply Hym).
      unfold h1. fields. by repeat case_decide.
    + intros y Hy. rewrite value_of_delete_all, decide_False by (by apply Hym).
      unfold h1. by fields.
  - revert Hrest. clear. destruct (mid.*1); cbn; congruence.
  - assert (f :: tail (mid.*1 ++ [right]) = mid.*1 ++ [right]) as Hft
      by (revert Hrest; clear; destruct (mid.*1); cbn; congruence).
    apply (follows_frame h).
    + apply linked_follows in Hmidl. apply (follows_app_l _ _ _ post).
      revert Hrest Hmidl. clear. destruct (mid.*1) as [|m mid1]; cbn.
      * by intros [= <- <-].
      * intros [= <- <-]. by rewrite <- app_assoc.
    + intros x Hx. rewrite Hft in Hx. unfold h1. fields. rewrite decide_False; [done|].
      intros ->. apply elem_of_app in Hx as [Hx|Hx%list_elem_of_singleton]; done.
  - intros x Hx. unfold h1. apply live_upd_prev, live_upd_next, Hlive. set_solver.
  - apply live_nodes_bound.
    + by apply NoDup_app in Hndm as [? _].
    + intros x Hx. unfold h1. apply live_upd_prev, live_upd_next, Hlive. set_solver.
  - rewrite !length_app in Hsz. rewrite Hlenm. lia.
Qed.

(** *** Destruction *)

Lemma deleteList_loop_spec l (ks : list loc) : ∀ h cur fuel,
  NoDup (ks ++ [lastGuard l]) →
  head (ks ++ [lastGuard l]) = Some cur →
  follows h cur (tail (ks ++ [lastGuard l])) →
  (∀ x, x ∈ ks → is_Some (h !! x)) →
  (length ks ≤ fuel)%nat →
  deleteList_loop fuel (Some cur) (h, l) = Ret tt (delete_all ks h, l).
Proof.
  induction ks as [|m ks IH]; intros h cur fuel Hnd Hhead Hfol Hlive Hfuel.
  - cbn in Hhead. injection Hhead as <-.
    destruct fuel; cbn [deleteList_loop]; unfold bind, this; cbn [snd];
      by rewrite bool_decide_eq_true_2.
  - cbn in Hhead. injection Hhead as <-.
    destruct fuel as [|fuel]; [cbn in Hfuel; lia|].
    assert (m ≠ lastGuard l ∧ m ∉ ks ∧ NoDup (ks ++ [lastGuard l])) as (Hml & Hmm & Hnd').
    { revert Hnd. cbn. rewrite NoDup_cons, elem_of_app, list_elem_of_singleton. tauto. }
    assert (∃ b rest0, ks ++ [lastGuard l] = b :: rest0) as (b & rest0 & Hrest)
      by (destruct ks; cbn; eauto).
    cbn [app tail] in Hfol. rewrite Hrest in Hfol. cbn [follows] in Hfol.
    destruct Hfol as [Hmn Hfol].
    cbn [deleteList_loop]. unfold bind at 1, this at 1. cbn [snd].
    rewrite bool_decide_eq_false_2 by congruence.
    unfold bind at 1, on_fst at 1. cbn [fst snd].
    rewrite (get_next_run _ _ (Some b)) by done.
    unfold bind at 1, on_fst at 1. cbn [fst snd].
    rewrite dealloc_run by (apply Hlive; apply elem_of_cons; by left).
    rewrite (IH (delete m h) b fuel); try done.
    + by rewrite Hrest.
    + rewrite Hrest. cbn [tail]. apply (follows_frame h); [done|].
      intros x Hx. fields. rewrite decide_False; [done|]. intros ->.
      rewrite <- Hrest in Hx.
      apply elem_of_app in Hx as [Hx|Hx%list_elem_of_singleton]; done.
    + intros x Hx. rewrite lookup_delete_ne; [apply Hlive; apply elem_of_cons; by right|].
      by intros ->.
    + cbn in Hfuel. lia.
Qed.

Lemma is_list_empty_size h l : is_list h l [] → l = mkList (firstGuard l) (lastGuard l) 0 (endIterator l).
Proof. intros (_ & _ & _ & _ & _ & Hsz & _). destruct l. cbn in *. by subst. Qed.

(** [deleteList()] frees every value node and leaves the empty chain. *)
Lemma deleteList_spec h l nodes :
  is_list h l nodes →
  ∃ h',
    deleteList (h, l) = Ret tt (h', mkList (firstGuard l) (lastGuard l) 0 (endIterator l)) ∧
    is_list h' (mkList (firstGuard l) (lastGuard l) 0 (endIterator l)) [] ∧
    (∀ x, x ∈ nodes.*1 → h' !! x = None) ∧
    (∀ x, x ∉ path l nodes → h' !! x = h !! x).
Proof.
  intros Hlist.
  pose proof Hlist as (Hnd & Hl & Hfg & Hlg & Hv & Hsz & Hmax & Hend).
  destruct (is_list_first _ _ _ Hlist) as (right & Hhead & Hfn & Hrp & Hin & Hne).
  destruct (is_list_last _ _ _ Hlist) as (left & Hlast & Hlp & Hln & Hlin & Hlne).
  unfold deleteList. unfold bind at 1, this at 1. cbn [snd].
  unfold bind at 1, on_fst at 1. cbn [fst snd]. rewrite (get_next_run _ _ _ Hfn).
  unfold bind at 1, on_fst at 1. cbn [fst snd]. rewrite (get_prev_run _ _ _ Hlp).
  destruct nodes as [|[a x] nodes].
  - cbn in Hhead, Hlast. injection Hhead as <-. injection Hlast as <-.
    rewrite !bool_decide_eq_true_2 by done. cbn [andb]. unfold ret.
    rewrite <- (is_list_empty_size _ _ Hlist).
    exists h. split; [done|]. split; [done|]. split; [|done].
    intros x Hx. by apply elem_of_nil in Hx.
  - cbn in Hhead. injection Hhead as <-.
    assert (a ≠ lastGuard l) as Hal.
    { revert Hnd. unfold path. cbn. rewrite !NoDup_cons, !elem_of_app, list_elem_of_singleton.
      intros (_ & ? & _) ->. tauto. }
    rewrite bool_decide_eq_false_2 by congruence. cbn [andb].
    unfold bind at 1. rewrite (getFirst_run h l ((a, x) :: nodes) a) by done.
    unfold bind at 1, get at 1. cbn [fst].
    set (ks := ((a, x) :: nodes).*1) in *.
    assert (NoDup (ks ++ [lastGuard l])) as Hndk.
    { revert Hnd. unfold path. rewrite NoDup_cons. tauto. }
    assert (∀ y, y ∈ ks → is_Some (h !! y)) as Hlive.
    { intros y Hy. apply (is_list_live _ _ _ _ Hlist). unfold path.
      apply elem_of_cons. right. apply elem_of_app. by left. }
    unfold bind at 1.
    rewrite (deleteList_loop_spec l ks h a (base.size h)); try done.
    + unfold collapseList. unfold bind at 1, this at 1. cbn [snd].
      unfold bind at 1, on_fst at 1. cbn [fst snd].
      assert (firstGuard l ∉ ks ∧ lastGuard l ∉ ks ∧ firstGuard l ≠ lastGuard l)
        as (Hfk & Hlk & Hfl).
      { revert Hnd. unfold path. fold ks.
        rewrite NoDup_cons, NoDup_app, elem_of_app, list_elem_of_singleton.
        intros (Hf & _ & Hd & _). split; [tauto|]. split; [|tauto].
        intros Hin'. apply (Hd _ Hin'). by apply list_elem_of_singleton. }
      rewrite collapseNodes_run.
      2:{ rewrite lookup_delete_all, decide_False by done.
          apply (is_list_live _ _ _ _ Hlist). unfold path. apply elem_of_cons. by left. }
      2:{ rewrite lookup_delete_all, decide_False by done.
          apply (is_list_live _ _ _ _ Hlist). unfold path. apply elem_of_cons. right.
          apply elem_of_app. right. by apply list_elem_of_singleton. }
      unfold set_size. cbn [fst snd].
      eexists. split; [done|]. split; [|split].
      * replace 0 with (size l - Z.of_nat (length ((a, x) :: nodes))) by lia.
        rewrite <- (app_nil_r ((a, x) :: nodes)) in Hlist.
        apply (is_list_remove h _ l [] ((a, x) :: nodes) [] (firstGuard l) (lastGuard l));
          try done.
        -- fields. rewrite next_of_delete_all.
           repeat case_decide; try done. by rewrite Hfn.
        -- fields. rewrite prev_of_delete_all.
           repeat case_decide; try done. by rewrite Hlp.
        -- intros y Hy Hyl. fields. rewrite next_of_delete_all.
           repeat case_decide; try done.
           unfold path in Hy. cbn in Hy. apply elem_of_cons in Hy as [->|Hy]; [done|].
           apply list_elem_of_singleton in Hy as ->. done.
        -- intros y Hy Hyl. fields. rewrite prev_of_delete_all.
           repeat case_decide; try done.
           unfold path in Hy. cbn in Hy. apply elem_of_cons in Hy as [->|Hy]; [done|].
           apply list_elem_of_singleton in Hy as ->. done.
        -- intros y Hy. fields. rewrite value_of_delete_all.
           repeat case_decide; try done.
           unfold path in Hy. cbn in Hy. apply elem_of_cons in Hy as [->|Hy]; [done|].
           apply list_elem_of_singleton in Hy as ->. done.
      * intros y Hy. unfold upd_prev, upd_next.
        assert (lastGuard l ≠ y) by (by intros <-).
        assert (firstGuard l ≠ y) by (by intros <-).
        rewrite !lookup_alter_ne by done.
        by rewrite lookup_delete_all, decide_True.
      * intros y Hy. unfold upd_prev, upd_next.
        assert (y ≠ firstGuard l ∧ y ≠ lastGuard l ∧ y ∉ ks) as (? & ? & ?).
        { revert Hy. unfold path. fold ks.
          rewrite not_elem_of_cons, not_elem_of_app, list_elem_of_singleton. tauto. }
        rewrite !lookup_alter_ne by done.
        by rewrite lookup_delete_all, decide_False.
    + unfold path in Hl. subst ks. cbn in Hl |- *. destruct Hl as (_ & _ & Hl).
      by apply linked_follows in Hl.
    + apply live_nodes_bound; [|done]. by apply NoDup_app in Hndk as [? _].
Qed.

(** [~LinkedList()] frees every node of the chain, each one once. *)
Lemma LinkedList_dtor_spec h l nodes :
  is_list h l nodes →
  ∃ h' l',
    LinkedList_dtor (h, l) = Ret tt (h', l') ∧
    (∀ x, x ∈ path l nodes → h' !! x = None) ∧
    (∀ x, x ∉ path l nodes → h' !! x = h !! x).
Proof.
  intros Hlist.
  destruct (deleteList_spec _ _ _ Hlist) as (h1 & Hrun & Hlist1 & Hgone & Hframe).
  pose proof Hlist1 as (Hnd & _). unfold path in Hnd. cbn in Hnd.
  assert (firstGuard l ≠ lastGuard l) as Hfl.
  { apply NoDup_cons in Hnd as [Hnd _]. intros Heq. apply Hnd. rewrite Heq.
    by apply list_elem_of_singleton. }
  unfold LinkedList_dtor. unfold bind at 1. rewrite Hrun.
  unfold bind at 1, this at 1. cbn [snd firstGuard lastGuard].
  unfold bind at 1, on_fst at 1. cbn [fst snd].
  rewrite dealloc_run.
  2:{ apply (is_list_live _ _ _ _ Hlist1). unfold path. cbn. apply elem_of_cons. by left. }
  unfold on_fst. cbn [fst snd].
  rewrite dealloc_run.
  2:{ rewrite lookup_delete_ne by done.
      apply (is_list_live _ _ _ _ Hlist1). unfold path. cbn. apply elem_of_cons. right.
      by apply list_elem_of_singleton. }
  eexists _, _. split; [done|]. split.
  - intros x Hx. unfold path in Hx.
    destruct (decide (x = lastGuard l)) as [->|Hxl]; [by rewrite lookup_delete_eq|].
    rewrite lookup_delete_ne by done.
    destruct (decide (x = firstGuard l)) as [->|Hxf]; [by rewrite lookup_delete_eq|].
    rewrite lookup_delete_ne by done. apply Hgone.
    revert Hx. rewrite elem_of_cons, elem_of_app, list_elem_of_singleton. tauto.
  - intros x Hx.
    assert (x ≠ firstGuard l ∧ x ≠ lastGuard l) as [? ?].
    { revert Hx. unfold path.
      rewrite not_elem_of_cons, not_elem_of_app, list_elem_of_singleton. tauto. }
    rewrite !lookup_delete_ne by done. by apply Hframe.
Qed.

(** *** Moving *)

(** A chain stays a chain when every [next] and [prev] that one of its links
    uses is kept. *)
Lemma linked_frame_inner h h' (pth : list loc) :
  linked h pth →
  (∀ pre x y post, pth = pre ++ x :: y :: post →
     next_of h' x = next_of h x ∧ prev_of h' y = prev_of h y) →
  linked h' pth.
Proof.
  induction pth as [|a pth IH]; [done|]. destruct pth as [|b pth]; [done|].
  intros (Hn & Hp & Hl) Hkeep. cbn [linked].
  destruct (Hkeep [] a b pth eq_refl) as [-> ->]. split; [done|]. split; [done|].
  apply IH; [done|]. intros pre x y post Heq. apply (Hkeep (a :: pre) x y post).
  by rewrite Heq.
Qed.

(** In a chain without repetition, a node with a successor is not the last
    node and a node with a predecessor is not the first. *)
Lemma NoDup_inner (pre : list loc) x y (post : list loc) a z :
  NoDup (pre ++ x :: y :: post) →
  head (pre ++ x :: y :: post) = Some a →
  last (pre ++ x :: y :: post) = Some z →
  x ≠ z ∧ y ≠ a.
Proof.
  intros Hnd Hhead Hlast. split.
  - intros ->.
    change (pre ++ z :: y :: post) with (pre ++ [z] ++ y :: post) in Hlast, Hnd.
    rewrite app_assoc in Hlast, Hnd. rewrite last_app_cons in Hlast.
    apply last_Some_elem_of in Hlast.
    apply NoDup_app in Hnd as (_ & Hd & _). apply (Hd z); [|done].
    apply elem_of_app. right. by apply list_elem_of_singleton.
  - intros ->. destruct pre as [|c pre]; cbn in Hhead; injection Hhead as ->.
    + cbn in Hnd. apply NoDup_cons in Hnd as [Hnd _]. apply Hnd. apply elem_of_cons. by left.
    + cbn in Hnd. apply NoDup_cons in Hnd as [Hnd _]. apply Hnd.
      apply elem_of_app. right. apply elem_of_cons. right. apply elem_of_cons. by left.
Qed.

Lemma call_run {A : Type} (m : M (gmap loc (@Node T) * LinkedList) A) h l o (r : A) h' o' :
  m (h, o) = Ret r (h', o') → call o m (h, l) = Ret (r, o') (h', l).
Proof. intros Hm. unfold call. cbn [fst snd]. by rewrite Hm. Qed.

(** [moveFrom(other)] into an empty list: the value nodes of [other] end up
    between the guards of [*this], and [other] is collapsed. *)
Lemma moveFrom_spec h l o nodes :
  is_list h l [] → is_list h o nodes →
  firstGuard l ∉ path o nodes → lastGuard l ∉ path o nodes →
  ∃ h',
    moveFrom o (h, l) =
      Ret (mkList (firstGuard o) (lastGuard o) 0 (endIterator o))
          (h', mkList (firstGuard l) (lastGuard l) (size o) (endIterator l)) ∧
    is_list h' (mkList (firstGuard l) (lastGuard l) (size o) (endIterator l)) nodes ∧
    is_list h' (mkList (firstGuard o) (lastGuard o) 0 (endIterator o)) [] ∧
    (∀ x, x ≠ firstGuard l → x ≠ lastGuard l → x ∉ path o nodes → h' !! x = h !! x).
Proof.
  intros Hl Ho Hfgo Hlgo.
  pose proof Hl as (Hndl & Hll & Hfgv & Hlgv & _ & Hszl & _ & Hendl).
  pose proof Ho as (Hndo & Hlo & Hfov & Hlov & Hvo & Hszo & Hmaxo & Hendo).
  destruct (is_list_first _ _ _ Ho) as (r1 & Hhead & Hfon & Hr1p & Hr1in & Hr1ne).
  destruct (is_list_last _ _ _ Ho) as (z & Hlast & Hlop & Hzn & Hzin & Hzne).
  set (fg := firstGuard l) in *. set (lg := lastGuard l) in *.
  set (fo := firstGuard o) in *. set (lgo := lastGuard o) in *.
  apply NoDup_path in Hndl as (_ & Hfl & _ & _).
  apply NoDup_path in Hndo as (Hfon' & Hfolgo & Hlgon & Hndn).
  assert (fo ∈ path o nodes) as Hfoin by (apply elem_of_path; by left).
  assert (lgo ∈ path o nodes) as Hlgoin by (apply elem_of_path; by right; right).
  assert (fg ≠ fo ∧ fg ≠ lgo ∧ lg ≠ fo ∧ lg ≠ lgo ∧ fg ≠ r1 ∧ lg ≠ r1 ∧ fg ≠ z ∧ lg ≠ z)
    as (? & ? & ? & ? & ? & ? & ? & ?) by (repeat split; by intros <-).
  assert (is_Some (h !! fg)) as Lfg
    by (apply (is_list_live _ _ _ _ Hl), elem_of_path; by left).
  assert (is_Some (h !! lg)) as Llg
    by (apply (is_list_live _ _ _ _ Hl), elem_of_path; by right; right).
  assert (is_Some (h !! fo)) as Lfo by (by eapply is_list_live).
  assert (is_Some (h !! lgo)) as Llgo by (by eapply is_list_live).
  assert (is_Some (h !! r1)) as Lr1 by (by eapply is_list_live).
  assert (is_Some (h !! z)) as Lz by (by eapply is_list_live).
  assert (next_of h fg = Some (Some lg) ∧ prev_of h lg = Some (Some fg)) as [Hfgn Hlgp].
  { unfold path in Hll. cbn in Hll. tauto. }
  set (h1 := upd_prev r1 (Some fg) (upd_next fg (Some r1) h)).
  set (r2 := if decide (lgo = r1) then fg else z).
  set (h2 := upd_prev lg (Some r2) (upd_next r2 (Some lg) h1)).
  set (h3 := upd_prev lgo (Some fo) (upd_next fo (Some lgo) h2)).
  assert (is_Some (h !! r2)) as Lr2 by (unfold r2; by case_decide).
  assert (moveFrom o (h, l) =
          Ret (mkList fo lgo 0 (endIterator o)) (h3, mkList fg lg (size o) (endIterator l)))
    as Hrun.
  { unfold moveFrom. unfold bind at 1, this at 1. cbn [snd].
    unfold bind at 1. rewrite (call_run _ _ _ _ _ _ _ (getFirst_run _ _ _ _ Ho Hhead)).
    cbn [fst snd]. unfold bind at 1, on_fst at 1. cbn [fst snd].
    fold fg. rewrite collapseNodes_run by done. fold h1.
    assert (getLast (h1, o) = Ret (Some r2) (h1, o)) as Hgl.
    { lsimpl. fold lgo. rewrite (get_prev_run _ _ (Some r2)); [done|].
      unfold h1, r2. fields. repeat case_decide; try done. by rewrite Hlop. }
    unfold bind at 1. rewrite (call_run _ _ _ _ _ _ _ Hgl).
    cbn [fst snd]. unfold bind at 1, on_fst at 1. cbn [fst snd]. fold lg.
    rewrite collapseNodes_run by (unfold h1; by apply live_upd_prev, live_upd_next).
    fold h2. unfold bind at 1, set_size at 1. cbn [fst snd].
    assert (collapseList (h2, o) = Ret tt (h3, mkList fo lgo 0 (endIterator o))) as Hcl.
    { unfold collapseList. lsimpl. fold fo lgo.
      rewrite collapseNodes_run; [done|..];
        unfold h2, h1; by apply live_upd_prev, live_upd_next, live_upd_prev, live_upd_next. }
    unfold bind. rewrite (call_run _ _ _ _ _ _ _ Hcl). done. }
  exists h3. split; [done|].
  assert (∀ y, value_of h3 y = value_of h y) as Hval
    by (intros y; unfold h3, h2, h1; by fields).
  split; [|split].
  - unfold is_list. cbn [firstGuard lastGuard size endIterator].
    change (path (mkList fg lg (size o) (endIterator l)) nodes) with (fg :: nodes.*1 ++ [lg]).
    assert (fg ∉ nodes.*1 ∧ lg ∉ nodes.*1) as (Hfgn' & Hlgn').
    { split; intros Hin; [apply Hfgo|apply Hlgo]; apply elem_of_path; by right; left. }
    split.
    { apply (NoDup_path (mkList fg lg (size o) (endIterator l))). done. }
    split.
    { destruct nodes as [|[a x] nodes].
      - cbn in Hhead, Hlast. injection Hhead as <-. injection Hlast as <-.
        assert (r2 = fg) as Hr2 by (unfold r2; by rewrite decide_True).
        cbn. unfold h3, h2, h1. rewrite Hr2. fields.
        rewrite !(decide_True (P := fg = fg)), !(decide_True (P := lg = lg)) by done.
        rewrite !(decide_False (P := fg = fo)), !(decide_False (P := lg = lgo)) by done.
        rewrite Hfgn, Hlgp. done.
      - cbn in Hhead. injection Hhead as <-.
        assert (lgo ≠ a) as Hlga
          by (intros <-; apply Hlgon; cbn; apply elem_of_cons; by left).
        assert (r2 = z) as Hr2 by (unfold r2; by rewrite decide_False).
        assert (∃ pre, ((a, x) :: nodes).*1 = pre ++ [z]) as [pre Hpre].
        { apply last_Some. cbn [fmap list_fmap fst] in Hlast |- *.
          by rewrite last_cons_cons in Hlast. }
        set (ks := ((a, x) :: nodes).*1) in *.
        assert (linked h ks) as Hks.
        { unfold path in Hlo. apply (linked_app_r h [fo]) in Hlo.
          by apply linked_app_l in Hlo. }
        assert (linked h3 ks) as Hks3.
        { apply (linked_frame_inner h); [done|]. intros pre' x' y' post' Heq.
          assert (x' ∈ ks ∧ y' ∈ ks) as [Hx' Hy'].
          { rewrite Heq. split; apply elem_of_app; right; apply elem_of_cons; [by left|].
            right. apply elem_of_cons. by left. }
          destruct (NoDup_inner pre' x' y' post' a z) as [Hxz Hya].
          - by rewrite <- Heq.
          - by rewrite <- Heq.
          - rewrite <- Heq, Hpre. apply last_snoc.
          - unfold h3, h2, h1. rewrite Hr2. fields.
            assert (x' ≠ fo ∧ x' ≠ fg ∧ y' ≠ lgo ∧ y' ≠ lg) as (? & ? & ? & ?)
              by (repeat split; by intros ->).
            by rewrite !decide_False by done. }
        assert (next_of h3 fg = Some (Some a) ∧ prev_of h3 a = Some (Some fg) ∧
                next_of h3 z = Some (Some lg) ∧ prev_of h3 lg = Some (Some z))
          as (Hk1 & Hk2 & Hk3 & Hk4).
        { unfold h3, h2, h1. rewrite Hr2. fields.
          assert (a ≠ lgo ∧ a ≠ lg ∧ z ≠ fo ∧ z ≠ fg) as (? & ? & ? & ?)
            by (repeat split; congruence).
          repeat split; repeat case_decide; try done;
            rewrite ?Hfgn, ?Hr1p, ?Hzn, ?Hlgp; done. }
        change (fg :: ks ++ [lg]) with ([fg] ++ ks ++ [lg]).
        rewrite Hpre, <- app_assoc. cbn [app].
        apply (linked_glue h3 [] fg); [done|].
        rewrite app_comm_cons. apply linked_glue.
        + rewrite <- app_comm_cons, <- Hpre. unfold ks. cbn [fmap list_fmap fst].
          split; [done|]. split; [done|]. exact Hks3.
        + cbn. tauto. }
    rewrite !Hval. split; [done|]. split; [done|].
    split. { eapply Forall_impl; [exact Hvo|]. intros n Hn. cbn beta. by rewrite Hval. }
    done.
  - unfold is_list, path. cbn [firstGuard lastGuard size endIterator fmap list_fmap app].
    split. { apply (NoDup_path (mkList fo lgo 0 (endIterator o)) []). cbn.
             repeat split; try done; try apply not_elem_of_nil. apply NoDup_nil_2. }
    split. { cbn. unfold h3. fields. rewrite !decide_True by done.
             assert (is_Some (next_of h2 fo)) as [? ->].
             { apply live_next_of. unfold h2, h1.
               by apply live_upd_prev, live_upd_next, live_upd_prev, live_upd_next. }
             assert (is_Some (prev_of h2 lgo)) as [? ->].
             { apply live_prev_of. unfold h2, h1.
               by apply live_upd_prev, live_upd_next, live_upd_prev, live_upd_next. }
             done. }
    rewrite !Hval. split; [done|]. split; [done|]. split; [done|].
    split; [done|]. split; [apply size_max_pos|done].
  - intros x Hx0 Hx1 Hx2. unfold h3, h2, h1, upd_prev, upd_next.
    assert (x ≠ fg ∧ x ≠ lg ∧ x ≠ fo ∧ x ≠ lgo ∧ x ≠ r1 ∧ x ≠ r2) as (? & ? & ? & ? & ? & ?).
    { repeat split; try (by intros ->). unfold r2. case_decide; by intros ->. }
    by rewrite !lookup_alter_ne by done.
Qed.

(** [LinkedList(LinkedList &&other)]. *)
Lemma LinkedList_move_ctor_spec h o nodes :
  is_list h o nodes →
  ∃ h' l,
    LinkedList_move_ctor o h =
      Ret (l, mkList (firstGuard o) (lastGuard o) 0 (endIterator o)) h' ∧
    is_list h' l nodes ∧
    is_list h' (mkList (firstGuard o) (lastGuard o) 0 (endIterator o)) [] ∧
    firstGuard o ∉ path l nodes ∧ lastGuard o ∉ path l nodes.
Proof.
  intros Ho.
  destruct (LinkedList_ctor_spec h) as (h1 & l & Hctor & Hl & Hfg & Hlg & Hframe).
  assert (∀ x, x ∈ path o nodes → is_Some (h !! x)) as Hlive
    by (intros x Hx; by eapply is_list_live).
  assert (is_list h1 o nodes) as Ho1.
  { apply (is_list_agree h); [done|]. intros x Hx. by apply Hframe, Hlive. }
  assert (firstGuard l ∉ path o nodes) as Hfgo.
  { intros Hin. apply Hfg, elem_of_dom. by apply Hlive. }
  assert (lastGuard l ∉ path o nodes) as Hlgo.
  { intros Hin. apply Hlg, elem_of_dom. by apply Hlive. }
  destruct (moveFrom_spec h1 l o nodes Hl Ho1 Hfgo Hlgo) as (h' & Hmv & Hl' & Ho' & _).
  unfold LinkedList_move_ctor. unfold bind. rewrite Hctor. unfold construct. rewrite Hmv.
  cbn [fst snd]. eexists _, _. split; [done|]. split; [done|]. split; [done|].
  pose proof Ho as (Hnd & _). apply NoDup_path in Hnd as (Hfn & Hfl & Hln & _).
  split; rewrite elem_of_path; cbn [firstGuard lastGuard]; intros [Heq|[Hin|Heq]]; try done.
  - apply Hfgo. rewrite <- Heq. apply elem_of_path. by left.
  - apply Hlgo. rewrite <- Heq. apply elem_of_path. by left.
  - apply Hfgo. rewrite <- Heq. apply elem_of_path. by right; right.
  - apply Hlgo. rewrite <- Heq. apply elem_of_path. by right; right.
Qed.

(** [operator=(LinkedList &&other)]. *)
Lemma list_move_assign_spec h l nl o no :
  is_list h l nl → is_list h o no →
  (∀ x, x ∈ path l nl → x ∉ path o no) →
  ∃ h',
    move_assign o (h, l) =
      Ret (mkList (firstGuard o) (lastGuard o) 0 (endIterator o))
          (h', mkList (firstGuard l) (lastGuard l) (size o) (endIterator l)) ∧
    is_list h' (mkList (firstGuard l) (lastGuard l) (size o) (endIterator l)) no ∧
    is_list h' (mkList (firstGuard o) (lastGuard o) 0 (endIterator o)) [] ∧
    (∀ x, x ∈ nl.*1 → h' !! x = None).
Proof.
  intros Hl Ho Hdisj.
  pose proof Hl as (_ & _ & _ & _ & _ & Hsz & _).
  assert (firstGuard l ∉ path o no) as Hfgo by (apply Hdisj, elem_of_path; by left).
  assert (lastGuard l ∉ path o no) as Hlgo by (apply Hdisj, elem_of_path; by right; right).
  unfold move_assign. unfold bind at 1, isEmpty, bind at 1, this at 1, ret at 1. cbn [snd].
  destruct nl as [|[a x] nl].
  - rewrite bool_decide_eq_true_2 by done. cbn [negb]. unfold bind at 1, ret at 1.
    destruct (moveFrom_spec h l o no Hl Ho Hfgo Hlgo) as (h' & Hmv & Hl' & Ho' & _).
    exists h'. split; [done|]. split; [done|]. split; [done|].
    intros y Hy. by apply elem_of_nil in Hy.
  - rewrite bool_decide_eq_false_2 by (cbn in Hsz; lia). cbn [negb].
    destruct (deleteList_spec _ _ _ Hl) as (h1 & Hdel & Hl1 & Hgone & Hframe).
    unfold bind at 1. rewrite Hdel.
    assert (is_list h1 o no) as Ho1.
    { apply (is_list_agree h); [done|]. intros y Hy. apply Hframe.
      intros Hin. by apply (Hdisj _ Hin). }
    destruct (moveFrom_spec h1 _ o no Hl1 Ho1 Hfgo Hlgo) as (h' & Hmv & Hl' & Ho' & Hfr).
    cbn [firstGuard lastGuard endIterator] in Hmv, Hl', Hfr.
    exists h'. split; [done|]. split; [done|]. split; [done|].
    intros y Hy.
    pose proof Hl as (Hnd & _). apply NoDup_path in Hnd as (Hfn & _ & Hln & _).
    rewrite Hfr; [by apply Hgone| | |].
    + by intros ->.
    + by intros ->.
    + apply Hdisj, elem_of_path. by right; left.
Qed.

(** After a move, destroying the source and then the target frees every
    node once: neither destructor faults. *)
Lemma dtor_both h la na lb :
  is_list h la na → is_list h lb [] →
  firstGuard lb ∉ path la na → lastGuard lb ∉ path la na →
  ∃ h1 lb1 h2 la2,
    LinkedList_dtor (h, lb) = Ret tt (h1, lb1) ∧
    LinkedList_dtor (h1, la) = Ret tt (h2, la2) ∧
    (∀ x, x ∈ path la na → h2 !! x = None) ∧
    h2 !! firstGuard lb = None ∧ h2 !! lastGuard lb = None.
Proof.
  intros Ha Hb Hfb Hlb.
  destruct (LinkedList_dtor_spec _ _ _ Hb) as (h1 & lb1 & Hd1 & Hgone1 & Hframe1).
  assert (is_list h1 la na) as Ha1.
  { apply (is_list_agree h); [done|]. intros x Hx. apply Hframe1.
    rewrite elem_of_path. cbn. intros [-> | [Hin | ->]]; try done. by apply elem_of_nil in Hin. }
  destruct (LinkedList_dtor_spec _ _ _ Ha1) as (h2 & la2 & Hd2 & Hgone2 & Hframe2).
  exists h1, lb1, h2, la2. split; [done|]. split; [done|]. split; [done|].
  split; (rewrite Hframe2; [apply Hgone1; apply elem_of_path|done]).
  - by left.
  - by right; right.
Qed.

(** Sequences of calls. *)
Lemma list_appends_spec items : ∀ h l nodes,
  is_list h l nodes →
  Z.of_nat (length nodes) + Z.of_nat (length items) < size_max →
  ∃ h' l' nodes',
    appends items (h, l) = Ret tt (h', l') ∧ is_list h' l' nodes' ∧
    nodes'.*2 = nodes.*2 ++ items.
Proof.
  induction items as [|x items IH]; intros h l nodes Hl Hlen.
  - exists h, l, nodes. by rewrite app_nil_r.
  - cbn [length] in Hlen.
    destruct (list_append_spec h l nodes x Hl) as (h1 & n & Happ & Hl1); [lia|].
    destruct (IH _ _ _ Hl1) as (h' & l' & nodes' & Hrun & Hl' & Hvals).
    { rewrite length_app. cbn [length]. lia. }
    exists h', l', nodes'. split; [|split; [done|]].
    + cbn [appends]. unfold bind at 1. by rewrite Happ.
    + rewrite Hvals, fmap_app. cbn. by rewrite <- app_assoc.
Qed.

Lemma list_prepends_spec items : ∀ h l nodes,
  is_list h l nodes →
  Z.of_nat (length nodes) + Z.of_nat (length items) < size_max →
  ∃ h' l' nodes',
    prepends items (h, l) = Ret tt (h', l') ∧ is_list h' l' nodes' ∧
    nodes'.*2 = reverse items ++ nodes.*2.
Proof.
  induction items as [|x items IH]; intros h l nodes Hl Hlen.
  - by exists h, l, nodes.
  - cbn [length] in Hlen.
    destruct (list_prepend_spec h l nodes x Hl) as (h1 & n & Happ & Hl1); [lia|].
    destruct (IH _ _ _ Hl1) as (h' & l' & nodes' & Hrun & Hl' & Hvals).
    { cbn [length]. lia. }
    exists h', l', nodes'. split; [|split; [done|]].
    + cbn [prepends]. unfold bind at 1. by rewrite Happ.
    + rewrite Hvals, reverse_cons. cbn. by rewrite <- app_assoc.
Qed.

Lemma list_getSize_run h (l : LinkedList) : getSize (h, l) = Ret (size l) (h, l).
Proof. done. Qed.

(** *** What a failed call leaves *)

Lemma no_throw_new n : no_throw (new (T := T) n).
Proof. by intros h e s'. Qed.

Lemma no_throw_get_value p : no_throw (get_value (T := T) p).
Proof.
  apply no_throw_bind; [apply no_throw_load|intros n].
  destruct (value n); [apply no_throw_ret|apply no_throw_fault].
Qed.

Lemma no_throw_dynamic_cast_ValueNode p : no_throw (dynamic_cast_ValueNode (T := T) p).
Proof.
  destruct p; [|apply no_throw_ret].
  apply no_throw_bind; [apply no_throw_load|intros; apply no_throw_ret].
Qed.

Lemma no_throw_insertBetween p q r : no_throw (insertBetween (T := T) p q r).
Proof.
  unfold insertBetween.
  repeat first [apply no_throw_set_next|apply no_throw_set_prev
               |apply no_throw_bind; [|intros ?]].
Qed.

Ltac no_throw_step :=
  first
    [ apply no_throw_ret | apply no_throw_fault | apply no_throw_this
    | apply no_throw_set_size | apply no_throw_deleteNode
    | apply no_throw_on_fst
    | apply no_throw_new | apply no_throw_get_next | apply no_throw_get_prev
    | apply no_throw_get_value | apply no_throw_dynamic_cast_ValueNode
    | apply no_throw_collapseNodes | apply no_throw_insertBetween
    | apply no_throw_bind; [|intros ?] ].

Lemma no_throw_append x : no_throw (append (T := T) x).
Proof. unfold append, getLast. repeat no_throw_step. Qed.

Lemma no_throw_prepend x : no_throw (prepend (T := T) x).
Proof. unfold prepend, getFirst. repeat no_throw_step. Qed.

Lemma no_throw_insert it x : no_throw (insert (T := T) it x).
Proof. unfold insert. repeat no_throw_step. Qed.

Lemma wp_list_throwIfCollectionEmpty e
    (Q : unit → gmap loc (@Node T) * LinkedList → Prop) E h l :
  (size l = 0 → E e (h, l)) → (size l ≠ 0 → Q tt (h, l)) →
  wp (throwIfCollectionEmpty e) Q E (h, l).
Proof.
  intros HE HQ. unfold wp, throwIfCollectionEmpty, isEmpty, this, bind, ret, throw.
  cbn [fst snd]. case_bool_decide; auto.
Qed.

Lemma wp_list_this (Q : LinkedList → gmap loc (@Node T) * LinkedList → Prop) E s :
  Q (snd s) s → wp this Q E s.
Proof. done. Qed.

(** Reading a field of a node leaves the state as it is. *)
Lemma wp_get_next p (Q : pointer → gmap loc (@Node T) * LinkedList → Prop) E h l :
  (∀ q, Q q (h, l)) → wp (on_fst (get_next p)) Q E (h, l).
Proof.
  intros HQ. unfold wp, on_fst, get_next, load, bind, ret. cbn [fst snd].
  destruct p as [a|]; [|done]. by destruct (h !! a).
Qed.

Lemma wp_get_prev p (Q : pointer → gmap loc (@Node T) * LinkedList → Prop) E h l :
  (∀ q, Q q (h, l)) → wp (on_fst (get_prev p)) Q E (h, l).
Proof.
  intros HQ. unfold wp, on_fst, get_prev, load, bind, ret. cbn [fst snd].
  destruct p as [a|]; [|done]. by destruct (h !! a).
Qed.

Lemma wp_get_value p (Q : T → gmap loc (@Node T) * LinkedList → Prop) E h l :
  (∀ x, Q x (h, l)) → wp (on_fst (get_value p)) Q E (h, l).
Proof.
  intros HQ. unfold wp, on_fst, get_value, load, bind, ret, fault. cbn [fst snd].
  destruct p as [a|]; [|done]. destruct (h !! a) as [n|]; [|done]. by destruct (value n).
Qed.

Lemma wp_cbegin (Q : ConstIterator → gmap loc (@Node T) * LinkedList → Prop) E h l :
  (∀ it, Q it (h, l)) → wp cbegin Q E (h, l).
Proof.
  intros HQ. unfold cbegin, isEmpty. apply wp_bind, wp_bind, wp_list_this, wp_ret.
  cbn [snd]. destruct (bool_decide (size l = 0)).
  - by apply wp_bind, wp_list_this, wp_ret.
  - unfold getFirst. apply wp_bind, wp_bind, wp_list_this. cbn [snd].
    apply wp_get_next. intros q. by apply wp_ret.
Qed.

Lemma wp_list_throwIfEnd it e (Q : unit → gmap loc (@Node T) * LinkedList → Prop) E h l :
  (it_eq it (endIterator l) = true → E e (h, l)) →
  (it_eq it (endIterator l) = false → Q tt (h, l)) →
  wp (throwIfEnd it e) Q E (h, l).
Proof.
  intros HE HQ. unfold wp, throwIfEnd, cend, this, bind, ret, throw. cbn [snd].
  destruct (it_eq it (endIterator l)); auto.
Qed.

Lemma wp_list_deref it (Q : T → gmap loc (@Node T) * LinkedList → Prop) E h l :
  (∀ x, Q x (h, l)) → E out_of_range (h, l) → wp (ConstIterator_deref it) Q E (h, l).
Proof.
  intros HQ HE. unfold ConstIterator_deref.
  apply wp_bind, wp_list_throwIfEnd; [done|intros _]. by apply wp_get_value.
Qed.

Lemma wp_list_preinc it (Q : ConstIterator → gmap loc (@Node T) * LinkedList → Prop) E h l :
  (∀ it', Q it' (h, l)) → E out_of_range (h, l) → wp (ConstIterator_preinc it) Q E (h, l).
Proof.
  intros HQ HE. unfold ConstIterator_preinc.
  apply wp_bind, wp_list_throwIfEnd; [done|intros _].
  apply wp_bind, wp_get_next. intros q. by apply wp_ret.
Qed.

Lemma wp_list_predec it (Q : ConstIterator → gmap loc (@Node T) * LinkedList → Prop) E h l :
  (∀ it', Q it' (h, l)) → E out_of_range (h, l) → wp (ConstIterator_predec it) Q E (h, l).
Proof.
  intros HQ HE. unfold ConstIterator_predec, throwIfBegin.
  apply wp_bind, wp_bind, wp_cbegin. intros b.
  destruct (it_eq it b); [by apply wp_throw|apply wp_ret].
  apply wp_bind, wp_get_prev. intros q. by apply wp_ret.
Qed.

(** A public call that throws leaves the list and the memory as they
    were. *)
Lemma list_wp_run op h l nodes :
  is_list h l nodes → admissible l nodes op →
  wp (run op) (λ _ _, True) (λ _ s', s' = (h, l)) (h, l).
Proof.
  intros Hl Hadm.
  destruct op as [| |x|x|pos x| | |pos|first last| | |it|it|it|it|it]; cbn [run].
  - done.
  - done.
  - by apply wp_no_throw; [apply no_throw_append|].
  - by apply wp_no_throw; [apply no_throw_prepend|].
  - by apply wp_no_throw; [apply no_throw_insert|].
  - apply wp_discard. unfold popFirst.
    apply wp_bind, wp_list_throwIfCollectionEmpty; [done|intros _].
    apply wp_no_throw; [|done]. unfold getFirstValueNode, getFirst. repeat no_throw_step.
  - apply wp_discard. unfold popLast.
    apply wp_bind, wp_list_throwIfCollectionEmpty; [done|intros _].
    apply wp_no_throw; [|done]. unfold getLastValueNode, getLast. repeat no_throw_step.
  - unfold wp. destruct (erase pos (h, l)) as [|e s'|] eqn:Her; [done| |done].
    by apply list_erase_throw in Her as (_ & -> & _).
  - destruct Hadm as (n1 & mid & n2 & -> & Hf & Hla).
    destruct (list_erase_range_spec h l n1 mid n2 first last Hl Hf Hla) as (h' & Hrun & _).
    unfold wp. by rewrite Hrun.
  - by apply wp_discard, wp_cbegin.
  - done.
  - by apply wp_discard, wp_list_deref.
  - by apply wp_discard, wp_list_preinc.
  - by apply wp_discard, wp_list_predec.
  - apply wp_discard. unfold ConstIterator_postinc. apply wp_bind, wp_list_preinc; [|done].
    intros it'. by apply wp_ret.
  - apply wp_discard. unfold ConstIterator_postdec. apply wp_bind, wp_list_preinc; [|done].
    intros it'. by apply wp_ret.
Qed.

(** *** Ownership, copies and cursor steps *)
(** *** Insertion before a position, and what it leaves untouched *)

Lemma is_list_neighbours h l n1 n2 :
  is_list h l (n1 ++ n2) →
  ∃ left right,
    last (firstGuard l :: n1.*1) = Some left ∧
    head (n2.*1 ++ [lastGuard l]) = Some right ∧
    next_of h left = Some (Some right) ∧
    prev_of h right = Some (Some left) ∧
    left ∈ path l (n1 ++ n2) ∧ right ∈ path l (n1 ++ n2).
Proof.
  intros Hlist. pose proof Hlist as (Hnd & Hl & _).
  destruct (last (firstGuard l :: n1.*1)) as [left|] eqn:Hleft.
  2:{ apply last_None in Hleft. done. }
  destruct (head (n2.*1 ++ [lastGuard l])) as [right|] eqn:Hright.
  2:{ apply head_None in Hright. by destruct (n2.*1). }
  destruct (path_cut l n1 [] n2 left right Hleft Hright) as (pre & post & Hpre & Hpost & Hpath).
  cbn [app fmap list_fmap] in Hpath. rewrite Hpath in Hl.
  destruct (linked_pair _ _ _ _ _ Hl) as [Hln Hrp].
  exists left, right. split; [done|]. split; [done|]. split; [done|]. split; [done|].
  rewrite Hpath. split.
  - apply elem_of_app. right. apply elem_of_cons. by left.
  - apply elem_of_app. right. apply elem_of_cons. right. apply elem_of_cons. by left.
Qed.

Lemma list_insert_framed h l n1 n2 it x :
  is_list h l (n1 ++ n2) →
  currentNode it = head (n2.*1 ++ [lastGuard l]) →
  Z.of_nat (length (n1 ++ n2)) + 1 < size_max →
  ∃ h',
    insert it x (h, l) =
      Ret tt (h', mkList (firstGuard l) (lastGuard l) (size l + 1) (endIterator l)) ∧
    is_list h' (mkList (firstGuard l) (lastGuard l) (size l + 1) (endIterator l))
            (n1 ++ (fresh (dom h), x) :: n2) ∧
    (∀ y, y ∉ path l (n1 ++ n2) → y ≠ fresh (dom h) → h' !! y = h !! y).
Proof.
  intros Hlist Hit Hroom.
  destruct (is_list_neighbours _ _ _ _ Hlist)
    as (left & right & Hleft & Hright & Hln & Hrp & Hlin & Hrin).
  pose proof (is_list_fresh _ _ _ Hlist) as Hfresh.
  pose proof Hlist as (Hnd & Hl & Hfg & Hlg & Hv & Hsz & Hmax & Hend).
  set (n := fresh (dom h)) in *.
  set (h1 := <[n := mkNode None None (Some x)]> h).
  assert (n ≠ left) as Hnl by (by intros ->).
  assert (n ≠ right) as Hnr by (by intros ->).
  assert (is_Some (h1 !! left)) as Hl1.
  { unfold h1. rewrite lookup_insert_ne by done. by eapply is_list_live. }
  assert (is_Some (h1 !! right)) as Hl2.
  { unfold h1. rewrite lookup_insert_ne by done. by eapply is_list_live. }
  assert (is_Some (h1 !! n)) as Hl3 by (unfold h1; by rewrite lookup_insert_eq).
  unfold insert. unfold bind at 1, on_fst, new. cbn [fst snd]. fold n h1.
  rewrite Hit, Hright.
  unfold bind at 1. cbn [fst snd]. rewrite (get_prev_run _ _ (Some left)).
  2:{ unfold h1. fields. by rewrite decide_False. }
  unfold bind at 1. cbn [fst snd]. rewrite insertBetween_run by done. lsimpl.
  rewrite Hsz, wrap_small by lia. rewrite <- Hsz.
  eexists. split; [done|]. split.
  - apply (is_list_insert h _ l n1 n2 left right n x); try done.
    + unfold h1. fields. repeat case_decide; try done. by rewrite Hln.
    + unfold h1. fields. by repeat case_decide.
    + unfold h1. fields. by repeat case_decide.
    + unfold h1. fields. repeat case_decide; try done. by rewrite Hrp.
    + unfold h1. fields. by repeat case_decide.
    + intros y Hy Hyl. unfold h1. fields. repeat case_decide; try done. by subst.
    + intros y Hy Hyl. unfold h1. fields. repeat case_decide; try done. by subst.
    + intros y Hy. unfold h1. fields. repeat case_decide; try done. by subst.
  - intros y Hy Hyn.
    assert (y ≠ left) by (by intros ->). assert (y ≠ right) by (by intros ->).
    unfold upd_prev, upd_next, h1.
    by rewrite !lookup_alter_ne, lookup_insert_ne by done.
Qed.

(** [append(item)] is [insert(end(), item)]. *)
Lemma append_is_insert_at_end x h l :
  endIterator l = mkIt (Some (lastGuard l)) →
  append x (h, l) = (e <- cend ;; insert e x) (h, l).
Proof.
  intros Hend. unfold bind at 1, cend, bind at 1, this at 1, ret at 1. cbn [snd].
  rewrite Hend. unfold append, insert, getLast, bind, this, on_fst, new.
  cbn [fst snd currentNode].
  destruct (get_prev _ _) as [r s1| |]; [|done..]. cbn [fst snd].
  by destruct (insertBetween _ _ _ _).
Qed.

Lemma list_append_framed h l nodes x :
  is_list h l nodes → Z.of_nat (length nodes) + 1 < size_max →
  ∃ h',
    append x (h, l) =
      Ret tt (h', mkList (firstGuard l) (lastGuard l) (size l + 1) (endIterator l)) ∧
    is_list h' (mkList (firstGuard l) (lastGuard l) (size l + 1) (endIterator l))
            (nodes ++ [(fresh (dom h), x)]) ∧
    (∀ y, y ∉ path l nodes → y ≠ fresh (dom h) → h' !! y = h !! y).
Proof.
  intros Hlist Hroom. pose proof Hlist as (_ & _ & _ & _ & _ & _ & _ & Hend).
  rewrite append_is_insert_at_end by done.
  unfold bind at 1, cend, bind at 1, this at 1, ret at 1. cbn [snd].
  rewrite <- (app_nil_r nodes) in Hlist, Hroom.
  destruct (list_insert_framed h l nodes [] (endIterator l) x Hlist) as (h' & Hrun & Hl' & Hfr);
    [by rewrite Hend|done|].
  rewrite app_nil_r in Hfr. by exists h'.
Qed.

(** [prepend(item)] is [insert(begin(), item)] on a well-formed list. *)
Lemma prepend_is_insert_at_begin x h l nodes :
  is_list h l nodes →
  prepend x (h, l) = (b <- cbegin ;; insert b x) (h, l).
Proof.
  intros Hlist.
  destruct (is_list_first _ _ _ Hlist) as (right & Hhead & Hfn & Hrp & Hin & Hne).
  pose proof (is_list_fresh _ _ _ Hlist) as Hfresh.
  unfold bind at 1. rewrite (cbegin_run _ _ _ Hlist), Hhead.
  set (n := fresh (dom h)) in *.
  assert (n ≠ right) as Hnr by (by intros ->).
  assert (n ≠ firstGuard l) as Hnf.
  { intros ->. apply Hfresh, elem_of_path. by left. }
  set (h1 := <[n := mkNode None None (Some x)]> h).
  assert (next_of h1 (firstGuard l) = Some (Some right)) as Hfn1.
  { unfold h1. fields. by rewrite decide_False. }
  assert (prev_of h1 right = Some (Some (firstGuard l))) as Hrp1.
  { unfold h1. fields. by rewrite decide_False. }
  transitivity
    (match insertBetween (Some (firstGuard l)) (Some right) (Some n) h1 with
     | Ret _ s1 => Ret tt (s1, mkList (firstGuard l) (lastGuard l) (wrap (size l + 1))
                                      (endIterator l))
     | Throw e s1 => Throw e (s1, l)
     | Fault => Fault
     end).
  - unfold prepend, getFirst. unfold bind at 1, on_fst at 1, new. cbn [fst snd]. fold n h1.
    unfold bind at 1, bind at 1, this at 1, on_fst at 1. cbn [fst snd].
    rewrite (get_next_run _ _ (Some right)) by done.
    unfold bind at 1, this at 1. cbn [snd]. unfold bind, on_fst. cbn [fst snd].
    by destruct (insertBetween _ _ _ _).
  - unfold insert. unfold bind at 1, on_fst at 1, new. cbn [fst snd currentNode]. fold n h1.
    unfold bind at 1, on_fst at 1. cbn [fst snd].
    rewrite (get_prev_run _ _ (Some (firstGuard l))) by done.
    unfold bind, this, on_fst. cbn [fst snd].
    by destruct (insertBetween _ _ _ _).
Qed.

Lemma list_prepend_framed h l nodes x :
  is_list h l nodes → Z.of_nat (length nodes) + 1 < size_max →
  ∃ h',
    prepend x (h, l) =
      Ret tt (h', mkList (firstGuard l) (lastGuard l) (size l + 1) (endIterator l)) ∧
    is_list h' (mkList (firstGuard l) (lastGuard l) (size l + 1) (endIterator l))
            ((fresh (dom h), x) :: nodes) ∧
    (∀ y, y ∉ path l nodes → y ≠ fresh (dom h) → h' !! y = h !! y).
Proof.
  intros Hlist Hroom.
  rewrite (prepend_is_insert_at_begin _ _ _ nodes) by done.
  unfold bind at 1. rewrite (cbegin_run _ _ _ Hlist).
  by apply (list_insert_framed h l [] nodes).
Qed.

(** *** Ownership: the nodes of a list are its own *)

Lemma LinkedList_ctor_owns h :
  ∃ h' l, LinkedList_ctor h = Ret l h' ∧ owns h h' l [].
Proof.
  destruct (LinkedList_ctor_spec h) as (h' & l & Hrun & Hl & Hfg & Hlg & _).
  exists h', l. split; [done|]. split; [done|]. split.
  - intros x Hx. apply elem_of_path in Hx as [->|[Hx| ->]].
    + by apply not_elem_of_dom.
    + by apply elem_of_nil in Hx.
    + by apply not_elem_of_dom.
  - intros x Hx. revert Hrun.
    unfold LinkedList_ctor, new. unfold bind at 1. unfold bind at 1.
    set (fg := fresh (dom h)).
    set (h1 := <[fg := mkNode None None None]> h).
    set (lg := fresh (dom h1)).
    set (h2 := <[lg := mkNode None None None]> h1).
    assert (lg ≠ fg) as Hne.
    { intros Heq. apply (is_fresh (dom h1)). fold lg. rewrite Heq. unfold h1.
      rewrite dom_insert_L. set_solver. }
    unfold bind. rewrite collapseNodes_run.
    2:{ unfold h2, h1. rewrite lookup_insert_ne, lookup_insert_eq by done. done. }
    2:{ unfold h2. by rewrite lookup_insert_eq. }
    intros [= <- <-]. cbn [firstGuard lastGuard] in Hx.
    assert (x ≠ fg ∧ x ≠ lg) as [? ?].
    { split; intros ->; apply Hx, elem_of_path; cbn; [by left|by right; right]. }
    unfold upd_prev, upd_next, h2, h1.
    by rewrite !lookup_alter_ne, !lookup_insert_ne by done.
Qed.

Lemma list_owns_insert h0 h l n1 n2 it x :
  owns h0 h l (n1 ++ n2) →
  currentNode it = head (n2.*1 ++ [lastGuard l]) →
  Z.of_nat (length (n1 ++ n2)) + 1 < size_max →
  ∃ h' n,
    insert it x (h, l) =
      Ret tt (h', mkList (firstGuard l) (lastGuard l) (size l + 1) (endIterator l)) ∧
    owns h0 h' (mkList (firstGuard l) (lastGuard l) (size l + 1) (endIterator l))
         (n1 ++ (n, x) :: n2).
Proof.
  intros (Hlist & Hnew & Hold) Hit Hroom.
  destruct (list_insert_framed h l n1 n2 it x Hlist Hit Hroom) as (h' & Hrun & Hl' & Hfr).
  pose proof (is_list_fresh _ _ _ Hlist) as Hfresh.
  exists h', (fresh (dom h)). split; [done|]. split; [done|].
  assert (∀ y, y ∈ path (mkList (firstGuard l) (lastGuard l) (size l + 1) (endIterator l))
                        (n1 ++ (fresh (dom h), x) :: n2) ↔
               y = fresh (dom h) ∨ y ∈ path l (n1 ++ n2)) as Hpath.
  { intros y. rewrite !elem_of_path. cbn [firstGuard lastGuard].
    rewrite !fmap_app, fmap_cons, !elem_of_app, elem_of_cons. cbn [fst]. tauto. }
  split.
  - intros y [->|Hy]%Hpath; [|by apply Hnew].
    rewrite <- Hold by done. apply not_elem_of_dom, is_fresh.
  - intros y Hy. rewrite <- Hold.
    + apply Hfr; intros Hin; apply Hy, Hpath; auto.
    + intros Hin. apply Hy, Hpath. auto.
Qed.

Lemma list_owns_append h0 h l nodes x :
  owns h0 h l nodes → Z.of_nat (length nodes) + 1 < size_max →
  ∃ h' n,
    append x (h, l) =
      Ret tt (h', mkList (firstGuard l) (lastGuard l) (size l + 1) (endIterator l)) ∧
    owns h0 h' (mkList (firstGuard l) (lastGuard l) (size l + 1) (endIterator l))
         (nodes ++ [(n, x)]).
Proof.
  intros Hown Hroom. pose proof Hown as ((_ & _ & _ & _ & _ & _ & _ & Hend) & _).
  rewrite append_is_insert_at_end by done.
  unfold bind at 1, cend, bind at 1, this at 1, ret at 1. cbn [snd].
  rewrite <- (app_nil_r nodes) in Hown, Hroom.
  apply (list_owns_insert h0 h l nodes []); [done|by rewrite Hend|done].
Qed.

Lemma list_owns_prepend h0 h l nodes x :
  owns h0 h l nodes → Z.of_nat (length nodes) + 1 < size_max →
  ∃ h' n,
    prepend x (h, l) =
      Ret tt (h', mkList (firstGuard l) (lastGuard l) (size l + 1) (endIterator l)) ∧
    owns h0 h' (mkList (firstGuard l) (lastGuard l) (size l + 1) (endIterator l))
         ((n, x) :: nodes).
Proof.
  intros Hown Hroom. pose proof Hown as (Hlist & _).
  rewrite (prepend_is_insert_at_begin _ _ _ nodes) by done.
  unfold bind at 1. rewrite (cbegin_run _ _ _ Hlist).
  by apply (list_owns_insert h0 h l [] nodes).
Qed.

Lemma list_owns_appends h0 items : ∀ h l nodes,
  owns h0 h l nodes →
  Z.of_nat (length nodes) + Z.of_nat (length items) < size_max →
  ∃ h' l' nodes',
    appends items (h, l) = Ret tt (h', l') ∧ owns h0 h' l' nodes' ∧
    nodes'.*2 = nodes.*2 ++ items.
Proof.
  induction items as [|x items IH]; intros h l nodes Hown Hlen.
  - exists h, l, nodes. by rewrite app_nil_r.
  - cbn [length] in Hlen.
    destruct (list_owns_append h0 h l nodes x Hown) as (h1 & n & Happ & Hown1); [lia|].
    destruct (IH _ _ _ Hown1) as (h' & l' & nodes' & Hrun & Hown' & Hvals).
    { rewrite length_app. cbn [length]. lia. }
    exists h', l', nodes'. split; [|split; [done|]].
    + cbn [appends]. unfold bind at 1. by rewrite Happ.
    + rewrite Hvals, fmap_app. cbn. by rewrite <- app_assoc.
Qed.

Lemma list_owns_prepends h0 items : ∀ h l nodes,
  owns h0 h l nodes →
  Z.of_nat (length nodes) + Z.of_nat (length items) < size_max →
  ∃ h' l' nodes',
    prepends items (h, l) = Ret tt (h', l') ∧ owns h0 h' l' nodes' ∧
    nodes'.*2 = reverse items ++ nodes.*2.
Proof.
  induction items as [|x items IH]; intros h l nodes Hown Hlen.
  - by exists h, l, nodes.
  - cbn [length] in Hlen.
    destruct (list_owns_prepend h0 h l nodes x Hown) as (h1 & n & Happ & Hown1); [lia|].
    destruct (IH _ _ _ Hown1) as (h' & l' & nodes' & Hrun & Hown' & Hvals).
    { cbn [length]. lia. }
    exists h', l', nodes'. split; [|split; [done|]].
    + cbn [prepends]. unfold bind at 1. by rewrite Happ.
    + rewrite Hvals, reverse_cons. cbn. by rewrite <- app_assoc.
Qed.

(** The destructor gives back exactly the memory the list took. *)
Lemma list_owns_dtor h0 h l nodes :
  owns h0 h l nodes → ∃ l', LinkedList_dtor (h, l) = Ret tt (h0, l').
Proof.
  intros (Hlist & Hnew & Hold).
  destruct (LinkedList_dtor_spec h l nodes Hlist) as (h' & l' & Hrun & Hgone & Hkept).
  exists l'. rewrite Hrun. do 2 f_equal. apply map_eq. intros x.
  destruct (decide (x ∈ path l nodes)) as [Hin|Hout].
  - by rewrite Hgone, Hnew.
  - by rewrite Hkept, Hold.
Qed.

(** *** Copies *)

Lemma list_copy_loop_spec n2 : ∀ fuel h l nodes other n1 it,
  is_list h l nodes → is_list h other (n1 ++ n2) →
  (∀ y, y ∈ path l nodes → y ∉ path other (n1 ++ n2)) →
  currentNode it = head (n2.*1 ++ [lastGuard other]) →
  Z.of_nat (length nodes) + Z.of_nat (length n2) < size_max →
  (length n2 ≤ fuel)%nat →
  ∃ h' nodes',
    copy_loop fuel other it (endIterator other) (h, l) =
      Ret other (h', mkList (firstGuard l) (lastGuard l)
                            (size l + Z.of_nat (length n2)) (endIterator l)) ∧
    is_list h' (mkList (firstGuard l) (lastGuard l)
                       (size l + Z.of_nat (length n2)) (endIterator l)) nodes' ∧
    nodes'.*2 = nodes.*2 ++ n2.*2 ∧
    is_list h' other (n1 ++ n2) ∧
    (∀ y, y ∈ nodes'.*1 → y ∈ nodes.*1 ∨ h !! y = None) ∧
    (∀ y, y ∉ path l nodes → is_Some (h !! y) → h' !! y = h !! y).
Proof.
  induction n2 as [|[a x] n2 IH]; intros fuel h l nodes other n1 it Hl Ho Hdisj Hit Hlen Hfuel.
  - pose proof Ho as (_ & _ & _ & _ & _ & _ & _ & Hend).
    assert (it_eq it (endIterator other) = true) as Heq.
    { unfold it_eq. rewrite Hend, Hit. by apply bool_decide_eq_true. }
    assert (copy_loop fuel other it (endIterator other) (h, l) = Ret other (h, l)) as ->.
    { destruct fuel; cbn [copy_loop]; by rewrite Heq. }
    cbn [length Z.of_nat]. rewrite Z.add_0_r.
    exists h, nodes. rewrite app_nil_r.
    replace (mkList (firstGuard l) (lastGuard l) (size l) (endIterator l)) with l
      by (by destruct l).
    split; [done|]. split; [done|]. split; [done|]. split; [done|].
    split; [intros y Hy; by left|done].
  - destruct fuel as [|fuel]; [cbn in Hfuel; lia|].
    pose proof Ho as (Hndo & _ & _ & _ & _ & _ & _ & Hend).
    cbn [fmap list_fmap fst app head] in Hit.
    assert (a ≠ lastGuard other) as Hane.
    { apply NoDup_path in Hndo as (_ & _ & Hlg & _). intros ->. apply Hlg.
      rewrite fmap_app. apply elem_of_app. right. cbn. apply elem_of_cons. by left. }
    assert (it_eq it (endIterator other) = false) as Hneq.
    { unfold it_eq. rewrite Hend, Hit. cbn. apply bool_decide_eq_false. congruence. }
    cbn [copy_loop]. rewrite Hneq. cbn [negb].
    unfold bind at 1.
    rewrite (call_run _ _ _ _ _ _ _ (list_deref_at h other n1 a x n2 it Ho Hit)).
    cbn [fst snd length] in *.
    destruct (list_append_framed h l nodes x Hl) as (h1 & Happ & Hl1 & Hfr1); [lia|].
    unfold bind at 1. rewrite Happ.
    set (n := fresh (dom h)) in *.
    set (l1 := mkList (firstGuard l) (lastGuard l) (size l + 1) (endIterator l)) in *.
    assert (n ∉ path other (n1 ++ (a, x) :: n2)) as Hno by (by apply is_list_fresh).
    assert (n ∉ path l nodes) as Hnl by (by apply is_list_fresh).
    assert (is_list h1 other (n1 ++ (a, x) :: n2)) as Ho1.
    { apply (is_list_agree h); [done|]. intros y Hy. apply Hfr1.
      - intros Hin. by apply (Hdisj y).
      - by intros ->. }
    unfold bind at 1.
    rewrite (call_run _ _ _ _ _ _ _ (list_preinc_at h1 other n1 a x n2 it Ho1 Hit)).
    cbn [fst snd].
    rewrite cons_middle, app_assoc in Ho1.
    destruct (IH fuel h1 l1 (nodes ++ [(n, x)]) other (n1 ++ [(a, x)])
                (mkIt (head (n2.*1 ++ [lastGuard other]))) Hl1 Ho1)
      as (h' & nodes' & Hrun & Hl' & Hvals & Ho' & Hnew & Hfr).
    { intros y Hy. rewrite <- app_assoc, <- cons_middle.
      apply elem_of_path in Hy. cbn [firstGuard lastGuard l1] in Hy.
      rewrite fmap_app, elem_of_app in Hy. cbn in Hy.
      destruct Hy as [->|[[Hy|Hy]| ->]].
      - apply Hdisj, elem_of_path. by left.
      - apply Hdisj, elem_of_path. by right; left.
      - apply list_elem_of_singleton in Hy as ->. done.
      - apply Hdisj, elem_of_path. by right; right. }
    { done. }
    { rewrite length_app. cbn [length]. lia. }
    { cbn in Hfuel. lia. }
    cbn [firstGuard lastGuard size endIterator l1] in Hrun, Hl'.
    replace (size l + 1 + Z.of_nat (length n2)) with (size l + Z.of_nat (S (length n2)))
      in Hrun, Hl' by lia.
    exists h', nodes'. split; [by rewrite Hend in Hrun |- *|]. split; [done|].
    split; [rewrite Hvals, fmap_app; cbn; by rewrite <- app_assoc|].
    split; [by rewrite cons_middle, app_assoc|]. split.
    + intros y Hy. destruct (Hnew y Hy) as [Hin|Hnone].
      * rewrite fmap_app, elem_of_app in Hin. destruct Hin as [Hin|Hin]; [by left|].
        cbn in Hin. apply list_elem_of_singleton in Hin as ->. right.
        apply not_elem_of_dom, is_fresh.
      * destruct (decide (y ∈ path l nodes)) as [Hyl|Hyl].
        -- apply (is_list_live _ _ _ _ Hl) in Hyl as Hlive.
           assert (y ∈ path l1 (nodes ++ [(n, x)])) as Hyl1.
           { apply elem_of_path. apply elem_of_path in Hyl. cbn [firstGuard lastGuard l1].
             rewrite fmap_app, elem_of_app. tauto. }
           apply (is_list_live _ _ _ _ Hl1) in Hyl1 as [? Hsome]. congruence.
        -- destruct (decide (y = n)) as [->|Hyn].
           ++ right. apply not_elem_of_dom, is_fresh.
           ++ right. by rewrite <- (Hfr1 y).
    + intros y Hy Hlive.
      assert (y ≠ n) as Hyn.
      { intros ->. apply (is_fresh (dom h)). by apply elem_of_dom. }
      rewrite Hfr.
      * by apply Hfr1.
      * intros Hin. apply elem_of_path in Hin. cbn [firstGuard lastGuard l1] in Hin.
        rewrite fmap_app, elem_of_app in Hin. cbn in Hin.
        destruct Hin as [->|[[Hin|Hin]| ->]].
        -- apply Hy, elem_of_path. by left.
        -- apply Hy, elem_of_path. by right; left.
        -- by apply list_elem_of_singleton in Hin.
        -- apply Hy, elem_of_path. by right; right.
      * rewrite Hfr1 by done. done.
Qed.

Lemma copyFrom_list_spec h l other nodes :
  is_list h l [] → is_list h other nodes →
  firstGuard l ∉ path other nodes → lastGuard l ∉ path other nodes →
  ∃ h' nodes',
    copyFrom_list other (h, l) =
      Ret other (h', mkList (firstGuard l) (lastGuard l) (size other) (endIterator l)) ∧
    is_list h' (mkList (firstGuard l) (lastGuard l) (size other) (endIterator l)) nodes' ∧
    nodes'.*2 = nodes.*2 ∧
    is_list h' other nodes ∧
    (∀ y, y ∈ nodes'.*1 → h !! y = None) ∧
    (∀ y, y ≠ firstGuard l → y ≠ lastGuard l → is_Some (h !! y) → h' !! y = h !! y).
Proof.
  intros Hl Ho Hfgo Hlgo.
  assert (∀ y, y ∈ path l ([] : list (loc * T)) → y ∉ path other nodes) as Hdisj.
  { intros y [->|[Hy| ->]]%elem_of_path; [done| |done]. by apply elem_of_nil in Hy. }
  pose proof Hl as (_ & _ & _ & _ & _ & Hszl & _).
  pose proof Ho as (_ & _ & _ & _ & _ & Hszo & Hmaxo & Hendo).
  cbn [length Z.of_nat] in Hszl.
  unfold copyFrom_list. unfold bind at 1.
  rewrite (call_run _ _ _ _ _ _ _ (cbegin_run h other nodes Ho)). cbn [fst snd].
  unfold bind at 1. rewrite (call_run _ _ _ _ _ _ _ (cend_run h other)). cbn [fst snd].
  destruct (list_copy_loop_spec nodes (S (Z.to_nat (size other))) h l [] other []
              (mkIt (head (nodes.*1 ++ [lastGuard other]))))
    as (h' & nodes' & Hrun & Hl' & Hvals & Ho' & Hnew & Hfr); try done.
  { cbn [length]. lia. }
  { lia. }
  rewrite Hszl, Z.add_0_l, <- Hszo in Hrun, Hl'.
  exists h', nodes'. split; [done|]. split; [done|]. split; [done|]. split; [done|].
  split.
  - intros y Hy. destruct (Hnew y Hy) as [Hin|Hnone]; [|done]. by apply elem_of_nil in Hin.
  - intros y Hyf Hyl Hlive. apply Hfr; [|done].
    intros [->|[Hy| ->]]%elem_of_path; [done| |done]. by apply elem_of_nil in Hy.
Qed.

(** [LinkedList(const LinkedList &other)]: a deep copy. *)
Lemma LinkedList_copy_ctor_spec h other nodes :
  is_list h other nodes →
  ∃ h' l nodes',
    LinkedList_copy_ctor other h = Ret (l, other) h' ∧
    is_list h' l nodes' ∧ nodes'.*2 = nodes.*2 ∧
    is_list h' other nodes ∧
    (∀ y, y ∈ path l nodes' → h !! y = None) ∧
    (∀ y, is_Some (h !! y) → h' !! y = h !! y).
Proof.
  intros Ho.
  destruct (LinkedList_ctor_spec h) as (h1 & l & Hctor & Hl & Hfg & Hlg & Hframe).
  assert (∀ x, x ∈ path other nodes → is_Some (h !! x)) as Hlive
    by (intros x Hx; by eapply is_list_live).
  assert (is_list h1 other nodes) as Ho1.
  { apply (is_list_agree h); [done|]. intros x Hx. by apply Hframe, Hlive. }
  assert (h !! firstGuard l = None ∧ h !! lastGuard l = None) as [Hfgn Hlgn]
    by (split; by apply not_elem_of_dom).
  destruct (copyFrom_list_spec h1 l other nodes Hl Ho1)
    as (h' & nodes' & Hrun & Hl' & Hvals & Ho' & Hnew & Hfr).
  { intros Hin. apply Hlive in Hin as [? ?]. congruence. }
  { intros Hin. apply Hlive in Hin as [? ?]. congruence. }
  unfold LinkedList_copy_ctor. unfold bind. rewrite Hctor. unfold construct. rewrite Hrun.
  cbn [fst snd].
  eexists h', _, nodes'. split; [done|]. split; [done|]. split; [done|]. split; [done|].
  split.
  - intros y [->|[Hy| ->]]%elem_of_path; cbn [firstGuard lastGuard]; [done| |done].
    apply Hnew in Hy. destruct (h !! y) eqn:Hhy; [|done].
    rewrite Hframe in Hy by done. congruence.
  - intros y Hy. rewrite Hfr.
    + by apply Hframe.
    + intros ->. destruct Hy. congruence.
    + intros ->. destruct Hy. congruence.
    + by rewrite Hframe.
Qed.

(** [operator=(const LinkedList &other)]. *)
Lemma list_copy_assign_spec h l nl other no :
  is_list h l nl → is_list h other no →
  (∀ y, y ∈ path l nl → y ∉ path other no) →
  ∃ h' nodes',
    copy_assign other (h, l) =
      Ret other (h', mkList (firstGuard l) (lastGuard l) (size other) (endIterator l)) ∧
    is_list h' (mkList (firstGuard l) (lastGuard l) (size other) (endIterator l)) nodes' ∧
    nodes'.*2 = no.*2 ∧
    is_list h' other no ∧
    (∀ y, y ∈ path other no → h' !! y = h !! y) ∧
    (∀ y, y ∈ nodes'.*1 → y ∉ path other no).
Proof.
  intros Hl Ho Hdisj.
  assert (∀ x, x ∈ path other no → is_Some (h !! x)) as Hlive
    by (intros x Hx; by eapply is_list_live).
  assert (∃ h1, (if negb (bool_decide (size l = 0)) then deleteList else ret tt) (h, l) =
                  Ret tt (h1, mkList (firstGuard l) (lastGuard l) 0 (endIterator l)) ∧
                is_list h1 (mkList (firstGuard l) (lastGuard l) 0 (endIterator l)) [] ∧
                (∀ x, x ∉ path l nl → h1 !! x = h !! x))
    as (h1 & Hclear & Hl1 & Hfr1).
  { pose proof Hl as (_ & _ & _ & _ & _ & Hsz & _).
    destruct nl as [|[a x] nl].
    - rewrite bool_decide_eq_true_2 by done. cbn [negb]. exists h.
      rewrite (is_list_empty_size _ _ Hl) at 1. split; [done|]. split; [|done].
      by rewrite <- (is_list_empty_size _ _ Hl).
    - rewrite bool_decide_eq_false_2 by (cbn in Hsz; lia). cbn [negb].
      destruct (deleteList_spec _ _ _ Hl) as (h1 & Hdel & Hl1 & _ & Hframe).
      by exists h1. }
  assert (is_list h1 other no) as Ho1.
  { apply (is_list_agree h); [done|]. intros y Hy. apply Hfr1.
    intros Hin. by apply (Hdisj _ Hin). }
  destruct (copyFrom_list_spec h1 _ other no Hl1 Ho1)
    as (h' & nodes' & Hrun & Hl' & Hvals & Ho' & Hnew & Hfr).
  { apply Hdisj, elem_of_path. by left. }
  { apply Hdisj, elem_of_path. by right; right. }
  cbn [firstGuard lastGuard endIterator] in Hrun, Hl', Hfr.
  unfold copy_assign. unfold bind at 1, isEmpty, bind at 1, this at 1, ret at 1. cbn [snd].
  unfold bind at 1. rewrite Hclear.
  exists h', nodes'. split; [done|]. split; [done|]. split; [done|]. split; [done|].
  split.
  - intros y Hy. rewrite Hfr.
    + apply Hfr1. intros Hin. by apply (Hdisj _ Hin).
    + intros ->. apply (Hdisj (firstGuard l)); [apply elem_of_path; by left|done].
    + intros ->. apply (Hdisj (lastGuard l)); [apply elem_of_path; by right; right|done].
    + by apply (is_list_live _ _ _ _ Ho1).
  - intros y Hy Hin. apply Hnew in Hy.
    apply (is_list_live _ _ _ _ Ho1) in Hin as [? ?]. congruence.
Qed.

(** *** Cursors *)

Lemma list_deref_end h l it :
  it_eq it (endIterator l) = true →
  ConstIterator_deref it (h, l) = Throw out_of_range (h, l).
Proof.
  intros Heq. unfold ConstIterator_deref, throwIfEnd. unfold bind at 1, bind at 1.
  rewrite cend_run. by rewrite Heq.
Qed.

Lemma list_preinc_end h l it :
  it_eq it (endIterator l) = true →
  ConstIterator_preinc it (h, l) = Throw out_of_range (h, l).
Proof.
  intros Heq. unfold ConstIterator_preinc, throwIfEnd. unfold bind at 1, bind at 1.
  rewrite cend_run. by rewrite Heq.
Qed.

Lemma list_predec_begin h l nodes it :
  is_list h l nodes → currentNode it = head (nodes.*1 ++ [lastGuard l]) →
  ConstIterator_predec it (h, l) = Throw out_of_range (h, l).
Proof.
  intros Hlist Hit. unfold ConstIterator_predec, throwIfBegin. unfold bind at 1, bind at 1.
  rewrite (cbegin_run _ _ _ Hlist). unfold it_eq. cbn [currentNode].
  by rewrite bool_decide_eq_true_2.
Qed.

Lemma list_predec_spec h l n1 n2 it :
  is_list h l (n1 ++ n2) → n1 ≠ [] →
  currentNode it = head (n2.*1 ++ [lastGuard l]) →
  ConstIterator_predec it (h, l) = Ret (mkIt (last n1.*1)) (h, l).
Proof.
  intros Hlist Hne Hit.
  destruct (is_list_neighbours _ _ _ _ Hlist)
    as (left & right & Hleft & Hright & Hln & Hrp & Hlin & Hrin).
  pose proof Hlist as (Hnd & _).
  destruct n1 as [|[a x] n1]; [done|].
  assert (last ((a, x) :: n1).*1 = Some left) as Hlast.
  { cbn [fmap list_fmap fst] in Hleft |- *. by rewrite last_cons_cons in Hleft. }
  assert (right ≠ a) as Hra.
  { unfold path in Hnd. rewrite fmap_app in Hnd. cbn [fmap list_fmap fst app] in Hnd.
    apply NoDup_cons in Hnd as [_ Hnd]. apply NoDup_cons in Hnd as [Ha _].
    intros ->. apply Ha. rewrite <- app_assoc.
    apply elem_of_app. right. apply head_Some in Hright as [post ->].
    apply elem_of_cons. by left. }
  rewrite Hlast.
  unfold ConstIterator_predec, throwIfBegin. unfold bind at 1, bind at 1.
  rewrite (cbegin_run _ _ _ Hlist). unfold it_eq. cbn [currentNode fmap list_fmap fst app head].
  rewrite Hit, Hright. rewrite bool_decide_eq_false_2 by congruence.
  unfold ret at 1. unfold bind, on_fst. cbn [fst snd].
  by rewrite (get_prev_run _ _ (Some left)).
Qed.

(** The loops of [operator+] and [operator-] along a chain. *)
Lemma step_next_linked h (ks : list loc) : ∀ (pre : list loc) left (post : list loc),
  linked h (pre ++ left :: ks ++ post) →
  step_next (length ks) (Some left) h = Ret (last (left :: ks)) h.
Proof.
  induction ks as [|k ks IH]; intros pre left post Hl; [done|].
  cbn [app] in Hl. destruct (linked_pair _ _ _ _ _ Hl) as [Hn _].
  cbn [length step_next]. unfold bind. rewrite (get_next_run _ _ (Some k)) by done.
  rewrite last_cons_cons. apply (IH (pre ++ [left]) k post).
  by rewrite <- app_assoc.
Qed.

Lemma step_prev_linked h (ks : list loc) : ∀ (pre : list loc) right (post : list loc),
  linked h (pre ++ ks ++ right :: post) →
  step_prev (length ks) (Some right) h = Ret (head (ks ++ [right])) h.
Proof.
  induction ks as [|k ks IH] using rev_ind; intros pre right post Hl; [done|].
  rewrite <- !app_assoc in Hl. cbn [app] in Hl.
  rewrite app_assoc in Hl. destruct (linked_pair _ _ _ _ _ Hl) as [_ Hp].
  rewrite length_app. cbn [length]. rewrite Nat.add_1_r.
  cbn [step_prev]. unfold bind. rewrite (get_prev_run _ _ (Some k)) by done.
  rewrite <- app_assoc in Hl.
  rewrite (IH pre k (right :: post) Hl).
  f_equal. rewrite <- app_assoc. by destruct ks.
Qed.

Lemma list_plus_spec h l n1 mid n2 it :
  is_list h l (n1 ++ mid ++ n2) →
  currentNode it = head (mid.*1 ++ n2.*1 ++ [lastGuard l]) →
  ConstIterator_plus it (Z.of_nat (length mid)) (h, l) =
    Ret (mkIt (head (n2.*1 ++ [lastGuard l]))) (h, l).
Proof.
  intros Hlist Hit. pose proof Hlist as (_ & Hl & _).
  unfold ConstIterator_plus. rewrite Nat2Z.id. unfold bind, on_fst. cbn [fst snd].
  destruct mid as [|[a x] mid].
  - cbn [length step_next]. unfold ret. cbn [fmap list_fmap app] in Hit. by rewrite <- Hit.
  - cbn [fmap list_fmap fst app head] in Hit. rewrite Hit.
    destruct (head (n2.*1 ++ [lastGuard l])) as [right|] eqn:Hright.
    2:{ apply head_None in Hright. by destruct (n2.*1). }
    apply head_Some in Hright as [post Hpost].
    unfold path in Hl. rewrite !fmap_app, <- !app_assoc, Hpost in Hl.
    cbn [fmap list_fmap fst app] in Hl.
    change (firstGuard l :: n1.*1 ++ a :: mid.*1 ++ right :: post)
      with ((firstGuard l :: n1.*1) ++ a :: mid.*1 ++ right :: post) in Hl.
    rewrite (cons_middle right), app_assoc in Hl.
    pose proof (step_next_linked h (mid.*1 ++ [right]) _ a post Hl) as Hstep.
    rewrite length_app, length_fmap in Hstep. cbn [length] in Hstep.
    rewrite Nat.add_1_r in Hstep. cbn [length]. rewrite Hstep.
    by rewrite app_comm_cons, last_snoc.
Qed.

Lemma list_minus_spec h l n1 mid n2 it :
  is_list h l (n1 ++ mid ++ n2) →
  currentNode it = head (n2.*1 ++ [lastGuard l]) →
  ConstIterator_minus it (Z.of_nat (length mid)) (h, l) =
    Ret (mkIt (head (mid.*1 ++ n2.*1 ++ [lastGuard l]))) (h, l).
Proof.
  intros Hlist Hit. pose proof Hlist as (_ & Hl & _).
  unfold ConstIterator_minus. rewrite Nat2Z.id. unfold bind, on_fst. cbn [fst snd].
  destruct (head (n2.*1 ++ [lastGuard l])) as [right|] eqn:Hright.
  2:{ apply head_None in Hright. by destruct (n2.*1). }
  apply head_Some in Hright as [post Hpost]. rewrite Hit, Hpost.
  unfold path in Hl. rewrite !fmap_app, <- !app_assoc, Hpost in Hl.
  change (firstGuard l :: n1.*1 ++ mid.*1 ++ right :: post)
    with ((firstGuard l :: n1.*1) ++ mid.*1 ++ right :: post) in Hl.
  pose proof (step_prev_linked h mid.*1 _ right post Hl) as Hstep.
  rewrite length_fmap in Hstep. rewrite Hstep. do 2 f_equal.
  by destruct (mid.*1).
Qed.

(** A count that is zero or negative runs neither loop. *)
Lemma list_plus_nonpositive (s : gmap loc (@Node T) * LinkedList) it d :
  d ≤ 0 →
  ConstIterator_plus it d s = Ret it s ∧ ConstIterator_minus it d s = Ret it s.
Proof.
  intros Hd. unfold ConstIterator_plus, ConstIterator_minus.
  replace (Z.to_nat d) with 0%nat by lia. destruct s, it. done.
Qed.

(** Round trips. *)

Lemma list_append_popLast h l nodes x :
  is_list h l nodes → Z.of_nat (length nodes) + 1 < size_max →
  ∃ h' l',
    (append x ;;; popLast) (h, l) = Ret x (h', l') ∧
    is_list h' l' nodes ∧ size l' = size l.
Proof.
  intros Hl Hlen.
  destruct (list_append_spec h l nodes x Hl Hlen) as (h1 & n & Happ & Hl1).
  destruct (list_popLast_spec _ _ n x nodes Hl1) as (h' & Hpop & Hl').
  eexists h', _. unfold bind. rewrite Happ. split; [exact Hpop|]. split; [exact Hl'|].
  cbn. lia.
Qed.

Lemma list_prepend_popFirst h l nodes x :
  is_list h l nodes → Z.of_nat (length nodes) + 1 < size_max →
  ∃ h' l',
    (prepend x ;;; popFirst) (h, l) = Ret x (h', l') ∧
    is_list h' l' nodes ∧ size l' = size l.
Proof.
  intros Hl Hlen.
  destruct (list_prepend_spec h l nodes x Hl Hlen) as (h1 & n & Happ & Hl1).
  destruct (list_popFirst_spec _ _ n x nodes Hl1) as (h' & Hpop & Hl').
  eexists h', _. unfold bind. rewrite Happ. split; [exact Hpop|]. split; [exact Hl'|].
  cbn. lia.
Qed.

Lemma list_preinc_predec h l n1 a x n2 it :
  is_list h l (n1 ++ (a, x) :: n2) → currentNode it = Some a →
  (it' <- ConstIterator_preinc it ;; ConstIterator_predec it') (h, l) = Ret it (h, l).
Proof.
  intros Hl Hit. unfold bind. rewrite (list_preinc_at _ _ n1 a x n2) by done.
  rewrite (list_predec_spec h l (n1 ++ [(a, x)]) n2).
  - rewrite fmap_app. cbn. rewrite last_snoc. destruct it. cbn in Hit. by subst.
  - by rewrite <- app_assoc.
  - by destruct n1.
  - done.
Qed.

Lemma list_predec_preinc h l n1 a x n2 it :
  is_list h l (n1 ++ (a, x) :: n2) →
  currentNode it = head (n2.*1 ++ [lastGuard l]) →
  (it' <- ConstIterator_predec it ;; ConstIterator_preinc it') (h, l) = Ret it (h, l).
Proof.
  intros Hl Hit. unfold bind.
  rewrite (list_predec_spec h l (n1 ++ [(a, x)]) n2).
  - rewrite fmap_app. cbn. rewrite last_snoc.
    rewrite (list_preinc_at _ _ n1 a x n2) by done.
    destruct it. cbn in Hit. by subst.
  - by rewrite <- app_assoc.
  - by destruct n1.
  - done.
Qed.

(** [LinkedList(std::initializer_list<Type> l)]. *)
Lemma copyFrom_appends items (s : gmap loc (@Node T) * LinkedList) :
  copyFrom items s = appends items s.
Proof.
  revert s. induction items as [|x items IH]; intros s; [done|].
  cbn [copyFrom appends]. unfold bind. by destruct (append x s).
Qed.

Lemma LinkedList_ilist_ctor_spec h items :
  Z.of_nat (length items) < size_max →
  ∃ h' l nodes,
    LinkedList_ilist_ctor items h = Ret l h' ∧ owns h h' l nodes ∧ nodes.*2 = items.
Proof.
  intros Hlen. destruct (LinkedList_ctor_owns h) as (h1 & l0 & Hctor & Hown0).
  destruct (list_owns_appends h items h1 l0 [] Hown0) as (h' & l & nodes & Hrun & Hown & Hvals).
  { cbn [length]. lia. }
  exists h', l, nodes. split; [|done].
  unfold LinkedList_ilist_ctor. unfold bind at 1. rewrite Hctor.
  unfold bind, construct. by rewrite copyFrom_appends, Hrun.
Qed.

End ListFacts.
End ListFacts.

(** ** Facts about the array *)

Module VectorFacts.
Import Vector.
Section VectorFacts.
Context {T : Type} `{Inhabited T}.
Implicit Types (h : gmap block (list T)) (v : Vector) (xs buf : list T) (b : block).

Ltac vsimpl :=
  repeat progress
    (unfold read_at, write_at, isEmpty, getSize, getCapacity;
     unfold this, set_size, set_elements, set_capacity, set_pastTheEnd;
     unfold bind, ret, throw, fault, get, put, on_fst, on_snd, call, construct;
     cbn [fst snd size capacity elements pastTheEnd currentElement iteratorType ptr_add]).

Lemma load_ok h b buf (i : nat) x :
  h !! b = Some buf → buf !! i = Some x →
  load (Ptr b (Z.of_nat i)) h = Ret x h.
Proof.
  intros Hb Hi. unfold load. rewrite Hb, decide_True by lia.
  by rewrite Nat2Z.id, Hi.
Qed.

Lemma store_ok h b buf (i : nat) x :
  h !! b = Some buf → (i < length buf)%nat →
  store (Ptr b (Z.of_nat i)) x h = Ret tt (<[b := <[i := x]> buf]> h).
Proof.
  intros Hb Hi. unfold store. rewrite Hb, decide_True by lia.
  by rewrite Nat2Z.id.
Qed.

Lemma store_oob h b buf ofs x :
  h !! b = Some buf → Z.of_nat (length buf) ≤ ofs →
  store (Ptr b ofs) x h = Fault.
Proof.
  intros Hb Hi. unfold store. rewrite Hb, decide_False by lia. done.
Qed.

Lemma read_at_ok h v b buf (i : nat) x :
  elements v = Ptr b 0 → h !! b = Some buf → buf !! i = Some x →
  read_at (Z.of_nat i) (h, v) = Ret x (h, v).
Proof.
  intros Hel Hb Hi. vsimpl. rewrite Hel. vsimpl.
  by rewrite Z.add_0_l, (load_ok _ _ _ _ _ Hb Hi).
Qed.

Lemma write_at_ok h v b buf (i : nat) x :
  elements v = Ptr b 0 → h !! b = Some buf → (i < length buf)%nat →
  write_at (Z.of_nat i) x (h, v) = Ret tt (<[b := <[i := x]> buf]> h, v).
Proof.
  intros Hel Hb Hi. vsimpl. rewrite Hel. vsimpl.
  by rewrite Z.add_0_l, (store_ok _ _ _ _ _ Hb Hi).
Qed.

(** The three shifting loops, as the list they leave in the buffer. *)

Lemma close_gap_spec n : ∀ h v b buf (i g : nat),
  elements v = Ptr b 0 → h !! b = Some buf →
  (1 ≤ g)%nat → (i + n + g ≤ length buf)%nat → Z.of_nat (length buf) < size_max →
  ∃ buf',
    close_gap n (Z.of_nat i) (Z.of_nat (i + g)) (h, v) = Ret tt (<[b := buf']> h, v) ∧
    length buf' = length buf ∧
    ∀ m, buf' !! m = if decide (i ≤ m < i + n)%nat then buf !! (m + g)%nat else buf !! m.
Proof.
  induction n as [|n IH]; intros h v b buf i g Hel Hb Hg Hlen Hmax.
  - exists buf. cbn [close_gap]. unfold ret. rewrite insert_id by done.
    split; [done|]. split; [done|]. intros m. by rewrite decide_False by lia.
  - cbn [close_gap].
    destruct (lookup_lt_is_Some_2 buf (i + g)) as [x Hx]; [lia|].
    unfold bind at 1. rewrite (read_at_ok _ _ _ _ _ _ Hel Hb Hx).
    unfold bind at 1. rewrite (write_at_ok _ _ _ buf i) by (done || lia).
    rewrite !wrap_small by lia.
    replace (Z.of_nat i + 1) with (Z.of_nat (S i)) by lia.
    replace (Z.of_nat (i + g) + 1) with (Z.of_nat (S i + g)) by lia.
    destruct (IH (<[b := <[i := x]> buf]> h) v b (<[i := x]> buf) (S i) g)
      as (buf' & Hrun & Hlen' & Hbuf'); try done.
    { by rewrite lookup_insert_eq. }
    { rewrite length_insert. lia. }
    { by rewrite length_insert. }
    exists buf'. rewrite Hrun, insert_insert_eq.
    split; [done|]. split; [by rewrite Hlen', length_insert|].
    intros m. rewrite Hbuf'.
    destruct (decide (m = i)) as [->|Hne].
    + rewrite decide_False, decide_True by lia.
      by rewrite list_lookup_insert_eq by lia.
    + repeat case_decide; try lia; by rewrite list_lookup_insert_ne by lia.
Qed.

Lemma shift_left_close_gap n : ∀ i (s : gmap block (list T) * Vector),
  shift_left n i s = close_gap n i (wrap (i + 1)) s.
Proof.
  induction n as [|n IH]; intros i s; [done|].
  cbn [shift_left close_gap]. unfold bind.
  destruct (read_at _ s) as [x s1| |]; [|done..].
  destruct (write_at i x s1) as [[] s2| |]; [|done..].
  apply IH.
Qed.

Lemma shift_left_spec n h v b buf (i : nat) :
  elements v = Ptr b 0 → h !! b = Some buf →
  (i + n + 1 ≤ length buf)%nat → Z.of_nat (length buf) < size_max →
  ∃ buf',
    shift_left n (Z.of_nat i) (h, v) = Ret tt (<[b := buf']> h, v) ∧
    length buf' = length buf ∧
    ∀ m, buf' !! m = if decide (i ≤ m < i + n)%nat then buf !! (m + 1)%nat else buf !! m.
Proof.
  intros Hel Hb Hlen Hmax. rewrite shift_left_close_gap.
  rewrite wrap_small by lia.
  replace (Z.of_nat i + 1) with (Z.of_nat (i + 1)) by lia.
  by apply close_gap_spec.
Qed.

Lemma shift_right_spec n : ∀ h v b buf (k : nat),
  elements v = Ptr b 0 → h !! b = Some buf →
  (k + n < length buf)%nat → Z.of_nat (length buf) < size_max →
  ∃ buf',
    shift_right n (Z.of_nat (k + n)) (h, v) = Ret tt (<[b := buf']> h, v) ∧
    length buf' = length buf ∧
    ∀ m, buf' !! m = if decide (k < m ≤ k + n)%nat then buf !! (m - 1)%nat else buf !! m.
Proof.
  induction n as [|n IH]; intros h v b buf k Hel Hb Hlen Hmax.
  - exists buf. cbn [shift_right]. unfold ret. rewrite insert_id by done.
    split; [done|]. split; [done|]. intros m. by rewrite decide_False by lia.
  - cbn [shift_right].
    destruct (lookup_lt_is_Some_2 buf (k + n)) as [x Hx]; [lia|].
    rewrite !wrap_small by lia.
    replace (Z.of_nat (k + S n) - 1) with (Z.of_nat (k + n)) by lia.
    unfold bind at 1. rewrite (read_at_ok _ _ _ _ _ _ Hel Hb Hx).
    unfold bind at 1. rewrite (write_at_ok _ _ _ buf (k + S n)) by (done || lia).
    destruct (IH (<[b := <[k + S n := x]> buf]> h) v b (<[k + S n := x]> buf) k)%nat
      as (buf' & Hrun & Hlen' & Hbuf'); try done.
    { by rewrite lookup_insert_eq. }
    { rewrite length_insert. lia. }
    { by rewrite length_insert. }
    exists buf'. rewrite Hrun, insert_insert_eq.
    split; [done|]. split; [by rewrite Hlen', length_insert|].
    intros m. rewrite Hbuf'.
    destruct (decide (m = k + S n)%nat) as [->|Hne].
    + rewrite decide_False, decide_True by lia.
      rewrite list_lookup_insert_eq by lia.
      by replace (k + S n - 1)%nat with (k + n)%nat by lia.
    + repeat case_decide; try lia; by rewrite list_lookup_insert_ne by lia.
Qed.

Lemma copy_elements_spec n : ∀ h v bo obuf bn nbuf (i : nat),
  elements v = Ptr bn 0 → bo ≠ bn →
  h !! bo = Some obuf → h !! bn = Some nbuf →
  (i + n ≤ length obuf)%nat → (i + n ≤ length nbuf)%nat →
  Z.of_nat (length nbuf) < size_max →
  ∃ nbuf',
    copy_elements n (Z.of_nat i) (Ptr bo 0) (h, v) = Ret tt (<[bn := nbuf']> h, v) ∧
    length nbuf' = length nbuf ∧
    ∀ m, nbuf' !! m = if decide (i ≤ m < i + n)%nat then obuf !! m else nbuf !! m.
Proof.
  induction n as [|n IH]; intros h v bo obuf bn nbuf i Hel Hne Hbo Hbn Hlo Hln Hmax.
  - exists nbuf. cbn [copy_elements]. unfold ret. rewrite insert_id by done.
    split; [done|]. split; [done|]. intros m. by rewrite decide_False by lia.
  - cbn [copy_elements].
    destruct (lookup_lt_is_Some_2 obuf i) as [x Hx]; [lia|].
    unfold bind at 1, on_fst. cbn [fst snd ptr_add]. rewrite Z.add_0_l.
    rewrite (load_ok _ _ _ _ _ Hbo Hx).
    unfold bind at 1. rewrite (write_at_ok _ _ _ nbuf i) by (done || lia).
    rewrite wrap_small by lia.
    replace (Z.of_nat i + 1) with (Z.of_nat (S i)) by lia.
    destruct (IH (<[bn := <[i := x]> nbuf]> h) v bo obuf bn (<[i := x]> nbuf) (S i))
      as (nbuf' & Hrun & Hlen' & Hbuf'); try done.
    { by rewrite lookup_insert_ne. }
    { by rewrite lookup_insert_eq. }
    { lia. }
    { rewrite length_insert. lia. }
    { by rewrite length_insert. }
    exists nbuf'. rewrite Hrun, insert_insert_eq.
    split; [done|]. split; [by rewrite Hlen', length_insert|].
    intros m. rewrite Hbuf'.
    destruct (decide (m = i)) as [->|Hne'].
    + rewrite decide_False, decide_True by lia.
      by rewrite list_lookup_insert_eq by lia.
    + repeat case_decide; try lia; by rewrite ?list_lookup_insert_ne by lia.
Qed.

(** What a well-formed array gives. *)

Lemma is_vector_bounds h v xs :
  is_vector h v xs → 0 ≤ size v ≤ capacity v ∧ capacity v < size_max.
Proof.
  intros (b & buf & Hel & Hb & Hcap & Hsz & Hpre & Hmax & Hend).
  split; [|done]. split; [lia|].
  destruct xs as [|x xs _] using rev_ind; [simpl in *; lia|].
  assert (buf !! length xs = Some x) as Hl
    by (apply Hpre; by rewrite lookup_app_r, Nat.sub_diag by lia).
  apply lookup_lt_Some in Hl. rewrite length_app in Hsz. simpl in Hsz. lia.
Qed.

Lemma is_vector_pastTheEnd h v xs it :
  is_vector h v xs → iteratorType it = END →
  is_vector h (mkVector (elements v) (size v) (capacity v) it) xs.
Proof.
  intros (b & buf & Hel & Hb' & Hcap & Hsz & Hpre & Hmax & Hend) Hit.
  exists b, buf. cbn. eauto 10.
Qed.

(** [reallocateMemory(newCapacity)] on a well-formed array. *)
Lemma reallocateMemory_to_spec h v xs c :
  is_vector h v xs → size v ≤ c < size_max →
  ∃ h' v',
    reallocateMemory_to c (h, v) = Ret tt (h', v') ∧
    is_vector h' v' xs ∧ capacity v' = c ∧ size v' = size v ∧
    pastTheEnd v' = pastTheEnd v.
Proof.
  intros Hv Hc. destruct (is_vector_bounds _ _ _ Hv) as [Hbd _].
  destruct Hv as (b & buf & Hel & Hb & Hcap & Hsz & Hpre & Hmax & Hend).
  destruct v as [el sz cap pe]. cbn in Hel, Hcap, Hsz, Hmax, Hend, Hc, Hbd. subst el.
  unfold reallocateMemory_to, new_array. vsimpl.
  set (bn := fresh (dom h)).
  assert (h !! bn = None) as Hfresh by (apply not_elem_of_dom, is_fresh).
  assert (b ≠ bn) as Hne by congruence.
  set (nbuf := replicate (Z.to_nat c) inhabitant).
  assert (length nbuf = Z.to_nat c) as Hnl by apply length_replicate.
  destruct (copy_elements_spec (Z.to_nat sz) (<[bn := nbuf]> h)
              (mkVector (Ptr bn 0) sz c pe) b buf bn nbuf 0)
    as (nbuf' & Hrun & Hlen' & Hbuf'); try done.
  { by rewrite lookup_insert_ne. }
  { by rewrite lookup_insert_eq. }
  { lia. }
  { lia. }
  { lia. }
  change (Z.of_nat 0) with 0 in Hrun. rewrite Hrun. cbn [fst snd].
  unfold delete_array. rewrite insert_insert_eq, lookup_insert_ne, Hb by done.
  rewrite decide_True by done.
  eexists _, _. split; [done|]. split; [|done].
  exists bn, nbuf'. cbn. split; [done|].
  split. { rewrite lookup_delete_ne by done. by rewrite lookup_insert_eq. }
  split; [lia|]. split; [done|]. split; [|split; [lia|done]].
  intros i x Hx. rewrite Hbuf'.
  assert (i < length xs)%nat by (by eapply lookup_lt_Some).
  rewrite decide_True by lia. by apply Hpre.
Qed.

(** [reallocateMemoryIfNeeded()] on a well-formed array makes room for one
    more element; a full array must have a capacity that can be doubled. *)
Lemma reallocateMemoryIfNeeded_spec h v xs :
  is_vector h v xs →
  size v < capacity v ∨ (1 ≤ capacity v ∧ 2 * capacity v < size_max) →
  ∃ h' v',
    reallocateMemoryIfNeeded (h, v) = Ret tt (h', v') ∧
    is_vector h' v' xs ∧ size v' = size v ∧ size v' < capacity v' ∧
    capacity v' = (if decide (size v < capacity v) then capacity v else 2 * capacity v) ∧
    pastTheEnd v' = pastTheEnd v.
Proof.
  intros Hv Hroom. destruct (is_vector_bounds _ _ _ Hv) as [Hb Hm].
  unfold reallocateMemoryIfNeeded. vsimpl.
  rewrite wrap_small by lia.
  destruct (decide (size v < capacity v)) as [Hlt|Hfull].
  - rewrite decide_False by lia. eauto 10.
  - rewrite decide_True by lia. destruct Hroom as [?|[H1 H2]]; [lia|].
    unfold reallocateMemory. vsimpl. rewrite wrap_small by lia.
    destruct (reallocateMemory_to_spec h v xs (capacity v * 2) Hv) as (h' & v' & -> & ? & ? & ? & ?);
      [lia|].
    exists h', v'. repeat split; try done; lia.
Qed.

Lemma vector_append_spec h v xs x :
  is_vector h v xs →
  size v < capacity v ∨ (1 ≤ capacity v ∧ 2 * capacity v < size_max) →
  ∃ h' v',
    append x (h, v) = Ret tt (h', v') ∧
    is_vector h' v' (xs ++ [x]) ∧
    capacity v' = (if decide (size v < capacity v) then capacity v else 2 * capacity v).
Proof.
  intros Hv Hroom.
  destruct (reallocateMemoryIfNeeded_spec h v xs Hv Hroom)
    as (h1 & v1 & Hrun & Hv1 & Hsz1 & Hlt & Hcap1 & Hpe).
  unfold append. unfold bind at 1. rewrite Hrun.
  destruct Hv1 as (b & buf & Hel & Hb & Hcap & Hsz & Hpre & Hmax & Hend).
  unfold bind at 1, this at 1. cbn [snd].
  rewrite Hsz. unfold bind at 1. rewrite (write_at_ok _ _ _ buf (length xs)) by (done || lia).
  vsimpl. rewrite wrap_small by lia.
  eexists _, _. split; [done|]. split; [|by rewrite <- Hcap1].
  exists b, (<[length xs := x]> buf). cbn.
  split; [done|]. split; [by rewrite lookup_insert_eq|].
  split; [by rewrite length_insert|].
  split; [rewrite length_app; simpl; lia|].
  split; [|done].
  intros i y Hy. destruct (decide (i = length xs)) as [->|Hne].
  - rewrite lookup_app_r, Nat.sub_diag in Hy by lia. simpl in Hy.
    rewrite list_lookup_insert_eq by lia. done.
  - rewrite list_lookup_insert_ne by done. apply Hpre.
    apply lookup_lt_Some in Hy as Hlen. rewrite length_app in Hlen. simpl in Hlen.
    by rewrite lookup_app_l in Hy by lia.
Qed.

Lemma vector_prepend_spec h v xs x :
  is_vector h v xs →
  size v < capacity v ∨ (1 ≤ capacity v ∧ 2 * capacity v < size_max) →
  ∃ h' v',
    prepend x (h, v) = Ret tt (h', v') ∧
    is_vector h' v' (x :: xs) ∧
    capacity v' = (if decide (size v < capacity v) then capacity v else 2 * capacity v).
Proof.
  intros Hv Hroom.
  destruct (reallocateMemoryIfNeeded_spec h v xs Hv Hroom)
    as (h1 & v1 & Hrun & Hv1 & Hsz1 & Hlt & Hcap1 & Hpe).
  unfold prepend. unfold bind at 1. rewrite Hrun.
  destruct Hv1 as (b & buf & Hel & Hb & Hcap & Hsz & Hpre & Hmax & Hend).
  unfold shiftElementsToRightFrom. unfold bind at 1, bind at 1, this at 1. cbn [snd].
  rewrite Hsz, Z.sub_0_r, Nat2Z.id.
  destruct (shift_right_spec (length xs) h1 v1 b buf 0 Hel Hb) as (buf1 & Hsh & Hlen1 & Hbuf1);
    [lia..|].
  rewrite Nat.add_0_l in Hsh. rewrite Hsh.
  unfold bind at 1. change 0 with (Z.of_nat 0).
  rewrite (write_at_ok _ _ _ buf1 0) by (done || by rewrite ?lookup_insert_eq || lia).
  vsimpl. rewrite wrap_small by lia. rewrite insert_insert_eq.
  eexists _, _. split; [done|]. split; [|by rewrite <- Hcap1].
  exists b, (<[0%nat := x]> buf1). cbn [elements size capacity pastTheEnd].
  split; [done|]. split; [by rewrite lookup_insert_eq|].
  split; [by rewrite length_insert, Hlen1|].
  split; [simpl; lia|].
  split; [|done].
  intros i y Hy. destruct i as [|i].
  - simpl in Hy. rewrite list_lookup_insert_eq by lia. done.
  - simpl in Hy. rewrite list_lookup_insert_ne by done. rewrite Hbuf1.
    apply lookup_lt_Some in Hy as Hlen.
    rewrite decide_True by lia. simpl. rewrite Nat.sub_0_r. by apply Hpre.
Qed.

(** [popFirst] and [popLast]. *)

Lemma vector_popFirst_empty h v : size v = 0 → popFirst (h, v) = Throw logic_error (h, v).
Proof.
  intros Hz. unfold popFirst, throwIfCollectionEmpty. vsimpl.
  by rewrite bool_decide_eq_true_2.
Qed.

Lemma vector_popLast_empty h v : size v = 0 → popLast (h, v) = Throw logic_error (h, v).
Proof.
  intros Hz. unfold popLast, throwIfCollectionEmpty. vsimpl.
  by rewrite bool_decide_eq_true_2.
Qed.

Lemma vector_popFirst_spec h v x xs :
  is_vector h v (x :: xs) →
  ∃ h' v',
    popFirst (h, v) = Ret x (h', v') ∧ is_vector h' v' xs ∧
    size v' = size v - 1 ∧ capacity v' = capacity v.
Proof.
  intros Hv. destruct (is_vector_bounds _ _ _ Hv) as [Hbd _].
  destruct Hv as (b & buf & Hel & Hb & Hcap & Hsz & Hpre & Hmax & Hend).
  cbn [length] in Hsz.
  unfold popFirst, throwIfCollectionEmpty.
  unfold bind at 1, bind at 1, isEmpty, bind at 1, this at 1, ret at 1. cbn [snd].
  rewrite bool_decide_eq_false_2 by lia. unfold ret at 1.
  unfold bind at 1. change 0 with (Z.of_nat 0) at 1.
  rewrite (read_at_ok _ _ _ buf 0 x) by (done || by apply Hpre).
  unfold shiftElementsToLeftUpTo. unfold bind at 1, bind at 1, this at 1. cbn [snd].
  rewrite Hsz, wrap_small, Z.sub_0_r by lia.
  replace (Z.of_nat (S (length xs)) - 1) with (Z.of_nat (length xs)) by lia.
  rewrite Nat2Z.id. change 0 with (Z.of_nat 0).
  destruct (shift_left_spec (length xs) h v b buf 0 Hel Hb) as (buf1 & Hsh & Hlen1 & Hbuf1);
    [lia..|].
  rewrite Hsh. vsimpl. rewrite Hsz, wrap_small by lia.
  eexists _, _. split; [done|]. split; [|cbn; lia].
  exists b, buf1. cbn [elements size capacity pastTheEnd].
  split; [done|]. split; [by rewrite lookup_insert_eq|].
  split; [by rewrite Hlen1|]. split; [lia|]. split; [|done].
  intros i y Hy. rewrite Hbuf1. apply lookup_lt_Some in Hy as Hlen.
  rewrite decide_True by lia. apply Hpre. by rewrite Nat.add_1_r.
Qed.

Lemma vector_popLast_spec h v x xs :
  is_vector h v (xs ++ [x]) →
  ∃ v',
    popLast (h, v) = Ret x (h, v') ∧ is_vector h v' xs ∧
    size v' = size v - 1 ∧ capacity v' = capacity v.
Proof.
  intros Hv. destruct (is_vector_bounds _ _ _ Hv) as [Hbd _].
  destruct Hv as (b & buf & Hel & Hb & Hcap & Hsz & Hpre & Hmax & Hend).
  rewrite length_app in Hsz. cbn [length] in Hsz.
  unfold popLast, throwIfCollectionEmpty.
  unfold bind at 1, bind at 1, isEmpty, bind at 1, this at 1, ret at 1. cbn [snd].
  rewrite bool_decide_eq_false_2 by lia. unfold ret at 1.
  unfold bind at 1, this at 1. cbn [snd].
  rewrite Hsz, wrap_small by lia.
  replace (Z.of_nat (length xs + 1) - 1) with (Z.of_nat (length xs)) by lia.
  unfold bind at 1. rewrite (read_at_ok _ _ b buf (length xs) x); [|done..|].
  2:{ apply Hpre. by rewrite lookup_app_r, Nat.sub_diag by lia. }
  vsimpl.
  eexists. split; [done|]. split; [|cbn; lia].
  exists b, buf. cbn [elements size capacity pastTheEnd].
  split; [done|]. split; [done|]. split; [done|]. split; [done|]. split; [|done].
  intros i y Hy. apply Hpre. by apply lookup_app_l_Some.
Qed.

(** The loops access memory but never throw. *)

Lemma close_gap_no_throw n : ∀ i j (s : gmap block (list T) * Vector) e s',
  close_gap n i j s ≠ Throw e s'.
Proof.
  induction n as [|n IH]; intros i j [h v] e s'; [done|].
  cbn [close_gap]. vsimpl. unfold load, store.
  repeat (case_match; try done); try apply IH.
Qed.

Lemma shift_left_no_throw n i (s : gmap block (list T) * Vector) e s' :
  shift_left n i s ≠ Throw e s'.
Proof. rewrite shift_left_close_gap. apply close_gap_no_throw. Qed.

(** [erase(position)]. *)

Lemma vector_erase_throw h v it e s' :
  erase it (h, v) = Throw e s' →
  e = out_of_range ∧ s' = (h, v) ∧ (size v = 0 ∨ isEnd it = true).
Proof.
  unfold erase, throwIfCollectionEmpty, throwIfIteratorEqaulsEnd, calculateIndex,
    shiftElementsToLeftUpTo.
  vsimpl. case_bool_decide as Hsz.
  { intros [= <- <-]. auto. }
  destruct (isEnd it) eqn:Hend.
  { intros [= <- <-]. auto. }
  destruct (ptr_diff _ _); [|done].
  destruct (shift_left _ _ _) as [[] s1|e1 s1|] eqn:Hsh; [done| |done].
  by apply shift_left_no_throw in Hsh.
Qed.

Lemma vector_erase_empty h v it : size v = 0 → erase it (h, v) = Throw out_of_range (h, v).
Proof.
  intros Hz. unfold erase, throwIfCollectionEmpty. vsimpl.
  by rewrite bool_decide_eq_true_2.
Qed.

Lemma vector_erase_end h v it : isEnd it = true → erase it (h, v) = Throw out_of_range (h, v).
Proof.
  intros Hend. unfold erase, throwIfCollectionEmpty, throwIfIteratorEqaulsEnd. vsimpl.
  rewrite Hend. by case_bool_decide.
Qed.

Lemma calculateIndex_at h v it b (i : nat) :
  elements v = Ptr b 0 → at_index v it i → Z.of_nat i < size_max →
  calculateIndex it (h, v) = Ret (Z.of_nat i) (h, v).
Proof.
  unfold at_index. intros Hel Hit Hi. unfold calculateIndex. vsimpl.
  rewrite Hit, Hel. cbn [ptr_add ptr_diff]. rewrite decide_True by done.
  rewrite wrap_small by lia. do 2 f_equal. lia.
Qed.

Lemma vector_erase_spec h v xs it (i : nat) :
  is_vector h v xs → at_index v it i → (i < length xs)%nat → isEnd it = false →
  ∃ h' v',
    erase it (h, v) = Ret tt (h', v') ∧
    is_vector h' v' (take i xs ++ drop (S i) xs) ∧
    size v' = size v - 1 ∧ capacity v' = capacity v.
Proof.
  intros Hv Hit Hi Hend. destruct (is_vector_bounds _ _ _ Hv) as [Hbd _].
  destruct Hv as (b & buf & Hel & Hb & Hcap & Hsz & Hpre & Hmax & Hnd).
  unfold erase, throwIfCollectionEmpty, throwIfIteratorEqaulsEnd.
  unfold bind at 1, bind at 1, isEmpty, bind at 1, this at 1, ret at 1. cbn [snd].
  rewrite bool_decide_eq_false_2 by lia. unfold ret at 1.
  rewrite Hend. unfold bind at 1, ret at 1.
  unfold bind at 1. rewrite (calculateIndex_at _ _ _ b i) by (done || lia).
  unfold shiftElementsToLeftUpTo. unfold bind at 1, bind at 1, this at 1. cbn [snd].
  rewrite Hsz, wrap_small by lia.
  replace (Z.to_nat (Z.of_nat (length xs) - 1 - Z.of_nat i)) with (length xs - 1 - i)%nat by lia.
  destruct (shift_left_spec (length xs - 1 - i) h v b buf i Hel Hb) as (buf1 & Hsh & Hlen1 & Hbuf1);
    [lia..|].
  rewrite Hsh. vsimpl. rewrite Hsz, wrap_small by lia.
  eexists _, _. split; [done|]. split; [|cbn; lia].
  exists b, buf1. cbn [elements size capacity pastTheEnd].
  split; [done|]. split; [by rewrite lookup_insert_eq|].
  split; [by rewrite Hlen1|].
  split; [rewrite length_app, length_take, length_drop; lia|]. split; [|done].
  intros m y Hy. rewrite Hbuf1. apply lookup_lt_Some in Hy as Hlen.
  rewrite length_app, length_take, length_drop in Hlen.
  destruct (decide (m < i)%nat).
  - rewrite decide_False by lia. apply Hpre.
    rewrite lookup_app_l in Hy by (rewrite length_take; lia).
    by rewrite lookup_take_lt in Hy by lia.
  - rewrite decide_True by lia. apply Hpre.
    rewrite lookup_app_r in Hy by (rewrite length_take; lia).
    rewrite length_take, lookup_drop in Hy. rewrite <- Hy. f_equal. lia.
Qed.

(** [erase(firstIncluded, lastExcluded)]. *)

Lemma erase_range_equal h v first last :
  it_eq first last = true → erase_range first last (h, v) = Ret tt (h, v).
Proof. intros Heq. unfold erase_range. by rewrite Heq. Qed.

Lemma vector_erase_range_spec h v xs first last (f l : nat) :
  is_vector h v xs → at_index v first f → at_index v last l →
  (f ≤ l ≤ length xs)%nat → it_eq first last = false →
  ∃ h' v',
    erase_range first last (h, v) = Ret tt (h', v') ∧
    is_vector h' v' (take f xs ++ drop l xs) ∧
    size v' = size v - Z.of_nat (l - f) ∧ capacity v' = capacity v ∧ (f < l)%nat.
Proof.
  intros Hv Hf Hl Hfl Hne. destruct (is_vector_bounds _ _ _ Hv) as [Hbd _].
  destruct Hv as (b & buf & Hel & Hb & Hcap & Hsz & Hpre & Hmax & Hnd).
  assert (f ≠ l) as Hneq.
  { intros ->. unfold it_eq in Hne. unfold at_index in *. rewrite Hf, Hl in Hne.
    rewrite bool_decide_eq_true_2 in Hne by done. by destruct (_ && _). }
  unfold erase_range. rewrite Hne.
  unfold bind at 1. rewrite (calculateIndex_at _ _ _ b f) by (done || lia).
  unfold bind at 1. rewrite (calculateIndex_at _ _ _ b l) by (done || lia).
  unfold bind at 1, this at 1. cbn [snd].
  unfold bind at 1, set_size at 1. cbn [fst snd].
  unfold bind at 1, this at 1. cbn [snd size].
  rewrite Hsz, (wrap_small (Z.of_nat l - Z.of_nat f)) by lia. rewrite !wrap_small by lia.
  replace (Z.to_nat (Z.of_nat (length xs) - (Z.of_nat l - Z.of_nat f) - Z.of_nat f))
    with (length xs - l)%nat by lia.
  set (v1 := mkVector _ _ _ _).
  destruct (close_gap_spec (length xs - l) h v1 b buf f (l - f)) as (buf1 & Hsh & Hlen1 & Hbuf1);
    [done|done|lia..|].
  replace (f + (l - f))%nat with l in Hsh by lia. rewrite Hsh.
  eexists _, _. split; [done|]. split; [|cbn; lia].
  exists b, buf1. cbn [elements size capacity pastTheEnd v1].
  split; [done|]. split; [by rewrite lookup_insert_eq|].
  split; [by rewrite Hlen1|].
  split; [rewrite length_app, length_take, length_drop; lia|]. split; [|done].
  intros m y Hy. rewrite Hbuf1. apply lookup_lt_Some in Hy as Hlen.
  rewrite length_app, length_take, length_drop in Hlen.
  destruct (decide (m < f)%nat).
  - rewrite decide_False by lia. apply Hpre.
    rewrite lookup_app_l in Hy by (rewrite length_take; lia).
    by rewrite lookup_take_lt in Hy by lia.
  - rewrite decide_True by lia. apply Hpre.
    rewrite lookup_app_r in Hy by (rewrite length_take; lia).
    rewrite length_take, lookup_drop in Hy. rewrite <- Hy. f_equal. lia.
Qed.

(** [begin()], [end()] and the traversal. *)

Lemma ptr_add_0 (p : pointer) : ptr_add p 0 = p.
Proof. destruct p; [done|]. cbn. by rewrite Z.add_0_r. Qed.

Lemma ptr_add_add (p : pointer) a c : ptr_add (ptr_add p a) c = ptr_add p (a + c).
Proof. destruct p; [done|]. cbn. by rewrite Z.add_assoc. Qed.

Lemma begin_run h v : begin (h, v) = Ret (mkIt (elements v) BEGIN) (h, v).
Proof. unfold begin, createBegin. vsimpl. by rewrite ptr_add_0. Qed.

Lemma end_empty h v : size v = 0 → end_ (h, v) = Ret (mkIt (elements v) END) (h, v).
Proof.
  intros Hz. unfold end_, createBeginAsEnd. unfold bind at 1. unfold isEmpty. vsimpl.
  rewrite bool_decide_eq_true_2 by done. rewrite begin_run. done.
Qed.

Lemma end_nonempty h v :
  size v ≠ 0 → end_ (h, v) = Ret (pastTheEnd (with_end v)) (h, with_end v).
Proof.
  intros Hz. unfold end_, preparePastTheEnd. vsimpl.
  by rewrite bool_decide_eq_false_2.
Qed.

Lemma is_vector_with_end h v xs : is_vector h v xs → is_vector h (with_end v) xs.
Proof.
  intros Hv. apply is_vector_pastTheEnd; [done|].
  by destruct Hv as (b & buf & Hel & Hb & Hcap & Hsz & Hpre & Hmax & Hnd).
Qed.

Lemma with_end_idem v : with_end (with_end v) = with_end v.
Proof. done. Qed.

Lemma traverse_end h v xs it fuel :
  is_vector h v xs → size v ≠ 0 → isEnd it = true →
  traverse (S fuel) it (h, v) = Ret (Some []) (h, with_end v).
Proof.
  intros Hv Hz Hit. cbn [traverse]. unfold bind at 1. rewrite end_nonempty by done.
  unfold it_eq. rewrite Hit.
  destruct Hv as (b & buf & Hel & Hb & Hcap & Hsz & Hpre & Hmax & Hnd).
  unfold isEnd at 1. cbn. by rewrite bool_decide_eq_true_2.
Qed.

Lemma vector_deref_at h v xs it (i : nat) x :
  is_vector h v xs → at_index v it i → isEnd it = false → xs !! i = Some x →
  ConstIterator_deref it (h, v) = Ret x (h, v).
Proof.
  intros (b & buf & Hel & Hb & Hcap & Hsz & Hpre & Hmax & Hnd) Hat Hit Hx.
  unfold at_index in Hat. rewrite Hel in Hat. cbn [ptr_add] in Hat. rewrite Z.add_0_l in Hat.
  unfold ConstIterator_deref, throwIfEnd. rewrite Hit. vsimpl.
  by rewrite Hat, (load_ok _ _ _ _ _ Hb (Hpre _ _ Hx)).
Qed.

Lemma vector_preinc_at h v it (i : nat) b :
  elements v = Ptr b 0 → at_index v it i → isEnd it = false →
  Z.of_nat i + 1 < size_max →
  ConstIterator_preinc it (h, v) =
  Ret (mkIt (Ptr b (Z.of_nat (S i)))
            (if decide (Z.of_nat (S i) >= size v) then END else REGULAR)) (h, v).
Proof.
  intros Hel Hat Hit Hi.
  unfold at_index in Hat. rewrite Hel in Hat. cbn [ptr_add] in Hat. rewrite Z.add_0_l in Hat.
  destruct it as [p t]. cbn in Hat. subst p.
  unfold ConstIterator_preinc, throwIfEnd, calculateIndex. rewrite Hit. vsimpl.
  replace (Z.of_nat i + 1) with (Z.of_nat (S i)) by lia.
  assert (ptr_diff (Ptr b (Z.of_nat (S i))) (elements v) = Some (Z.of_nat (S i))) as Hd.
  { rewrite Hel. cbn. rewrite decide_True by done. f_equal; lia. }
  destruct t; [| |done].
  - unfold isBegin. cbn [iteratorType]. rewrite bool_decide_eq_false_2 by done.
    cbn [currentElement]. rewrite Hd. cbn [snd]. rewrite wrap_small by lia. by case_decide.
  - unfold isBegin. cbn [iteratorType]. rewrite bool_decide_eq_true_2 by done.
    cbn [currentElement markRegular]. rewrite Hd. cbn [snd]. rewrite wrap_small by lia.
    by case_decide.
Qed.

Lemma vector_traverse_spec k : ∀ h v xs it (i : nat) fuel,
  is_vector h v xs → at_index v it i → isEnd it = false →
  (i + S k = length xs)%nat → (S k < fuel)%nat →
  traverse fuel it (h, v) = Ret (Some (drop i xs)) (h, with_end v).
Proof.
  induction k as [|k IH]; intros h v xs it i fuel Hv Hat Hit Hlen Hfuel.
  all: destruct fuel as [|fuel]; [lia|].
  all: pose proof (is_vector_with_end _ _ _ Hv) as Hv1.
  all: destruct (is_vector_bounds _ _ _ Hv) as [Hbd _].
  all: pose proof Hv as (b & buf & Hel & Hb & Hcap & Hsz & Hpre & Hmax & Hnd).
  all: destruct (lookup_lt_is_Some_2 xs i) as [x Hx]; [lia|].
  all: cbn [traverse]; unfold bind at 1; rewrite end_nonempty by lia.
  all: assert (it_eq it (pastTheEnd (with_end v)) = false) as ->
      by (unfold it_eq; rewrite Hit; cbn; rewrite Hat, Hel; cbn;
          apply bool_decide_eq_false_2; intros [=]; lia).
  all: unfold bind at 1; rewrite (vector_deref_at _ _ xs _ i x) by done.
  all: unfold bind at 1; rewrite (vector_preinc_at _ _ _ i b) by (done || lia).
  all: rewrite (drop_S _ _ _ Hx); cbn [size with_end].
  - rewrite decide_True by lia. destruct fuel as [|fuel]; [lia|].
    unfold bind at 1. rewrite (traverse_end _ _ xs) by (done || cbn; lia).
    rewrite with_end_idem. unfold ret. cbn. by rewrite drop_ge by lia.
  - rewrite decide_False by lia. unfold bind at 1.
    rewrite (IH h (with_end v) xs _ (S i) fuel); [done|done|..|lia|lia].
    + unfold at_index. cbn. rewrite Hel. cbn. f_equal.
    + done.
Qed.

Lemma vector_to_list_spec h v xs fuel :
  is_vector h v xs → (length xs < fuel)%nat →
  ∃ v', to_list fuel (h, v) = Ret (Some xs) (h, v') ∧ is_vector h v' xs ∧
        size v' = size v ∧ capacity v' = capacity v.
Proof.
  intros Hv Hfuel. unfold to_list. unfold bind. rewrite begin_run.
  destruct xs as [|x xs].
  - exists v. split; [|done]. destruct fuel as [|fuel]; [simpl in *; lia|].
    pose proof Hv as (b & buf & Hel & Hb & Hcap & Hsz & Hpre & Hmax & Hnd).
    cbn [traverse]. unfold bind at 1. rewrite end_empty by done.
    unfold it_eq. cbn. by rewrite bool_decide_eq_true_2.
  - exists (with_end v). split; [|split; [by apply is_vector_with_end|done]].
    rewrite (vector_traverse_spec (length xs) h v (x :: xs) _ 0 fuel); try done.
    unfold at_index. cbn. by rewrite ptr_add_0.
Qed.

(** Moving and destroying. *)

Lemma moveFrom_run h v other :
  moveFrom other (h, v) =
  Ret (moved_from other)
      (h, mkVector (elements other) (size other) (capacity other) (pastTheEnd v)).
Proof. done. Qed.

Lemma Vector_move_ctor_run h other :
  Vector_move_ctor other h =
  Ret (mkVector (elements other) (size other) (capacity other) (mkIt nullptr END),
       moved_from other) h.
Proof. done. Qed.

Lemma vector_move_assign_spec h v ys other xs :
  is_vector h v ys → is_vector h other xs → elements v ≠ elements other →
  ∃ h' v',
    move_assign other (h, v) = Ret (moved_from other) (h', v') ∧
    is_vector h' v' xs ∧ capacity v' = capacity other.
Proof.
  intros (b & buf & Hel & Hb & Hcap & Hsz & Hpre & Hmax & Hnd)
         (b' & buf' & Hel' & Hb' & Hcap' & Hsz' & Hpre' & Hmax' & Hnd') Hne.
  unfold move_assign. vsimpl. rewrite decide_True by (by rewrite Hel).
  cbn [fst snd]. rewrite Hel. unfold delete_array. rewrite Hb, decide_True by done.
  rewrite moveFrom_run. eexists _, _. split; [done|]. split; [|done].
  exists b', buf'. cbn. split; [done|]. split; [|done].
  rewrite lookup_delete_ne; [done|]. intros ->. apply Hne. by rewrite Hel, Hel'.
Qed.

Lemma Vector_dtor_moved_from h other :
  Vector_dtor (h, moved_from other) = Ret tt (h, moved_from other).
Proof. done. Qed.

Lemma Vector_dtor_spec h v xs :
  is_vector h v xs →
  ∃ b, elements v = Ptr b 0 ∧ Vector_dtor (h, v) = Ret tt (delete b h, v).
Proof.
  intros (b & buf & Hel & Hb & Hcap & Hsz & Hpre & Hmax & Hnd). exists b. split; [done|].
  unfold Vector_dtor, freeMemoryIfAllocated. vsimpl. rewrite Hel.
  rewrite decide_True by done. unfold delete_array. cbn [fst snd].
  by rewrite Hb, decide_True.
Qed.

(** Construction. *)

Lemma Vector_ctor_spec h c :
  0 ≤ c < size_max →
  ∃ h' v, Vector_ctor c h = Ret v h' ∧ is_vector h' v [] ∧ capacity v = c.
Proof.
  intros Hc. unfold Vector_ctor, new_array. vsimpl.
  eexists _, _. split; [done|]. split; [|done].
  eexists _, _. cbn. split; [done|]. split; [by rewrite lookup_insert_eq|].
  rewrite length_replicate. split; [lia|]. split; [done|]. split; [done|].
  split; [lia|done].
Qed.

(** A cursor that is not tagged END passes the END-tag test of [operator*]
    and [operator++], whatever its position. *)

Lemma deref_no_throw (it : ConstIterator) (s : gmap block (list T) * Vector) e s' :
  isEnd it = false → ConstIterator_deref it s ≠ Throw e s'.
Proof.
  intros Hit. unfold ConstIterator_deref, throwIfEnd. rewrite Hit. vsimpl.
  unfold load. by repeat case_match.
Qed.

Lemma preinc_no_throw (it : ConstIterator) (s : gmap block (list T) * Vector) e s' :
  isEnd it = false → ConstIterator_preinc it s ≠ Throw e s'.
Proof.
  intros Hit. unfold ConstIterator_preinc, throwIfEnd, calculateIndex. rewrite Hit. vsimpl.
  by repeat case_match.
Qed.

Lemma deref_end (it : ConstIterator) (s : gmap block (list T) * Vector) :
  isEnd it = true → ConstIterator_deref it s = Throw out_of_range s.
Proof. intros Hit. unfold ConstIterator_deref, throwIfEnd. rewrite Hit. by destruct s. Qed.

Lemma preinc_end (it : ConstIterator) (s : gmap block (list T) * Vector) :
  isEnd it = true → ConstIterator_preinc it s = Throw out_of_range s.
Proof. intros Hit. unfold ConstIterator_preinc, throwIfEnd. rewrite Hit. by destruct s. Qed.

(** [erase] of a cursor that is not tagged END but stands one past the last
    element: nothing is shifted and the last element is dropped. *)
Lemma erase_at_size h v xs it :
  is_vector h v xs → xs ≠ [] → at_index v it (length xs) → isEnd it = false →
  ∃ v', erase it (h, v) = Ret tt (h, v') ∧ is_vector h v' (take (length xs - 1) xs) ∧
        size v' = size v - 1.
Proof.
  intros Hv Hxs Hit Hend. destruct (is_vector_bounds _ _ _ Hv) as [Hbd _].
  destruct Hv as (b & buf & Hel & Hb & Hcap & Hsz & Hpre & Hmax & Hnd).
  assert (0 < length xs)%nat by (destruct xs; [done|simpl; lia]).
  unfold erase, throwIfCollectionEmpty, throwIfIteratorEqaulsEnd.
  unfold bind at 1, bind at 1, isEmpty, bind at 1, this at 1, ret at 1. cbn [snd].
  rewrite bool_decide_eq_false_2 by lia. unfold ret at 1.
  rewrite Hend. unfold bind at 1, ret at 1.
  unfold bind at 1. rewrite (calculateIndex_at _ _ _ b (length xs)) by (done || lia).
  unfold shiftElementsToLeftUpTo. unfold bind at 1, bind at 1, this at 1. cbn [snd].
  rewrite Hsz, wrap_small by lia.
  replace (Z.to_nat (Z.of_nat (length xs) - 1 - Z.of_nat (length xs))) with 0%nat by lia.
  cbn [shift_left]. vsimpl. rewrite Hsz, wrap_small by lia.
  eexists. split; [done|]. split; [|cbn; lia].
  exists b, buf. cbn [elements size capacity pastTheEnd].
  split; [done|]. split; [done|]. split; [done|].
  split. { rewrite length_take. lia. }
  split; [|done].
  intros i y Hy. apply Hpre. apply lookup_take_Some in Hy. tauto.
Qed.

(** Sequences of calls. *)
Lemma vector_appends_spec items : ∀ h v xs,
  is_vector h v xs → 1 ≤ capacity v →
  2 * (Z.of_nat (length xs) + Z.of_nat (length items)) < size_max →
  ∃ h' v',
    appends items (h, v) = Ret tt (h', v') ∧ is_vector h' v' (xs ++ items).
Proof.
  induction items as [|x items IH]; intros h v xs Hv Hcap Hlen.
  - exists h, v. by rewrite app_nil_r.
  - cbn [length] in Hlen.
    pose proof (is_vector_bounds _ _ _ Hv) as Hb.
    pose proof Hv as (_ & _ & _ & _ & _ & Hsz & _).
    destruct (vector_append_spec h v xs x Hv) as (h1 & v1 & Happ & Hv1 & Hc1).
    { destruct (decide (size v < capacity v)); [by left|right; lia]. }
    destruct (IH _ _ _ Hv1) as (h' & v' & Hrun & Hv').
    { destruct (decide (size v < capacity v)); lia. }
    { rewrite length_app. cbn [length]. lia. }
    exists h', v'. split.
    + cbn [appends]. unfold bind at 1. by rewrite Happ.
    + by rewrite <- app_assoc in Hv'.
Qed.

Lemma vector_prepends_spec items : ∀ h v xs,
  is_vector h v xs → 1 ≤ capacity v →
  2 * (Z.of_nat (length xs) + Z.of_nat (length items)) < size_max →
  ∃ h' v',
    prepends items (h, v) = Ret tt (h', v') ∧ is_vector h' v' (reverse items ++ xs).
Proof.
  induction items as [|x items IH]; intros h v xs Hv Hcap Hlen.
  - by exists h, v.
  - cbn [length] in Hlen.
    pose proof (is_vector_bounds _ _ _ Hv) as Hb.
    pose proof Hv as (_ & _ & _ & _ & _ & Hsz & _).
    destruct (vector_prepend_spec h v xs x Hv) as (h1 & v1 & Happ & Hv1 & Hc1).
    { destruct (decide (size v < capacity v)); [by left|right; lia]. }
    destruct (IH _ _ _ Hv1) as (h' & v' & Hrun & Hv').
    { destruct (decide (size v < capacity v)); lia. }
    { cbn [length]. lia. }
    exists h', v'. split.
    + cbn [prepends]. unfold bind at 1. by rewrite Happ.
    + by rewrite reverse_cons, <- app_assoc.
Qed.

Lemma vector_getSize_run h (v : Vector) : getSize (h, v) = Ret (size v) (h, v).
Proof. done. Qed.

(** *** What every call keeps

    The lemmas below hold in any memory: they need no well-formed array,
    only what a call that returns must have found. *)

Implicit Types (it : ConstIterator).

Lemma same_lengths_refl h : same_lengths h h.
Proof. by intros b n. Qed.

Lemma same_lengths_trans h1 h2 h3 :
  same_lengths h1 h2 → same_lengths h2 h3 → same_lengths h1 h3.
Proof. intros H12 H23 b n Hb. by apply H23, H12. Qed.

Lemma same_lengths_delete h b : same_lengths h (delete b h).
Proof.
  intros b' n Hb buf Hbuf. apply Hb.
  destruct (decide (b' = b)) as [->|Hne].
  - by rewrite lookup_delete_eq in Hbuf.
  - by rewrite lookup_delete_ne in Hbuf.
Qed.

Lemma wp_this (Q : Vector → gmap block (list T) * Vector → Prop) E s :
  Q (snd s) s → wp this Q E s.
Proof. done. Qed.

Lemma wp_load p (Q : T → gmap block (list T) * Vector → Prop) E h v :
  (∀ x, Q x (h, v)) → wp (on_fst (load p)) Q E (h, v).
Proof.
  intros HQ. unfold wp, on_fst, load. cbn [fst snd].
  repeat case_match; try done. simplify_eq. apply HQ.
Qed.

Lemma wp_read_at i (Q : T → gmap block (list T) * Vector → Prop) E h v :
  (∀ x, Q x (h, v)) → wp (read_at i) Q E (h, v).
Proof. intros HQ. unfold read_at. apply wp_bind, wp_this. by apply wp_load. Qed.

Lemma wp_write_at i x (Q : unit → gmap block (list T) * Vector → Prop) E h v :
  (∀ h', same_lengths h h' →
         (∀ b ofs n, elements v = Ptr b ofs → blen h b n → 0 ≤ ofs + i < n) →
         Q tt (h', v)) →
  wp (write_at i x) Q E (h, v).
Proof.
  intros HQ. unfold write_at. apply wp_bind, wp_this. cbn [snd].
  unfold wp, on_fst, store. cbn [fst snd].
  destruct (elements v) as [|b ofs] eqn:Hel; [done|]. cbn [ptr_add].
  destruct (h !! b) as [buf|] eqn:Hb; [|done].
  case_decide as Hr; [|done].
  apply HQ.
  - intros b' n Hb' buf' Hbuf'. destruct (decide (b' = b)) as [->|Hne].
    + rewrite lookup_insert_eq in Hbuf'. injection Hbuf' as <-.
      rewrite length_insert. by apply Hb'.
    + rewrite lookup_insert_ne in Hbuf' by done. by apply Hb'.
  - intros b' ofs' n [= <- <-] Hn. rewrite <- (Hn _ Hb). lia.
Qed.

Lemma wp_shift_right n : ∀ i (Q : unit → gmap block (list T) * Vector → Prop) E h v,
  (∀ h', same_lengths h h' →
         (n ≠ 0%nat → ∀ b ofs m, elements v = Ptr b ofs → blen h b m → 0 ≤ ofs + i < m) →
         Q tt (h', v)) →
  wp (shift_right n i) Q E (h, v).
Proof.
  induction n as [|n IH]; intros i Q E h v HQ.
  - apply HQ; [apply same_lengths_refl|done].
  - cbn [shift_right]. apply wp_bind, wp_read_at. intros x.
    apply wp_bind, wp_write_at. intros h1 Hs1 Hb1.
    apply IH. intros h2 Hs2 _. apply HQ; [by eapply same_lengths_trans|by intros _].
Qed.

Lemma wp_close_gap n : ∀ i j (Q : unit → gmap block (list T) * Vector → Prop) E h v,
  (∀ h', same_lengths h h' → Q tt (h', v)) →
  wp (close_gap n i j) Q E (h, v).
Proof.
  induction n as [|n IH]; intros i j Q E h v HQ.
  - apply HQ, same_lengths_refl.
  - cbn [close_gap]. apply wp_bind, wp_read_at. intros x.
    apply wp_bind, wp_write_at. intros h1 Hs1 _.
    apply IH. intros h2 Hs2. apply HQ. by eapply same_lengths_trans.
Qed.

Lemma wp_shift_left n i (Q : unit → gmap block (list T) * Vector → Prop) E h v :
  (∀ h', same_lengths h h' → Q tt (h', v)) →
  wp (shift_left n i) Q E (h, v).
Proof.
  intros HQ. unfold wp. rewrite shift_left_close_gap. by apply wp_close_gap.
Qed.

Lemma wp_copy_elements n : ∀ i old (Q : unit → gmap block (list T) * Vector → Prop) E h v,
  (∀ h', same_lengths h h' → Q tt (h', v)) →
  wp (copy_elements n i old) Q E (h, v).
Proof.
  induction n as [|n IH]; intros i old Q E h v HQ.
  - apply HQ, same_lengths_refl.
  - cbn [copy_elements]. apply wp_bind, wp_load. intros x.
    apply wp_bind, wp_write_at. intros h1 Hs1 _.
    apply IH. intros h2 Hs2. apply HQ. by eapply same_lengths_trans.
Qed.

(** [reallocateMemory(newCapacity)] returns with a buffer of [newCapacity]
    slots, if the buffer is still there. *)
Lemma wp_reallocateMemory_to c (Q : unit → gmap block (list T) * Vector → Prop) E h v :
  0 ≤ c →
  (∀ h' b, blen h' b c → Q tt (h', mkVector (Ptr b 0) (size v) c (pastTheEnd v))) →
  wp (reallocateMemory_to c) Q E (h, v).
Proof.
  intros Hc HQ. unfold reallocateMemory_to.
  apply wp_bind, wp_this. cbn [snd].
  apply wp_bind. unfold wp at 1, set_capacity. cbn [fst snd].
  apply wp_bind. unfold wp at 1, on_fst, new_array. cbn [fst snd].
  apply wp_bind. unfold wp at 1, set_elements. cbn [fst snd size capacity pastTheEnd].
  set (b := fresh (dom h)).
  apply wp_bind, wp_copy_elements. intros h1 Hs1.
  assert (blen h1 b c) as Hb1.
  { apply Hs1. intros buf. rewrite lookup_insert_eq. intros [= <-].
    rewrite length_replicate. lia. }
  unfold wp, on_fst, delete_array. cbn [fst snd].
  destruct (elements v) as [|bo ofs]; [by apply HQ|].
  destruct (h1 !! bo); [|done]. case_decide; [|done].
  apply HQ. by apply same_lengths_delete.
Qed.

Lemma bounded_wrap_succ v :
  bounded v → wrap (size v + 1) > capacity v → size v = capacity v ∧ wrap (size v + 1) = size v + 1.
Proof.
  intros [Hs Hc] Hgt. pose proof size_max_pos.
  destruct (decide (size v + 1 < size_max)) as [Hlt|Hge].
  - rewrite wrap_small in Hgt |- * by lia. lia.
  - assert (size v + 1 = size_max) as Heq by lia.
    rewrite Heq in Hgt. unfold wrap in Hgt. rewrite Z.mod_same in Hgt by lia. lia.
Qed.

Lemma wp_reallocateMemoryIfNeeded (Q : unit → gmap block (list T) * Vector → Prop) E h v :
  bounded v →
  (wrap (size v + 1) ≤ capacity v → Q tt (h, v)) →
  (size v = capacity v → ∀ h' b, blen h' b (wrap (capacity v * 2)) →
     Q tt (h', mkVector (Ptr b 0) (size v) (wrap (capacity v * 2)) (pastTheEnd v))) →
  wp reallocateMemoryIfNeeded Q E (h, v).
Proof.
  intros Hv Hstay Hgrow. unfold reallocateMemoryIfNeeded.
  apply wp_bind, wp_this. cbn [snd]. case_decide as Hgt.
  - unfold reallocateMemory. apply wp_bind, wp_this. cbn [snd].
    apply wp_reallocateMemory_to; [apply wrap_range|].
    apply Hgrow. by apply bounded_wrap_succ.
  - apply wp_ret, Hstay. lia.
Qed.

(** What every call leaves: [size <= capacity], and a capacity that is not
    below the one before the call. *)
Lemma wp_append x h v :
  bounded v →
  wp (append x) (λ _ s', bounded s'.2 ∧ capacity v ≤ capacity s'.2) (λ _ _, False) (h, v).
Proof.
  intros Hv. pose proof Hv as [Hs Hc]. pose proof (wrap_range (size v + 1)) as Hw.
  unfold append. apply wp_bind, wp_reallocateMemoryIfNeeded; [done|..].
  - intros Hle. apply wp_bind, wp_this. cbn [snd].
    apply wp_bind, wp_write_at. intros h1 _ _.
    unfold wp, set_size, bounded. cbn. lia.
  - intros Hfull h1 b Hb. apply wp_bind, wp_this. cbn [snd size].
    apply wp_bind, wp_write_at. intros h2 _ Hin.
    specialize (Hin b 0 _ eq_refl Hb).
    pose proof (wrap_range (capacity v * 2)) as Hw2.
    unfold wp, set_size, bounded. cbn [fst snd size capacity].
    rewrite wrap_small by lia. lia.
Qed.

Lemma wp_insert_at idx x h v :
  bounded v → 0 ≤ idx →
  wp (reallocateMemoryIfNeeded ;;; shiftElementsToRightFrom idx ;;; write_at idx x ;;;
      v <- this ;; set_size (wrap (size v + 1)))
     (λ _ s', bounded s'.2 ∧ capacity v ≤ capacity s'.2) (λ _ _, False) (h, v).
Proof.
  intros Hv Hidx. pose proof Hv as [Hs Hc]. pose proof (wrap_range (size v + 1)) as Hw.
  apply wp_bind, wp_reallocateMemoryIfNeeded; [done|..].
  - intros Hle. unfold shiftElementsToRightFrom.
    apply wp_bind, wp_bind, wp_this. cbn [snd].
    apply wp_shift_right. intros h1 _ _.
    apply wp_bind, wp_write_at. intros h2 _ _.
    apply wp_bind, wp_this. unfold wp, set_size, bounded. cbn. lia.
  - intros Hfull h1 b Hb. unfold shiftElementsToRightFrom.
    apply wp_bind, wp_bind, wp_this. cbn [snd size].
    apply wp_shift_right. intros h2 Hs2 Hfirst. cbn [elements] in Hfirst.
    apply wp_bind, wp_write_at. intros h3 _ Hin. cbn [elements] in Hin.
    specialize (Hin b 0 _ eq_refl (Hs2 _ _ Hb)).
    pose proof (wrap_range (capacity v * 2)) as Hw2.
    assert (size v < wrap (capacity v * 2)) as Hroom.
    { destruct (decide (idx < size v)) as [Hlt|Hge]; [|lia].
      assert (Z.to_nat (size v - idx) ≠ 0%nat) as Hn by lia.
      specialize (Hfirst Hn b 0 _ eq_refl Hb). lia. }
    apply wp_bind, wp_this. unfold wp, set_size, bounded. cbn [fst snd size capacity].
    rewrite wrap_small by lia. lia.
Qed.

Lemma wp_prepend x h v :
  bounded v →
  wp (prepend x) (λ _ s', bounded s'.2 ∧ capacity v ≤ capacity s'.2) (λ _ _, False) (h, v).
Proof. intros Hv. by apply (wp_insert_at 0). Qed.

Lemma wp_calculateIndex it (Q : Z → gmap block (list T) * Vector → Prop) E h v :
  (∀ d, ptr_diff (currentElement it) (elements v) = Some d → Q (wrap d) (h, v)) →
  wp (calculateIndex it) Q E (h, v).
Proof.
  intros HQ. unfold calculateIndex. apply wp_bind, wp_this. cbn [snd].
  destruct (ptr_diff _ _) as [d|]; [|done]. by apply wp_ret, HQ.
Qed.

Lemma wp_insert it x h v :
  bounded v →
  wp (insert it x) (λ _ s', bounded s'.2 ∧ capacity v ≤ capacity s'.2) (λ _ _, False) (h, v).
Proof.
  intros Hv. unfold insert. apply wp_bind, wp_calculateIndex. intros d _.
  apply wp_insert_at; [done|apply wrap_range].
Qed.

Lemma wp_throwIfCollectionEmpty e (Q : unit → gmap block (list T) * Vector → Prop) E h v :
  (size v = 0 → E e (h, v)) → (size v ≠ 0 → Q tt (h, v)) →
  wp (throwIfCollectionEmpty e) Q E (h, v).
Proof.
  intros HE HQ. unfold wp, throwIfCollectionEmpty, isEmpty, this, bind, ret, throw.
  cbn [fst snd]. case_bool_decide; auto.
Qed.

Lemma wp_popFirst h v :
  bounded v →
  wp popFirst
     (λ _ s', bounded s'.2 ∧ capacity s'.2 = capacity v ∧ size s'.2 = size v - 1)
     (λ e s', e = logic_error ∧ s' = (h, v) ∧ size v = 0) (h, v).
Proof.
  intros [Hs Hc]. unfold popFirst.
  apply wp_bind, wp_throwIfCollectionEmpty; [done|]. intros Hne.
  apply wp_bind, wp_read_at. intros x.
  unfold shiftElementsToLeftUpTo. apply wp_bind, wp_bind, wp_this. cbn [snd].
  apply wp_shift_left. intros h1 _.
  apply wp_bind, wp_this. unfold wp, bind, set_size, ret, bounded. cbn.
  rewrite wrap_small by lia. lia.
Qed.

Lemma wp_popLast h v :
  bounded v →
  wp popLast
     (λ _ s', bounded s'.2 ∧ capacity s'.2 = capacity v ∧ size s'.2 = size v - 1)
     (λ e s', e = logic_error ∧ s' = (h, v) ∧ size v = 0) (h, v).
Proof.
  intros [Hs Hc]. unfold popLast.
  apply wp_bind, wp_throwIfCollectionEmpty; [done|]. intros Hne.
  apply wp_bind, wp_this. cbn [snd].
  apply wp_bind, wp_read_at. intros x.
  unfold wp, bind, set_size, ret, bounded. cbn.
  rewrite wrap_small by lia. lia.
Qed.

Lemma wp_erase it h v :
  bounded v →
  wp (erase it)
     (λ _ s', bounded s'.2 ∧ capacity s'.2 = capacity v ∧ size s'.2 = size v - 1)
     (λ e s', e = out_of_range ∧ s' = (h, v) ∧ (size v = 0 ∨ isEnd it = true)) (h, v).
Proof.
  intros [Hs Hc]. unfold erase.
  apply wp_bind, wp_throwIfCollectionEmpty; [auto|]. intros Hne.
  apply wp_bind. unfold throwIfIteratorEqaulsEnd.
  destruct (isEnd it) eqn:Hend; [apply wp_throw; auto|]. apply wp_ret.
  apply wp_bind, wp_calculateIndex. intros d _.
  unfold shiftElementsToLeftUpTo. apply wp_bind, wp_bind, wp_this. cbn [snd].
  apply wp_shift_left. intros h1 _.
  apply wp_bind, wp_this. unfold wp, set_size, bounded. cbn.
  rewrite wrap_small by lia. lia.
Qed.

Lemma ptr_diff_add (p : pointer) d :
  ptr_diff (ptr_add p d) p = Some (if p is nullptr then 0 else d).
Proof.
  destruct p as [|b ofs]; [done|]. cbn. rewrite decide_True by done. f_equal. lia.
Qed.

Lemma wp_erase_range first last h v :
  bounded v → valid_range v first last →
  wp (erase_range first last)
     (λ _ s', bounded s'.2 ∧ capacity s'.2 = capacity v ∧ size s'.2 ≤ size v)
     (λ _ _, False) (h, v).
Proof.
  intros [Hs Hc] (f & l & Hf & Hl & Hfl & Hls). unfold erase_range.
  destruct (it_eq first last); [apply wp_ret; unfold bounded; cbn; lia|].
  apply wp_bind, wp_calculateIndex. intros df Hdf.
  apply wp_bind, wp_calculateIndex. intros dl Hdl.
  rewrite Hf, ptr_diff_add in Hdf. rewrite Hl, ptr_diff_add in Hdl.
  apply wp_bind, wp_this. cbn [snd].
  apply wp_bind. unfold wp at 1, set_size. cbn [fst snd].
  apply wp_bind, wp_this. cbn [snd size].
  apply wp_close_gap. intros h1 _. unfold bounded. cbn [snd size capacity].
  assert (wrap (size v - wrap (wrap dl - wrap df)) ≤ size v ∧
          0 ≤ wrap (size v - wrap (wrap dl - wrap df))) as Hnew.
  { destruct (elements v); simplify_eq.
    - rewrite !(wrap_small 0), Z.sub_0_r, wrap_small by lia. lia.
    - rewrite (wrap_small (Z.of_nat l)), (wrap_small (Z.of_nat f)) by lia.
      rewrite (wrap_small (Z.of_nat l - Z.of_nat f)) by lia.
      rewrite wrap_small by lia. lia. }
  lia.
Qed.

(** Cursor operations read the array and leave it as it is. *)
Lemma wp_deref it (Q : T → gmap block (list T) * Vector → Prop) E h v :
  (∀ x, isEnd it = false → Q x (h, v)) → (isEnd it = true → E out_of_range (h, v)) →
  wp (ConstIterator_deref it) Q E (h, v).
Proof.
  intros HQ HE. unfold ConstIterator_deref, throwIfEnd.
  apply wp_bind. destruct (isEnd it); [by apply wp_throw, HE|apply wp_ret].
  apply wp_load. auto.
Qed.

Lemma wp_preinc it (Q : ConstIterator → gmap block (list T) * Vector → Prop) E h v :
  (∀ it', isEnd it = false → Q it' (h, v)) → (isEnd it = true → E out_of_range (h, v)) →
  wp (ConstIterator_preinc it) Q E (h, v).
Proof.
  intros HQ HE. unfold ConstIterator_preinc, throwIfEnd.
  apply wp_bind. destruct (isEnd it); [by apply wp_throw, HE|apply wp_ret].
  apply wp_bind, wp_calculateIndex. intros d _.
  apply wp_bind. unfold getSize. apply wp_bind, wp_this, wp_ret, wp_ret. auto.
Qed.

Lemma wp_predec it (Q : ConstIterator → gmap block (list T) * Vector → Prop) E h v :
  (∀ it', isBegin it = false → Q it' (h, v)) → (isBegin it = true → E out_of_range (h, v)) →
  wp (ConstIterator_predec it) Q E (h, v).
Proof.
  intros HQ HE. unfold ConstIterator_predec, throwIfBegin.
  apply wp_bind. destruct (isBegin it); [by apply wp_throw, HE|apply wp_ret].
  apply wp_bind, wp_this, wp_ret. auto.
Qed.

Lemma wp_end (Q : ConstIterator → gmap block (list T) * Vector → Prop) E h v :
  (∀ e v', size v' = size v → capacity v' = capacity v → elements v' = elements v →
           iteratorType (pastTheEnd v') = iteratorType (pastTheEnd v) →
           (size v = 0 → v' = v) → Q e (h, v')) →
  wp end_ Q E (h, v).
Proof.
  intros HQ. unfold end_, isEmpty. apply wp_bind, wp_bind, wp_this, wp_ret.
  cbn [snd]. case_bool_decide as Hz.
  - unfold createBeginAsEnd, begin, createBegin.
    apply wp_bind, wp_bind, wp_this, wp_ret, wp_ret. by apply HQ.
  - unfold preparePastTheEnd. apply wp_bind, wp_this. cbn [snd].
    apply wp_bind. unfold wp at 1, set_pastTheEnd. cbn [fst snd].
    apply wp_bind, wp_this, wp_ret. by apply HQ.
Qed.

(** Every public call on an array within its capacity leaves it within its
    capacity, with a capacity that is not below the one before; a call that
    throws leaves the array and the memory as they were. *)
Lemma wp_run op h v :
  bounded v → admissible v op →
  wp (run op) (λ _ s', bounded s'.2 ∧ capacity v ≤ capacity s'.2) (λ _ s', s' = (h, v)) (h, v).
Proof.
  intros Hv Hadm.
  assert (bounded v ∧ capacity v ≤ capacity v) as Hsame by (split; [done|lia]).
  destruct op as [| | |x|x|pos x| | |pos|first last| | |it|it|it|it|it]; cbn [run].
  - by apply wp_discard, wp_bind, wp_this, wp_ret.
  - by apply wp_discard, wp_bind, wp_this, wp_ret.
  - by apply wp_discard, wp_bind, wp_this, wp_ret.
  - eapply wp_mono; [by apply wp_append|auto|done].
  - eapply wp_mono; [by apply wp_prepend|auto|done].
  - eapply wp_mono; [by apply wp_insert|auto|done].
  - apply wp_discard. eapply wp_mono; [by apply wp_popFirst| |].
    + cbn. intros _ s' (? & ? & ?). split; [done|lia].
    + cbn. by intros e s' (_ & -> & _).
  - apply wp_discard. eapply wp_mono; [by apply wp_popLast| |].
    + cbn. intros _ s' (? & ? & ?). split; [done|lia].
    + cbn. by intros e s' (_ & -> & _).
  - eapply wp_mono; [by apply wp_erase| |].
    + cbn. intros _ s' (? & ? & ?). split; [done|lia].
    + cbn. by intros e s' (_ & -> & _).
  - eapply wp_mono; [by apply wp_erase_range| |done].
    cbn. intros _ s' (? & ? & ?). split; [done|lia].
  - apply wp_discard. unfold begin, createBegin. by apply wp_bind, wp_this, wp_ret.
  - apply wp_discard, wp_end. intros e v' Hs Hc _ _ _. unfold bounded.
    cbn [snd]. rewrite Hs, Hc. destruct Hv. lia.
  - by apply wp_discard, wp_deref.
  - by apply wp_discard, wp_preinc.
  - by apply wp_discard, wp_predec.
  - apply wp_discard. unfold ConstIterator_postinc. apply wp_bind, wp_preinc; [|done].
    intros it' _. by apply wp_ret.
  - apply wp_discard. unfold ConstIterator_postdec. apply wp_bind, wp_predec; [|done].
    intros it' _. by apply wp_ret.
Qed.

(** Copies. *)

Lemma wp_copyFromAndAppend l : ∀ h v,
  bounded v →
  wp (copyFromAndAppend l) (λ _ s', bounded s'.2 ∧ capacity v ≤ capacity s'.2)
     (λ _ _, False) (h, v).
Proof.
  induction l as [|x l IH]; intros h v Hv.
  - apply wp_ret. split; [done|cbn; lia].
  - cbn [copyFromAndAppend]. apply wp_bind.
    eapply wp_mono; [by apply wp_append| |done].
    cbn. intros _ [h1 v1] [Hv1 Hc1].
    eapply wp_mono; [by apply IH| |done].
    cbn. intros _ s' [? ?]. split; [done|]. cbn in Hc1. lia.
Qed.

Lemma wp_copy_loop fuel : ∀ other it e h v,
  bounded v →
  wp (copy_loop fuel other it e)
     (λ o' s', bounded s'.2 ∧ capacity v ≤ capacity s'.2 ∧ o' = other)
     (λ _ s', bounded s'.2 ∧ capacity v ≤ capacity s'.2) (h, v).
Proof.
  induction fuel as [|fuel IH]; intros other it e h v Hv.
  - cbn [copy_loop]. destruct (negb _); [done|].
    apply wp_ret. split; [done|]. split; [cbn; lia|done].
  - cbn [copy_loop]. destruct (negb _); [|apply wp_ret; split; [done|]; split; [cbn; lia|done]].
    apply wp_bind, wp_call, wp_deref; cbn [fst snd]; [|intros _; split; [done|lia]].
    intros x _. apply wp_bind.
    eapply wp_mono; [by apply (wp_append x)| |done].
    cbn. intros _ [h1 v1] [Hv1 Hc1]. cbn [snd] in Hv1, Hc1.
    apply wp_bind, wp_call, wp_preinc; cbn [fst snd]; [|intros _; split; [done|lia]].
    intros it' _.
    eapply wp_mono; [by apply IH| |].
    + cbn. intros o' s' (? & ? & ?). split; [done|]. split; [lia|done].
    + cbn. intros _ s' (? & ?). split; [done|lia].
Qed.

Lemma wp_copyFromAndAppend_vector other h v :
  bounded v →
  wp (copyFromAndAppend_vector other)
     (λ o' s', bounded s'.2 ∧ capacity v ≤ capacity s'.2 ∧
               size o' = size other ∧ capacity o' = capacity other)
     (λ _ s', bounded s'.2 ∧ capacity v ≤ capacity s'.2) (h, v).
Proof.
  intros Hv. unfold copyFromAndAppend_vector.
  apply wp_bind, wp_call. unfold begin, createBegin.
  apply wp_bind, wp_this, wp_ret. cbn [fst snd].
  apply wp_bind, wp_call, wp_end. intros e o' Hs Hc _ _ _. cbn [fst snd].
  eapply wp_mono; [by apply wp_copy_loop| |done].
  cbn. intros o'' s' (? & ? & ->). auto.
Qed.

Lemma wp_copy_assign other h v :
  bounded v → bounded other →
  wp (copy_assign other)
     (λ o' s', bounded s'.2 ∧ capacity v ≤ capacity s'.2 ∧
               size o' = size other ∧ capacity o' = capacity other)
     (λ _ s', bounded s'.2 ∧ capacity v ≤ capacity s'.2) (h, v).
Proof.
  intros [Hs Hc] [Hso Hco]. unfold copy_assign.
  apply wp_bind, wp_this. cbn [snd]. apply wp_bind.
  case_decide as Hlt.
  - apply wp_reallocateMemory_to; [lia|]. intros h1 b _.
    apply wp_bind. unfold wp at 1, set_size. cbn [fst snd elements size capacity pastTheEnd].
    eapply wp_mono; [apply wp_copyFromAndAppend_vector| |].
    + unfold bounded. cbn. lia.
    + cbn. intros o' s' (? & ? & ?). split; [done|]. split; [lia|done].
    + cbn. intros _ s' (? & ?). split; [done|lia].
  - apply wp_ret.
    apply wp_bind. unfold wp at 1, set_size. cbn [fst snd elements size capacity pastTheEnd].
    eapply wp_mono; [apply wp_copyFromAndAppend_vector| |].
    + unfold bounded. cbn. lia.
    + cbn. intros o' s' (? & ? & ?). split; [done|]. split; [lia|done].
    + cbn. intros _ s' (? & ?). split; [done|lia].
Qed.

Lemma wp_Vector_ctor c (Q : Vector → gmap block (list T) → Prop) E h :
  (∀ h' p, Q (mkVector p 0 c (mkIt p END)) h') → wp (Vector_ctor c) Q E h.
Proof. intros HQ. unfold wp, Vector_ctor, new_array, bind, ret. apply HQ. Qed.

Lemma constructed_bounded v : constructed (T := T) v → bounded v.
Proof.
  intros [c h v' h' Hc Hrun|l h v' h' Hrun|other h v' other' h' Ho Hrun|other h v' other' h' Ho Hrun].
  - revert Hrun. apply (wp_Ret _ (λ r _, bounded r) (λ _ _, True)), wp_Vector_ctor.
    intros. unfold bounded. cbn. lia.
  - revert Hrun. apply (wp_Ret _ (λ r _, bounded r) (λ _ _, True)).
    unfold Vector_ilist_ctor. apply wp_bind, wp_Vector_ctor. intros h1 p.
    apply wp_bind, wp_construct.
    eapply wp_mono; [apply wp_copyFromAndAppend| |done].
    + pose proof (wrap_range (Z.of_nat (length l))). unfold bounded. cbn. lia.
    + cbn. by intros _ s' [? _].
  - revert Hrun. apply (wp_Ret _ (λ r _, bounded r.1) (λ _ _, True)).
    unfold Vector_copy_ctor. apply wp_bind, wp_Vector_ctor. intros h1 p.
    apply wp_construct.
    eapply wp_mono; [apply wp_copyFromAndAppend_vector| |done].
    + destruct Ho. unfold bounded. cbn. lia.
    + cbn. by intros _ s' [? _].
  - rewrite Vector_move_ctor_run in Hrun. injection Hrun as <- _ _. done.
Qed.

Lemma move_assign_run_inv other h v r :
  move_assign other (h, v) = r →
  match r with
  | Ret o' s' => o' = moved_from other ∧
      s'.2 = mkVector (elements other) (size other) (capacity other) (pastTheEnd v)
  | Throw _ _ => False
  | Fault => True
  end.
Proof.
  intros <-. unfold move_assign. unfold bind at 1, this at 1. cbn [snd].
  unfold bind at 1. case_decide.
  - unfold on_fst, delete_array. cbn [fst snd].
    destruct (elements v) as [|b ofs]; [by rewrite moveFrom_run|].
    destruct (h !! b); [|done]. case_decide; [|done]. by rewrite moveFrom_run.
  - unfold ret at 1. by rewrite moveFrom_run.
Qed.

(** The array a copy is made from is given back as it was, but for its
    cached end cursor. *)
Lemma wp_copy_loop_source fuel : ∀ other it e (s : gmap block (list T) * Vector),
  wp (copy_loop fuel other it e) (λ o' _, o' = other) (λ _ _, True) s.
Proof.
  induction fuel as [|fuel IH]; intros other it e [h v].
  - cbn [copy_loop]. by destruct (negb _).
  - cbn [copy_loop]. destruct (negb _); [|done].
    apply wp_bind, wp_call, wp_deref; cbn [fst snd]; [|done].
    intros x _. apply wp_bind, wp_any; [|done]. intros _ [h1 v1].
    apply wp_bind, wp_call, wp_preinc; cbn [fst snd]; [|done].
    intros it' _. apply IH.
Qed.

Lemma wp_copyFromAndAppend_vector_source other (s : gmap block (list T) * Vector) :
  wp (copyFromAndAppend_vector other)
     (λ o' _, size o' = size other ∧ capacity o' = capacity other) (λ _ _, True) s.
Proof.
  destruct s as [h v]. unfold copyFromAndAppend_vector.
  apply wp_bind, wp_call. unfold begin, createBegin.
  apply wp_bind, wp_this, wp_ret. cbn [fst snd].
  apply wp_bind, wp_call, wp_end. intros e o' Hs Hc _ _ _. cbn [fst snd].
  eapply wp_mono; [by apply wp_copy_loop_source| |done].
  cbn. by intros o'' s' ->.
Qed.

Lemma ends_in_wp {A : Type} (m : M (gmap block (list T) * Vector) A) (P : Vector → Prop) v v' :
  (∀ h, wp m (λ _ s', P s'.2) (λ _ s', P s'.2) (h, v)) → ends_in m v v' → P v'.
Proof.
  intros Hwp (h & h' & [[a Hrun]|[e Hrun]]).
  - by apply (wp_Ret _ _ _ _ _ _ (Hwp h) Hrun).
  - by apply (wp_Throw _ _ _ _ _ _ (Hwp h) Hrun).
Qed.

Lemma step_bounded (v0 v0' : Vector) :
  bounded v0 → step (T := T) v0 v0' → bounded v0' ∧ capacity v0 ≤ capacity v0'.
Proof.
  intros Hv Hstep. revert Hv.
  destruct Hstep as [op v v' Hadm Hend|other v v' Ho Hend|v h this_ v' s' Hrun
                    |v h this_ v' h' Hrun|v h this_ v' s' Hrun|v h this_ v' h' Hrun];
    intros Hv.
  - revert Hend. apply (ends_in_wp _ (λ v', bounded v' ∧ capacity v ≤ capacity v')).
    intros h.
    eapply wp_mono; [by apply wp_run|done|]. cbn. intros _ s' ->. split; [done|cbn; lia].
  - revert Hend. apply (ends_in_wp _ (λ v', bounded v' ∧ capacity v ≤ capacity v')).
    intros h.
    eapply wp_mono; [by apply wp_copy_assign| |done]. cbn. by intros o' s' (? & ? & _).
  - revert Hrun.
    apply (wp_Ret _ (λ o' _, bounded o' ∧ capacity v ≤ capacity o') (λ _ _, True)).
    unfold copy_assign. apply wp_bind, wp_any; [|done]. intros v1 s1.
    apply wp_bind, wp_any; [|done]. intros [] s2.
    apply wp_bind, wp_any; [|done]. intros [] s3.
    eapply wp_mono; [apply wp_copyFromAndAppend_vector_source| |done].
    cbn. intros o' _ [Hs Hc]. destruct Hv. unfold bounded. lia.
  - revert Hrun.
    apply (wp_Ret _ (λ r _, bounded r.2 ∧ capacity v ≤ capacity r.2) (λ _ _, True)).
    unfold Vector_copy_ctor. apply wp_bind, wp_any; [|done]. intros this0 h1.
    apply wp_construct.
    eapply wp_mono; [apply wp_copyFromAndAppend_vector_source| |done].
    cbn. intros o' _ [Hs Hc]. destruct Hv. unfold bounded. lia.
  - apply move_assign_run_inv in Hrun as [-> _].
    destruct Hv. unfold bounded, moved_from. cbn. lia.
  - rewrite Vector_move_ctor_run in Hrun. injection Hrun as _ <- _.
    destruct Hv. unfold bounded, moved_from. cbn. lia.
Qed.

(** C2, first half: every array a program can make is within its
    capacity. *)
Lemma reachable_bounded v : reachable (T := T) v → bounded v.
Proof.
  induction 1 as [v Hc|v v' _ IH Hstep|other v v' _ IHv _ IHo Hend].
  - by apply constructed_bounded.
  - by apply (step_bounded v v').
  - revert Hend. apply ends_in_wp. intros h.
    pose proof (move_assign_run_inv other h v _ eq_refl) as Hinv.
    unfold wp. destruct (move_assign other (h, v)) as [o' s'|e s'|]; [|done..].
    destruct Hinv as [_ ->]. destruct IHo. unfold bounded. cbn. lia.
Qed.

(** An array of capacity zero cannot grow: twice zero is zero, and the
    write after the reallocation is out of bounds. *)
Lemma grow_from_zero h v xs x :
  is_vector h v xs → capacity v = 0 →
  append x (h, v) = Fault ∧ prepend x (h, v) = Fault.
Proof.
  intros Hv Hcap. pose proof (is_vector_bounds _ _ _ Hv) as [Hs _].
  assert (size v = 0) as Hsz by lia.
  assert (∃ h1 v1, reallocateMemoryIfNeeded (h, v) = Ret tt (h1, v1) ∧
                   is_vector h1 v1 xs ∧ capacity v1 = 0 ∧ size v1 = 0)
    as (h1 & v1 & Hrun & Hv1 & Hc1 & Hs1).
  { destruct (reallocateMemory_to_spec h v xs 0 Hv) as (h1 & v1 & Hrun & Hv1 & Hc1 & Hs1 & _).
    { pose proof size_max_pos. lia. }
    exists h1, v1. split; [|by rewrite Hs1].
    unfold reallocateMemoryIfNeeded, reallocateMemory.
    unfold bind at 1, this at 1. cbn [snd]. rewrite Hsz, Hcap.
    rewrite (wrap_small (0 + 1)) by (pose proof size_max_pos; vm_compute; split; congruence).
    rewrite decide_True by lia.
    unfold bind at 1, this at 1. cbn [snd]. rewrite Hcap.
    change (0 * 2) with 0. rewrite wrap_small by (pose proof size_max_pos; lia). done. }
  destruct Hv1 as (b & buf & Hel & Hb & Hlen & _).
  assert (write_at 0 x (h1, v1) = Fault) as Hw.
  { unfold write_at, bind, this, on_fst. cbn [fst snd]. rewrite Hel. cbn [ptr_add].
    rewrite (store_oob _ _ buf) by (done || lia). done. }
  split.
  - unfold append. unfold bind at 1. rewrite Hrun.
    unfold bind at 1, this at 1. cbn [snd]. rewrite Hs1. unfold bind at 1. by rewrite Hw.
  - unfold prepend. unfold bind at 1. rewrite Hrun.
    unfold shiftElementsToRightFrom. unfold bind at 1, bind at 1, this at 1. cbn [snd].
    unfold bind at 1.
    rewrite Hs1. change (Z.to_nat (0 - 0)) with 0%nat. cbn [shift_right]. unfold ret at 1.
    unfold bind at 1. by rewrite Hw.
Qed.

(** *** Ownership, insertion and copies *)
(** *** Ownership: the buffer of an array is its own *)

Lemma wp_write_at_apart h0 i x (Q : unit → gmap block (list T) * Vector → Prop) E h v :
  apart h0 h v →
  (∀ h', apart h0 h' v → Q tt (h', v)) →
  wp (write_at i x) Q E (h, v).
Proof.
  intros (b & Hel & Hb & Hdel) HQ. unfold write_at. apply wp_bind, wp_this. cbn [snd].
  unfold wp, on_fst, store. cbn [fst snd]. rewrite Hel. cbn [ptr_add].
  destruct (h !! b) as [buf|]; [|done]. case_decide; [|done].
  apply HQ. exists b. split; [done|]. split; [done|]. by rewrite delete_insert_eq.
Qed.

Lemma wp_shift_right_apart h0 n : ∀ i (Q : unit → gmap block (list T) * Vector → Prop) E h v,
  apart h0 h v →
  (∀ h', apart h0 h' v → Q tt (h', v)) →
  wp (shift_right n i) Q E (h, v).
Proof.
  induction n as [|n IH]; intros i Q E h v Ha HQ.
  - by apply HQ.
  - cbn [shift_right]. apply wp_bind, wp_read_at. intros x.
    apply wp_bind, (wp_write_at_apart h0); [done|]. intros h1 Ha1.
    by apply IH.
Qed.

Lemma wp_close_gap_apart h0 n : ∀ i j (Q : unit → gmap block (list T) * Vector → Prop) E h v,
  apart h0 h v →
  (∀ h', apart h0 h' v → Q tt (h', v)) →
  wp (close_gap n i j) Q E (h, v).
Proof.
  induction n as [|n IH]; intros i j Q E h v Ha HQ.
  - by apply HQ.
  - cbn [close_gap]. apply wp_bind, wp_read_at. intros x.
    apply wp_bind, (wp_write_at_apart h0); [done|]. intros h1 Ha1.
    by apply IH.
Qed.

Lemma wp_shift_left_apart h0 n i (Q : unit → gmap block (list T) * Vector → Prop) E h v :
  apart h0 h v →
  (∀ h', apart h0 h' v → Q tt (h', v)) →
  wp (shift_left n i) Q E (h, v).
Proof.
  intros Ha HQ. unfold wp. rewrite shift_left_close_gap. by apply (wp_close_gap_apart h0).
Qed.

Lemma wp_copy_elements_apart h0 n : ∀ i old (Q : unit → gmap block (list T) * Vector → Prop) E h v,
  apart h0 h v →
  (∀ h', apart h0 h' v → Q tt (h', v)) →
  wp (copy_elements n i old) Q E (h, v).
Proof.
  induction n as [|n IH]; intros i old Q E h v Ha HQ.
  - by apply HQ.
  - cbn [copy_elements]. apply wp_bind, wp_load. intros x.
    apply wp_bind, (wp_write_at_apart h0); [done|]. intros h1 Ha1.
    by apply IH.
Qed.

Lemma wp_reallocateMemory_to_apart h0 c (Q : unit → gmap block (list T) * Vector → Prop) E h v :
  apart h0 h v →
  (∀ h' v', apart h0 h' v' → size v' = size v → capacity v' = c →
            pastTheEnd v' = pastTheEnd v → Q tt (h', v')) →
  wp (reallocateMemory_to c) Q E (h, v).
Proof.
  intros (b & Hel & Hb & Hdel) HQ. unfold reallocateMemory_to.
  apply wp_bind, wp_this. cbn [snd].
  apply wp_bind. unfold wp at 1, set_capacity. cbn [fst snd].
  apply wp_bind. unfold wp at 1, on_fst, new_array. cbn [fst snd].
  apply wp_bind. unfold wp at 1, set_elements. cbn [fst snd size capacity pastTheEnd].
  set (bn := fresh (dom h)).
  assert (h !! bn = None) as Hbn by apply not_elem_of_dom, is_fresh.
  set (h1 := <[bn := replicate (Z.to_nat c) inhabitant]> h).
  apply wp_bind, (wp_copy_elements_apart (delete bn h1)).
  { exists bn. split; [done|]. split; [by rewrite lookup_delete_eq|done]. }
  intros h2 (bn' & [= <-] & _ & Hdel2).
  unfold h1 in Hdel2. rewrite delete_insert_id in Hdel2 by done.
  unfold wp, on_fst, delete_array. cbn [fst snd]. rewrite Hel.
  destruct (h2 !! b) as [obuf|] eqn:Hob; [|done]. rewrite decide_True by done.
  apply HQ; try done.
  exists bn. split; [done|]. split.
  - rewrite <- Hdel. apply lookup_delete_None. by right.
  - by rewrite delete_delete, Hdel2.
Qed.

(** Every public call leaves all memory but the buffer of the array as it
    was, whether it returns or throws. *)
Lemma wp_reallocateMemoryIfNeeded_apart h0 (Q : unit → gmap block (list T) * Vector → Prop) E h v :
  apart h0 h v →
  (∀ h' v', apart h0 h' v' → size v' = size v → pastTheEnd v' = pastTheEnd v → Q tt (h', v')) →
  wp reallocateMemoryIfNeeded Q E (h, v).
Proof.
  intros Ha HQ. unfold reallocateMemoryIfNeeded.
  apply wp_bind, wp_this. cbn [snd]. case_decide as Hgt.
  - unfold reallocateMemory. apply wp_bind, wp_this. cbn [snd].
    apply (wp_reallocateMemory_to_apart h0); [done|]. intros h' v' Ha' Hs _ Hp. by apply HQ.
  - by apply wp_ret, HQ.
Qed.

Lemma apart_set_size h0 h v z :
  apart h0 h v → apart h0 h (mkVector (elements v) z (capacity v) (pastTheEnd v)).
Proof. intros (b & ? & ? & ?). by exists b. Qed.

Lemma apart_set_pastTheEnd h0 h v it :
  apart h0 h v → apart h0 h (mkVector (elements v) (size v) (capacity v) it).
Proof. intros (b & ? & ? & ?). by exists b. Qed.

Lemma wp_append_apart h0 x h v :
  apart h0 h v →
  wp (append x) (λ _ s', apart h0 s'.1 s'.2) (λ _ _, False) (h, v).
Proof.
  intros Ha. unfold append.
  apply wp_bind, (wp_reallocateMemoryIfNeeded_apart h0); [done|]. intros h1 v1 Ha1 _ _.
  apply wp_bind, wp_this. cbn [snd].
  apply wp_bind, (wp_write_at_apart h0); [done|]. intros h2 Ha2.
  unfold wp, set_size. cbn [fst snd]. by apply apart_set_size.
Qed.

Lemma wp_insert_at_apart h0 idx x h v :
  apart h0 h v →
  wp (reallocateMemoryIfNeeded ;;; shiftElementsToRightFrom idx ;;; write_at idx x ;;;
      v <- this ;; set_size (wrap (size v + 1)))
     (λ _ s', apart h0 s'.1 s'.2) (λ _ _, False) (h, v).
Proof.
  intros Ha.
  apply wp_bind, (wp_reallocateMemoryIfNeeded_apart h0); [done|]. intros h1 v1 Ha1 _ _.
  unfold shiftElementsToRightFrom. apply wp_bind, wp_bind, wp_this. cbn [snd].
  apply (wp_shift_right_apart h0); [done|]. intros h2 Ha2.
  apply wp_bind, (wp_write_at_apart h0); [done|]. intros h3 Ha3.
  apply wp_bind, wp_this. unfold wp, set_size. cbn [fst snd]. by apply apart_set_size.
Qed.

Lemma wp_run_apart h0 op h v :
  apart h0 h v →
  wp (run op) (λ _ s', apart h0 s'.1 s'.2) (λ _ s', s' = (h, v)) (h, v).
Proof.
  intros Ha.
  destruct op as [| | |x|x|pos x| | |pos|first last| | |it|it|it|it|it]; cbn [run].
  - by apply wp_discard, wp_bind, wp_this, wp_ret.
  - by apply wp_discard, wp_bind, wp_this, wp_ret.
  - by apply wp_discard, wp_bind, wp_this, wp_ret.
  - eapply wp_mono; [by apply (wp_append_apart h0)|auto|done].
  - eapply wp_mono; [by apply (wp_insert_at_apart h0 0)|auto|done].
  - unfold insert. apply wp_bind, wp_calculateIndex. intros d _.
    eapply wp_mono; [by apply (wp_insert_at_apart h0)|auto|done].
  - apply wp_discard. unfold popFirst.
    apply wp_bind, wp_throwIfCollectionEmpty; [done|]. intros Hne.
    apply wp_bind, wp_read_at. intros x.
    unfold shiftElementsToLeftUpTo. apply wp_bind, wp_bind, wp_this. cbn [snd].
    apply (wp_shift_left_apart h0); [done|]. intros h1 Ha1.
    apply wp_bind, wp_this. unfold wp, bind, set_size, ret. cbn [fst snd].
    by apply apart_set_size.
  - apply wp_discard. unfold popLast.
    apply wp_bind, wp_throwIfCollectionEmpty; [done|]. intros Hne.
    apply wp_bind, wp_this. cbn [snd].
    apply wp_bind, wp_read_at. intros x.
    unfold wp, bind, set_size, ret. cbn [fst snd]. by apply apart_set_size.
  - unfold erase.
    apply wp_bind, wp_throwIfCollectionEmpty; [done|]. intros Hne.
    apply wp_bind. unfold throwIfIteratorEqaulsEnd.
    destruct (isEnd pos); [by apply wp_throw|]. apply wp_ret.
    apply wp_bind, wp_calculateIndex. intros d _.
    unfold shiftElementsToLeftUpTo. apply wp_bind, wp_bind, wp_this. cbn [snd].
    apply (wp_shift_left_apart h0); [done|]. intros h1 Ha1.
    apply wp_bind, wp_this. unfold wp, set_size. cbn [fst snd]. by apply apart_set_size.
  - unfold erase_range. destruct (it_eq first last); [by apply wp_ret|].
    apply wp_bind, wp_calculateIndex. intros df _.
    apply wp_bind, wp_calculateIndex. intros dl _.
    apply wp_bind, wp_this. cbn [snd].
    apply wp_bind. unfold wp at 1, set_size. cbn [fst snd].
    apply wp_bind, wp_this. cbn [snd size].
    apply (wp_close_gap_apart h0); [by apply apart_set_size|]. by intros h1 Ha1.
  - apply wp_discard. unfold begin, createBegin. by apply wp_bind, wp_this, wp_ret.
  - apply wp_discard. unfold end_, isEmpty. apply wp_bind, wp_bind, wp_this, wp_ret.
    cbn [snd]. case_bool_decide.
    + unfold createBeginAsEnd, begin, createBegin.
      by apply wp_bind, wp_bind, wp_this, wp_ret, wp_ret.
    + unfold preparePastTheEnd. apply wp_bind, wp_this. cbn [snd].
      apply wp_bind. unfold wp at 1, set_pastTheEnd. cbn [fst snd].
      apply wp_bind, wp_this, wp_ret. cbn [fst snd]. by apply apart_set_pastTheEnd.
  - by apply wp_discard, wp_deref.
  - by apply wp_discard, wp_preinc.
  - by apply wp_discard, wp_predec.
  - apply wp_discard. unfold ConstIterator_postinc. apply wp_bind, wp_preinc; [|done].
    intros it' _. by apply wp_ret.
  - apply wp_discard. unfold ConstIterator_postdec. apply wp_bind, wp_predec; [|done].
    intros it' _. by apply wp_ret.
Qed.


Lemma Vector_ctor_owns h c :
  0 ≤ c < size_max →
  ∃ h' v, Vector_ctor c h = Ret v h' ∧ owns h h' v [] ∧ capacity v = c.
Proof.
  intros Hc. destruct (Vector_ctor_spec h c Hc) as (h' & v & Hrun & Hv & Hcap).
  exists h', v. split; [done|]. split; [|done]. split; [done|].
  revert Hrun. unfold Vector_ctor, new_array, bind, ret. intros [= <- <-].
  exists (fresh (dom h)). split; [done|].
  assert (h !! fresh (dom h) = None) as Hf by apply not_elem_of_dom, is_fresh.
  split; [done|]. by apply delete_insert_id.
Qed.

Lemma is_vector_apart h0 h v other xs :
  apart h0 h v → is_vector h0 other xs → is_vector h other xs.
Proof.
  intros (b & Hel & Hb & Hdel) (bo & buf & Helo & Hbo & Hrest).
  exists bo, buf. split; [done|]. split; [|done].
  rewrite <- Hdel in Hbo. by apply lookup_delete_Some in Hbo as [_ ?].
Qed.

Lemma wp_appends_apart h0 items : ∀ h v,
  apart h0 h v →
  wp (appends items) (λ _ s', apart h0 s'.1 s'.2) (λ _ _, False) (h, v).
Proof.
  induction items as [|x items IH]; intros h v Ha; [done|].
  cbn [appends]. apply wp_bind.
  eapply wp_mono; [by apply (wp_append_apart h0)| |done].
  cbn. intros _ [h1 v1] Ha1. by apply IH.
Qed.

Lemma wp_prepends_apart h0 items : ∀ h v,
  apart h0 h v →
  wp (prepends items) (λ _ s', apart h0 s'.1 s'.2) (λ _ _, False) (h, v).
Proof.
  induction items as [|x items IH]; intros h v Ha; [done|].
  cbn [prepends]. apply wp_bind.
  eapply wp_mono; [by apply (wp_insert_at_apart h0 0)| |done].
  cbn. intros _ [h1 v1] Ha1. by apply IH.
Qed.

Lemma vector_owns_appends h0 items h v xs :
  owns h0 h v xs → 1 ≤ capacity v →
  2 * (Z.of_nat (length xs) + Z.of_nat (length items)) < size_max →
  ∃ h' v', appends items (h, v) = Ret tt (h', v') ∧ owns h0 h' v' (xs ++ items).
Proof.
  intros [Hv Ha] Hcap Hlen.
  destruct (vector_appends_spec items h v xs Hv Hcap Hlen) as (h' & v' & Hrun & Hv').
  exists h', v'. split; [done|]. split; [done|].
  by apply (wp_Ret _ _ _ _ _ _ (wp_appends_apart h0 items h v Ha) Hrun).
Qed.

Lemma vector_owns_prepends h0 items h v xs :
  owns h0 h v xs → 1 ≤ capacity v →
  2 * (Z.of_nat (length xs) + Z.of_nat (length items)) < size_max →
  ∃ h' v', prepends items (h, v) = Ret tt (h', v') ∧ owns h0 h' v' (reverse items ++ xs).
Proof.
  intros [Hv Ha] Hcap Hlen.
  destruct (vector_prepends_spec items h v xs Hv Hcap Hlen) as (h' & v' & Hrun & Hv').
  exists h', v'. split; [done|]. split; [done|].
  by apply (wp_Ret _ _ _ _ _ _ (wp_prepends_apart h0 items h v Ha) Hrun).
Qed.

(** The destructor gives back exactly the memory the array took. *)
Lemma vector_owns_dtor h0 h v xs : owns h0 h v xs → Vector_dtor (h, v) = Ret tt (h0, v).
Proof.
  intros [Hv (b & Hel & _ & Hdel)].
  destruct (Vector_dtor_spec h v xs Hv) as (b' & Hel' & ->).
  rewrite Hel in Hel'. injection Hel' as <-. by rewrite Hdel.
Qed.

(** [Vector(std::initializer_list<Type> l)]. *)
Lemma copyFromAndAppend_appends l (s : gmap block (list T) * Vector) :
  copyFromAndAppend l s = appends l s.
Proof.
  revert s. induction l as [|x l IH]; intros s; [done|].
  cbn [copyFromAndAppend appends]. unfold bind. by destruct (append x s).
Qed.

Lemma vector_appends_room items : ∀ h v xs,
  is_vector h v xs →
  Z.of_nat (length xs) + Z.of_nat (length items) ≤ capacity v →
  ∃ h' v',
    appends items (h, v) = Ret tt (h', v') ∧ is_vector h' v' (xs ++ items) ∧
    capacity v' = capacity v.
Proof.
  induction items as [|x items IH]; intros h v xs Hv Hlen.
  - exists h, v. by rewrite app_nil_r.
  - cbn [length] in Hlen.
    pose proof Hv as (_ & _ & _ & _ & _ & Hsz & _).
    destruct (vector_append_spec h v xs x Hv) as (h1 & v1 & Happ & Hv1 & Hc1); [left; lia|].
    rewrite decide_True in Hc1 by lia.
    destruct (IH _ _ _ Hv1) as (h' & v' & Hrun & Hv' & Hc').
    { rewrite length_app. cbn [length]. lia. }
    exists h', v'. split; [|split].
    + cbn [appends]. unfold bind at 1. by rewrite Happ.
    + by rewrite <- app_assoc in Hv'.
    + congruence.
Qed.

Lemma Vector_ilist_ctor_spec h l :
  Z.of_nat (length l) < size_max →
  ∃ h' v,
    Vector_ilist_ctor l h = Ret v h' ∧ owns h h' v l ∧
    capacity v = Z.of_nat (length l).
Proof.
  intros Hlen.
  destruct (Vector_ctor_owns h (Z.of_nat (length l))) as (h1 & v0 & Hctor & [Hv0 Ha0] & Hcap);
    [lia|].
  destruct (vector_appends_room l h1 v0 [] Hv0) as (h' & v & Hrun & Hv & Hc).
  { cbn [length]. lia. }
  unfold Vector_ilist_ctor. rewrite wrap_small by lia.
  unfold bind at 1. rewrite Hctor. unfold bind at 1, construct.
  rewrite copyFromAndAppend_appends, Hrun. cbn [fst snd]. unfold ret.
  exists h', v. split; [done|]. split; [|congruence]. split; [done|].
  by apply (wp_Ret _ _ _ _ _ _ (wp_appends_apart h l h1 v0 Ha0) Hrun).
Qed.


(** [prepend(item)] is [insert(begin(), item)], on any array. *)
Lemma calculateIndex_begin h v : calculateIndex (mkIt (elements v) BEGIN) (h, v) = Ret 0 (h, v).
Proof.
  unfold calculateIndex. unfold bind, this. cbn [snd currentElement].
  assert (ptr_diff (elements v) (elements v) = Some 0) as ->.
  { destruct (elements v) as [|b o]; [done|]. cbn. rewrite decide_True by done.
    f_equal. lia. }
  by rewrite wrap_small by (pose proof size_max_pos; lia).
Qed.

Lemma vector_prepend_is_insert_at_begin x (s : gmap block (list T) * Vector) :
  prepend x s = (b <- begin ;; insert b x) s.
Proof.
  destruct s as [h v]. unfold bind at 1. rewrite begin_run.
  unfold insert. unfold bind at 1. by rewrite calculateIndex_begin.
Qed.

(** Copying: the loop of [copyFromAndAppend(other)] into an array with room
    for what is left of [other]. *)
Lemma vector_copy_loop_spec h0 k : ∀ fuel h v ys other xs it e (i : nat),
  owns h0 h v ys → is_vector h0 other xs →
  at_index other it i → (i + k = length xs)%nat →
  (k ≠ 0%nat → isEnd it = false) →
  isEnd e = true → currentElement e = ptr_add (elements other) (size other) →
  (k ≤ fuel)%nat →
  Z.of_nat (length ys) + Z.of_nat k ≤ capacity v →
  ∃ h' v',
    copy_loop fuel other it e (h, v) = Ret other (h', v') ∧
    owns h0 h' v' (ys ++ drop i xs) ∧ capacity v' = capacity v.
Proof.
  induction k as [|k IH]; intros fuel h v ys other xs it e i [Hv Ha] Ho Hat Hlen Hit He Hpe Hfuel Hroom.
  all: pose proof Ho as (bo & bufo & Helo & Hbo & Hcapo & Hszo & Hpreo & Hmaxo & Hndo).
  all: destruct (is_vector_bounds _ _ _ Ho) as [Hbdo _].
  - assert (it_eq it e = true) as Heq.
    { unfold it_eq. destruct (isEnd it && isEnd e); [done|].
      apply bool_decide_eq_true_2. rewrite Hpe, Hat, Hszo. do 2 f_equal. lia. }
    exists h, v. split; [|split; [|done]].
    + destruct fuel; cbn [copy_loop]; by rewrite Heq.
    + rewrite drop_ge, app_nil_r by lia. by split.
  - specialize (Hit ltac:(done)).
    assert (it_eq it e = false) as Hne.
    { unfold it_eq. rewrite Hit. cbn [andb]. apply bool_decide_eq_false_2.
      rewrite Hpe, Hat, Helo, Hszo. cbn [ptr_add]. intros [=]. lia. }
    destruct fuel as [|fuel]; [lia|]. cbn [copy_loop]. rewrite Hne. cbn [negb].
    destruct (lookup_lt_is_Some_2 xs i) as [x Hx]; [lia|].
    pose proof (is_vector_apart _ _ _ _ _ Ha Ho) as Hoh.
    unfold bind at 1, call at 1. cbn [fst snd].
    rewrite (vector_deref_at _ _ xs _ i x) by done. cbn [fst snd].
    pose proof Hv as (_ & _ & _ & _ & _ & Hsz & _).
    destruct (vector_append_spec h v ys x Hv) as (h1 & v1 & Happ & Hv1 & Hc1); [left; lia|].
    rewrite decide_True in Hc1 by lia.
    pose proof (wp_Ret _ _ _ _ _ _ (wp_append_apart h0 x h v Ha) Happ) as Ha1.
    cbn [fst snd] in Ha1.
    unfold bind at 1. rewrite Happ.
    unfold bind at 1, call at 1. cbn [fst snd].
    rewrite (vector_preinc_at _ _ _ i bo) by (done || lia). cbn [fst snd].
    destruct (IH fuel h1 v1 (ys ++ [x]) other xs
                (mkIt (Ptr bo (Z.of_nat (S i)))
                      (if decide (Z.of_nat (S i) >= size other) then END else REGULAR)) e (S i))
      as (h' & v' & Hrun & Hown & Hcap'); try done.
    + unfold at_index. rewrite Helo. cbn [currentElement ptr_add]. f_equal.
    + lia.
    + intros Hk. rewrite decide_False by lia. done.
    + lia.
    + rewrite length_app. cbn [length]. lia.
    + exists h', v'. split; [done|]. split; [|congruence].
      rewrite (drop_S _ _ _ Hx). by rewrite <- app_assoc in Hown.
Qed.

Lemma vector_copyFromAndAppend_vector_spec h0 h v ys other xs :
  owns h0 h v ys → is_vector h0 other xs →
  Z.of_nat (length ys) + Z.of_nat (length xs) ≤ capacity v →
  ∃ h' v' other',
    copyFromAndAppend_vector other (h, v) = Ret other' (h', v') ∧
    owns h0 h' v' (ys ++ xs) ∧ capacity v' = capacity v ∧
    is_vector h0 other' xs ∧ elements other' = elements other ∧
    size other' = size other ∧ capacity other' = capacity other.
Proof.
  intros Hown Ho Hroom.
  pose proof Ho as (bo & bufo & Helo & Hbo & Hcapo & Hszo & Hpreo & Hmaxo & Hndo).
  unfold copyFromAndAppend_vector.
  unfold bind at 1, call at 1. cbn [fst snd]. rewrite begin_run. cbn [fst snd].
  unfold bind at 1, call at 1. cbn [fst snd].
  destruct (decide (size other = 0)) as [Hz|Hnz].
  - rewrite end_empty by done. cbn [fst snd].
    destruct (vector_copy_loop_spec h0 0 (S (Z.to_nat (size other))) h v ys other xs
                (mkIt (elements other) BEGIN) (mkIt (elements other) END) 0 Hown Ho)
      as (h' & v' & Hrun & Hown' & Hcap'); try done.
    + unfold at_index. cbn. by rewrite ptr_add_0.
    + cbn. lia.
    + cbn. by rewrite Hz, ptr_add_0.
    + lia.
    + lia.
    + exists h', v', other. by rewrite drop_0 in Hown'.
  - rewrite end_nonempty by done. cbn [fst snd].
    pose proof (is_vector_with_end _ _ _ Ho) as Ho'.
    destruct (vector_copy_loop_spec h0 (length xs) (S (Z.to_nat (size other))) h v ys
                (with_end other) xs (mkIt (elements other) BEGIN)
                (pastTheEnd (with_end other)) 0 Hown Ho')
      as (h' & v' & Hrun & Hown' & Hcap'); try done.
    + unfold at_index. cbn. by rewrite ptr_add_0.
    + cbn. unfold isEnd. cbn. by rewrite bool_decide_eq_true_2.
    + lia.
    + exists h', v', (with_end other). by rewrite drop_0 in Hown'.
Qed.

(** [Vector(const Vector &other)]. *)
Lemma Vector_copy_ctor_spec h other xs :
  is_vector h other xs →
  ∃ h' v other',
    Vector_copy_ctor other h = Ret (v, other') h' ∧
    owns h h' v xs ∧ capacity v = capacity other ∧
    is_vector h' other' xs ∧ elements other' = elements other ∧
    size other' = size other ∧ capacity other' = capacity other.
Proof.
  intros Ho. destruct (is_vector_bounds _ _ _ Ho) as [Hbd Hm].
  pose proof Ho as (_ & _ & _ & _ & _ & Hsz & _).
  destruct (Vector_ctor_owns h (capacity other)) as (h1 & v0 & Hctor & Hown0 & Hcap0); [lia|].
  destruct (vector_copyFromAndAppend_vector_spec h h1 v0 [] other xs Hown0 Ho)
    as (h' & v & other' & Hrun & Hown & Hcap & Ho' & Hfields).
  { cbn [length]. lia. }
  unfold Vector_copy_ctor. unfold bind. rewrite Hctor. unfold construct. rewrite Hrun.
  cbn [fst snd]. exists h', v, other'. split; [done|]. split; [done|].
  split; [congruence|]. split; [|done].
  destruct Hown as [_ Ha]. by apply (is_vector_apart _ _ _ _ _ Ha).
Qed.

(** [operator=(const Vector &other)] between two different arrays. *)
Lemma vector_copy_assign_spec h v ys other xs :
  is_vector h v ys → is_vector h other xs → elements v ≠ elements other →
  ∃ h' v' other',
    copy_assign other (h, v) = Ret other' (h', v') ∧
    is_vector h' v' xs ∧
    capacity v' = (if decide (capacity v < size other) then size other else capacity v) ∧
    is_vector h' other' xs ∧ elements other' = elements other ∧
    size other' = size other ∧ capacity other' = capacity other ∧
    elements v' ≠ elements other'.
Proof.
  intros Hv Ho Hne. destruct (is_vector_bounds _ _ _ Ho) as [Hbdo Hmo].
  destruct (is_vector_bounds _ _ _ Hv) as [Hbd Hm].
  pose proof Hv as (b & buf & Hel & Hb & Hcap & Hsz & Hpre & Hmax & Hnd).
  pose proof Ho as (bo & bufo & Helo & Hbo & Hcapo & Hszo & Hpreo & Hmaxo & Hndo).
  assert (b ≠ bo) as Hbne by (intros ->; apply Hne; congruence).
  set (h0 := delete b h).
  assert (apart h0 h v) as Ha.
  { exists b. split; [done|]. split; [apply lookup_delete_eq|done]. }
  assert (is_vector h0 other xs) as Ho0.
  { exists bo, bufo. split; [done|]. split; [|done].
    unfold h0. by rewrite lookup_delete_ne. }
  assert (∃ h1 v1, (if decide (capacity v < size other)
                     then reallocateMemory_to (size other) else ret tt) (h, v) = Ret tt (h1, v1) ∧
                   owns h0 h1 v1 ys ∧
                   capacity v1 = (if decide (capacity v < size other)
                                  then size other else capacity v))
    as (h1 & v1 & Hre & [Hv1 Ha1] & Hc1).
  { case_decide as Hlt.
    - destruct (reallocateMemory_to_spec h v ys (size other) Hv) as (h1 & v1 & Hre & Hv1 & Hc1 & _);
        [lia|].
      exists h1, v1. split; [done|]. split; [|done]. split; [done|].
      pose proof (wp_reallocateMemory_to_apart h0 (size other)
                    (λ _ s', apart h0 s'.1 s'.2) (λ _ _, False) h v Ha) as Hwp.
      apply (wp_Ret _ _ _ _ _ _ (Hwp ltac:(done)) Hre).
    - exists h, v. by split. }
  set (v2 := mkVector (elements v1) 0 (capacity v1) (pastTheEnd v1)).
  assert (owns h0 h1 v2 []) as Hown2.
  { split.
    - destruct Hv1 as (b1 & buf1 & Hel1 & Hb1 & Hcap1 & Hsz1 & Hpre1 & Hmax1 & Hnd1).
      exists b1, buf1. cbn. split; [done|]. split; [done|]. split; [done|].
      split; [done|]. split; [|done]. intros i x Hi. by rewrite lookup_nil in Hi.
    - destruct Ha1 as (b1 & Hel1 & Hb1 & Hd1). by exists b1. }
  destruct (vector_copyFromAndAppend_vector_spec h0 h1 v2 [] other xs Hown2 Ho0)
    as (h' & v' & other' & Hrun & [Hv' Ha'] & Hcap' & Ho' & Hfields).
  { cbn [length v2 capacity]. rewrite Hc1. case_decide; lia. }
  unfold copy_assign. unfold bind at 1, this at 1. cbn [snd].
  unfold bind at 1. rewrite Hre.
  unfold bind at 1, set_size at 1. cbn [fst snd]. fold v2. rewrite Hrun.
  exists h', v', other'. split; [done|]. split; [done|].
  split; [by rewrite Hcap'|].
  split; [by apply (is_vector_apart _ _ _ _ _ Ha')|].
  split; [tauto|]. split; [tauto|]. split; [tauto|].
  destruct Ha' as (b' & Hel' & Hb' & _).
  destruct Hfields as (-> & _). rewrite Hel', Helo. intros [= ->].
  unfold h0 in Hb'. rewrite lookup_delete_ne in Hb' by done. congruence.
Qed.

(** [operator--()] on the cursors of an array. *)

Lemma vector_predec_begin it (s : gmap block (list T) * Vector) :
  isBegin it = true → ConstIterator_predec it s = Throw out_of_range s.
Proof. intros Hit. unfold ConstIterator_predec, throwIfBegin. by rewrite Hit. Qed.

Lemma vector_predec_at h v it (i : nat) b :
  elements v = Ptr b 0 → at_index v it (S i) → isBegin it = false →
  ConstIterator_predec it (h, v) =
  Ret (mkIt (Ptr b (Z.of_nat i)) (if decide (i = 0%nat) then BEGIN else REGULAR)) (h, v).
Proof.
  intros Hel Hat Hit.
  unfold at_index in Hat. rewrite Hel in Hat. cbn [ptr_add] in Hat. rewrite Z.add_0_l in Hat.
  destruct it as [p t]. cbn in Hat. subst p.
  unfold ConstIterator_predec, throwIfBegin. rewrite Hit. vsimpl.
  replace (Z.of_nat (S i) + -1) with (Z.of_nat i) by lia. rewrite Hel.
  destruct t; [| |].
  - unfold isEnd. cbn [iteratorType]. rewrite bool_decide_eq_false_2 by done.
    cbn [currentElement]. destruct i as [|i].
    + by rewrite !decide_True by done.
    + rewrite !decide_False; [done|done|]. intros [=].
  - done.
  - unfold isEnd. cbn [iteratorType]. rewrite bool_decide_eq_true_2 by done.
    cbn [currentElement markRegular]. destruct i as [|i].
    + by rewrite !decide_True by done.
    + rewrite !decide_False; [done|done|]. intros [=].
Qed.

(** The cursor that a traversal from [begin()] holds at slot [i] of an
    array of [n] elements. *)
Lemma vector_preinc_predec h v it (i : nat) b :
  elements v = Ptr b 0 → size v < size_max →
  it = mkIt (Ptr b (Z.of_nat i)) (if decide (i = 0%nat) then BEGIN else REGULAR) →
  Z.of_nat i < size v →
  (it' <- ConstIterator_preinc it ;; ConstIterator_predec it') (h, v) = Ret it (h, v).
Proof.
  intros Hel Hmax -> Hi. unfold bind.
  rewrite (vector_preinc_at _ _ _ i b); [|done| | |lia].
  - rewrite (vector_predec_at _ _ _ i b); [done|done| |].
    + unfold at_index. rewrite Hel. cbn. f_equal; lia.
    + unfold isBegin. cbn. by case_decide.
  - unfold at_index. rewrite Hel. cbn. f_equal; lia.
  - unfold isEnd. cbn. by case_decide.
Qed.

Lemma vector_predec_preinc h v it (i : nat) b :
  elements v = Ptr b 0 → size v < size_max →
  it = mkIt (Ptr b (Z.of_nat (S i)))
            (if decide (Z.of_nat (S i) >= size v) then END else REGULAR) →
  Z.of_nat (S i) ≤ size v →
  (it' <- ConstIterator_predec it ;; ConstIterator_preinc it') (h, v) = Ret it (h, v).
Proof.
  intros Hel Hmax -> Hi. unfold bind.
  rewrite (vector_predec_at _ _ _ i b); [|done| |].
  - rewrite (vector_preinc_at _ _ _ i b); [done|done| | |lia].
    + unfold at_index. rewrite Hel. cbn. f_equal; lia.
    + unfold isEnd. cbn. by case_decide.
  - unfold at_index. rewrite Hel. cbn. f_equal; lia.
  - unfold isBegin. cbn. by case_decide.
Qed.

(** An array that was moved from keeps its capacity with no buffer: it
    cannot take an element again. *)
Lemma moved_from_refill h other x it :
  0 ≤ capacity other →
  append x (h, moved_from other) = Fault ∧
  prepend x (h, moved_from other) = Fault ∧
  insert it x (h, moved_from other) = Fault.
Proof.
  intros Hc.
  assert (wrap 1 = 1) as H1 by (by vm_compute).
  assert (wrap 0 = 0) as H0 by (by vm_compute).
  assert (∃ h1 v1, reallocateMemoryIfNeeded (h, moved_from other) = Ret tt (h1, v1) ∧
                   size v1 = 0 ∧
                   (elements v1 = nullptr ∨
                    ∃ bn, elements v1 = Ptr bn 0 ∧ h1 !! bn = Some [])) as
    (h1 & v1 & Hre & Hs1 & Hel1).
  { unfold reallocateMemoryIfNeeded, moved_from. vsimpl. rewrite Z.add_0_l, H1.
    case_decide as Hgt.
    - unfold reallocateMemory, reallocateMemory_to, new_array, delete_array. vsimpl.
      replace (capacity other) with 0 by lia. rewrite Z.mul_0_l, H0. cbn [Z.to_nat copy_elements].
      vsimpl. eexists _, _. split; [done|]. split; [done|]. right.
      eexists. split; [done|]. cbn. by rewrite lookup_insert_eq.
    - eexists _, _. split; [done|]. split; [done|]. by left. }
  assert (write_at 0 x (h1, v1) = Fault) as Hw.
  { unfold write_at. vsimpl. destruct Hel1 as [->|(bn & -> & Hbn)]; [done|].
    cbn [ptr_add]. unfold store. rewrite Hbn. by rewrite decide_False by (cbn; lia). }
  split; [|split].
  - unfold append. unfold bind at 1. rewrite Hre. unfold bind at 1, this at 1. cbn [snd].
    rewrite Hs1. unfold bind at 1. by rewrite Hw.
  - unfold prepend. unfold bind at 1. rewrite Hre.
    unfold bind at 1, shiftElementsToRightFrom, bind at 1, this at 1. cbn [snd].
    rewrite Hs1. change (Z.to_nat (0 - 0)) with 0%nat. cbn [shift_right]. unfold ret at 1.
    unfold bind at 1. by rewrite Hw.
  - unfold insert, calculateIndex. unfold bind at 1, bind at 1, this at 1. cbn [snd moved_from elements].
    destruct (currentElement it) as [|bi oi]; [|done]. cbn [ptr_diff]. rewrite H0.
    unfold ret at 1. unfold bind at 1. rewrite Hre.
    unfold bind at 1, shiftElementsToRightFrom, bind at 1, this at 1. cbn [snd].
    rewrite Hs1. change (Z.to_nat (0 - 0)) with 0%nat. cbn [shift_right]. unfold ret at 1.
    unfold bind at 1. by rewrite Hw.
Qed.

(** Round trips. *)



End VectorFacts.
End VectorFacts.

(** ** Facts about main.cpp *)

Module MainFacts.

Lemma length_seqZ_items n : n < 2 ^ 63 → 2 * Z.of_nat (length (seqZ 0 n)) < size_max.
Proof. intros Hn. rewrite length_seqZ, size_max_eq. lia. Qed.

Lemma testAppend_vector_run n h : n < 2 ^ 63 → Main.testAppend_vector n h = Ret tt h.
Proof.
  intros Hn. pose proof (length_seqZ_items n Hn) as Hlen. pose proof size_max_eq as Hmax.
  destruct (VectorFacts.Vector_ctor_owns h Vector.DEFAULT_INITIAL_CAPACITY)
    as (h1 & v0 & Hctor & Hown0 & Hcap); [unfold Vector.DEFAULT_INITIAL_CAPACITY; lia|].
  destruct (VectorFacts.vector_owns_appends h (seqZ 0 n) h1 v0 [] Hown0)
    as (h2 & v2 & Hrun & Hown); [rewrite Hcap; unfold Vector.DEFAULT_INITIAL_CAPACITY; lia|cbn [length]; lia|].
  pose proof (VectorFacts.vector_owns_dtor _ _ _ _ Hown) as Hd.
  unfold Main.testAppend_vector. unfold bind at 1. rewrite Hctor.
  unfold bind at 1, construct, bind at 1. by rewrite Hrun, Hd.
Qed.

Lemma testPrepend_vector_run n h : n < 2 ^ 63 → Main.testPrepend_vector n h = Ret tt h.
Proof.
  intros Hn. pose proof (length_seqZ_items n Hn) as Hlen. pose proof size_max_eq as Hmax.
  destruct (VectorFacts.Vector_ctor_owns h Vector.DEFAULT_INITIAL_CAPACITY)
    as (h1 & v0 & Hctor & Hown0 & Hcap); [unfold Vector.DEFAULT_INITIAL_CAPACITY; lia|].
  destruct (VectorFacts.vector_owns_prepends h (seqZ 0 n) h1 v0 [] Hown0)
    as (h2 & v2 & Hrun & Hown); [rewrite Hcap; unfold Vector.DEFAULT_INITIAL_CAPACITY; lia|cbn [length]; lia|].
  pose proof (VectorFacts.vector_owns_dtor _ _ _ _ Hown) as Hd.
  unfold Main.testPrepend_vector. unfold bind at 1. rewrite Hctor.
  unfold bind at 1, construct, bind at 1. by rewrite Hrun, Hd.
Qed.

Lemma testAppend_list_run n h : n < 2 ^ 63 → Main.testAppend_list n h = Ret tt h.
Proof.
  intros Hn. pose proof (length_seqZ_items n Hn) as Hlen.
  destruct (ListFacts.LinkedList_ctor_owns h) as (h1 & l0 & Hctor & Hown0).
  destruct (ListFacts.list_owns_appends h (seqZ 0 n) h1 l0 [] Hown0)
    as (h2 & l2 & nodes & Hrun & Hown & _); [cbn [length]; lia|].
  destruct (ListFacts.list_owns_dtor _ _ _ _ Hown) as (l3 & Hd).
  unfold Main.testAppend_list. unfold bind at 1. rewrite Hctor.
  unfold bind at 1, construct, bind at 1. by rewrite Hrun, Hd.
Qed.

Lemma testPrepend_list_run n h : n < 2 ^ 63 → Main.testPrepend_list n h = Ret tt h.
Proof.
  intros Hn. pose proof (length_seqZ_items n Hn) as Hlen.
  destruct (ListFacts.LinkedList_ctor_owns h) as (h1 & l0 & Hctor & Hown0).
  destruct (ListFacts.list_owns_prepends h (seqZ 0 n) h1 l0 [] Hown0)
    as (h2 & l2 & nodes & Hrun & Hown & _); [cbn [length]; lia|].
  destruct (ListFacts.list_owns_dtor _ _ _ _ Hown) as (l3 & Hd).
  unfold Main.testPrepend_list. unfold bind at 1. rewrite Hctor.
  unfold bind at 1, construct, bind at 1. by rewrite Hrun, Hd.
Qed.

End MainFacts.

(** * The properties of the specification *)

(** Well-formedness of the concrete containers, by evaluation. *)

Ltac solve_is_list :=
  unfold LinkedList.is_list;
  split; [by apply (bool_decide_unpack _)|];
  split; [by vm_compute|];
  split; [vm_compute; reflexivity|];
  split; [vm_compute; reflexivity|];
  split; [repeat constructor|];
  split; [vm_compute; reflexivity|];
  split; [vm_compute; reflexivity|reflexivity].

Lemma list_a_ok : LinkedList.is_list Examples.list_heap Examples.list_a Examples.nodes_a.
Proof. solve_is_list. Qed.

Lemma list_b_ok : LinkedList.is_list Examples.list_heap Examples.list_b Examples.nodes_b.
Proof. solve_is_list. Qed.

Lemma list_c_ok : LinkedList.is_list Examples.list_heap Examples.list_c [].
Proof. solve_is_list. Qed.

Ltac solve_is_vector b buf :=
  exists b, buf;
  split; [reflexivity|];
  split; [vm_compute; reflexivity|];
  split; [vm_compute; reflexivity|];
  split; [vm_compute; reflexivity|];
  split; [intros i x; repeat (first [by cbn | destruct i as [|i]])|];
  split; [vm_compute; reflexivity|reflexivity].

Lemma vector_a_ok : Vector.is_vector Examples.vector_heap Examples.vector_a [10; 20; 30].
Proof. solve_is_vector 1%positive [10; 20; 30; 0; 0]. Qed.

Lemma vector_b_ok : Vector.is_vector Examples.vector_heap Examples.vector_b [40; 50].
Proof. solve_is_vector 2%positive [40; 50]. Qed.

Lemma vector_c_ok : Vector.is_vector Examples.vector_heap Examples.vector_c [].
Proof. solve_is_vector 3%positive [0; 0; 0; 0]. Qed.

(** ** C3: growth of the array *)

(** C3: an array made with capacity zero cannot grow.  [reallocateMemory]
    doubles the capacity, which leaves zero at zero, so [append] and
    [prepend] on [Vector(0)], or on the array made from an empty initializer
    list, go on to write [elements[0]] in a buffer that has no slot: the call
    has undefined behaviour, where the specification has the item stored as
    the new last element of an array of capacity C holding C elements. *)
Theorem C3_append_at_capacity_zero :
  ∀ (T : Type) `(Inhabited T) (h : gmap positive (list T)) (x : T),
    (v <- Vector.Vector_ctor 0 ;; construct v (Vector.append x)) h = Fault ∧
    (v <- Vector.Vector_ctor 0 ;; construct v (Vector.prepend x)) h = Fault ∧
    (v <- Vector.Vector_ilist_ctor [] ;; construct v (Vector.append x)) h = Fault.
Proof.
  intros T HT h x.
  destruct (VectorFacts.Vector_ctor_spec h 0) as (h' & v & Hctor & Hv & Hcap).
  { pose proof size_max_pos. lia. }
  destruct (VectorFacts.grow_from_zero h' v [] x Hv Hcap) as [Happ Hpre].
  assert (Vector.Vector_ilist_ctor [] h = Ret v h') as Hilist.
  { unfold Vector.Vector_ilist_ctor. cbn [length]. change (Z.of_nat 0) with 0.
    rewrite wrap_small by (pose proof size_max_pos; lia).
    unfold bind at 1. rewrite Hctor. by destruct v. }
  unfold bind. rewrite Hilist, Hctor. unfold construct. by rewrite Happ, Hpre.
Qed.

(** ** C4: post-decrement of a list cursor *)

(** C4: [ConstIterator::operator--(int)] steps forward.  Its body calls
    [operator++()], so on the list [10, 20, 30] with the cursor on 20 the
    call returns the old cursor and leaves the cursor on 30, where
    [operator--()] and [Iterator::operator--(int)] leave it on 10; on every
    list and cursor it is the same call as [operator++(int)]. *)
Theorem C4_postdec_steps_forward :
  let s := (Examples.list_heap, Examples.list_a) in
  let on (a : positive) := LinkedList.mkIt (Some a) in
  LinkedList.ConstIterator_postdec (on 4%positive) s = Ret (on 4%positive, on 5%positive) s ∧
  LinkedList.ConstIterator_predec (on 4%positive) s = Ret (on 3%positive) s ∧
  LinkedList.Iterator_postdec (on 4%positive) s = Ret (on 4%positive, on 3%positive) s ∧
  (∀ (T : Type) (it : LinkedList.ConstIterator) (s : gmap positive (@LinkedList.Node T) * _),
     LinkedList.ConstIterator_postdec it s = LinkedList.ConstIterator_postinc it s).
Proof.
  repeat split; vm_compute; reflexivity.
Qed.

(** ** C9: equality of array cursors *)

(** C9: two cursors whose tag is END are equal whatever their positions, so
    the end cursors of two arrays, each at the end of its own buffer, are
    equal; when the tag of one of the two is not END, they are equal exactly
    when their positions are, so two such cursors on different slots
    differ. *)
Theorem C9_cursor_equality :
  (∀ a b : Vector.ConstIterator,
     Vector.iteratorType a = Vector.END → Vector.iteratorType b = Vector.END →
     Vector.it_eq a b = true) ∧
  (∀ a b : Vector.ConstIterator,
     Vector.iteratorType a ≠ Vector.END ∨ Vector.iteratorType b ≠ Vector.END →
     (Vector.it_eq a b = true ↔ Vector.currentElement a = Vector.currentElement b)) ∧
  (∀ (T : Type) `(Inhabited T) (h : gmap positive (list T)) v1 xs1 v2 xs2,
     Vector.is_vector h v1 xs1 → Vector.is_vector h v2 xs2 →
     ∃ e1 v1' e2 v2',
       Vector.end_ (h, v1) = Ret e1 (h, v1') ∧ Vector.end_ (h, v2) = Ret e2 (h, v2') ∧
       Vector.iteratorType e1 = Vector.END ∧ Vector.iteratorType e2 = Vector.END ∧
       Vector.currentElement e1 = Vector.ptr_add (Vector.elements v1) (Vector.size v1) ∧
       Vector.currentElement e2 = Vector.ptr_add (Vector.elements v2) (Vector.size v2) ∧
       Vector.it_eq e1 e2 = true).
Proof.
  assert (∀ a b : Vector.ConstIterator,
            Vector.iteratorType a = Vector.END → Vector.iteratorType b = Vector.END →
            Vector.it_eq a b = true) as Hends.
  { intros a b Ha Hb. unfold Vector.it_eq, Vector.isEnd.
    by rewrite Ha, Hb, bool_decide_eq_true_2. }
  split; [done|split].
  - intros a b Hab. unfold Vector.it_eq, Vector.isEnd.
    assert (bool_decide (Vector.iteratorType a = Vector.END) &&
            bool_decide (Vector.iteratorType b = Vector.END) = false) as ->.
    { destruct Hab as [Hne|Hne]; rewrite (bool_decide_eq_false_2 _ Hne);
        [done|by rewrite andb_false_r]. }
    apply bool_decide_eq_true.
  - intros T HT h v1 xs1 v2 xs2 Hv1 Hv2.
    assert (∀ v xs, Vector.is_vector h v xs →
                    ∃ e v', Vector.end_ (h, v) = Ret e (h, v') ∧
                            Vector.iteratorType e = Vector.END ∧
                            Vector.currentElement e =
                              Vector.ptr_add (Vector.elements v) (Vector.size v))
      as Hend.
    { intros v xs (b & buf & _ & _ & _ & _ & _ & _ & Htag).
      destruct (decide (Vector.size v = 0)) as [Hz|Hnz].
      - eexists _, _. split; [by apply VectorFacts.end_empty|]. split; [done|].
        cbn. by rewrite Hz, VectorFacts.ptr_add_0.
      - eexists _, _. split; [by apply VectorFacts.end_nonempty|]. by split. }
    destruct (Hend _ _ Hv1) as (e1 & v1' & He1 & Ht1 & Hp1).
    destruct (Hend _ _ Hv2) as (e2 & v2' & He2 & Ht2 & Hp2).
    exists e1, v1', e2, v2'. split; [done|]. split; [done|]. split; [done|].
    split; [done|]. split; [done|]. split; [done|]. by apply Hends.
Qed.

Lemma C9_cursor_equality_witness :
  Vector.it_eq (Vector.mkIt (Vector.Ptr 1%positive 3) Vector.END)
               (Vector.mkIt (Vector.Ptr 2%positive 2) Vector.END)
    = true ∧
  Vector.it_eq (Vector.mkIt (Vector.Ptr 1%positive 0) Vector.BEGIN)
               (Vector.mkIt (Vector.Ptr 1%positive 1) Vector.REGULAR)
    ≠ true ∧
  Vector.it_eq (Vector.mkIt (Vector.Ptr 1%positive 3) Vector.END)
               (Vector.mkIt (Vector.Ptr 1%positive 3) Vector.REGULAR)
    = true ∧
  ∃ e1 v1' e2 v2',
    Vector.end_ (Examples.vector_heap, Examples.vector_a) = Ret e1 (Examples.vector_heap, v1') ∧
    Vector.end_ (Examples.vector_heap, Examples.vector_b) = Ret e2 (Examples.vector_heap, v2') ∧
    Vector.currentElement e1 = Vector.Ptr 1%positive 3 ∧
    Vector.currentElement e2 = Vector.Ptr 2%positive 2 ∧
    Vector.it_eq e1 e2 = true.
Proof.
  assert (Vector.BEGIN ≠ Vector.END) as Hbe by discriminate.
  assert (Vector.REGULAR ≠ Vector.END) as Hre by discriminate.
  split; [|split; [|split]].
  - apply (proj1 C9_cursor_equality); reflexivity.
  - intros Heq.
    apply (proj1 (proj2 C9_cursor_equality)
             (Vector.mkIt (Vector.Ptr 1%positive 0) Vector.BEGIN)
             (Vector.mkIt (Vector.Ptr 1%positive 1) Vector.REGULAR) (or_introl Hbe)) in Heq.
    discriminate Heq.
  - apply (proj1 (proj2 C9_cursor_equality)
             (Vector.mkIt (Vector.Ptr 1%positive 3) Vector.END)
             (Vector.mkIt (Vector.Ptr 1%positive 3) Vector.REGULAR) (or_intror Hre)).
    reflexivity.
  - destruct (proj2 (proj2 C9_cursor_equality) Z _ _ _ _ _ _ vector_a_ok vector_b_ok)
      as (e1 & v1' & e2 & v2' & He1 & He2 & _ & _ & Hp1 & Hp2 & Heq).
    exists e1, v1', e2, v2'. split; [exact He1|]. split; [exact He2|].
    split; [exact Hp1|]. split; [exact Hp2|exact Heq].
Defined.

(** ** C10: cursors made by offset arithmetic *)

(** C10: [it + d] and [it - d] are tagged REGULAR whatever position they
    reach.  So on an array of [n] elements the cursor [begin() + n] is equal
    to [end()], but dereferencing or incrementing it does not throw, where
    the same calls on [end()] throw out_of_range; [erase] does not take it
    for the end cursor either, and on an array that is not empty
    [erase(begin() + n)] returns with the last element removed. *)
Theorem C10_offset_cursors_are_regular :
  (∀ (it : Vector.ConstIterator) (d : Z),
     Vector.iteratorType (Vector.ConstIterator_plus it d) = Vector.REGULAR ∧
     Vector.iteratorType (Vector.ConstIterator_minus it d) = Vector.REGULAR) ∧
  (∀ (T : Type) `(Inhabited T) (h : gmap positive (list T)) v xs,
     Vector.is_vector h v xs →
     ∃ b e v',
       Vector.begin (h, v) = Ret b (h, v) ∧ Vector.end_ (h, v) = Ret e (h, v') ∧
       Vector.is_vector h v' xs ∧
       let p := Vector.ConstIterator_plus b (Vector.size v) in
       Vector.it_eq p e = true ∧
       (∀ ex s', Vector.ConstIterator_deref p (h, v') ≠ Throw ex s') ∧
       Vector.ConstIterator_deref e (h, v') = Throw out_of_range (h, v') ∧
       (∀ ex s', Vector.ConstIterator_preinc p (h, v') ≠ Throw ex s') ∧
       Vector.ConstIterator_preinc e (h, v') = Throw out_of_range (h, v') ∧
       Vector.throwIfIteratorEqaulsEnd p out_of_range (h, v') = Ret tt (h, v') ∧
       Vector.erase e (h, v') = Throw out_of_range (h, v') ∧
       (xs ≠ [] →
        ∃ v'', Vector.erase p (h, v') = Ret tt (h, v'') ∧
               Vector.is_vector h v'' (take (length xs - 1) xs))).
Proof.
  split; [done|].
  intros T HT h v xs Hv.
  pose proof Hv as (blk & buf & Hel & _ & _ & Hsz & _ & _ & Htag).
  assert (∃ e v', Vector.end_ (h, v) = Ret e (h, v') ∧ Vector.is_vector h v' xs ∧
                  Vector.isEnd e = true ∧ Vector.size v' = Vector.size v ∧
                  Vector.elements v' = Vector.elements v ∧
                  Vector.currentElement e = Vector.ptr_add (Vector.elements v) (Vector.size v))
    as (e & v' & Hend & Hv' & Hte & Hs' & Hel' & Hce).
  { destruct (decide (Vector.size v = 0)) as [Hz|Hnz].
    - eexists _, _. split; [by apply VectorFacts.end_empty|]. split; [done|].
      split; [done|]. split; [done|]. split; [done|].
      cbn. by rewrite Hz, VectorFacts.ptr_add_0.
    - eexists _, _. split; [by apply VectorFacts.end_nonempty|].
      split; [by apply VectorFacts.is_vector_with_end|].
      unfold Vector.isEnd. cbn. by rewrite Htag. }
  exists (Vector.mkIt (Vector.elements v) Vector.BEGIN), e, v'.
  split; [apply VectorFacts.begin_run|]. split; [done|]. split; [done|].
  cbn zeta.
  set (p := Vector.ConstIterator_plus _ _).
  assert (Vector.isEnd p = false) as Hp by done.
  split.
  { unfold Vector.it_eq. rewrite Hp. cbn [andb]. apply bool_decide_eq_true.
    by rewrite Hce. }
  split; [intros ex s'; by apply VectorFacts.deref_no_throw|].
  split; [by apply VectorFacts.deref_end|].
  split; [intros ex s'; by apply VectorFacts.preinc_no_throw|].
  split; [by apply VectorFacts.preinc_end|].
  split; [unfold Vector.throwIfIteratorEqaulsEnd; by rewrite Hp|].
  split; [by apply VectorFacts.vector_erase_end|].
  intros Hne.
  destruct (VectorFacts.erase_at_size h v' xs p Hv' Hne) as (v'' & Hrun & Hv'' & _).
  - unfold Vector.at_index, p. cbn. by rewrite Hel', Hsz.
  - done.
  - by exists v''.
Qed.

Lemma C10_offset_cursors_are_regular_witness :
  ∃ b e v',
    Vector.begin (Examples.vector_heap, Examples.vector_a) =
      Ret b (Examples.vector_heap, Examples.vector_a) ∧
    Vector.end_ (Examples.vector_heap, Examples.vector_a) = Ret e (Examples.vector_heap, v') ∧
    Vector.it_eq (Vector.ConstIterator_plus b 3) e = true ∧
    Vector.ConstIterator_deref e (Examples.vector_heap, v') =
      Throw out_of_range (Examples.vector_heap, v') ∧
    ∃ v'', Vector.erase (Vector.ConstIterator_plus b 3) (Examples.vector_heap, v') =
             Ret tt (Examples.vector_heap, v'') ∧
           Vector.is_vector Examples.vector_heap v'' [10; 20].
Proof.
  destruct (proj2 C10_offset_cursors_are_regular Z _ _ _ _ vector_a_ok)
    as (b & e & v' & Hb & He & _ & Heq & _ & Hde & _ & _ & _ & _ & Her).
  exists b, e, v'. split; [done|]. split; [done|]. split; [done|]. split; [done|].
  apply Her. done.
Defined.

(** ** C5: [popFirst] and [popLast] *)

(** C5: on a list and on an array alike, [popFirst] and [popLast] throw
    logic_error when the size is zero, leaving the container as it was, and
    only then: on a container that is not empty [popFirst] returns the first
    element and [popLast] the last one, the other elements stay in their
    order and the size goes down by one. *)
Theorem C5_pop :
  (∀ (T : Type) (h : gmap positive (@LinkedList.Node T)) l nodes,
     LinkedList.is_list h l nodes →
     (LinkedList.size l = 0 →
      LinkedList.popFirst (h, l) = Throw logic_error (h, l) ∧
      LinkedList.popLast (h, l) = Throw logic_error (h, l)) ∧
     (LinkedList.size l ≠ 0 →
      (∃ a x rest h' l',
         nodes = (a, x) :: rest ∧
         LinkedList.popFirst (h, l) = Ret x (h', l') ∧
         LinkedList.is_list h' l' rest ∧ LinkedList.size l' = LinkedList.size l - 1) ∧
      (∃ a x rest h' l',
         nodes = rest ++ [(a, x)] ∧
         LinkedList.popLast (h, l) = Ret x (h', l') ∧
         LinkedList.is_list h' l' rest ∧ LinkedList.size l' = LinkedList.size l - 1))) ∧
  (∀ (T : Type) `(Inhabited T) (h : gmap positive (list T)) v xs,
     Vector.is_vector h v xs →
     (Vector.size v = 0 →
      Vector.popFirst (h, v) = Throw logic_error (h, v) ∧
      Vector.popLast (h, v) = Throw logic_error (h, v)) ∧
     (Vector.size v ≠ 0 →
      (∃ x rest h' v',
         xs = x :: rest ∧
         Vector.popFirst (h, v) = Ret x (h', v') ∧
         Vector.is_vector h' v' rest ∧ Vector.size v' = Vector.size v - 1) ∧
      (∃ x rest h' v',
         xs = rest ++ [x] ∧
         Vector.popLast (h, v) = Ret x (h', v') ∧
         Vector.is_vector h' v' rest ∧ Vector.size v' = Vector.size v - 1))).
Proof.
  split.
  - intros T h l nodes Hl. split.
    + intros Hz. split; [by apply ListFacts.list_popFirst_empty|by apply ListFacts.list_popLast_empty].
    + intros Hnz. pose proof Hl as (_ & _ & _ & _ & _ & Hsz & _).
      split.
      * destruct nodes as [|[a x] rest]; [done|].
        destruct (ListFacts.list_popFirst_spec h l a x rest Hl) as (h' & Hrun & Hl').
        by eexists a, x, rest, h', _.
      * destruct (decide (nodes = [])) as [->|Hne]; [done|].
        destruct (exists_last Hne) as (rest & [a x] & ->).
        destruct (ListFacts.list_popLast_spec h l a x rest Hl) as (h' & Hrun & Hl').
        by eexists a, x, rest, h', _.
  - intros T HT h v xs Hv. split.
    + intros Hz.
      split; [by apply VectorFacts.vector_popFirst_empty|by apply VectorFacts.vector_popLast_empty].
    + intros Hnz. pose proof Hv as (_ & _ & _ & _ & _ & Hsz & _).
      split.
      * destruct xs as [|x rest]; [done|].
        destruct (VectorFacts.vector_popFirst_spec h v x rest Hv) as (h' & v' & Hrun & Hv' & Hs & _).
        by exists x, rest, h', v'.
      * destruct (decide (xs = [])) as [->|Hne]; [done|].
        destruct (exists_last Hne) as (rest & x & ->).
        destruct (VectorFacts.vector_popLast_spec h v x rest Hv) as (v' & Hrun & Hv' & Hs & _).
        by exists x, rest, h, v'.
Qed.

Lemma C5_pop_witness :
  (∃ h' l', LinkedList.popFirst (Examples.list_heap, Examples.list_a) = Ret 10 (h', l') ∧
            LinkedList.size l' = 2) ∧
  LinkedList.popLast (Examples.list_heap, Examples.list_c) =
    Throw logic_error (Examples.list_heap, Examples.list_c) ∧
  (∃ h' v', Vector.popLast (Examples.vector_heap, Examples.vector_a) = Ret 30 (h', v') ∧
            Vector.is_vector h' v' [10; 20]) ∧
  Vector.popFirst (Examples.vector_heap, Examples.vector_c) =
    Throw logic_error (Examples.vector_heap, Examples.vector_c).
Proof.
  pose proof (proj1 C5_pop Z _ _ _ list_a_ok) as [_ Ha].
  pose proof (proj1 C5_pop Z _ _ _ list_c_ok) as [Hc _].
  pose proof (proj2 C5_pop Z _ _ _ _ vector_a_ok) as [_ Hva].
  pose proof (proj2 C5_pop Z _ _ _ _ vector_c_ok) as [Hvc _].
  split; [|split; [|split]].
  - destruct Ha as [(a & x & rest & h' & l' & Heq & Hrun & _ & Hs) _]; [done|].
    injection Heq as <- <- <-. by exists h', l'.
  - by apply Hc.
  - destruct Hva as [_ (x & rest & h' & v' & Heq & Hrun & Hv' & _)]; [done|].
    change [10; 20; 30] with ([10; 20] ++ [30]) in Heq.
    apply app_inj_tail in Heq as [<- <-]. by exists h', v'.
  - by apply Hvc.
Defined.

(** ** C6: [erase] at a position, and what a failed call leaves *)

(** C6 as the code has it: [erase(pos)] throws out_of_range exactly when the
    container is empty or [pos] is the end cursor as the code tests for it:
    on a list a cursor on the last guard, which is a cursor equal to
    [end()]; on an array a cursor whose tag is END, whatever its position.
    On a cursor that is on an element it returns with that element removed.
    Whenever a public call on an array or on one of its cursors throws, the
    array and the memory are as they were before the call; the same holds
    for a list once the two cursors given to [erase(first, last)] delimit a
    range of the list. *)
Theorem C6_erase_and_failed_calls :
  (∀ (T : Type) (h : gmap positive (@LinkedList.Node T)) l nodes,
     LinkedList.is_list h l nodes →
     (∀ it e s',
        LinkedList.erase it (h, l) = Throw e s' ↔
        e = out_of_range ∧ s' = (h, l) ∧
        (nodes = [] ∨ LinkedList.currentNode it = Some (LinkedList.lastGuard l))) ∧
     (∀ n1 a x n2 it,
        nodes = n1 ++ (a, x) :: n2 → LinkedList.currentNode it = Some a →
        ∃ h' l', LinkedList.erase it (h, l) = Ret tt (h', l') ∧
                 LinkedList.is_list h' l' (n1 ++ n2)) ∧
     (∀ op e s',
        LinkedList.admissible l nodes op →
        LinkedList.run op (h, l) = Throw e s' → s' = (h, l))) ∧
  (∀ (T : Type) `(Inhabited T) (h : gmap positive (list T)) v xs,
     Vector.is_vector h v xs →
     (∀ it e s',
        Vector.erase it (h, v) = Throw e s' ↔
        e = out_of_range ∧ s' = (h, v) ∧
        (xs = [] ∨ Vector.iteratorType it = Vector.END)) ∧
     (∀ it (i : nat),
        Vector.at_index v it i → (i < length xs)%nat →
        Vector.iteratorType it ≠ Vector.END →
        ∃ h' v', Vector.erase it (h, v) = Ret tt (h', v') ∧
                 Vector.is_vector h' v' (take i xs ++ drop (S i) xs)) ∧
     (∀ op e s', Vector.run op (h, v) = Throw e s' → s' = (h, v))).
Proof.
  split.
  - intros T h l nodes Hl.
    pose proof Hl as (_ & _ & _ & _ & _ & Hsz & _ & Hend).
    assert (LinkedList.size l = 0 ↔ nodes = []) as Hempty.
    { rewrite Hsz. destruct nodes; [done|]. cbn [length]. split; [lia|done]. }
    assert (∀ it, LinkedList.it_eq it (LinkedList.endIterator l) = true ↔
                  LinkedList.currentNode it = Some (LinkedList.lastGuard l)) as Hlast.
    { intros it. rewrite Hend. apply bool_decide_eq_true. }
    split; [|split].
    + intros it e s'. rewrite <- Hempty, <- Hlast.
      split; [apply ListFacts.list_erase_throw|].
      intros (-> & -> & [Hz|Hit]);
        [by apply ListFacts.list_erase_empty|by apply ListFacts.list_erase_end].
    + intros n1 a x n2 it -> Hit.
      destruct (ListFacts.list_erase_spec h l n1 a x n2 it Hl Hit) as (h' & Hrun & Hl').
      by eexists h', _.
    + intros op e s' Hadm Hrun.
      by apply (wp_Throw _ _ _ _ _ _ (ListFacts.list_wp_run op h l nodes Hl Hadm) Hrun).
  - intros T HT h v xs Hv.
    pose proof Hv as (blk & buf & Hel & _ & _ & Hsz & _).
    assert (Vector.size v = 0 ↔ xs = []) as Hempty.
    { rewrite Hsz. destruct xs; [done|]. cbn [length]. split; [lia|done]. }
    assert (∀ it, Vector.isEnd it = true ↔ Vector.iteratorType it = Vector.END) as Htag
      by (intros it; apply bool_decide_eq_true).
    split; [|split].
    + intros it e s'. rewrite <- Hempty, <- Htag.
      split; [apply VectorFacts.vector_erase_throw|].
      intros (-> & -> & [Hz|Hit]);
        [by apply VectorFacts.vector_erase_empty|by apply VectorFacts.vector_erase_end].
    + intros it i Hat Hi Hne.
      assert (Vector.isEnd it = false) as Hnot by (by apply bool_decide_eq_false_2).
      destruct (VectorFacts.vector_erase_spec h v xs it i Hv Hat Hi Hnot)
        as (h' & v' & Hrun & Hv' & _).
      by exists h', v'.
    + intros op e s' Hrun.
      assert (Vector.apart (delete blk h) h v) as Ha.
      { exists blk. split; [done|]. split; [apply lookup_delete_eq|done]. }
      apply (wp_Throw _ _ _ _ _ _ (VectorFacts.wp_run_apart _ op h v Ha) Hrun).
Qed.

Lemma C6_erase_and_failed_calls_witness :
  LinkedList.erase (LinkedList.mkIt (Some 2%positive)) (Examples.list_heap, Examples.list_a) =
    Throw out_of_range (Examples.list_heap, Examples.list_a) ∧
  (∃ h' l', LinkedList.erase (LinkedList.mkIt (Some 4%positive))
                             (Examples.list_heap, Examples.list_a) = Ret tt (h', l') ∧
            LinkedList.is_list h' l' [(3%positive, 10); (5%positive, 30)]) ∧
  Vector.erase (Vector.mkIt (Vector.Ptr 1%positive 1) Vector.END)
               (Examples.vector_heap, Examples.vector_a) =
    Throw out_of_range (Examples.vector_heap, Examples.vector_a) ∧
  (∃ h' v', Vector.erase (Vector.mkIt (Vector.Ptr 1%positive 1) Vector.REGULAR)
                         (Examples.vector_heap, Examples.vector_a) = Ret tt (h', v') ∧
            Vector.is_vector h' v' [10; 30]).
Proof.
  pose proof (proj1 C6_erase_and_failed_calls Z _ _ _ list_a_ok) as (Hthrow & Hret & _).
  pose proof (proj2 C6_erase_and_failed_calls Z _ _ _ _ vector_a_ok) as (Hvthrow & Hvret & _).
  assert (Vector.REGULAR ≠ Vector.END) as Hre by discriminate.
  assert (1 < length [10; 20; 30])%nat as Hi by (vm_compute; lia).
  split; [|split; [|split]].
  - apply Hthrow. split; [reflexivity|]. split; [reflexivity|]. right. reflexivity.
  - exact (Hret [(3%positive, 10)] 4%positive 20 [(5%positive, 30)]
             (LinkedList.mkIt (Some 4%positive)) eq_refl eq_refl).
  - apply Hvthrow. split; [reflexivity|]. split; [reflexivity|]. right. reflexivity.
  - exact (Hvret (Vector.mkIt (Vector.Ptr 1%positive 1) Vector.REGULAR) 1%nat eq_refl Hi Hre).
Defined.

(** C6 as the specification has it fails twice.  On the list
    [10, 20, 30], [erase(first, last)] with [first] on 30 and [last] on 10
    throws out_of_range after it has relinked the nodes and freed the node of
    30: the size is still 3, and a traversal from [begin()] no longer comes
    to [end()].  On the array [10, 20, 30] the cursor [begin() + 3] is equal
    to [end()], and [erase] does not reject it: it returns with the last
    element removed. *)
Lemma C6_failed_erase_changes_the_list :
  (∃ s',
     LinkedList.run (LinkedList.EraseRange (LinkedList.mkIt (Some 5%positive))
                                           (LinkedList.mkIt (Some 3%positive)))
       (Examples.list_heap, Examples.list_a) = Throw out_of_range s' ∧
     s' ≠ (Examples.list_heap, Examples.list_a) ∧
     s'.1 !! 5%positive = None ∧ LinkedList.size s'.2 = 3 ∧
     LinkedList.to_list 4 (Examples.list_heap, Examples.list_a) =
       Ret (Some [10; 20; 30]) (Examples.list_heap, Examples.list_a) ∧
     LinkedList.to_list 4 s' = Ret None s') ∧
  (∃ e v' h'' v'',
     Vector.end_ (Examples.vector_heap, Examples.vector_a) = Ret e (Examples.vector_heap, v') ∧
     Vector.it_eq
       (Vector.ConstIterator_plus (Vector.mkIt (Vector.Ptr 1%positive 0) Vector.BEGIN) 3) e
       = true ∧
     Vector.erase
       (Vector.ConstIterator_plus (Vector.mkIt (Vector.Ptr 1%positive 0) Vector.BEGIN) 3)
       (Examples.vector_heap, v') = Ret tt (h'', v'') ∧
     Vector.size v'' = 2).
Proof.
  split.
  - eexists. split; [vm_compute; reflexivity|].
    split; [|split; [|split; [|split]]]; try (vm_compute; reflexivity).
    intros Heq. apply (f_equal (λ s, s.1 !! 5%positive)) in Heq. vm_compute in Heq.
    discriminate Heq.
  - eexists _, _, _, _. split; [vm_compute; reflexivity|].
    split; [vm_compute; reflexivity|]. split; vm_compute; reflexivity.
Qed.

(** ** C7: [erase] of a range *)

(** C7: [erase(first, last)] with [first == last] returns and leaves the
    elements and the size as they were, on an empty container too; on a
    range that is not empty it returns with exactly the elements of the
    range removed, the size lower by their number and the other elements in
    their order. *)
Theorem C7_erase_range :
  (∀ (T : Type) (h : gmap positive (@LinkedList.Node T)) l nodes,
     LinkedList.is_list h l nodes →
     (∀ it n1 n2,
        nodes = n1 ++ n2 →
        LinkedList.currentNode it = head (n2.*1 ++ [LinkedList.lastGuard l]) →
        ∃ h', LinkedList.erase_range it it (h, l) = Ret tt (h', l) ∧
              LinkedList.is_list h' l nodes) ∧
     (∀ first last n1 mid n2,
        nodes = n1 ++ mid ++ n2 →
        LinkedList.currentNode first = head (mid.*1 ++ n2.*1 ++ [LinkedList.lastGuard l]) →
        LinkedList.currentNode last = head (n2.*1 ++ [LinkedList.lastGuard l]) →
        ∃ h' l', LinkedList.erase_range first last (h, l) = Ret tt (h', l') ∧
                 LinkedList.is_list h' l' (n1 ++ n2) ∧
                 LinkedList.size l' = LinkedList.size l - Z.of_nat (length mid))) ∧
  (∀ (T : Type) `(Inhabited T) (h : gmap positive (list T)) v xs,
     Vector.is_vector h v xs →
     (∀ first last,
        Vector.it_eq first last = true →
        Vector.erase_range first last (h, v) = Ret tt (h, v)) ∧
     (∀ first last (f l : nat),
        Vector.at_index v first f → Vector.at_index v last l →
        (f ≤ l ≤ length xs)%nat → Vector.it_eq first last = false →
        ∃ h' v', Vector.erase_range first last (h, v) = Ret tt (h', v') ∧
                 Vector.is_vector h' v' (take f xs ++ drop l xs) ∧
                 Vector.size v' = Vector.size v - Z.of_nat (l - f))).
Proof.
  split.
  - intros T h l nodes Hl. split.
    + intros it n1 n2 -> Hit.
      destruct (ListFacts.list_erase_range_spec h l n1 [] n2 it it) as (h' & Hrun & Hl');
        [done..|].
      cbn [length Z.of_nat] in Hrun, Hl'. rewrite Z.sub_0_r in Hrun, Hl'.
      destruct l. by exists h'.
    + intros first last n1 mid n2 -> Hf Hla.
      destruct (ListFacts.list_erase_range_spec h l n1 mid n2 first last) as (h' & Hrun & Hl');
        [done..|].
      by eexists h', _.
  - intros T HT h v xs Hv. split.
    + intros first last Heq. by apply VectorFacts.erase_range_equal.
    + intros first last f l Hf Hla Hfl Hne.
      destruct (VectorFacts.vector_erase_range_spec h v xs first last f l)
        as (h' & v' & Hrun & Hv' & Hs & _); [done..|].
      by exists h', v'.
Qed.

Lemma C7_erase_range_witness :
  (∃ h', LinkedList.erase_range (LinkedList.mkIt (Some 10%positive))
           (LinkedList.mkIt (Some 10%positive)) (Examples.list_heap, Examples.list_c) =
           Ret tt (h', Examples.list_c) ∧
         LinkedList.is_list h' Examples.list_c []) ∧
  (∃ h' l', LinkedList.erase_range (LinkedList.mkIt (Some 3%positive))
              (LinkedList.mkIt (Some 5%positive)) (Examples.list_heap, Examples.list_a) =
              Ret tt (h', l') ∧
            LinkedList.is_list h' l' [(5%positive, 30)] ∧ LinkedList.size l' = 1) ∧
  (∃ h' v', Vector.erase_range (Vector.mkIt (Vector.Ptr 1%positive 0) Vector.BEGIN)
              (Vector.mkIt (Vector.Ptr 1%positive 2) Vector.REGULAR)
              (Examples.vector_heap, Examples.vector_a) = Ret tt (h', v') ∧
            Vector.is_vector h' v' [30] ∧ Vector.size v' = 1).
Proof.
  split; [|split].
  - by apply (proj1 (proj1 C7_erase_range Z _ _ _ list_c_ok) _ [] []).
  - by apply (proj2 (proj1 C7_erase_range Z _ _ _ list_a_ok) _ _ []
                [(3%positive, 10); (4%positive, 20)] [(5%positive, 30)]).
  - apply (proj2 (proj2 C7_erase_range Z _ _ _ _ vector_a_ok) _ _ 0%nat 2%nat);
      [done|done|cbn; lia|done].
Defined.

(** ** C8: sequences of appends and of prepends *)

(** C8: on an empty list, and on an empty array whose buffer has at least
    one slot, after any sequence of appends [getSize()] is the number of
    items and the traversal from [begin()] to [end()] gives the items in the
    order of the calls; after any sequence of prepends it gives them in the
    opposite order.  An array made with capacity zero is the exception: the
    first append or prepend on it has undefined behaviour, as under C3. *)
Theorem C8_appends_and_prepends :
  (∀ (T : Type) (h : gmap positive (@LinkedList.Node T)) l items,
     LinkedList.is_list h l [] → Z.of_nat (length items) < size_max →
     (∃ h' l',
        LinkedList.appends items (h, l) = Ret tt (h', l') ∧
        LinkedList.getSize (h', l') = Ret (Z.of_nat (length items)) (h', l') ∧
        ∀ fuel, (length items < fuel)%nat →
                LinkedList.to_list fuel (h', l') = Ret (Some items) (h', l')) ∧
     (∃ h' l',
        LinkedList.prepends items (h, l) = Ret tt (h', l') ∧
        LinkedList.getSize (h', l') = Ret (Z.of_nat (length items)) (h', l') ∧
        ∀ fuel, (length items < fuel)%nat →
                LinkedList.to_list fuel (h', l') = Ret (Some (reverse items)) (h', l'))) ∧
  (∀ (T : Type) `(Inhabited T) (h : gmap positive (list T)) v items,
     Vector.is_vector h v [] → 1 ≤ Vector.capacity v →
     2 * Z.of_nat (length items) < size_max →
     (∃ h' v',
        Vector.appends items (h, v) = Ret tt (h', v') ∧
        Vector.getSize (h', v') = Ret (Z.of_nat (length items)) (h', v') ∧
        ∀ fuel, (length items < fuel)%nat →
                ∃ v'', Vector.to_list fuel (h', v') = Ret (Some items) (h', v'')) ∧
     (∃ h' v',
        Vector.prepends items (h, v) = Ret tt (h', v') ∧
        Vector.getSize (h', v') = Ret (Z.of_nat (length items)) (h', v') ∧
        ∀ fuel, (length items < fuel)%nat →
                ∃ v'', Vector.to_list fuel (h', v') = Ret (Some (reverse items)) (h', v''))) ∧
  (∀ (T : Type) `(Inhabited T) (h : gmap positive (list T)) (x : T) items,
     (v <- Vector.Vector_ctor 0 ;; construct v (Vector.appends (x :: items))) h = Fault ∧
     (v <- Vector.Vector_ctor 0 ;; construct v (Vector.prepends (x :: items))) h = Fault).
Proof.
  split; [|split].
  - intros T h l items Hl Hlen. split.
    + destruct (ListFacts.list_appends_spec items h l [] Hl) as (h' & l' & nodes' & Hrun & Hl' & Hv).
      { cbn [length]. lia. }
      cbn in Hv. pose proof Hl' as (_ & _ & _ & _ & _ & Hsz & _).
      assert (length nodes' = length items) as Hn by (by rewrite <- Hv, length_fmap).
      exists h', l'. split; [done|]. split.
      * rewrite ListFacts.list_getSize_run. by rewrite Hsz, Hn.
      * intros fuel Hfuel. rewrite <- Hv. apply ListFacts.list_to_list_spec; [done|lia].
    + destruct (ListFacts.list_prepends_spec items h l [] Hl) as (h' & l' & nodes' & Hrun & Hl' & Hv).
      { cbn [length]. lia. }
      cbn in Hv. rewrite app_nil_r in Hv. pose proof Hl' as (_ & _ & _ & _ & _ & Hsz & _).
      assert (length nodes' = length items) as Hn
        by (by rewrite <- (length_reverse items), <- Hv, length_fmap).
      exists h', l'. split; [done|]. split.
      * rewrite ListFacts.list_getSize_run. by rewrite Hsz, Hn.
      * intros fuel Hfuel. rewrite <- Hv. apply ListFacts.list_to_list_spec; [done|lia].
  - intros T HT h v items Hv Hcap Hlen. split.
    + destruct (VectorFacts.vector_appends_spec items h v [] Hv Hcap) as (h' & v' & Hrun & Hv').
      { cbn [length]. lia. }
      cbn in Hv'. pose proof Hv' as (_ & _ & _ & _ & _ & Hsz & _).
      exists h', v'. split; [done|]. split.
      * rewrite VectorFacts.vector_getSize_run. by rewrite Hsz.
      * intros fuel Hfuel.
        destruct (VectorFacts.vector_to_list_spec h' v' items fuel Hv' Hfuel) as (v'' & Htl & _).
        by exists v''.
    + destruct (VectorFacts.vector_prepends_spec items h v [] Hv Hcap) as (h' & v' & Hrun & Hv').
      { cbn [length]. lia. }
      rewrite app_nil_r in Hv'. pose proof Hv' as (_ & _ & _ & _ & _ & Hsz & _).
      exists h', v'. split; [done|]. split.
      * rewrite VectorFacts.vector_getSize_run. by rewrite Hsz, length_reverse.
      * intros fuel Hfuel.
        destruct (VectorFacts.vector_to_list_spec h' v' (reverse items) fuel Hv') as (v'' & Htl & _).
        { by rewrite length_reverse. }
        by exists v''.
  - intros T HT h x items.
    destruct (VectorFacts.Vector_ctor_spec h 0) as (h' & v & Hctor & Hv & Hcap).
    { pose proof size_max_pos. lia. }
    destruct (VectorFacts.grow_from_zero h' v [] x Hv Hcap) as [Happ Hpre].
    split; unfold bind at 1; rewrite Hctor; unfold construct;
      cbn [Vector.appends Vector.prepends]; unfold bind at 1.
    + by rewrite Happ.
    + by rewrite Hpre.
Qed.

Lemma C8_appends_and_prepends_witness :
  (∃ h' l',
     LinkedList.appends [1; 2; 3] (Examples.list_heap, Examples.list_c) = Ret tt (h', l') ∧
     LinkedList.getSize (h', l') = Ret 3 (h', l') ∧
     LinkedList.to_list 4 (h', l') = Ret (Some [1; 2; 3]) (h', l')) ∧
  (∃ h' v' v'',
     Vector.prepends [1; 2; 3; 4; 5] (Examples.vector_heap, Examples.vector_c) = Ret tt (h', v') ∧
     Vector.getSize (h', v') = Ret 5 (h', v') ∧
     Vector.to_list 6 (h', v') = Ret (Some [5; 4; 3; 2; 1]) (h', v'')).
Proof.
  assert (Z.of_nat (length [1; 2; 3]) < size_max) as H3 by (vm_compute; reflexivity).
  assert (2 * Z.of_nat (length [1; 2; 3; 4; 5]) < size_max) as H5 by (vm_compute; reflexivity).
  assert (1 ≤ Vector.capacity Examples.vector_c) as Hc by (vm_compute; congruence).
  split.
  - destruct (proj1 C8_appends_and_prepends Z _ _ _ list_c_ok H3) as [(h' & l' & Hrun & Hsz & Htl) _].
    exists h', l'. split; [exact Hrun|]. split; [exact Hsz|]. apply Htl. cbn. lia.
  - destruct (proj1 (proj2 C8_appends_and_prepends) Z _ _ _ _ vector_c_ok Hc H5)
      as [_ (h' & v' & Hrun & Hsz & Htl)].
    destruct (Htl 6%nat) as (v'' & Htl'); [cbn; lia|].
    exists h', v', v''. split; [exact Hrun|]. split; [exact Hsz|exact Htl'].
Defined.

(** ** C1: move construction and move assignment *)

(** C1: after [a(std::move(b))] and after [a = std::move(b)], for two lists
    or two arrays [a] and [b] that are different objects, [a] holds the
    elements [b] held, in their order, [b] is empty, and the destructor of
    [b] and then the destructor of [a] both return and free no node and no
    buffer twice; all of this holds when [b] is empty at the time of the
    move.  A list [b] keeps its invariant: it is a well-formed empty list on
    its own two guards.  An array [b] does not: [moveFrom] takes its buffer
    away and leaves it the capacity it had, so [b] is in no memory an array
    that owns a buffer of [capacity] slots, and the next [append] or
    [prepend] on it writes where there is no slot, which is undefined
    behaviour. *)
Theorem C1_move :
  (∀ (T : Type) (h : gmap positive (@LinkedList.Node T)) b nodes,
     LinkedList.is_list h b nodes →
     ∃ h' a b',
       LinkedList.LinkedList_move_ctor b h = Ret (a, b') h' ∧
       LinkedList.is_list h' a nodes ∧ LinkedList.is_list h' b' [] ∧
       ∃ h1 b1 h2 a2,
         LinkedList.LinkedList_dtor (h', b') = Ret tt (h1, b1) ∧
         LinkedList.LinkedList_dtor (h1, a) = Ret tt (h2, a2)) ∧
  (∀ (T : Type) (h : gmap positive (@LinkedList.Node T)) a na b nb,
     LinkedList.is_list h a na → LinkedList.is_list h b nb →
     (∀ x, x ∈ LinkedList.path a na → x ∉ LinkedList.path b nb) →
     ∃ h' a' b',
       LinkedList.move_assign b (h, a) = Ret b' (h', a') ∧
       LinkedList.is_list h' a' nb ∧ LinkedList.is_list h' b' [] ∧
       ∃ h1 b1 h2 a2,
         LinkedList.LinkedList_dtor (h', b') = Ret tt (h1, b1) ∧
         LinkedList.LinkedList_dtor (h1, a') = Ret tt (h2, a2)) ∧
  (∀ (T : Type) `(Inhabited T) (h : gmap positive (list T)) b xs,
     Vector.is_vector h b xs →
     ∃ a b',
       Vector.Vector_move_ctor b h = Ret (a, b') h ∧
       Vector.is_vector h a xs ∧
       Vector.size b' = 0 ∧ Vector.elements b' = Vector.nullptr ∧
       Vector.capacity b' = Vector.capacity b ∧
       Vector.to_list 1 (h, b') = Ret (Some []) (h, b') ∧
       (∃ h2,
          Vector.Vector_dtor (h, b') = Ret tt (h, b') ∧
          Vector.Vector_dtor (h, a) = Ret tt (h2, a)) ∧
       (∀ h0 (ys : list T), ¬ Vector.is_vector h0 b' ys) ∧
       (∀ x, Vector.append x (h, b') = Fault ∧ Vector.prepend x (h, b') = Fault)) ∧
  (∀ (T : Type) `(Inhabited T) (h : gmap positive (list T)) a ys b xs,
     Vector.is_vector h a ys → Vector.is_vector h b xs →
     Vector.elements a ≠ Vector.elements b →
     ∃ h' a' b',
       Vector.move_assign b (h, a) = Ret b' (h', a') ∧
       Vector.is_vector h' a' xs ∧
       Vector.size b' = 0 ∧ Vector.elements b' = Vector.nullptr ∧
       Vector.capacity b' = Vector.capacity b ∧
       Vector.to_list 1 (h', b') = Ret (Some []) (h', b') ∧
       (∃ h2,
          Vector.Vector_dtor (h', b') = Ret tt (h', b') ∧
          Vector.Vector_dtor (h', a') = Ret tt (h2, a')) ∧
       (∀ h0 (ys' : list T), ¬ Vector.is_vector h0 b' ys') ∧
       (∀ x, Vector.append x (h', b') = Fault ∧ Vector.prepend x (h', b') = Fault)).
Proof.
  assert (∀ (T : Type) `(Inhabited T) (other : Vector.Vector) (h0 : gmap positive (list T)) ys,
            ¬ Vector.is_vector h0 (Vector.moved_from other) ys) as Hnot.
  { intros T HT other h0 ys (blk & buf & Hel & _). discriminate Hel. }
  assert (∀ (T : Type) `(Inhabited T) (other : Vector.Vector) (h0 : gmap positive (list T)) x,
            0 ≤ Vector.capacity other →
            Vector.append x (h0, Vector.moved_from other) = Fault ∧
            Vector.prepend x (h0, Vector.moved_from other) = Fault) as Hrefill.
  { intros T HT other h0 x Hc.
    destruct (VectorFacts.moved_from_refill h0 other x (Vector.mkIt Vector.nullptr Vector.END) Hc)
      as (Happ & Hpre & _).
    by split. }
  split; [|split; [|split]].
  - intros T h b nodes Hb.
    destruct (ListFacts.LinkedList_move_ctor_spec h b nodes Hb)
      as (h' & a & Hrun & Ha & Hb' & Hfg & Hlg).
    eexists h', a, _. split; [exact Hrun|]. split; [done|]. split; [done|].
    destruct (ListFacts.dtor_both h' a nodes _ Ha Hb' Hfg Hlg)
      as (h1 & b1 & h2 & a2 & Hd1 & Hd2 & _).
    by exists h1, b1, h2, a2.
  - intros T h a na b nb Ha Hb Hdisj.
    destruct (ListFacts.list_move_assign_spec h a na b nb Ha Hb Hdisj)
      as (h' & Hrun & Ha' & Hb' & _).
    eexists h', _, _. split; [exact Hrun|]. split; [done|]. split; [done|].
    pose proof Hb as (Hnd & _). apply ListFacts.NoDup_path in Hnd as (Hfn & Hfl & Hln & _).
    destruct (ListFacts.dtor_both h' _ nb _ Ha' Hb')
      as (h1 & b1 & h2 & a2 & Hd1 & Hd2 & _).
    + cbn [LinkedList.firstGuard]. rewrite ListFacts.elem_of_path.
      cbn [LinkedList.firstGuard LinkedList.lastGuard].
      intros [Heq|[Hin|Heq]]; [| done |].
      * apply (Hdisj (LinkedList.firstGuard a)); apply ListFacts.elem_of_path; left; done.
      * apply (Hdisj (LinkedList.lastGuard a)); apply ListFacts.elem_of_path;
          [by right; right|by left].
    + cbn [LinkedList.lastGuard]. rewrite ListFacts.elem_of_path.
      cbn [LinkedList.firstGuard LinkedList.lastGuard].
      intros [Heq|[Hin|Heq]]; [| done |].
      * apply (Hdisj (LinkedList.firstGuard a)); apply ListFacts.elem_of_path;
          [by left|by right; right].
      * apply (Hdisj (LinkedList.lastGuard a)); apply ListFacts.elem_of_path; right; right; done.
    + by exists h1, b1, h2, a2.
  - intros T HT h b xs Hb.
    pose proof (VectorFacts.is_vector_bounds _ _ _ Hb) as [Hs Hc].
    eexists _, _. split; [apply VectorFacts.Vector_move_ctor_run|].
    assert (Vector.is_vector h
              (Vector.mkVector (Vector.elements b) (Vector.size b) (Vector.capacity b)
                               (Vector.mkIt Vector.nullptr Vector.END)) xs) as Ha
      by (by apply VectorFacts.is_vector_pastTheEnd).
    split; [done|]. split; [done|]. split; [done|]. split; [done|].
    split; [done|].
    split.
    { destruct (VectorFacts.Vector_dtor_spec _ _ _ Ha) as (blk & _ & Hd).
      eexists. split; [done|exact Hd]. }
    split; [intros h0 ys; apply (Hnot T HT)|].
    intros x. apply (Hrefill T HT). lia.
  - intros T HT h a ys b xs Ha Hb Hne.
    pose proof (VectorFacts.is_vector_bounds _ _ _ Hb) as [Hs Hc].
    destruct (VectorFacts.vector_move_assign_spec h a ys b xs Ha Hb Hne)
      as (h' & a' & Hrun & Ha' & _).
    eexists h', a', _. split; [exact Hrun|].
    split; [done|]. split; [done|]. split; [done|]. split; [done|].
    split; [done|].
    split.
    { destruct (VectorFacts.Vector_dtor_spec _ _ _ Ha') as (blk & _ & Hd).
      eexists. split; [done|exact Hd]. }
    split; [intros h0 ys'; apply (Hnot T HT)|].
    intros x. apply (Hrefill T HT). lia.
Qed.

Lemma C1_move_witness :
  (∃ h' a b',
     LinkedList.LinkedList_move_ctor Examples.list_a Examples.list_heap = Ret (a, b') h' ∧
     LinkedList.is_list h' a Examples.nodes_a ∧ LinkedList.is_list h' b' []) ∧
  (∃ h' a' b',
     LinkedList.move_assign Examples.list_c (Examples.list_heap, Examples.list_b) =
       Ret b' (h', a') ∧
     LinkedList.is_list h' a' [] ∧ LinkedList.is_list h' b' []) ∧
  (∃ h' a' b',
     Vector.move_assign Examples.vector_b (Examples.vector_heap, Examples.vector_a) =
       Ret b' (h', a') ∧
     Vector.is_vector h' a' [40; 50] ∧ Vector.size b' = 0) ∧
  (∃ a b',
     Vector.Vector_move_ctor Examples.vector_a Examples.vector_heap =
       Ret (a, b') Examples.vector_heap ∧
     Vector.is_vector Examples.vector_heap a [10; 20; 30] ∧
     Vector.elements b' = Vector.nullptr ∧ Vector.capacity b' = 5 ∧
     Vector.append 7 (Examples.vector_heap, b') = Fault).
Proof.
  assert (∀ x, x ∈ LinkedList.path Examples.list_b Examples.nodes_b →
               x ∉ LinkedList.path (T := Z) Examples.list_c []) as Hdisj.
  { intros x Hx Hx'. revert Hx Hx'. unfold LinkedList.path.
    cbn [LinkedList.firstGuard LinkedList.lastGuard Examples.list_b Examples.list_c
         Examples.nodes_b fmap list_fmap fst app].
    rewrite !elem_of_cons, !elem_of_nil. intros [->|[->|[->|[]]]] [?|[?|[]]]; discriminate. }
  assert (Vector.elements Examples.vector_a ≠ Vector.elements Examples.vector_b) as Hne
    by discriminate.
  split; [|split; [|split]].
  - destruct (proj1 C1_move Z _ _ _ list_a_ok) as (h' & a & b' & Hrun & Ha & Hb' & _).
    exists h', a, b'. split; [exact Hrun|]. split; [exact Ha|exact Hb'].
  - destruct (proj1 (proj2 C1_move) Z _ _ _ _ _ list_b_ok list_c_ok Hdisj)
      as (h' & a' & b' & Hrun & Ha & Hb' & _).
    exists h', a', b'. split; [exact Hrun|]. split; [exact Ha|exact Hb'].
  - destruct (proj2 (proj2 (proj2 C1_move)) Z _ _ _ _ _ _ vector_a_ok vector_b_ok Hne)
      as (h' & a' & b' & Hrun & Ha & Hs & _).
    exists h', a', b'. split; [exact Hrun|]. split; [exact Ha|exact Hs].
  - destruct (proj1 (proj2 (proj2 C1_move)) Z _ _ _ _ vector_a_ok)
      as (a & b' & Hrun & Ha & _ & Hel & Hcap & _ & _ & _ & Hrefill).
    exists a, b'. split; [exact Hrun|]. split; [exact Ha|]. split; [exact Hel|].
    split; [exact Hcap|]. exact (proj1 (Hrefill 7)).
Defined.

(** ** C2: size, capacity and the operations *)

(** C2 as the code has it: every array that the constructors and the public
    calls can make, from any arguments and in any memory, has
    [size <= capacity]; and no call on an array, no copy assignment to it
    and no use of it as the source of a copy or of a move lowers its
    capacity.  A call that writes outside its buffer has undefined
    behaviour and makes no array.  Move assignment is left out of the second
    part: it takes the capacity of its source. *)
Theorem C2_size_within_capacity :
  ∀ (T : Type) `(Inhabited T),
    (∀ v, Vector.reachable (T := T) v → Vector.size v ≤ Vector.capacity v) ∧
    (∀ v v', Vector.reachable (T := T) v → Vector.step (T := T) v v' →
             Vector.capacity v ≤ Vector.capacity v').
Proof.
  intros T HT. split.
  - intros v Hv. apply VectorFacts.reachable_bounded in Hv as [Hs _]. lia.
  - intros v v' Hv Hstep. apply VectorFacts.reachable_bounded in Hv.
    by apply (VectorFacts.step_bounded v v' Hv Hstep).
Qed.

Lemma C2_size_within_capacity_witness :
  ∃ v v' h h',
    Vector.Vector_ctor 30 (∅ : gmap positive (list Z)) = Ret v h ∧
    Vector.append 7 (h, v) = Ret tt (h', v') ∧
    Vector.size v' ≤ Vector.capacity v' ∧ Vector.capacity v ≤ Vector.capacity v'.
Proof.
  destruct (VectorFacts.Vector_ctor_spec (∅ : gmap positive (list Z)) 30)
    as (h & v & Hctor & Hv & Hcap); [by vm_compute|].
  destruct (VectorFacts.vector_append_spec h v [] 7 Hv) as (h' & v' & Happ & _).
  { left. destruct Hv as (_ & _ & _ & _ & _ & Hs & _). cbn in Hs. lia. }
  assert (Vector.reachable (T := Z) v) as Hr.
  { apply Vector.reachable_constructed.
    apply (Vector.constructed_capacity 30 ∅ v h); [by vm_compute|done]. }
  assert (Vector.step (T := Z) v v') as Hstep.
  { apply (Vector.step_run (Vector.Append 7)); [done|].
    exists h, h'. left. by exists tt. }
  exists v, v', h, h'. split; [exact Hctor|]. split; [exact Happ|]. split.
  - apply (proj1 (C2_size_within_capacity Z _)).
    by apply (Vector.reachable_step v v').
  - by apply (proj2 (C2_size_within_capacity Z _) v v').
Defined.

(** C2 as the specification has it fails: move assignment lowers the
    capacity of its target.  After [Vector a(30); Vector b(5); a = std::move(b);]
    the capacity of [a] is 5. *)
Lemma C2_move_assign_lowers_capacity :
  ∃ a h1 b h2 b' a' h',
    Vector.Vector_ctor 30 (∅ : gmap positive (list Z)) = Ret a h1 ∧
    Vector.Vector_ctor 5 h1 = Ret b h2 ∧
    Vector.move_assign b (h2, a) = Ret b' (h', a') ∧
    Vector.reachable (T := Z) a ∧ Vector.reachable (T := Z) a' ∧
    Vector.capacity a = 30 ∧ Vector.capacity a' = 5.
Proof.
  assert (0 ≤ 30 < size_max ∧ 0 ≤ 5 < size_max) as [H30 H5] by (by vm_compute).
  eexists _, _, _, _, _, _, _.
  split; [reflexivity|]. split; [reflexivity|].
  match goal with |- ?P ∧ _ => assert P as Hm by (vm_compute; reflexivity) end.
  split; [exact Hm|].
  assert (∀ c (h : gmap positive (list Z)) v h',
            0 ≤ c < size_max → Vector.Vector_ctor c h = Ret v h' → Vector.reachable (T := Z) v)
    as Hctor.
  { intros c h v h' Hc Hrun. by apply Vector.reachable_constructed,
      (Vector.constructed_capacity c h v h'). }
  split; [by eapply (Hctor 30)|].
  split; [|by split].
  eapply Vector.reachable_move_assign; [by eapply (Hctor 30 ∅)|by eapply (Hctor 5)|].
  eexists _, _. left. eexists. exact Hm.
Qed.

(** * Further properties of the code *)

(** ** The list: construction, insertion, copies and destruction *)

(** X1: [LinkedList()] returns in any memory with an empty well-formed list
    whose two guards are new nodes, the rest of the memory being left as it
    was, and [begin()] of the new list is its [end()].
    [LinkedList(std::initializer_list)] returns with a list that holds the
    items in their order, again made of new nodes only. *)
Theorem X1_list_constructors :
  ∀ (T : Type) (h : gmap positive (@LinkedList.Node T)),
    (∃ h' l e,
       LinkedList.LinkedList_ctor h = Ret l h' ∧ LinkedList.owns h h' l [] ∧
       LinkedList.size l = 0 ∧
       LinkedList.cbegin (h', l) = Ret e (h', l) ∧ LinkedList.cend (h', l) = Ret e (h', l)) ∧
    (∀ items, Z.of_nat (length items) < size_max →
       ∃ h' l nodes,
         LinkedList.LinkedList_ilist_ctor items h = Ret l h' ∧
         LinkedList.owns h h' l nodes ∧ nodes.*2 = items ∧
         LinkedList.size l = Z.of_nat (length items) ∧
         ∀ fuel, (length items < fuel)%nat →
                 LinkedList.to_list fuel (h', l) = Ret (Some items) (h', l)).
Proof.
  intros T h. split.
  - destruct (ListFacts.LinkedList_ctor_owns h) as (h' & l & Hrun & Hown).
    pose proof Hown as [Hl _]. pose proof Hl as (_ & _ & _ & _ & _ & Hsz & _).
    exists h', l, (LinkedList.endIterator l). split; [done|]. split; [done|].
    split; [done|]. split; [|done].
    unfold LinkedList.cbegin, LinkedList.isEmpty, LinkedList.this, bind, ret. cbn [snd].
    by rewrite bool_decide_eq_true_2.
  - intros items Hlen.
    destruct (ListFacts.LinkedList_ilist_ctor_spec h items Hlen)
      as (h' & l & nodes & Hrun & Hown & Hvals).
    pose proof Hown as [Hl _]. pose proof Hl as (_ & _ & _ & _ & _ & Hsz & _).
    assert (length nodes = length items) as Hn by (by rewrite <- Hvals, length_fmap).
    exists h', l, nodes. split; [done|]. split; [done|]. split; [done|].
    split; [lia|]. intros fuel Hfuel. rewrite <- Hvals.
    apply ListFacts.list_to_list_spec; [done|lia].
Qed.

Lemma X1_list_constructors_witness :
  ∃ h' l (nodes : list (positive * Z)),
    LinkedList.LinkedList_ilist_ctor [1; 2; 3] (∅ : gmap positive (@LinkedList.Node Z)) =
      Ret l h' ∧
    nodes.*2 = [1; 2; 3] ∧ LinkedList.size l = 3.
Proof.
  assert (Z.of_nat (length [1; 2; 3]) < size_max) as H3 by (vm_compute; reflexivity).
  destruct (proj2 (X1_list_constructors Z ∅) [1; 2; 3] H3)
    as (h' & l & nodes & Hrun & _ & Hvals & Hsz & _).
  exists h', l, nodes. split; [exact Hrun|]. split; [exact Hvals|exact Hsz].
Defined.

(** X2: [insert(position, item)] on a list, with the cursor on an element
    or equal to [end()], returns with the item in a new node just before
    that position; the other elements keep their nodes and their order, the
    size goes up by one and no node outside the list is touched. *)
Theorem X2_list_insert :
  ∀ (T : Type) (h : gmap positive (@LinkedList.Node T)) l n1 n2 it x,
    LinkedList.is_list h l (n1 ++ n2) →
    LinkedList.currentNode it = head (n2.*1 ++ [LinkedList.lastGuard l]) →
    Z.of_nat (length (n1 ++ n2)) + 1 < size_max →
    ∃ h' l' a,
      LinkedList.insert it x (h, l) = Ret tt (h', l') ∧
      LinkedList.is_list h' l' (n1 ++ (a, x) :: n2) ∧
      LinkedList.size l' = LinkedList.size l + 1 ∧
      h !! a = None ∧
      (∀ y, y ∉ LinkedList.path l (n1 ++ n2) → y ≠ a → h' !! y = h !! y).
Proof.
  intros T h l n1 n2 it x Hl Hit Hlen.
  destruct (ListFacts.list_insert_framed h l n1 n2 it x Hl Hit Hlen) as (h' & Hrun & Hl' & Hfr).
  eexists h', _, (fresh (dom h)). split; [exact Hrun|]. split; [exact Hl'|].
  split; [done|]. split; [|done]. apply not_elem_of_dom, is_fresh.
Qed.

Lemma X2_list_insert_witness :
  ∃ h' l' a,
    LinkedList.insert (LinkedList.mkIt (Some 4%positive)) 15
      (Examples.list_heap, Examples.list_a) = Ret tt (h', l') ∧
    LinkedList.is_list h' l' [(3%positive, 10); (a, 15); (4%positive, 20); (5%positive, 30)].
Proof.
  assert (Z.of_nat (length ([(3%positive, 10)] ++ [(4%positive, 20); (5%positive, 30)])) + 1
          < size_max) as Hlen by (vm_compute; reflexivity).
  destruct (X2_list_insert Z Examples.list_heap Examples.list_a
              [(3%positive, 10)] [(4%positive, 20); (5%positive, 30)]
              (LinkedList.mkIt (Some 4%positive)) 15 list_a_ok eq_refl Hlen)
    as (h' & l' & a & Hrun & Hl' & _).
  exists h', l', a. split; [exact Hrun|exact Hl'].
Defined.

(** X3: [append(item)] is [insert(end(), item)] and [prepend(item)] is
    [insert(begin(), item)]: on a list the two calls give the same result
    and the same memory, and on an array, whatever its state, so do
    [prepend(item)] and [insert(begin(), item)]. *)
Theorem X3_append_and_prepend_are_inserts :
  (∀ (T : Type) (h : gmap positive (@LinkedList.Node T)) l nodes x,
     LinkedList.is_list h l nodes →
     LinkedList.append x (h, l) =
       (e <- LinkedList.cend ;; LinkedList.insert e x) (h, l) ∧
     LinkedList.prepend x (h, l) =
       (b <- LinkedList.cbegin ;; LinkedList.insert b x) (h, l)) ∧
  (∀ (T : Type) `(Inhabited T) (s : gmap positive (list T) * Vector.Vector) x,
     Vector.prepend x s = (b <- Vector.begin ;; Vector.insert b x) s).
Proof.
  split.
  - intros T h l nodes x Hl. split.
    + apply ListFacts.append_is_insert_at_end.
      by destruct Hl as (_ & _ & _ & _ & _ & _ & _ & Hend).
    + by apply (ListFacts.prepend_is_insert_at_begin x h l nodes).
  - intros T HT s x. apply VectorFacts.vector_prepend_is_insert_at_begin.
Qed.

Lemma X3_append_and_prepend_are_inserts_witness :
  LinkedList.append 7 (Examples.list_heap, Examples.list_a) =
    (e <- LinkedList.cend ;; LinkedList.insert e 7) (Examples.list_heap, Examples.list_a).
Proof.
  exact (proj1 (proj1 X3_append_and_prepend_are_inserts Z _ _ _ 7 list_a_ok)).
Defined.

(** X4: [LinkedList(const LinkedList &other)] makes a deep copy: it returns
    with a new list that holds the elements of [other] in their order and is
    made of new nodes only; [other] is the list it was, on the same nodes,
    and every node that was live keeps its content. *)
Theorem X4_list_copy_constructor :
  ∀ (T : Type) (h : gmap positive (@LinkedList.Node T)) other nodes,
    LinkedList.is_list h other nodes →
    ∃ h' l nodes',
      LinkedList.LinkedList_copy_ctor other h = Ret (l, other) h' ∧
      LinkedList.is_list h' l nodes' ∧ nodes'.*2 = nodes.*2 ∧
      LinkedList.is_list h' other nodes ∧
      (∀ y, y ∈ LinkedList.path l nodes' → h !! y = None) ∧
      (∀ y, is_Some (h !! y) → h' !! y = h !! y).
Proof. intros T h other nodes Ho. by apply ListFacts.LinkedList_copy_ctor_spec. Qed.

Lemma X4_list_copy_constructor_witness :
  ∃ h' l (nodes' : list (positive * Z)),
    LinkedList.LinkedList_copy_ctor Examples.list_a Examples.list_heap =
      Ret (l, Examples.list_a) h' ∧
    LinkedList.is_list h' l nodes' ∧ nodes'.*2 = [10; 20; 30] ∧
    LinkedList.is_list h' Examples.list_a Examples.nodes_a.
Proof.
  destruct (X4_list_copy_constructor Z _ _ _ list_a_ok)
    as (h' & l & nodes' & Hrun & Hl & Hvals & Ho & _).
  exists h', l, nodes'. split; [exact Hrun|]. split; [exact Hl|]. split; [exact Hvals|exact Ho].
Defined.

(** X5: [operator=(const LinkedList &other)] between two different lists
    returns with the target holding the elements of [other] in their order,
    in nodes that are not nodes of [other]; the target keeps its two guards
    and [other] is untouched. *)
Theorem X5_list_copy_assignment :
  ∀ (T : Type) (h : gmap positive (@LinkedList.Node T)) l nl other no,
    LinkedList.is_list h l nl → LinkedList.is_list h other no →
    (∀ y, y ∈ LinkedList.path l nl → y ∉ LinkedList.path other no) →
    ∃ h' l' nodes',
      LinkedList.copy_assign other (h, l) = Ret other (h', l') ∧
      LinkedList.is_list h' l' nodes' ∧ nodes'.*2 = no.*2 ∧
      LinkedList.firstGuard l' = LinkedList.firstGuard l ∧
      LinkedList.lastGuard l' = LinkedList.lastGuard l ∧
      LinkedList.is_list h' other no ∧
      (∀ y, y ∈ LinkedList.path other no → h' !! y = h !! y) ∧
      (∀ y, y ∈ nodes'.*1 → y ∉ LinkedList.path other no).
Proof.
  intros T h l nl other no Hl Ho Hdisj.
  destruct (ListFacts.list_copy_assign_spec h l nl other no Hl Ho Hdisj)
    as (h' & nodes' & Hrun & Hl' & Hvals & Ho' & Hfr & Hnew).
  by eexists h', _, nodes'.
Qed.

Lemma X5_list_copy_assignment_witness :
  ∃ h' l' (nodes' : list (positive * Z)),
    LinkedList.copy_assign Examples.list_a (Examples.list_heap, Examples.list_b) =
      Ret Examples.list_a (h', l') ∧
    LinkedList.is_list h' l' nodes' ∧ nodes'.*2 = [10; 20; 30].
Proof.
  assert (∀ y, y ∈ LinkedList.path Examples.list_b Examples.nodes_b →
               y ∉ LinkedList.path Examples.list_a Examples.nodes_a) as Hdisj.
  { intros y Hy Hy'. revert Hy Hy'. unfold LinkedList.path.
    cbn [LinkedList.firstGuard LinkedList.lastGuard Examples.list_b Examples.list_a
         Examples.nodes_a Examples.nodes_b fmap list_fmap fst app].
    rewrite !elem_of_cons, !elem_of_nil.
    intros [-> | [-> | [-> | []]]] [? | [? | [? | [? | [? | []]]]]]; discriminate. }
  destruct (X5_list_copy_assignment Z _ _ _ _ _ list_b_ok list_a_ok Hdisj)
    as (h' & l' & nodes' & Hrun & Hl & Hvals & _).
  exists h', l', nodes'. split; [exact Hrun|]. split; [exact Hl|exact Hvals].
Defined.

(** X6: [~LinkedList()] on a well-formed list returns, frees the two guards
    and the node of every element, and leaves every other node as it was. *)
Theorem X6_list_destructor :
  ∀ (T : Type) (h : gmap positive (@LinkedList.Node T)) l nodes,
    LinkedList.is_list h l nodes →
    ∃ h' l',
      LinkedList.LinkedList_dtor (h, l) = Ret tt (h', l') ∧
      (∀ x, x ∈ LinkedList.path l nodes → h' !! x = None) ∧
      (∀ x, x ∉ LinkedList.path l nodes → h' !! x = h !! x).
Proof. intros T h l nodes Hl. by apply ListFacts.LinkedList_dtor_spec. Qed.

Lemma X6_list_destructor_witness :
  ∃ h' l',
    LinkedList.LinkedList_dtor (Examples.list_heap, Examples.list_a) = Ret tt (h', l') ∧
    h' !! 4%positive = None ∧
    h' !! 8%positive = Examples.list_heap !! 8%positive.
Proof.
  destruct (X6_list_destructor Z _ _ _ list_a_ok) as (h' & l' & Hrun & Hfreed & Hkept).
  exists h', l'. split; [exact Hrun|]. split.
  - apply Hfreed. unfold LinkedList.path.
    cbn [LinkedList.firstGuard LinkedList.lastGuard Examples.list_a Examples.nodes_a
         fmap list_fmap fst app].
    rewrite !elem_of_cons. right. right. by left.
  - apply Hkept. unfold LinkedList.path.
    cbn [LinkedList.firstGuard LinkedList.lastGuard Examples.list_a Examples.nodes_a
         fmap list_fmap fst app].
    rewrite !elem_of_cons, !elem_of_nil.
    intros [? | [? | [? | [? | [? | []]]]]]; discriminate.
Defined.

(** ** The list: cursors *)

(** X7: on a well-formed list, dereferencing or incrementing [end()] and
    decrementing [begin()] throw out_of_range and leave the list as it was.
    On an empty list [begin()] is [end()]; on a list that is not empty
    decrementing [end()] gives the cursor on the last element. *)
Theorem X7_list_cursor_bounds :
  ∀ (T : Type) (h : gmap positive (@LinkedList.Node T)) l nodes,
    LinkedList.is_list h l nodes →
    ∃ b e,
      LinkedList.cbegin (h, l) = Ret b (h, l) ∧ LinkedList.cend (h, l) = Ret e (h, l) ∧
      LinkedList.ConstIterator_deref e (h, l) = Throw out_of_range (h, l) ∧
      LinkedList.ConstIterator_preinc e (h, l) = Throw out_of_range (h, l) ∧
      LinkedList.ConstIterator_predec b (h, l) = Throw out_of_range (h, l) ∧
      (nodes = [] → b = e) ∧
      (∀ rest a x, nodes = rest ++ [(a, x)] →
         LinkedList.ConstIterator_predec e (h, l) = Ret (LinkedList.mkIt (Some a)) (h, l) ∧
         LinkedList.ConstIterator_deref (LinkedList.mkIt (Some a)) (h, l) = Ret x (h, l)).
Proof.
  intros T h l nodes Hl.
  pose proof Hl as (_ & _ & _ & _ & _ & _ & _ & Hend).
  exists (LinkedList.mkIt (head (nodes.*1 ++ [LinkedList.lastGuard l]))), (LinkedList.endIterator l).
  split; [by apply ListFacts.cbegin_run|]. split; [done|].
  assert (LinkedList.it_eq (LinkedList.endIterator l) (LinkedList.endIterator l) = true) as Heq
    by (by apply bool_decide_eq_true_2).
  split; [by apply ListFacts.list_deref_end|].
  split; [by apply ListFacts.list_preinc_end|].
  split; [by apply (ListFacts.list_predec_begin h l nodes)|].
  split; [intros ->; by rewrite Hend|].
  intros rest a x ->. split.
  - rewrite (ListFacts.list_predec_spec h l (rest ++ [(a, x)]) []).
    + rewrite fmap_app. cbn [fmap list_fmap fst]. by rewrite last_snoc.
    + by rewrite app_nil_r.
    + by destruct rest.
    + by rewrite Hend.
  - by apply (ListFacts.list_deref_at h l rest a x []).
Qed.

Lemma X7_list_cursor_bounds_witness :
  ∃ b e,
    LinkedList.cbegin (Examples.list_heap, Examples.list_a) =
      Ret b (Examples.list_heap, Examples.list_a) ∧
    LinkedList.ConstIterator_predec b (Examples.list_heap, Examples.list_a) =
      Throw out_of_range (Examples.list_heap, Examples.list_a) ∧
    LinkedList.ConstIterator_predec e (Examples.list_heap, Examples.list_a) =
      Ret (LinkedList.mkIt (Some 5%positive)) (Examples.list_heap, Examples.list_a).
Proof.
  destruct (X7_list_cursor_bounds Z _ _ _ list_a_ok)
    as (b & e & Hb & _ & _ & _ & Hdec & _ & Hlast).
  destruct (Hlast [(3%positive, 10); (4%positive, 20)] 5%positive 30 eq_refl) as [Hpred _].
  exists b, e. split; [exact Hb|]. split; [exact Hdec|exact Hpred].
Defined.

(** X8: a list cursor on an element dereferences to that element;
    [operator++] moves it to the next element, or to [end()] from the last
    one, and [operator--] brings it back, so each of the two undoes the
    other.  The post-increment and the post-decrement of [Iterator] return
    the position they start from and make the same move. *)
Theorem X8_list_cursor_steps :
  ∀ (T : Type) (h : gmap positive (@LinkedList.Node T)) l n1 a x n2 it,
    LinkedList.is_list h l (n1 ++ (a, x) :: n2) → LinkedList.currentNode it = Some a →
    let next := LinkedList.mkIt (head (n2.*1 ++ [LinkedList.lastGuard l])) in
    LinkedList.ConstIterator_deref it (h, l) = Ret x (h, l) ∧
    LinkedList.ConstIterator_preinc it (h, l) = Ret next (h, l) ∧
    LinkedList.ConstIterator_predec next (h, l) = Ret it (h, l) ∧
    LinkedList.Iterator_postinc it (h, l) = Ret (it, next) (h, l) ∧
    LinkedList.Iterator_postdec next (h, l) = Ret (next, it) (h, l) ∧
    (it' <- LinkedList.ConstIterator_preinc it ;; LinkedList.ConstIterator_predec it') (h, l) =
      Ret it (h, l) ∧
    (it' <- LinkedList.ConstIterator_predec next ;; LinkedList.ConstIterator_preinc it') (h, l) =
      Ret next (h, l).
Proof.
  intros T h l n1 a x n2 it Hl Hit next.
  assert (LinkedList.ConstIterator_preinc it (h, l) = Ret next (h, l)) as Hinc
    by (by apply (ListFacts.list_preinc_at h l n1 a x n2)).
  assert (LinkedList.ConstIterator_predec next (h, l) = Ret it (h, l)) as Hdec.
  { rewrite (ListFacts.list_predec_spec h l (n1 ++ [(a, x)]) n2).
    - rewrite fmap_app. cbn [fmap list_fmap fst]. rewrite last_snoc.
      destruct it. cbn in Hit. by subst.
    - by rewrite <- app_assoc.
    - by destruct n1.
    - done. }
  split; [by apply (ListFacts.list_deref_at h l n1 a x n2)|].
  split; [done|]. split; [done|].
  split; [unfold LinkedList.Iterator_postinc, bind; by rewrite Hinc|].
  split; [unfold LinkedList.Iterator_postdec, bind; by rewrite Hdec|].
  split; [by apply (ListFacts.list_preinc_predec h l n1 a x n2)|].
  by apply (ListFacts.list_predec_preinc h l n1 a x n2).
Qed.

Lemma X8_list_cursor_steps_witness :
  let s := (Examples.list_heap, Examples.list_a) in
  LinkedList.ConstIterator_deref (LinkedList.mkIt (Some 4%positive)) s = Ret 20 s ∧
  LinkedList.ConstIterator_preinc (LinkedList.mkIt (Some 4%positive)) s =
    Ret (LinkedList.mkIt (Some 5%positive)) s ∧
  LinkedList.ConstIterator_predec (LinkedList.mkIt (Some 5%positive)) s =
    Ret (LinkedList.mkIt (Some 4%positive)) s.
Proof.
  destruct (X8_list_cursor_steps Z Examples.list_heap Examples.list_a
              [(3%positive, 10)] 4%positive 20 [(5%positive, 30)]
              (LinkedList.mkIt (Some 4%positive)) list_a_ok eq_refl)
    as (Hderef & Hinc & Hdec & _).
  split; [exact Hderef|]. split; [exact Hinc|exact Hdec].
Defined.

(** X9: on a list, [it + k] is the cursor [k] elements further on (or
    [end()]) and [- k] brings it back; an offset that is zero or negative
    leaves the cursor where it is, for [operator+] and for [operator-]
    alike, in any state of the list. *)
Theorem X9_list_cursor_offsets :
  (∀ (T : Type) (h : gmap positive (@LinkedList.Node T)) l n1 mid n2 it,
     LinkedList.is_list h l (n1 ++ mid ++ n2) →
     LinkedList.currentNode it = head (mid.*1 ++ n2.*1 ++ [LinkedList.lastGuard l]) →
     let k := Z.of_nat (length mid) in
     let there := LinkedList.mkIt (head (n2.*1 ++ [LinkedList.lastGuard l])) in
     LinkedList.ConstIterator_plus it k (h, l) = Ret there (h, l) ∧
     LinkedList.ConstIterator_minus there k (h, l) = Ret it (h, l)) ∧
  (∀ (T : Type) (s : gmap positive (@LinkedList.Node T) * LinkedList.LinkedList) it d,
     d ≤ 0 →
     LinkedList.ConstIterator_plus it d s = Ret it s ∧
     LinkedList.ConstIterator_minus it d s = Ret it s).
Proof.
  split.
  - intros T h l n1 mid n2 it Hl Hit k there. split.
    + by apply (ListFacts.list_plus_spec h l n1 mid n2).
    + unfold k. rewrite (ListFacts.list_minus_spec h l n1 mid n2) by done.
      destruct it. cbn in Hit. by subst.
  - intros T s it d Hd. by apply ListFacts.list_plus_nonpositive.
Qed.

Lemma X9_list_cursor_offsets_witness :
  let s := (Examples.list_heap, Examples.list_a) in
  LinkedList.ConstIterator_plus (LinkedList.mkIt (Some 3%positive)) 2 s =
    Ret (LinkedList.mkIt (Some 5%positive)) s ∧
  LinkedList.ConstIterator_minus (LinkedList.mkIt (Some 5%positive)) 2 s =
    Ret (LinkedList.mkIt (Some 3%positive)) s ∧
  LinkedList.ConstIterator_plus (LinkedList.mkIt (Some 4%positive)) (-1) s =
    Ret (LinkedList.mkIt (Some 4%positive)) s.
Proof.
  destruct (proj1 X9_list_cursor_offsets Z Examples.list_heap Examples.list_a
              [] [(3%positive, 10); (4%positive, 20)] [(5%positive, 30)]
              (LinkedList.mkIt (Some 3%positive)) list_a_ok eq_refl)
    as [Hplus Hminus].
  assert (-1 ≤ 0) as Hneg by (vm_compute; discriminate).
  destruct (proj2 X9_list_cursor_offsets Z (Examples.list_heap, Examples.list_a)
              (LinkedList.mkIt (Some 4%positive)) (-1) Hneg) as [Hnop _].
  split; [exact Hplus|]. split; [exact Hminus|exact Hnop].
Defined.

(** X10: on a list, [append(x)] followed by [popLast()], and [prepend(x)]
    followed by [popFirst()], return [x] and leave the list with the
    elements, the nodes and the size it had. *)
Theorem X10_list_push_then_pop :
  ∀ (T : Type) (h : gmap positive (@LinkedList.Node T)) l nodes x,
    LinkedList.is_list h l nodes → Z.of_nat (length nodes) + 1 < size_max →
    (∃ h' l',
       (LinkedList.append x ;;; LinkedList.popLast) (h, l) = Ret x (h', l') ∧
       LinkedList.is_list h' l' nodes ∧ LinkedList.size l' = LinkedList.size l) ∧
    (∃ h' l',
       (LinkedList.prepend x ;;; LinkedList.popFirst) (h, l) = Ret x (h', l') ∧
       LinkedList.is_list h' l' nodes ∧ LinkedList.size l' = LinkedList.size l).
Proof.
  intros T h l nodes x Hl Hlen. split.
  - by apply ListFacts.list_append_popLast.
  - by apply ListFacts.list_prepend_popFirst.
Qed.

Lemma X10_list_push_then_pop_witness :
  ∃ h' l',
    (LinkedList.append 7 ;;; LinkedList.popLast) (Examples.list_heap, Examples.list_a) =
      Ret 7 (h', l') ∧
    LinkedList.is_list h' l' Examples.nodes_a.
Proof.
  assert (Z.of_nat (length Examples.nodes_a) + 1 < size_max) as Hlen by (vm_compute; reflexivity).
  destruct (X10_list_push_then_pop Z _ _ _ 7 list_a_ok Hlen) as [(h' & l' & Hrun & Hl & _) _].
  exists h', l'. split; [exact Hrun|exact Hl].
Defined.

(** ** The array: construction, insertion, copies and memory *)

(** X11: [Vector(initialCapacity)] returns in any memory with an empty
    array that owns a new buffer of [initialCapacity] slots, and
    [Vector(std::initializer_list)] with an array that holds the items in
    their order in a new buffer of exactly as many slots; the rest of the
    memory is left as it was. *)
Theorem X11_vector_constructors :
  ∀ (T : Type) `(Inhabited T) (h : gmap positive (list T)),
    (∀ c, 0 ≤ c < size_max →
       ∃ h' v, Vector.Vector_ctor c h = Ret v h' ∧ Vector.owns h h' v [] ∧
               Vector.size v = 0 ∧ Vector.capacity v = c) ∧
    (∀ l, Z.of_nat (length l) < size_max →
       ∃ h' v, Vector.Vector_ilist_ctor l h = Ret v h' ∧ Vector.owns h h' v l ∧
               Vector.size v = Z.of_nat (length l) ∧
               Vector.capacity v = Z.of_nat (length l)).
Proof.
  intros T HT h. split.
  - intros c Hc. destruct (VectorFacts.Vector_ctor_owns h c Hc) as (h' & v & Hrun & Hown & Hcap).
    pose proof Hown as [(_ & _ & _ & _ & _ & Hsz & _) _].
    by exists h', v.
  - intros l Hlen.
    destruct (VectorFacts.Vector_ilist_ctor_spec h l Hlen) as (h' & v & Hrun & Hown & Hcap).
    pose proof Hown as [(_ & _ & _ & _ & _ & Hsz & _) _].
    by exists h', v.
Qed.

Lemma X11_vector_constructors_witness :
  ∃ h' v,
    Vector.Vector_ilist_ctor [1; 2; 3] (∅ : gmap positive (list Z)) = Ret v h' ∧
    Vector.is_vector h' v [1; 2; 3] ∧ Vector.capacity v = 3.
Proof.
  assert (Z.of_nat (length [1; 2; 3]) < size_max) as H3 by (vm_compute; reflexivity).
  destruct (proj2 (X11_vector_constructors Z _ ∅) [1; 2; 3] H3)
    as (h' & v & Hrun & [Hv _] & _ & Hcap).
  exists h', v. split; [exact Hrun|]. split; [exact Hv|exact Hcap].
Defined.





(** X14: [Vector(const Vector &other)] makes a deep copy: it returns with
    a new array that holds the elements of [other] in their order, in a new
    buffer with the capacity of [other]; [other] keeps its buffer, size and
    capacity, and the rest of the memory is left as it was. *)
Theorem X14_vector_copy_constructor :
  ∀ (T : Type) `(Inhabited T) (h : gmap positive (list T)) other xs,
    Vector.is_vector h other xs →
    ∃ h' v other',
      Vector.Vector_copy_ctor other h = Ret (v, other') h' ∧
      Vector.owns h h' v xs ∧ Vector.capacity v = Vector.capacity other ∧
      Vector.is_vector h' other' xs ∧
      Vector.elements other' = Vector.elements other ∧
      Vector.size other' = Vector.size other ∧
      Vector.capacity other' = Vector.capacity other.
Proof. intros T HT h other xs Ho. by apply VectorFacts.Vector_copy_ctor_spec. Qed.

Lemma X14_vector_copy_constructor_witness :
  ∃ h' v other',
    Vector.Vector_copy_ctor Examples.vector_a Examples.vector_heap = Ret (v, other') h' ∧
    Vector.is_vector h' v [10; 20; 30] ∧ Vector.capacity v = 5 ∧
    Vector.is_vector h' other' [10; 20; 30].
Proof.
  destruct (X14_vector_copy_constructor Z _ _ _ _ vector_a_ok)
    as (h' & v & other' & Hrun & [Hv _] & Hc & Ho & _).
  exists h', v, other'. split; [exact Hrun|]. split; [exact Hv|]. split; [exact Hc|exact Ho].
Defined.

(** X15: [operator=(const Vector &other)] between two different arrays
    returns with the target holding the elements of [other] in their order,
    in a buffer of its own; its capacity is the size of [other] when that is
    more than it had, and what it had otherwise.  [other] keeps its buffer,
    size and capacity. *)
Theorem X15_vector_copy_assignment :
  ∀ (T : Type) `(Inhabited T) (h : gmap positive (list T)) v ys other xs,
    Vector.is_vector h v ys → Vector.is_vector h other xs →
    Vector.elements v ≠ Vector.elements other →
    ∃ h' v' other',
      Vector.copy_assign other (h, v) = Ret other' (h', v') ∧
      Vector.is_vector h' v' xs ∧
      Vector.capacity v' = (if decide (Vector.capacity v < Vector.size other)
                            then Vector.size other else Vector.capacity v) ∧
      Vector.is_vector h' other' xs ∧
      Vector.elements other' = Vector.elements other ∧
      Vector.size other' = Vector.size other ∧
      Vector.capacity other' = Vector.capacity other ∧
      Vector.elements v' ≠ Vector.elements other'.
Proof.
  intros T HT h v ys other xs Hv Ho Hne. by apply (VectorFacts.vector_copy_assign_spec h v ys).
Qed.

Lemma X15_vector_copy_assignment_witness :
  ∃ h' v' other',
    Vector.copy_assign Examples.vector_a (Examples.vector_heap, Examples.vector_b) =
      Ret other' (h', v') ∧
    Vector.is_vector h' v' [10; 20; 30] ∧ Vector.capacity v' = 3.
Proof.
  assert (Vector.elements Examples.vector_b ≠ Vector.elements Examples.vector_a) as Hne
    by discriminate.
  destruct (X15_vector_copy_assignment Z _ _ _ _ _ _ vector_b_ok vector_a_ok Hne)
    as (h' & v' & other' & Hrun & Hv & Hc & _).
  exists h', v', other'. split; [exact Hrun|]. split; [exact Hv|exact Hc].
Defined.

(** X16: an array touches no memory but its own buffer.  When the memory
    is some memory [h0] and, apart from it, the buffer of the array, then
    after any public call on the array or on one of its cursors that
    returns, with any arguments, the memory is again [h0] and the buffer of
    the array, which may be a new one; a call that throws leaves everything
    as it was; and the destructor of a well-formed array gives back exactly
    [h0]. *)
Theorem X16_vector_memory :
  ∀ (T : Type) `(Inhabited T) (h0 h : gmap positive (list T)) v,
    Vector.apart h0 h v →
    (∀ op r h' v', Vector.run op (h, v) = Ret r (h', v') → Vector.apart h0 h' v') ∧
    (∀ op e s', Vector.run op (h, v) = Throw e s' → s' = (h, v)) ∧
    (∀ xs, Vector.is_vector h v xs → Vector.Vector_dtor (h, v) = Ret tt (h0, v)).
Proof.
  intros T HT h0 h v Ha. split; [|split].
  - intros op r h' v' Hrun.
    apply (wp_Ret _ _ _ _ _ _ (VectorFacts.wp_run_apart h0 op h v Ha) Hrun).
  - intros op e s' Hrun.
    apply (wp_Throw _ _ _ _ _ _ (VectorFacts.wp_run_apart h0 op h v Ha) Hrun).
  - intros xs Hv. by apply (VectorFacts.vector_owns_dtor h0 h v xs).
Qed.

Lemma X16_vector_memory_witness :
  Vector.Vector_dtor (Examples.vector_heap, Examples.vector_b) =
    Ret tt (delete 2%positive Examples.vector_heap, Examples.vector_b).
Proof.
  assert (Vector.apart (delete 2%positive Examples.vector_heap) Examples.vector_heap
            Examples.vector_b) as Ha.
  { exists 2%positive. split; [reflexivity|]. split; [apply lookup_delete_eq|reflexivity]. }
  exact (proj2 (proj2 (X16_vector_memory Z _ _ _ _ Ha)) _ vector_b_ok).
Defined.

(** ** The array: cursors, moved-from arrays and round trips *)

(** X17: the cursors of a traversal of an array.  The cursor on slot [k]
    is tagged BEGIN at slot zero, END at the slot after the last element and
    REGULAR in between.  [begin()] is the cursor on slot zero and
    decrementing it throws out_of_range; a cursor on an element dereferences
    to that element, [operator++] moves it to the next slot and
    [operator--] brings it back. *)
Theorem X17_vector_cursor_steps :
  ∀ (T : Type) `(Inhabited T) (h : gmap positive (list T)) v xs,
    Vector.is_vector h v xs →
    let on (k : nat) :=
      Vector.mkIt (Vector.ptr_add (Vector.elements v) (Z.of_nat k))
                  (if decide (k = 0%nat) then Vector.BEGIN
                   else if decide (Z.of_nat k >= Vector.size v) then Vector.END
                        else Vector.REGULAR) in
    Vector.begin (h, v) = Ret (on 0%nat) (h, v) ∧
    Vector.ConstIterator_predec (on 0%nat) (h, v) = Throw out_of_range (h, v) ∧
    (∀ (i : nat) x, xs !! i = Some x →
       Vector.ConstIterator_deref (on i) (h, v) = Ret x (h, v) ∧
       Vector.ConstIterator_preinc (on i) (h, v) = Ret (on (S i)) (h, v) ∧
       Vector.ConstIterator_predec (on (S i)) (h, v) = Ret (on i) (h, v)).
Proof.
  intros T HT h v xs Hv on.
  pose proof Hv as (b & buf & Hel & Hb & Hcap & Hsz & Hpre & Hmax & Hnd).
  destruct (VectorFacts.is_vector_bounds _ _ _ Hv) as [Hbd _].
  split; [|split].
  - rewrite VectorFacts.begin_run. unfold on. cbn. by rewrite VectorFacts.ptr_add_0.
  - by apply VectorFacts.vector_predec_begin.
  - intros i x Hx. apply lookup_lt_Some in Hx as Hi.
    assert (Vector.isEnd (on i) = false) as Hne.
    { unfold on, Vector.isEnd. cbn. apply bool_decide_eq_false_2.
      repeat case_decide; (done || lia). }
    assert (Vector.at_index v (on i) i) as Hat by done.
    split; [by apply (VectorFacts.vector_deref_at h v xs (on i) i x)|]. split.
    + etrans; [apply (VectorFacts.vector_preinc_at h v (on i) i b); (done || lia)|].
      unfold on. rewrite Hel. cbn [Vector.ptr_add]. rewrite Z.add_0_l.
      rewrite (decide_False (P := S i = 0%nat)) by done.
      by case_decide.
    + etrans; [apply (VectorFacts.vector_predec_at h v (on (S i)) i b); [done|done|]|].
      * unfold on, Vector.isBegin. cbn [Vector.iteratorType].
        rewrite (decide_False (P := S i = 0%nat)) by done.
        apply bool_decide_eq_false_2. by case_decide.
      * unfold on. rewrite Hel. cbn [Vector.ptr_add]. rewrite Z.add_0_l.
        case_decide; [done|]. by rewrite decide_False by lia.
Qed.

Lemma X17_vector_cursor_steps_witness :
  Vector.ConstIterator_preinc (Vector.mkIt (Vector.Ptr 1%positive 2) Vector.REGULAR)
    (Examples.vector_heap, Examples.vector_a) =
    Ret (Vector.mkIt (Vector.Ptr 1%positive 3) Vector.END)
        (Examples.vector_heap, Examples.vector_a) ∧
  Vector.ConstIterator_predec (Vector.mkIt (Vector.Ptr 1%positive 1) Vector.REGULAR)
    (Examples.vector_heap, Examples.vector_a) =
    Ret (Vector.mkIt (Vector.Ptr 1%positive 0) Vector.BEGIN)
        (Examples.vector_heap, Examples.vector_a).
Proof.
  pose proof (X17_vector_cursor_steps Z _ _ _ _ vector_a_ok) as (_ & _ & Hsteps).
  destruct (Hsteps 2%nat 30 eq_refl) as (_ & Hinc & _).
  destruct (Hsteps 0%nat 10 eq_refl) as (_ & _ & Hdec).
  split; [exact Hinc|exact Hdec].
Defined.

(** X18: the cursor operations of an array reject a cursor by its tag
    alone.  Whatever the slot it is on and whatever the state of the array,
    dereferencing and incrementing a cursor throw exactly when its tag is
    END, and decrementing it throws exactly when its tag is BEGIN; the
    exception is out_of_range and the array is left as it was.  So a cursor
    tagged END throws even on an element, and a REGULAR cursor never
    throws, on the slot after the last element or on slot zero either. *)
Theorem X18_vector_cursor_errors :
  ∀ (T : Type) `(Inhabited T) (it : Vector.ConstIterator)
    (s : gmap positive (list T) * Vector.Vector) e s',
    (Vector.ConstIterator_deref it s = Throw e s' ↔
     Vector.iteratorType it = Vector.END ∧ e = out_of_range ∧ s' = s) ∧
    (Vector.ConstIterator_preinc it s = Throw e s' ↔
     Vector.iteratorType it = Vector.END ∧ e = out_of_range ∧ s' = s) ∧
    (Vector.ConstIterator_predec it s = Throw e s' ↔
     Vector.iteratorType it = Vector.BEGIN ∧ e = out_of_range ∧ s' = s).
Proof.
  intros T HT it s e s'.
  assert (Vector.isEnd it = true ↔ Vector.iteratorType it = Vector.END) as Hend
    by apply bool_decide_eq_true.
  assert (Vector.isBegin it = true ↔ Vector.iteratorType it = Vector.BEGIN) as Hbegin
    by apply bool_decide_eq_true.
  rewrite <- Hend, <- Hbegin. split; [|split].
  - split.
    + destruct (Vector.isEnd it) eqn:Hit.
      * rewrite VectorFacts.deref_end by done. by intros [= <- <-].
      * intros Hthrow. by apply VectorFacts.deref_no_throw in Hthrow.
    + intros (Hit & -> & ->). by apply VectorFacts.deref_end.
  - split.
    + destruct (Vector.isEnd it) eqn:Hit.
      * rewrite VectorFacts.preinc_end by done. by intros [= <- <-].
      * intros Hthrow. by apply VectorFacts.preinc_no_throw in Hthrow.
    + intros (Hit & -> & ->). by apply VectorFacts.preinc_end.
  - split.
    + destruct (Vector.isBegin it) eqn:Hit.
      * rewrite VectorFacts.vector_predec_begin by done. by intros [= <- <-].
      * unfold Vector.ConstIterator_predec, Vector.throwIfBegin. rewrite Hit.
        unfold bind, ret, Vector.this. discriminate.
    + intros (Hit & -> & ->). by apply VectorFacts.vector_predec_begin.
Qed.

Lemma X18_vector_cursor_errors_witness :
  Vector.ConstIterator_deref (Vector.mkIt (Vector.Ptr 1%positive 1) Vector.END)
    (Examples.vector_heap, Examples.vector_a) =
    Throw out_of_range (Examples.vector_heap, Examples.vector_a) ∧
  Vector.ConstIterator_preinc (Vector.mkIt (Vector.Ptr 1%positive 3) Vector.REGULAR)
    (Examples.vector_heap, Examples.vector_a) ≠
    Throw out_of_range (Examples.vector_heap, Examples.vector_a) ∧
  Vector.ConstIterator_predec (Vector.mkIt (Vector.Ptr 1%positive 0) Vector.REGULAR)
    (Examples.vector_heap, Examples.vector_a) ≠
    Throw out_of_range (Examples.vector_heap, Examples.vector_a).
Proof.
  split; [|split].
  - apply (X18_vector_cursor_errors Z _
             (Vector.mkIt (Vector.Ptr 1%positive 1) Vector.END)
             (Examples.vector_heap, Examples.vector_a) out_of_range
             (Examples.vector_heap, Examples.vector_a)).
    split; [reflexivity|]. split; reflexivity.
  - intros Hthrow.
    apply (X18_vector_cursor_errors Z _
             (Vector.mkIt (Vector.Ptr 1%positive 3) Vector.REGULAR)) in Hthrow.
    destruct Hthrow as [Htag _]. discriminate Htag.
  - intros Hthrow.
    apply (X18_vector_cursor_errors Z _
             (Vector.mkIt (Vector.Ptr 1%positive 0) Vector.REGULAR)) in Hthrow.
    destruct Hthrow as [Htag _]. discriminate Htag.
Defined.

(** X19: an array that was moved from cannot take an element again.  The
    move leaves it with no buffer and with the capacity it had, so
    [append], [prepend] and [insert] on it write where there is no slot:
    the call has undefined behaviour. *)
Theorem X19_vector_moved_from_takes_no_element :
  ∀ (T : Type) `(Inhabited T) (h : gmap positive (list T)) other xs x it,
    Vector.is_vector h other xs →
    ∃ a other',
      Vector.Vector_move_ctor other h = Ret (a, other') h ∧
      Vector.append x (h, other') = Fault ∧
      Vector.prepend x (h, other') = Fault ∧
      Vector.insert it x (h, other') = Fault.
Proof.
  intros T HT h other xs x it Ho.
  destruct (VectorFacts.is_vector_bounds _ _ _ Ho) as [Hbd _].
  eexists _, _. split; [apply VectorFacts.Vector_move_ctor_run|].
  apply VectorFacts.moved_from_refill. lia.
Qed.

Lemma X19_vector_moved_from_takes_no_element_witness :
  ∃ a other',
    Vector.Vector_move_ctor Examples.vector_a Examples.vector_heap =
      Ret (a, other') Examples.vector_heap ∧
    Vector.append 7 (Examples.vector_heap, other') = Fault.
Proof.
  destruct (X19_vector_moved_from_takes_no_element Z _ _ _ _ 7
              (Vector.mkIt Vector.nullptr Vector.END) vector_a_ok)
    as (a & other' & Hrun & Happ & _).
  exists a, other'. split; [exact Hrun|exact Happ].
Defined.



(** ** main.cpp *)

(** X21: [testAppend<vector>(n)] and [testPrepend<vector>(n)] return for
    every [long long n], given the memory the array asks for, and leave the
    memory exactly as they found it: the array is built, takes the items
    [0 .. n-1] with every reallocation on the way, and its last buffer is
    freed at the end of the function. *)
Theorem X21_main_vector_runs :
  ∀ (n : Z) (h : gmap positive (list Z)),
    n < 2 ^ 63 →
    Main.testAppend_vector n h = Ret tt h ∧ Main.testPrepend_vector n h = Ret tt h.
Proof.
  intros n h Hn. split.
  - by apply MainFacts.testAppend_vector_run.
  - by apply MainFacts.testPrepend_vector_run.
Qed.

Lemma X21_main_vector_runs_witness :
  Main.testAppend_vector 100 ∅ = Ret tt ∅ ∧ Main.testPrepend_vector 100 ∅ = Ret tt ∅.
Proof.
  assert (100 < 2 ^ 63) as Hn by (vm_compute; reflexivity).
  exact (X21_main_vector_runs 100 ∅ Hn).
Defined.

(** X22: [testAppend<list>(n)] and [testPrepend<list>(n)] return for every
    [long long n], given the memory the list asks for, and leave the memory
    exactly as they found it: every node the list made, the two guards
    included, is freed once at the end of the function. *)
Theorem X22_main_list_runs :
  ∀ (n : Z) (h : gmap positive (@LinkedList.Node Z)),
    n < 2 ^ 63 →
    Main.testAppend_list n h = Ret tt h ∧ Main.testPrepend_list n h = Ret tt h.
Proof.
  intros n h Hn. split.
  - by apply MainFacts.testAppend_list_run.
  - by apply MainFacts.testPrepend_list_run.
Qed.

Lemma X22_main_list_runs_witness :
  Main.testAppend_list 100 ∅ = Ret tt ∅ ∧ Main.testPrepend_list 100 ∅ = Ret tt ∅.
Proof.
  assert (100 < 2 ^ 63) as Hn by (vm_compute; reflexivity).
  exact (X22_main_list_runs 100 ∅ Hn).
Defined.

(** ** Both containers: traversal *)

(** X23: the loop of a client that walks a container from [begin()] until
    the cursor equals [end()], dereferencing and incrementing the cursor at
    every turn, ends and yields the elements in their order.  On a list it
    leaves the list and the memory exactly as they were; on an array it
    leaves the memory as it was and the array with the same elements, size
    and capacity. *)
Theorem X23_traversal :
  (∀ (T : Type) (h : gmap positive (@LinkedList.Node T)) l nodes fuel,
     LinkedList.is_list h l nodes → (length nodes < fuel)%nat →
     LinkedList.to_list fuel (h, l) = Ret (Some nodes.*2) (h, l)) ∧
  (∀ (T : Type) `(Inhabited T) (h : gmap positive (list T)) v xs fuel,
     Vector.is_vector h v xs → (length xs < fuel)%nat →
     ∃ v', Vector.to_list fuel (h, v) = Ret (Some xs) (h, v') ∧
           Vector.is_vector h v' xs ∧
           Vector.size v' = Vector.size v ∧ Vector.capacity v' = Vector.capacity v).
Proof.
  split.
  - intros T h l nodes fuel Hl Hfuel. by apply ListFacts.list_to_list_spec.
  - intros T HT h v xs fuel Hv Hfuel. by apply VectorFacts.vector_to_list_spec.
Qed.

Lemma X23_traversal_witness :
  LinkedList.to_list 4 (Examples.list_heap, Examples.list_a) =
    Ret (Some [10; 20; 30]) (Examples.list_heap, Examples.list_a) ∧
  ∃ v', Vector.to_list 3 (Examples.vector_heap, Examples.vector_b) =
          Ret (Some [40; 50]) (Examples.vector_heap, v').
Proof.
  assert (length Examples.nodes_a < 4)%nat as Ha by (vm_compute; lia).
  assert (length [40; 50] < 3)%nat as Hb by (vm_compute; lia).
  split.
  - exact (proj1 X23_traversal Z _ _ _ 4%nat list_a_ok Ha).
  - destruct (proj2 X23_traversal Z _ _ _ _ 3%nat vector_b_ok Hb) as (v' & Hrun & _).
    exists v'. exact Hrun.
Defined.

(** X24: on a list and on an array alike, [begin()] equals [end()] exactly
    when the container holds no element, and that is what [isEmpty()]
    returns. *)
Theorem X24_begin_is_end_when_empty :
  (∀ (T : Type) (h : gmap positive (@LinkedList.Node T)) l nodes,
     LinkedList.is_list h l nodes →
     ∃ b e,
       LinkedList.cbegin (h, l) = Ret b (h, l) ∧ LinkedList.cend (h, l) = Ret e (h, l) ∧
       LinkedList.isEmpty (h, l) = Ret (LinkedList.it_eq b e) (h, l) ∧
       (LinkedList.it_eq b e = true ↔ nodes = [])) ∧
  (∀ (T : Type) `(Inhabited T) (h : gmap positive (list T)) v xs,
     Vector.is_vector h v xs →
     ∃ b e v',
       Vector.begin (h, v) = Ret b (h, v) ∧ Vector.end_ (h, v) = Ret e (h, v') ∧
       Vector.isEmpty (h, v) = Ret (Vector.it_eq b e) (h, v) ∧
       (Vector.it_eq b e = true ↔ xs = [])).
Proof.
  split.
  - intros T h l nodes Hl.
    pose proof Hl as (Hnd & _ & _ & _ & _ & Hsz & _ & Hend).
    exists (LinkedList.mkIt (head (nodes.*1 ++ [LinkedList.lastGuard l]))),
           (LinkedList.endIterator l).
    split; [by apply ListFacts.cbegin_run|]. split; [done|].
    unfold LinkedList.isEmpty, LinkedList.this, bind, ret. cbn [snd].
    rewrite Hend. unfold LinkedList.it_eq. cbn [LinkedList.currentNode].
    destruct nodes as [|[a x] rest].
    + cbn. rewrite !bool_decide_eq_true_2 by done. done.
    + apply ListFacts.NoDup_path in Hnd as (_ & _ & Hlg & _).
      assert (a ≠ LinkedList.lastGuard l) as Hne.
      { intros ->. apply Hlg. cbn. apply elem_of_cons. by left. }
      cbn [fmap list_fmap fst app head length] in *.
      rewrite !bool_decide_eq_false_2; [done| |lia].
      intros [=]. done.
  - intros T HT h v xs Hv.
    pose proof Hv as (blk & buf & Hel & _ & _ & Hsz & _ & _ & Htag).
    destruct (decide (Vector.size v = 0)) as [Hz|Hnz].
    + exists (Vector.mkIt (Vector.elements v) Vector.BEGIN),
             (Vector.mkIt (Vector.elements v) Vector.END), v.
      split; [apply VectorFacts.begin_run|]. split; [by apply VectorFacts.end_empty|].
      unfold Vector.isEmpty, Vector.this, bind, ret, Vector.it_eq. cbn.
      rewrite !bool_decide_eq_true_2 by done. split; [done|].
      destruct xs; [done|]. cbn in Hsz. lia.
    + exists (Vector.mkIt (Vector.elements v) Vector.BEGIN),
             (Vector.pastTheEnd (Vector.with_end v)), (Vector.with_end v).
      split; [apply VectorFacts.begin_run|]. split; [by apply VectorFacts.end_nonempty|].
      assert (Vector.it_eq (Vector.mkIt (Vector.elements v) Vector.BEGIN)
                (Vector.pastTheEnd (Vector.with_end v)) = false) as ->.
      { unfold Vector.it_eq, Vector.isEnd. cbn. rewrite Hel. cbn [Vector.ptr_add].
        apply bool_decide_eq_false_2. intros [=]. lia. }
      unfold Vector.isEmpty, Vector.this, bind, ret. cbn [snd].
      rewrite bool_decide_eq_false_2 by done.
      split; [done|]. split; [done|]. intros ->. cbn in Hsz. lia.
Qed.

Lemma X24_begin_is_end_when_empty_witness :
  (∃ b e, LinkedList.cbegin (Examples.list_heap, Examples.list_c) =
            Ret b (Examples.list_heap, Examples.list_c) ∧
          LinkedList.cend (Examples.list_heap, Examples.list_c) =
            Ret e (Examples.list_heap, Examples.list_c) ∧
          LinkedList.it_eq b e = true) ∧
  (∃ b e v', Vector.begin (Examples.vector_heap, Examples.vector_a) =
               Ret b (Examples.vector_heap, Examples.vector_a) ∧
             Vector.end_ (Examples.vector_heap, Examples.vector_a) =
               Ret e (Examples.vector_heap, v') ∧
             Vector.isEmpty (Examples.vector_heap, Examples.vector_a) =
               Ret (Vector.it_eq b e) (Examples.vector_heap, Examples.vector_a)).
Proof.
  split.
  - destruct (proj1 X24_begin_is_end_when_empty Z _ _ _ list_c_ok)
      as (b & e & Hb & He & _ & Heq).
    exists b, e. split; [exact Hb|]. split; [exact He|]. apply Heq. reflexivity.
  - destruct (proj2 X24_begin_is_end_when_empty Z _ _ _ _ vector_a_ok)
      as (b & e & v' & Hb & He & Hemp & _).
    exists b, e, v'. split; [exact Hb|]. split; [exact He|exact Hemp].
Defined.
